(** * The monster turn engine of src/monster/melee2.c

    A shallow embedding of the monster AI routines (spell casting decision,
    flight test, melee blow dispatcher, per-monster process pass and turn
    scheduler) together with the properties the specification states about
    them.

    Conventions.
    - C [int] values are integers [Z]; the fixed-width locals of the source
      ([u16b], [u32b]) are wrapped explicitly with [u16b] and [u32b].
    - C truth values of integers are tested with [nz] (non-zero).
    - C integer division truncates towards zero: [Z.quot].
    - The memory this file reads and writes directly (fields of the player,
      the monsters, the lore and the cave grids) is the record [game].
    - Every service defined elsewhere in the game is reached through one
      handler [ext]; each call is recorded, with the state it was issued in,
      in the trace of the [world]. *)

From Stdlib Require Import ZArith Lia List Bool String.
From stdpp Require Import base list list_numbers.
Import ListNotations.
Local Open Scope Z_scope.

(** ** C integers *)

Definition u16b (x : Z) : Z := x mod 2 ^ 16.
Definition u32b (x : Z) : Z := x mod 2 ^ 32.

(** Truth value of a C integer. *)
Definition nz (x : Z) : bool := negb (x =? 0).

(** [MIN] and [MAX] macros. *)
Definition MIN (a b : Z) : Z := if a <? b then a else b.
Definition MAX (a b : Z) : Z := if a >? b then a else b.

Definition MAX_UCHAR : Z := 255.
Definition MAX_SHORT : Z := 32767.
Definition MONSTER_BLOW_MAX : nat := 4.

(** ** Enumerations *)

(** Race flags named in this file; [RF_OTHER] stands for the remaining
    flags of the race flag table (slay vulnerabilities and the like). *)
Inductive rflag : Type :=
  | RF_STUPID | RF_SMART | RF_EVIL | RF_MULTIPLY
  | RF_NEVER_BLOW | RF_NEVER_MOVE | RF_RAND_25 | RF_RAND_50
  | RF_PASS_WALL | RF_KILL_WALL | RF_OPEN_DOOR | RF_BASH_DOOR
  | RF_KILL_BODY | RF_MOVE_BODY | RF_TAKE_ITEM | RF_KILL_ITEM
  | RF_HAS_LIGHT
  | RF_OTHER (n : Z).

#[global] Instance rflag_eq_dec : EqDecision rflag.
Proof. solve_decision. Defined.

(** Monster timed effects ([MON_TMD_*]). *)
Inductive mon_tmd : Type :=
  | MON_TMD_SLEEP | MON_TMD_STUN | MON_TMD_CONF
  | MON_TMD_FEAR | MON_TMD_SLOW | MON_TMD_FAST.

#[global] Instance mon_tmd_eq_dec : EqDecision mon_tmd.
Proof. solve_decision. Defined.

(** Player timed effects ([TMD_*]) used by the blow handlers. *)
Inductive tmd : Type :=
  | TMD_BLIND | TMD_PARALYZED | TMD_PROTEVIL | TMD_POISONED | TMD_CONFUSED
  | TMD_AFRAID | TMD_IMAGE | TMD_CUT | TMD_STUN.

#[global] Instance tmd_eq_dec : EqDecision tmd.
Proof. solve_decision. Defined.

(** Object flags ([OF_*]) and projection types ([GF_*]) passed to services. *)
Inductive oflag : Type :=
  | OF_HOLD_LIFE | OF_RES_DISEN | OF_RES_BLIND | OF_RES_CONFU | OF_RES_FEAR
  | OF_FREE_ACT | OF_AGGRAVATE | OF_NO_FUEL.

Inductive gf : Type :=
  | GF_ACID | GF_ELEC | GF_FIRE | GF_COLD | GF_POIS | GF_DISEN | GF_CHAOS.

Inductive stat : Type := A_STR | A_INT | A_WIS | A_DEX | A_CON.

(** Blow effects, in the order of the handler table. *)
Inductive blow_effect : Type :=
  | RBE_NONE | RBE_HURT | RBE_POISON | RBE_UN_BONUS | RBE_UN_POWER
  | RBE_EAT_GOLD | RBE_EAT_ITEM | RBE_EAT_FOOD | RBE_EAT_LIGHT
  | RBE_ACID | RBE_ELEC | RBE_FIRE | RBE_COLD
  | RBE_BLIND | RBE_CONFUSE | RBE_TERRIFY | RBE_PARALYZE
  | RBE_LOSE_STR | RBE_LOSE_INT | RBE_LOSE_WIS | RBE_LOSE_DEX
  | RBE_LOSE_CON | RBE_LOSE_ALL | RBE_SHATTER
  | RBE_EXP_10 | RBE_EXP_20 | RBE_EXP_40 | RBE_EXP_80 | RBE_HALLU.

#[global] Instance blow_effect_eq_dec : EqDecision blow_effect.
Proof. solve_decision. Defined.

(** Object types ([TV_*]) and origins the file distinguishes. *)
Inductive tval_t : Type :=
  | TV_STAFF | TV_WAND | TV_GOLD | TV_FOOD | TV_OTHER (n : Z).

#[global] Instance tval_eq_dec : EqDecision tval_t.
Proof. solve_decision. Defined.

Inductive origin_t : Type := ORIGIN_STOLEN | ORIGIN_OTHER (n : Z).

(** Flags of the monster timed-effect services; [MON_TMD_FLG_NONE] is the
    literal 0. *)
Inductive tmd_flg : Type :=
  | MON_TMD_FLG_NONE | MON_TMD_FLG_NOTIFY | MON_TMD_FLG_NOMESSAGE.

(** Bits of the player's [redraw], [notice] and [update] words. *)
Inductive pbit : Type :=
  | PR_HEALTH | PR_INVEN | PR_GOLD | PR_EQUIP
  | PN_COMBINE | PN_REORDER
  | PU_UPDATE_VIEW | PU_MONSTERS | PU_FORGET_FLOW | PU_UPDATE_FLOW.

#[global] Instance pbit_eq_dec : EqDecision pbit.
Proof. solve_decision. Defined.

(** ** Flag sets

    A [bitflag] array is the set of its members.  Spell flags are indexed
    by the spell number, race flags by [rflag]. *)

Definition flagset (A : Type) : Type := A -> bool.

Definition flag_on {A} `{EqDecision A} (f : flagset A) (x : A) : flagset A :=
  fun y => if decide (y = x) then true else f y.

Definition flag_off {A} `{EqDecision A} (f : flagset A) (x : A) : flagset A :=
  fun y => if decide (y = x) then false else f y.

Definition flag_wipe {A} : flagset A := fun _ => false.

(** ** Data model *)

Record monster_blow : Type := {
  method : Z;
  effect : blow_effect;
  d_dice : Z;
  d_side : Z
}.

Record monster_race : Type := {
  ridx : Z;
  level : Z;
  aaf : Z;
  mexp : Z;
  freq_innate : Z;
  freq_spell : Z;
  flags : flagset rflag;
  spell_flags : flagset Z;
  blow : list monster_blow
}.

Record monster : Type := {
  race : option monster_race;     (* NULL for a dead monster *)
  midx : Z;
  fy : Z;
  fx : Z;
  hp : Z;
  maxhp : Z;
  cdis : Z;
  energy : Z;
  m_timed : mon_tmd -> Z;
  mflag_nice : bool;              (* mflag & MFLAG_NICE *)
  mflag_view : bool;              (* mflag & MFLAG_VIEW *)
  ml : bool;
  unaware : bool;
  smart_imm_mana : bool;          (* smart & SM_IMM_MANA *)
  known_pflags : list Z
}.

Record object_type : Type := {
  kind : option Z;                (* level of the kind; NULL for an empty slot *)
  tval : tval_t;
  pval : Z;                       (* pval[DEFAULT_PVAL] *)
  number : Z;
  timeout : Z;
  artifact : bool;
  origin : origin_t
}.

Record monster_lore : Type := {
  l_flags : flagset rflag;
  l_spell_flags : flagset Z;
  cast_innate : Z;
  cast_spell : Z;
  deaths : Z;
  l_blows : list Z;
  ignore : Z;
  wake : Z
}.

Record player : Type := {
  py : Z;
  px : Z;
  lev : Z;
  chp : Z;
  mhp : Z;
  au : Z;
  exp : Z;
  leaving : bool;
  is_dead : bool;
  timed : tmd -> Z;
  ac : Z;                         (* state.ac *)
  to_a : Z;                       (* state.to_a *)
  noise : Z;                      (* state.noise *)
  skill_save : Z;                 (* state.skills[SKILL_SAVE] *)
  dex_safe : Z;                   (* adj_dex_safe[state.stat_ind[A_DEX]] *)
  inventory : list object_type;
  health_who : Z;                 (* index of the tracked monster *)
  pbits : flagset pbit            (* redraw | notice | update *)
}.

(** Game options read through [OPT]. *)
Record options : Type := {
  birth_ai_learn : bool;
  birth_small_range : bool;
  disturb_near : bool
}.

(** Dereferencing [m_ptr->race]: the routines below are only entered for
    live monsters; a dead one reads as the all-zero race. *)
Definition null_race : monster_race :=
  {| ridx := 0; level := 0; aaf := 0; mexp := 0; freq_innate := 0;
     freq_spell := 0; flags := flag_wipe; spell_flags := flag_wipe;
     blow := [] |}.

Definition race_of (m : monster) : monster_race :=
  match race m with Some r => r | None => null_race end.

Definition rf_has (m : monster) (f : rflag) : bool := flags (race_of m) f.

(** Constants defined in headers outside this file. *)
Class Constants : Type := {
  MAX_SIGHT : Z;
  MAX_RANGE : Z;
  BREAK_GLYPH : Z;
  MON_MULT_ADJ : Z;
  MAX_REPRO : Z;
  MONSTER_FLOW_DEPTH : Z;
  MON_DRAIN_LIFE : Z;
  MAX_PVAL : Z;
  INVEN_PACK : Z;
  INVEN_LIGHT : Z;
  (* blow methods (list-blow-methods.h); RBM_NONE is 0 *)
  RBM_MAX : Z;
  RBM_INSULT : Z;
  RBM_MOAN : Z;
  (* spell numbering (list-mon-spells.h) *)
  FLAG_START : Z;
  RSF_MAX : Z;
  MIN_NONINNATE_SPELL : Z;
  RSF_HEAL : Z;
  RSF_HASTE : Z;
  RSF_TELE_TO : Z;
  RSF_DRAIN_MANA : Z;
  (* spell classes, one bit each *)
  RST_BOLT : Z;
  RST_HASTE : Z;
  RST_ANNOY : Z;
  RST_ESCAPE : Z;
  RST_HEAL : Z;
  RST_TACTIC : Z;
  RST_SUMMON : Z
}.

(** * Flight: [mon_will_run] *)

Section Flee.
Context {K : Constants}.

Definition mon_will_run (p : player) (m : monster) : bool :=
  (* Keep monsters from running too far away *)
  if cdis m >? MAX_SIGHT + 5 then false
  (* All "afraid" monsters will run away *)
  else if nz (m_timed m MON_TMD_FEAR) then true
  (* Nearby monsters will not become terrified *)
  else if cdis m <=? 5 then false
  else
    let p_lev := u16b (lev p) in
    let m_lev := u16b (level (race_of m) + Z.land (midx m) 8 + 25) in
    (* Optimize extreme cases below *)
    if m_lev >? p_lev + 4 then false
    else if m_lev + 4 <=? p_lev then true
    else
      let p_chp := u16b (chp p) in
      let p_mhp := u16b (mhp p) in
      let m_chp := u16b (hp m) in
      let m_mhp := u16b (maxhp m) in
      let p_val := u32b (p_lev * p_mhp + Z.shiftl p_chp 2) in
      let m_val := u32b (m_lev * m_mhp + Z.shiftl m_chp 2) in
      (* Strong players scare strong monsters *)
      if u32b (p_val * m_mhp) >? u32b (m_val * p_mhp) then true
      else false.

(** The decision as the specification words it, over unbounded
    integers. *)
Definition spec_m_lev (m : monster) : Z :=
  level (race_of m) + Z.land (midx m) 8 + 25.
Definition spec_p_val (p : player) : Z := lev p * mhp p + 4 * chp p.
Definition spec_m_val (m : monster) : Z := spec_m_lev m * maxhp m + 4 * hp m.

Definition spec_will_run (p : player) (m : monster) : bool :=
  if cdis m >? MAX_SIGHT + 5 then false
  else if 0 <? m_timed m MON_TMD_FEAR then true
  else if cdis m <=? 5 then false
  else spec_p_val p * maxhp m >? spec_m_val m * mhp p.

(** The values fit the fixed-width locals of the source and the two
    32-bit cross products do not wrap. *)
Record flee_in_range (p : player) (m : monster) : Prop := {
  fr_fear : 0 <= m_timed m MON_TMD_FEAR;
  fr_p_lev : 0 <= lev p < 2 ^ 16;
  fr_m_lev : 0 <= spec_m_lev m < 2 ^ 16;
  fr_p_mhp : mhp p < 2 ^ 16;
  fr_m_mhp : maxhp m < 2 ^ 16;
  fr_cross : (lev p + 8) * mhp p * maxhp m < 2 ^ 32
}.
End Flee.

(** * The game state and the services *)

(** The cave grids this file reads and writes. *)
Record cave_t : Type := {
  m_idx : Z -> Z -> Z;            (* 0 empty, >0 monster index, <0 player *)
  mark : Z -> Z -> bool;          (* info[y][x] & SQUARE_MARK *)
  feat : Z -> Z -> Z;
  when : Z -> Z -> Z;
  cost : Z -> Z -> Z
}.

(** Whatever else the game keeps (terrain, object lists, the generator
    state of the random numbers, the message queue, ...) is only reached
    through services; [Rest] is that part of the state. *)
Class Hidden : Type := { Rest : Type }.

Section State.
Context {Hd : Hidden}.

Record game : Type := {
  p_ptr : player;
  mons : list monster;            (* cave->monsters *)
  cave : cave_t;
  lore : Z -> monster_lore;       (* l_list, by race index *)
  num_repro : Z;
  opt : options;
  rest : Rest
}.

(** Services of the rest of the game.  The index is the C return type. *)
Inductive call : Type -> Type :=
  (* z-rand *)
  | Rand_div (n : Z) : call Z
  | damroll (dice sides : Z) : call Z
  | Rand_streak (n k : Z) : call Z  (* draws of randint0(n) below k in a row *)
  (* messages and interface *)
  | msg (s : string) : call unit
  | msgt (s : string) : call unit
  | bell (s : string) : call unit
  | sound (s : string) : call unit
  | disturb (stop_search : Z) : call unit
  (* player *)
  | take_hit (dam : Z) : call unit
  | player_inc_timed (t : tmd) (v : Z) (notify check : bool) : call bool
  | do_dec_stat (s : stat) (perma : bool) : call bool
  | apply_disenchant (mode : Z) : call bool
  | player_exp_lose (amount : Z) (perma : bool) : call unit
  | inven_damage (typ : gf) (perc : Z) : call unit
  | check_for_resist (typ : gf) (real : bool) : call Z
  | adjust_dam (typ : gf) (dam resist : Z) : call Z
  | check_state (f : oflag) : call bool
  | object_notice_on_defend : call unit
  | test_hit (chance ac : Z) (vis : bool) : call bool
  | inven_item_increase (item num : Z) : call unit
  | inven_item_optimize (item : Z) : call unit
  | distribute_charges (item : Z) (i_obj : object_type) : call object_type
  (* monsters *)
  | become_aware (i : Z) : call unit
  | mon_inc_timed (i : Z) (t : mon_tmd) (v : Z) (flag : tmd_flg) : call bool
  | mon_dec_timed (i : Z) (t : mon_tmd) (v : Z) (flag : tmd_flg) : call bool
  | mon_clear_timed (i : Z) (t : mon_tmd) (flag : tmd_flg) : call bool
  | monster_carry (i : Z) (o : object_type) : call Z
  | teleport_away (i : Z) (dis : Z) : call unit
  | do_mon_spell (spell : Z) (i : Z) (seen : bool) : call unit
  | multiply_monster (i : Z) : call bool
  | monster_learn_resists (i : Z) (typ : gf) : call unit
  | update_smart_learn (i : Z) (f : oflag) : call unit
  | delete_monster (y x : Z) : call unit
  | monster_swap (y1 x1 y2 x2 : Z) : call unit
  | get_moves (i : Z) : call (option (Z -> Z))
  (* cave *)
  | earthquake (cy cx r : Z) : call unit
  | square_destroy_wall (y x : Z) : call unit
  | square_set_feat (y x f : Z) : call unit
  | square_smash_door (y x : Z) : call unit
  | square_open_door (y x : Z) : call unit
  | square_remove_ward (y x : Z) : call unit
  | delete_object_idx (o : Z) : call unit.

Definition event : Type := { R : Type & call R }.
Definition ev {R} (c : call R) : event := existT R c.

(** A service call together with the state it was issued in. *)
Record entry : Type := { at_state : game; what : event }.

Record world : Type := { g : game; tr : list entry }.

(** Pure observers of the state, tables and the handler of the services. *)
Class Services : Type := {
  (* cave.c *)
  square_in_bounds : game -> Z -> Z -> bool;
  square_iswarded : game -> Z -> Z -> bool;
  square_isempty : game -> Z -> Z -> bool;
  square_ispassable : game -> Z -> Z -> bool;
  square_iswall : game -> Z -> Z -> bool;
  square_isperm : game -> Z -> Z -> bool;
  square_iscloseddoor : game -> Z -> Z -> bool;
  square_issecretdoor : game -> Z -> Z -> bool;
  square_islockeddoor : game -> Z -> Z -> bool;
  square_door_power : game -> Z -> Z -> Z;
  player_has_los_bold : game -> Z -> Z -> bool;
  distance : Z -> Z -> Z -> Z -> Z;
  los : game -> Z -> Z -> Z -> Z -> bool;
  projectable : game -> Z -> Z -> Z -> Z -> bool -> bool; (* flag: PROJECT_STOP *)
  floor_objects : game -> Z -> Z -> list (Z * object_type); (* o_idx chain *)
  (* monsters and objects *)
  is_mimicking : game -> Z -> bool;
  unset_spells : flagset Z -> list Z -> monster_race -> flagset Z;
  spell_type : Z -> Z;                         (* class mask of a spell *)
  react_to_slay : object_type -> flagset rflag;
  rf_is_inter : flagset rflag -> flagset rflag -> bool;
  object_no_fuel : object_type -> bool;        (* object_flags has NO_FUEL *)
  squelch_item_ok : game -> object_type -> bool;
  gold_kind : object_type;   (* object_prep(objkind_get(TV_GOLD, SV_GOLD)) *)
  (* tables *)
  ddd : Z -> Z;
  ddy : Z -> Z;
  ddx : Z -> Z;
  effect_power : blow_effect -> Z;             (* list-blow-effects.h *)
  blow_cuts : Z -> bool;                       (* list-blow-methods.h *)
  blow_stuns : Z -> bool;
  blow_misses : Z -> bool;
  blow_physicals : Z -> bool;
  blow_actions : Z -> option string;
  (* everything that may change the state *)
  ext : forall R, call R -> game -> R * game
}.

(** ** The state monad *)

Definition M (A : Type) : Type := world -> A * world.

Definition ret {A} (a : A) : M A := fun w => (a, w).

Definition bind {A B} (c : M A) (k : A -> M B) : M B :=
  fun w => let (a, w') := c w in k a w'.

Definition gets {A} (f : game -> A) : M A := fun w => (f (g w), w).

Definition modify (f : game -> game) : M unit :=
  fun w => (tt, {| g := f (g w); tr := tr w |}).

Definition invoke `{Services} {R} (c : call R) : M R :=
  fun w =>
    let (r, g') := ext R c (g w) in
    (r, {| g := g'; tr := tr w ++ [ {| at_state := g w; what := ev c |} ] |}).

Definition when_ (b : bool) (c : M unit) : M unit := if b then c else ret tt.

End State.

Declare Scope m_scope.
Delimit Scope m_scope with m.
Notation "x <- c ;; k" := (bind c (fun x => k))
  (at level 100, c at next level, right associativity) : m_scope.
Notation "c ;; k" := (bind c (fun _ => k))
  (at level 100, right associativity) : m_scope.
Local Open Scope m_scope.

Section Engine.
Context {K : Constants} {Hd : Hidden} {Sv : Services}.

(** ** Reading and writing the state *)

Definition dead_monster : monster :=
  {| race := None; midx := 0; fy := 0; fx := 0; hp := 0; maxhp := 0;
     cdis := 0; energy := 0; m_timed := fun _ => 0; mflag_nice := false;
     mflag_view := false; ml := false; unaware := false;
     smart_imm_mana := false; known_pflags := [] |}.

(** [cave_monster(cave, i)] *)
Definition mon (gm : game) (i : Z) : monster :=
  default dead_monster (mons gm !! Z.to_nat i).

(** [cave_monster_max(c)] *)
Definition cave_monster_max (gm : game) : Z := Z.of_nat (length (mons gm)).

Definition upd_player (f : player -> player) (gm : game) : game :=
  {| p_ptr := f (p_ptr gm); mons := mons gm; cave := cave gm;
     lore := lore gm; num_repro := num_repro gm; opt := opt gm;
     rest := rest gm |}.

Definition upd_mon (i : Z) (f : monster -> monster) (gm : game) : game :=
  {| p_ptr := p_ptr gm; mons := alter f (Z.to_nat i) (mons gm);
     cave := cave gm; lore := lore gm; num_repro := num_repro gm;
     opt := opt gm; rest := rest gm |}.

Definition upd_lore (r : Z) (f : monster_lore -> monster_lore) (gm : game)
  : game :=
  {| p_ptr := p_ptr gm; mons := mons gm; cave := cave gm;
     lore := fun r' => if r' =? r then f (lore gm r') else lore gm r';
     num_repro := num_repro gm; opt := opt gm; rest := rest gm |}.

Definition upd_cave (f : cave_t -> cave_t) (gm : game) : game :=
  {| p_ptr := p_ptr gm; mons := mons gm; cave := f (cave gm);
     lore := lore gm; num_repro := num_repro gm; opt := opt gm;
     rest := rest gm |}.

Definition set_au (v : Z) (p : player) : player :=
  {| py := py p; px := px p; lev := lev p; chp := chp p; mhp := mhp p;
     au := v; exp := exp p; leaving := leaving p; is_dead := is_dead p;
     timed := timed p; ac := ac p; to_a := to_a p; noise := noise p;
     skill_save := skill_save p; dex_safe := dex_safe p;
     inventory := inventory p; health_who := health_who p;
     pbits := pbits p |}.

Definition set_inventory (v : list object_type) (p : player) : player :=
  {| py := py p; px := px p; lev := lev p; chp := chp p; mhp := mhp p;
     au := au p; exp := exp p; leaving := leaving p; is_dead := is_dead p;
     timed := timed p; ac := ac p; to_a := to_a p; noise := noise p;
     skill_save := skill_save p; dex_safe := dex_safe p;
     inventory := v; health_who := health_who p; pbits := pbits p |}.

(** [p->redraw |= b], [p->notice |= b], [p->update |= b] *)
Definition pbit_on (b : pbit) (p : player) : player :=
  {| py := py p; px := px p; lev := lev p; chp := chp p; mhp := mhp p;
     au := au p; exp := exp p; leaving := leaving p; is_dead := is_dead p;
     timed := timed p; ac := ac p; to_a := to_a p; noise := noise p;
     skill_save := skill_save p; dex_safe := dex_safe p;
     inventory := inventory p; health_who := health_who p;
     pbits := flag_on (pbits p) b |}.

Definition set_hp (v : Z) (m : monster) : monster :=
  {| race := race m; midx := midx m; fy := fy m; fx := fx m; hp := v;
     maxhp := maxhp m; cdis := cdis m; energy := energy m;
     m_timed := m_timed m; mflag_nice := mflag_nice m;
     mflag_view := mflag_view m; ml := ml m; unaware := unaware m;
     smart_imm_mana := smart_imm_mana m; known_pflags := known_pflags m |}.

Definition set_energy (v : Z) (m : monster) : monster :=
  {| race := race m; midx := midx m; fy := fy m; fx := fx m; hp := hp m;
     maxhp := maxhp m; cdis := cdis m; energy := v;
     m_timed := m_timed m; mflag_nice := mflag_nice m;
     mflag_view := mflag_view m; ml := ml m; unaware := unaware m;
     smart_imm_mana := smart_imm_mana m; known_pflags := known_pflags m |}.

Definition set_known_pflags (v : list Z) (m : monster) : monster :=
  {| race := race m; midx := midx m; fy := fy m; fx := fx m; hp := hp m;
     maxhp := maxhp m; cdis := cdis m; energy := energy m;
     m_timed := m_timed m; mflag_nice := mflag_nice m;
     mflag_view := mflag_view m; ml := ml m; unaware := unaware m;
     smart_imm_mana := smart_imm_mana m; known_pflags := v |}.

Definition set_pval (v : Z) (o : object_type) : object_type :=
  {| kind := kind o; tval := tval o; pval := v; number := number o;
     timeout := timeout o; artifact := artifact o; origin := origin o |}.

Definition set_number (v : Z) (o : object_type) : object_type :=
  {| kind := kind o; tval := tval o; pval := pval o; number := v;
     timeout := timeout o; artifact := artifact o; origin := origin o |}.

Definition set_timeout (v : Z) (o : object_type) : object_type :=
  {| kind := kind o; tval := tval o; pval := pval o; number := number o;
     timeout := v; artifact := artifact o; origin := origin o |}.

Definition set_origin (v : origin_t) (o : object_type) : object_type :=
  {| kind := kind o; tval := tval o; pval := pval o; number := number o;
     timeout := timeout o; artifact := artifact o; origin := v |}.

(** [rf_on(l_ptr->flags, f)] *)
Definition lore_flag_on (f : rflag) (l : monster_lore) : monster_lore :=
  {| l_flags := flag_on (l_flags l) f; l_spell_flags := l_spell_flags l;
     cast_innate := cast_innate l; cast_spell := cast_spell l;
     deaths := deaths l; l_blows := l_blows l; ignore := ignore l;
     wake := wake l |}.

(** [rsf_on(l_ptr->spell_flags, s)] *)
Definition lore_spell_on (s : Z) (l : monster_lore) : monster_lore :=
  {| l_flags := l_flags l; l_spell_flags := flag_on (l_spell_flags l) s;
     cast_innate := cast_innate l; cast_spell := cast_spell l;
     deaths := deaths l; l_blows := l_blows l; ignore := ignore l;
     wake := wake l |}.

Definition set_cast_innate (v : Z) (l : monster_lore) : monster_lore :=
  {| l_flags := l_flags l; l_spell_flags := l_spell_flags l;
     cast_innate := v; cast_spell := cast_spell l;
     deaths := deaths l; l_blows := l_blows l; ignore := ignore l;
     wake := wake l |}.

Definition set_cast_spell (v : Z) (l : monster_lore) : monster_lore :=
  {| l_flags := l_flags l; l_spell_flags := l_spell_flags l;
     cast_innate := cast_innate l; cast_spell := v;
     deaths := deaths l; l_blows := l_blows l; ignore := ignore l;
     wake := wake l |}.

Definition set_deaths (v : Z) (l : monster_lore) : monster_lore :=
  {| l_flags := l_flags l; l_spell_flags := l_spell_flags l;
     cast_innate := cast_innate l; cast_spell := cast_spell l;
     deaths := v; l_blows := l_blows l; ignore := ignore l;
     wake := wake l |}.

Definition set_l_blows (v : list Z) (l : monster_lore) : monster_lore :=
  {| l_flags := l_flags l; l_spell_flags := l_spell_flags l;
     cast_innate := cast_innate l; cast_spell := cast_spell l;
     deaths := deaths l; l_blows := v; ignore := ignore l;
     wake := wake l |}.

Definition set_ignore (v : Z) (l : monster_lore) : monster_lore :=
  {| l_flags := l_flags l; l_spell_flags := l_spell_flags l;
     cast_innate := cast_innate l; cast_spell := cast_spell l;
     deaths := deaths l; l_blows := l_blows l; ignore := v;
     wake := wake l |}.

Definition set_wake (v : Z) (l : monster_lore) : monster_lore :=
  {| l_flags := l_flags l; l_spell_flags := l_spell_flags l;
     cast_innate := cast_innate l; cast_spell := cast_spell l;
     deaths := deaths l; l_blows := l_blows l; ignore := ignore l;
     wake := v |}.

(** [sqinfo_off(cave->info[y][x], SQUARE_MARK)] *)
Definition mark_off (y x : Z) (c : cave_t) : cave_t :=
  {| m_idx := m_idx c;
     mark := fun y' x' => if (y' =? y) && (x' =? x) then false else mark c y' x';
     feat := feat c; when := when c; cost := cost c |}.

(** ** Random numbers (z-rand.h macros) *)

Definition randint0 (n : Z) : M Z := invoke (Rand_div n).
Definition randint1 (n : Z) : M Z := r <- invoke (Rand_div n) ;; ret (r + 1).
Definition one_in_ (n : Z) : M bool := r <- randint0 n ;; ret (r =? 0).

(** The draws [0 .. n-1] of [randint0 n], each equally likely. *)
Definition draws (n : Z) : list Z := seqZ 0 n.

(** Number of draws of [randint0 n] on which [decide] holds: the
    probability of the decision is this count over [n]. *)
Definition favourable (n : Z) (decide : Z -> bool) : Z :=
  Z.of_nat (length (List.filter decide (draws n))).

End Engine.

(** * Spell casting *)

Section Spells.
Context {K : Constants} {Hd : Hidden} {Sv : Services}.

(** The spell numbers, [FLAG_START <= s < RSF_MAX]. *)
Definition all_spells : list Z := seqZ FLAG_START (RSF_MAX - FLAG_START).

Definition rsf_is_empty (f : flagset Z) : bool :=
  forallb (fun s => negb (f s)) all_spells.

(** Modelled from the spec: [set_spells] and [test_spells] live in
    mon-spell.c, which is not part of this file.  The specification uses
    them to "restrict the set to spells of classes ..." and to "remove the
    entire class": a spell stays when its class mask meets [types]. *)
Definition set_spells (f : flagset Z) (types : Z) : flagset Z :=
  fun s => f s && nz (Z.land (spell_type s) types).

Definition test_spells (f : flagset Z) (types : Z) : bool :=
  existsb (fun s => f s && nz (Z.land (spell_type s) types)) all_spells.

(** [clean_shot] macro *)
Definition clean_shot (gm : game) (y1 x1 y2 x2 : Z) : bool :=
  projectable gm y1 x1 y2 x2 true.

(** Remove the "bad" spells from a spell list *)
Definition remove_bad_spells (i : Z) (f : flagset Z) : M (flagset Z) :=
  m <- gets (fun gm => mon gm i) ;;
  (* Stupid monsters act randomly *)
  if rf_has m RF_STUPID then ret f
  else
    (* Take working copy of spell flags *)
    let f2 := f in
    (* Don't heal if full *)
    let f2 := if hp m >=? maxhp m then flag_off f2 RSF_HEAL else f2 in
    (* Don't haste if hasted with time remaining *)
    let f2 :=
      if m_timed m MON_TMD_FAST >? 10 then flag_off f2 RSF_HASTE else f2 in
    (* Don't teleport to if the player is already next to us *)
    let f2 := if cdis m =? 1 then flag_off f2 RSF_TELE_TO else f2 in
    (* Update acquired knowledge *)
    learn <- gets (fun gm => birth_ai_learn (opt gm)) ;;
    known <-
      (if learn then
         (* Occasionally forget player status *)
         forget <- one_in_ 100 ;;
         when_ forget (modify (upd_mon i (set_known_pflags []))) ;;
         (* Use the memorized flags *)
         m' <- gets (fun gm => mon gm i) ;;
         ret (smart_imm_mana m', known_pflags m')
       else ret (false, [])) ;;
    let smart := fst known in
    let ai_flags := snd known in
    (* Cancel out certain flags based on knowledge *)
    let f2 :=
      match ai_flags with
      | [] => f2
      | _ => unset_spells f2 ai_flags (race_of m)
      end in
    f2 <-
      (if smart then
         r <- randint0 100 ;;
         ret (if r <? 50 * (if rf_has m RF_SMART then 2 else 1)
              then flag_off f2 RSF_DRAIN_MANA else f2)
       else ret f2) ;;
    (* use working copy of spell flags *)
    ret f2.

(** The rows and columns [v-2 .. v+2] scanned by [summon_possible]. *)
Definition around2 (v : Z) : list Z := seqZ (v - 2) 5.

(** Determine if there is a space near the selected spot in which a
    summoned creature can appear *)
Definition summon_possible (gm : game) (y1 x1 : Z) : bool :=
  existsb (fun y =>
    existsb (fun x =>
      (* Ignore illegal locations *)
      if negb (square_in_bounds gm y x) then false
      (* Only check a circular area *)
      else if distance y1 x1 y x >? 2 then false
      (* Hack: no summon on glyph of warding *)
      else if square_iswarded gm y x then false
      (* Require empty floor grid in line of sight *)
      else square_isempty gm y x && los gm y1 x1 y x)
    (around2 x1))
  (around2 y1).

(** Have a monster choose a spell to cast. *)
Definition choose_attack_spell (f : flagset Z) : M Z :=
  (* Extract all spells: "innate", "normal", "bizarre" *)
  let spells := List.filter (fun s => f s) all_spells in
  let num := Z.of_nat (length spells) in
  (* Paranoia *)
  if num =? 0 then ret 0
  else
    (* Pick at random *)
    r <- randint0 num ;;
    ret (nth (Z.to_nat r) spells 0).

(** The monster level used by the casting and melee code. *)
Definition effective_level (r : monster_race) : Z :=
  if level r >=? 1 then level r else 1.

Definition desperate_classes : Z :=
  Z.lor RST_HASTE (Z.lor RST_ANNOY (Z.lor RST_ESCAPE
    (Z.lor RST_HEAL (Z.lor RST_TACTIC RST_SUMMON)))).

(** Check whether summons and bolts are worth it. *)
Definition prune_blocked (gm : game) (m : monster) (py0 px0 : Z)
    (f : flagset Z) : flagset Z :=
  if negb (rf_has m RF_STUPID) then
    (* Check for a clean bolt shot *)
    let f :=
      if test_spells f RST_BOLT && negb (clean_shot gm (fy m) (fx m) py0 px0)
      then (* Remove spells that will only hurt friends *)
        set_spells f (Z.lnot RST_BOLT)
      else f in
    (* Check for a possible summon *)
    if negb (summon_possible gm (fy m) (fx m))
    then (* Remove summoning spells *)
      set_spells f (Z.lnot RST_SUMMON)
    else f
  else f.

(** The gates of [make_attack_spell] up to and including the choice of
    the spell: [None] when the function returns FALSE before casting,
    otherwise the chosen spell. *)
Definition pick_spell (i : Z) : M (option Z) :=
  m <- gets (fun gm => mon gm i) ;;
  p <- gets p_ptr ;;
  (* Player position *)
  let px0 := px p in
  let py0 := py p in
  (* Handle "leaving" *)
  if leaving p then ret None
  (* Cannot cast spells when confused *)
  else if nz (m_timed m MON_TMD_CONF) then ret None
  (* Cannot cast spells when nice *)
  else if mflag_nice m then ret None
  else
    (* Hack -- Extract the spell probability *)
    let chance :=
      Z.quot (freq_innate (race_of m) + freq_spell (race_of m)) 2 in
    (* Not allowed to cast spells *)
    if chance =? 0 then ret None
    else
      (* Only do spells occasionally *)
      r <- randint0 100 ;;
      if r >=? chance then ret None
      else
        m <- gets (fun gm => mon gm i) ;;
        (* Check range *)
        if cdis m >? MAX_RANGE then ret None
        else
          (* Check path *)
          clear <- gets (fun gm => projectable gm (fy m) (fx m) py0 px0 false) ;;
          if negb clear then ret None
          else
            (* Extract the racial spell flags *)
            let f := spell_flags (race_of m) in
            (* Allow "desperate" spells *)
            f <-
              (if rf_has m RF_SMART && (hp m <? Z.quot (maxhp m) 10) then
                 r <- randint0 100 ;;
                 (* Require intelligent spells *)
                 ret (if r <? 50 then set_spells f desperate_classes else f)
               else ret f) ;;
            (* Remove the "ineffective" spells *)
            f <- remove_bad_spells i f ;;
            (* Check whether summons and bolts are worth it. *)
            gm <- gets (fun gm => gm) ;;
            let f := prune_blocked gm (mon gm i) py0 px0 f in
            (* No spells left *)
            if rsf_is_empty f then ret None
            else
              (* Choose a spell to cast *)
              thrown_spell <- choose_attack_spell f ;;
              (* Abort if no spell was chosen *)
              if thrown_spell =? 0 then ret None
              else ret (Some thrown_spell).

(** Spell failure rate *)
Definition spell_failrate (m : monster) : Z :=
  let rlev := effective_level (race_of m) in
  let failrate := 25 - Z.quot (rlev + 3) 4 in
  let failrate :=
    if nz (m_timed m MON_TMD_FEAR) then failrate + 20 else failrate in
  (* Stupid monsters will never fail (for jellies and such) *)
  if rf_has m RF_STUPID then 0 else failrate.

Definition msg_spell_fails : string := "%s tries to cast a spell, but fails.".

(** Check for spell failure (innate attacks never fail) *)
Definition spell_fails (i thrown_spell : Z) : M bool :=
  (* Calculate spell failure rate *)
  m <- gets (fun gm => mon gm i) ;;
  let failrate := spell_failrate m in
  if thrown_spell >=? MIN_NONINNATE_SPELL then
    r <- randint0 100 ;; ret (r <? failrate)
  else ret false.

(** Cast the spell, and remember what the monster did to us. *)
Definition do_cast_spell (i thrown_spell : Z) (blind seen : bool)
    (lore_idx : Z) : M unit :=
  (* Cast the spell. *)
  invoke (disturb 1) ;;
  (* Special case RSF_HASTE *)
  (if thrown_spell =? RSF_HASTE then
     (if blind then invoke (msg "%s mumbles.")
      else invoke (msg "%s concentrates on %s body.")) ;;
     _ <- invoke (mon_inc_timed i MON_TMD_FAST 50 MON_TMD_FLG_NONE) ;; ret tt
   else invoke (do_mon_spell thrown_spell i seen)) ;;
  (* Remember what the monster did to us *)
  when_ seen
    (modify (upd_lore lore_idx (lore_spell_on thrown_spell)) ;;
     l <- gets (fun gm => lore gm lore_idx) ;;
     if thrown_spell <? MIN_NONINNATE_SPELL then
       (* Innate spell *)
       when_ (cast_innate l <? MAX_UCHAR)
         (modify (upd_lore lore_idx (set_cast_innate (cast_innate l + 1))))
     else
       (* Bolt or Ball, or Special spell *)
       when_ (cast_spell l <? MAX_UCHAR)
         (modify (upd_lore lore_idx (set_cast_spell (cast_spell l + 1))))) ;;
  (* Always take note of monsters that kill you *)
  p <- gets p_ptr ;;
  l <- gets (fun gm => lore gm lore_idx) ;;
  when_ (is_dead p && (deaths l <? MAX_SHORT))
    (modify (upd_lore lore_idx (set_deaths (deaths l + 1)))).

(** If we see an unaware monster try to cast a spell, become aware of it *)
Definition notice_caster (i : Z) : M unit :=
  m <- gets (fun gm => mon gm i) ;;
  when_ (unaware m) (invoke (become_aware i)).

(** The rest of [make_attack_spell], once [thrown_spell] is chosen.
    [blind], [seen] and the lore pointer are the locals set on entry. *)
Definition cast_spell_or_fail (i thrown_spell : Z) (blind seen : bool)
    (lore_idx : Z) : M bool :=
  notice_caster i ;;
  failed <- spell_fails i thrown_spell ;;
  if failed then
    (* Message *)
    invoke (msg msg_spell_fails) ;;
    ret true
  else
    do_cast_spell i thrown_spell blind seen lore_idx ;;
    (* A spell was cast *)
    ret true.

(** Creatures can cast spells, shoot missiles, and breathe.
    Returns TRUE if a spell (or whatever) was (successfully) cast. *)
Definition make_attack_spell (i : Z) : M bool :=
  m <- gets (fun gm => mon gm i) ;;
  p <- gets p_ptr ;;
  let lore_idx := ridx (race_of m) in
  (* Extract the blind-ness *)
  let blind := nz (timed p TMD_BLIND) in
  (* Extract the "see-able-ness" *)
  let seen := negb blind && ml m in
  chosen <- pick_spell i ;;
  match chosen with
  | None => ret false
  | Some thrown_spell => cast_spell_or_fail i thrown_spell blind seen lore_idx
  end.

End Spells.

(** * Melee *)

Section Melee.
Context {K : Constants} {Hd : Hidden} {Sv : Services}.

(** Hack -- compare the "strength" of two monsters *)
Definition compare_monsters (m n : monster) : Z :=
  let mexp1 := u32b (mexp (race_of m)) in
  let mexp2 := u32b (mexp (race_of n)) in
  if mexp1 <? mexp2 then -1
  else if mexp1 >? mexp2 then 1
  else 0.

(** Critical blow.  The "super-charge" loop [while (randint0(100) < 2)
    max++] is one [Rand_streak] service call returning the number of
    rounds. *)
Definition monster_critical (dice sides dam : Z) : M Z :=
  let total := dice * sides in
  (* Must do at least 95% of perfect *)
  if dam <? Z.quot (total * 19) 20 then ret 0
  else
    (* Weak blows rarely work *)
    weak <- (if dam <? 20 then r <- randint0 100 ;; ret (r >=? dam)
             else ret false) ;;
    if weak then ret 0
    else
      (* Perfect damage *)
      let max := if dam =? total then 1 else 0 in
      (* Super-charge *)
      extra <- (if dam >=? 20 then invoke (Rand_streak 100 2) else ret 0) ;;
      let max := max + extra in
      (* Critical damage *)
      ret (if dam >? 45 then 6 + max
           else if dam >? 33 then 5 + max
           else if dam >? 25 then 4 + max
           else if dam >? 18 then 3 + max
           else if dam >? 11 then 2 + max
           else 1 + max).

(** Determine if a monster attack against the player succeeds. *)
Definition check_hit (power lvl : Z) : M bool :=
  (* Calculate the "attack quality" *)
  let chance := power + lvl * 3 in
  (* Total armor *)
  p <- gets p_ptr ;;
  let total_ac := ac p + to_a p in
  invoke object_notice_on_defend ;;
  (* Check if the player was hit *)
  invoke (test_hit chance total_ac true).

Definition desc_insult : list string :=
  [ "insults you!"; "insults your mother!"; "gives you the finger!";
    "humiliates you!"; "defiles you!"; "dances around you!";
    "makes obscene gestures!"; "moons you!!!" ]%string.

Definition desc_moan : list string :=
  [ "wants his mushrooms back."; "tells you to get off his land.";
    "looks for his dogs. "; "says 'Did you kill my Fang?' ";
    "asks 'Do you want to buy any mushrooms?' ";
    "seems sad about something."; "asks if you have seen his dogs.";
    "mumbles something about mushrooms." ]%string.

(** Calculate how much damage remains after armor is taken into account *)
Definition adjust_dam_armor (dam armour : Z) : Z :=
  dam - Z.quot (dam * (if armour <? 240 then armour else 240)) 400.

(** Context of a blow effect handler.  The handler reaches the player
    through the state and the monster through its index. *)
Record melee_ctx : Type := {
  ctx_m : Z;                      (* m_ptr *)
  ctx_rlev : Z;
  ctx_method : Z;
  ctx_ac : Z;
  ctx_obvious : bool;
  ctx_blinked : bool;
  ctx_do_break : bool;
  ctx_damage : Z
}.

Definition set_obvious (v : bool) (c : melee_ctx) : melee_ctx :=
  {| ctx_m := ctx_m c; ctx_rlev := ctx_rlev c; ctx_method := ctx_method c;
     ctx_ac := ctx_ac c; ctx_obvious := v; ctx_blinked := ctx_blinked c;
     ctx_do_break := ctx_do_break c; ctx_damage := ctx_damage c |}.

Definition set_blinked (v : bool) (c : melee_ctx) : melee_ctx :=
  {| ctx_m := ctx_m c; ctx_rlev := ctx_rlev c; ctx_method := ctx_method c;
     ctx_ac := ctx_ac c; ctx_obvious := ctx_obvious c; ctx_blinked := v;
     ctx_do_break := ctx_do_break c; ctx_damage := ctx_damage c |}.

Definition set_do_break (v : bool) (c : melee_ctx) : melee_ctx :=
  {| ctx_m := ctx_m c; ctx_rlev := ctx_rlev c; ctx_method := ctx_method c;
     ctx_ac := ctx_ac c; ctx_obvious := ctx_obvious c;
     ctx_blinked := ctx_blinked c; ctx_do_break := v;
     ctx_damage := ctx_damage c |}.

Definition set_damage (v : Z) (c : melee_ctx) : melee_ctx :=
  {| ctx_m := ctx_m c; ctx_rlev := ctx_rlev c; ctx_method := ctx_method c;
     ctx_ac := ctx_ac c; ctx_obvious := ctx_obvious c;
     ctx_blinked := ctx_blinked c; ctx_do_break := ctx_do_break c;
     ctx_damage := v |}.

Definition in_method_range (meth : Z) : bool :=
  negb ((meth <? 0) || (meth >=? RBM_MAX)).

Definition monster_blow_method_cut (meth : Z) : bool :=
  if in_method_range meth then blow_cuts meth else false.

Definition monster_blow_method_stun (meth : Z) : bool :=
  if in_method_range meth then blow_stuns meth else false.

Definition monster_blow_method_miss (meth : Z) : bool :=
  if in_method_range meth then blow_misses meth else false.

Definition monster_blow_method_physical (meth : Z) : bool :=
  if in_method_range meth then blow_physicals meth else false.

Definition monster_blow_method_action (meth : Z) : M (option string) :=
  if in_method_range meth then
    let action := blow_actions meth in
    match action with
    | Some _ => ret action
    | None =>
        if meth =? RBM_INSULT then
          r <- randint0 8 ;; ret (desc_insult !! Z.to_nat r)
        else if meth =? RBM_MOAN then
          r <- randint0 8 ;; ret (desc_moan !! Z.to_nat r)
        else ret action
    end
  else ret None.

(** Do damage as the result of a melee attack that has an elemental
    aspect. *)
Definition melee_effect_elemental (c : melee_ctx) (typ : gf)
    (pure_element : bool) : M melee_ctx :=
  let c := if pure_element then set_obvious true c else c in
  match typ with
  | GF_ACID => invoke (msg "You are covered in acid!")
  | GF_ELEC => invoke (msg "You are struck by electricity!")
  | GF_FIRE => invoke (msg "You are enveloped in flames!")
  | GF_COLD => invoke (msg "You are covered with frost!")
  | _ => ret tt
  end ;;
  (* Give the player a small bonus to ac for elemental attacks *)
  let physical_dam := adjust_dam_armor (ctx_damage c) (ctx_ac c + 50) in
  (* Some attacks do no physical damage *)
  let physical_dam :=
    if negb (monster_blow_method_physical (ctx_method c)) then 0
    else physical_dam in
  resist <- invoke (check_for_resist typ true) ;;
  elemental_dam <- invoke (adjust_dam typ (ctx_damage c) resist) ;;
  (* Take the larger of physical or elemental damage *)
  let c :=
    set_damage (if physical_dam >? elemental_dam then physical_dam
                else elemental_dam) c in
  when_ (ctx_damage c >? 0) (invoke (take_hit (ctx_damage c))) ;;
  when_ (elemental_dam >? 0)
    (invoke (inven_damage typ (MIN (elemental_dam * 5) 300))) ;;
  (* Learn about the player *)
  when_ pure_element (invoke (monster_learn_resists (ctx_m c) typ)) ;;
  ret c.

(** Do damage as the result of a melee attack that has a status effect. *)
Definition melee_effect_timed (c : melee_ctx) (typ : tmd) (amount : Z)
    (of_flag : oflag) (attempt_save : bool) (save_msg : option string)
  : M melee_ctx :=
  (* Take damage *)
  invoke (take_hit (ctx_damage c)) ;;
  (* Perform a saving throw if desired. *)
  saved <-
    (if attempt_save then
       r <- randint0 100 ;;
       p <- gets p_ptr ;;
       ret (r <? skill_save p)
     else ret false) ;;
  c <-
    (if saved then
       match save_msg with
       | Some s => invoke (msg s)
       | None => ret tt
       end ;;
       ret (set_obvious true c)
     else
       (* Increase timer for type. *)
       b <- invoke (player_inc_timed typ amount true true) ;;
       ret (if b then set_obvious true c else c)) ;;
  (* Learn about the player *)
  invoke (update_smart_learn (ctx_m c) of_flag) ;;
  ret c.

(** Do damage as the result of a melee attack that drains a stat. *)
Definition melee_effect_stat (c : melee_ctx) (st : stat) : M melee_ctx :=
  (* Take damage *)
  invoke (take_hit (ctx_damage c)) ;;
  (* Damage (stat) *)
  b <- invoke (do_dec_stat st false) ;;
  ret (if b then set_obvious true c else c).

(** Do damage as the result of an experience draining melee attack. *)
Definition melee_effect_experience (c : melee_ctx) (chance drain_amount : Z)
  : M melee_ctx :=
  (* Obvious *)
  let c := set_obvious true c in
  (* Take damage *)
  invoke (take_hit (ctx_damage c)) ;;
  invoke (update_smart_learn (ctx_m c) OF_HOLD_LIFE) ;;
  hold <- invoke (check_state OF_HOLD_LIFE) ;;
  kept <- (if hold then r <- randint0 100 ;; ret (r <? chance)
           else ret false) ;;
  (if kept then invoke (msg "You keep hold of your life force!")
   else
     p <- gets p_ptr ;;
     let d := drain_amount + Z.quot (exp p) 100 * MON_DRAIN_LIFE in
     hold <- invoke (check_state OF_HOLD_LIFE) ;;
     if hold then
       invoke (msg "You feel your life slipping away!") ;;
       invoke (player_exp_lose (Z.quot d 10) false)
     else
       invoke (msg "You feel your life draining away!") ;;
       invoke (player_exp_lose d false)) ;;
  ret c.


(** [&p->inventory[item]]; a slot beyond the list reads as a non-object. *)
Definition no_object : object_type :=
  {| kind := None; tval := TV_OTHER 0; pval := 0; number := 0; timeout := 0;
     artifact := false; origin := ORIGIN_OTHER 0 |}.

Definition inven (p : player) (item : Z) : object_type :=
  default no_object (inventory p !! Z.to_nat item).

Definition upd_inven (item : Z) (f : object_type -> object_type) (gm : game)
  : game :=
  upd_player
    (fun p => set_inventory (alter f (Z.to_nat item) (inventory p)) p) gm.

(** Melee effect handler: Hit the player, but don't do any damage. *)
Definition melee_effect_handler_none (c : melee_ctx) : M melee_ctx :=
  (* Hack -- Assume obvious *)
  let c := set_obvious true c in
  (* Hack -- No damage *)
  ret (set_damage 0 c).

(** Melee effect handler: Hurt the player with no side effects. *)
Definition melee_effect_handler_hurt (c : melee_ctx) : M melee_ctx :=
  (* Obvious *)
  let c := set_obvious true c in
  (* Hack -- Player armor reduces total damage *)
  let c := set_damage (adjust_dam_armor (ctx_damage c) (ctx_ac c)) c in
  (* Take damage *)
  invoke (take_hit (ctx_damage c)) ;;
  ret c.

(** Melee effect handler: Poison the player. *)
Definition melee_effect_handler_poison (c : melee_ctx) : M melee_ctx :=
  c <- melee_effect_elemental c GF_POIS false ;;
  (* Take "poison" effect *)
  r <- randint1 (ctx_rlev c) ;;
  b <- invoke (player_inc_timed TMD_POISONED (5 + r) true true) ;;
  let c := if b then set_obvious true c else c in
  (* Learn about the player *)
  invoke (monster_learn_resists (ctx_m c) GF_POIS) ;;
  ret c.

(** Melee effect handler: Disenchant the player. *)
Definition melee_effect_handler_disenchant (c : melee_ctx) : M melee_ctx :=
  (* Take damage *)
  invoke (take_hit (ctx_damage c)) ;;
  (* Allow complete resist *)
  res <- invoke (check_state OF_RES_DISEN) ;;
  c <-
    (if negb res then
       (* Apply disenchantment *)
       b <- invoke (apply_disenchant 0) ;;
       ret (if b then set_obvious true c else c)
     else ret c) ;;
  (* Learn about the player *)
  invoke (monster_learn_resists (ctx_m c) GF_DISEN) ;;
  ret c.

(** The [for (tries = 0; tries < 10; tries++)] loop of the drain-charges
    handler; [unpower] is the local of that name. *)
Fixpoint drain_charges_tries (tries : nat) (unpower : Z) (c : melee_ctx)
  : M melee_ctx :=
  match tries with
  | O => ret c
  | S tries' =>
      (* Pick an item *)
      item <- randint0 INVEN_PACK ;;
      (* Obtain the item *)
      p <- gets p_ptr ;;
      let o := inven p item in
      match kind o with
      | None =>
          (* Skip non-objects *)
          drain_charges_tries tries' unpower c
      | Some kind_level =>
          (* Drain charged wands/staves *)
          unpower <-
            (if (bool_decide (tval o = TV_STAFF) || bool_decide (tval o = TV_WAND))
                && nz (pval o)
             then
               (* Get number of charge to drain *)
               let unpower := Z.quot (ctx_rlev c) (kind_level + 2) + 1 in
               (* Get new charge value, don't allow negative *)
               let newcharge := MAX (pval o - unpower) 0 in
               (* Remove the charges *)
               modify (upd_inven item (set_pval newcharge)) ;;
               ret unpower
             else ret unpower) ;;
          if nz unpower then
            let heal := ctx_rlev c * unpower in
            invoke (msg "Energy drains from your pack!") ;;
            let c := set_obvious true c in
            (* Don't heal more than max hp *)
            m <- gets (fun gm => mon gm (ctx_m c)) ;;
            let heal := MIN heal (maxhp m - hp m) in
            (* Heal *)
            modify (upd_mon (ctx_m c) (fun m => set_hp (hp m + heal) m)) ;;
            (* Redraw (later) if needed *)
            p <- gets p_ptr ;;
            when_ (health_who p =? ctx_m c)
              (modify (upd_player (pbit_on PR_HEALTH))) ;;
            (* Combine / Reorder the pack *)
            modify (upd_player (pbit_on PN_COMBINE)) ;;
            modify (upd_player (pbit_on PN_REORDER)) ;;
            (* Redraw stuff *)
            modify (upd_player (pbit_on PR_INVEN)) ;;
            (* Affect only a single inventory slot *)
            ret c
          else drain_charges_tries tries' unpower c
      end
  end.

(** Melee effect handler: Drain charges from the player's inventory. *)
Definition melee_effect_handler_drain_charges (c : melee_ctx) : M melee_ctx :=
  (* Take damage *)
  invoke (take_hit (ctx_damage c)) ;;
  (* Find an item *)
  drain_charges_tries 10 0 c.

(** The [while (gold > 0)] loop of the gold thief: the stolen gold is
    put in objects handed to the monster.  Returns the gold left to pack
    when the fuel runs out (none when the loop has finished). *)
Fixpoint carry_gold (fuel : nat) (i : Z) (gold : Z) : M Z :=
  match fuel with
  | O => ret gold
  | S fuel' =>
      if gold >? 0 then
        (* Create a new temporary object *)
        let o := gold_kind in
        (* Amount of gold to put in this object *)
        let amt := if gold >? MAX_PVAL then MAX_PVAL else gold in
        let o := set_pval amt o in
        let gold := gold - amt in
        (* Set origin to stolen *)
        let o := set_origin ORIGIN_STOLEN o in
        (* Give the gold to the monster *)
        _ <- invoke (monster_carry i o) ;;
        carry_gold fuel' i gold
      else ret gold
  end.

(** The object made for [amt] stolen coins. *)
Definition stolen_gold (amt : Z) : object_type :=
  set_origin ORIGIN_STOLEN (set_pval amt gold_kind).

(** The amounts the loop packs [gold] coins into. *)
Fixpoint gold_chunks (fuel : nat) (gold : Z) : list Z :=
  match fuel with
  | O => []
  | S fuel' =>
      if gold >? 0 then
        let amt := if gold >? MAX_PVAL then MAX_PVAL else gold in
        amt :: gold_chunks fuel' (gold - amt)
      else []
  end.

(** Saving throw (unless paralyzed) based on dex and level *)
Definition theft_save : M bool :=
  p <- gets p_ptr ;;
  if negb (nz (timed p TMD_PARALYZED)) then
    r <- randint0 100 ;;
    p <- gets p_ptr ;;
    ret (r <? dex_safe p + lev p)
  else ret false.

(** Eat gold: the branch of the gold thief taken when the saving throw
    fails. *)
Definition steal_gold (c : melee_ctx) : M melee_ctx :=
  r25 <- randint1 25 ;;
  p <- gets p_ptr ;;
  let gold := Z.quot (au p) 10 + r25 in
  let gold := if gold <? 2 then 2 else gold in
  gold <-
    (if gold >? 5000 then
       r3000 <- randint1 3000 ;;
       p <- gets p_ptr ;;
       ret (Z.quot (au p) 20 + r3000)
     else ret gold) ;;
  p <- gets p_ptr ;;
  let gold := if gold >? au p then au p else gold in
  modify (upd_player (fun p => set_au (au p - gold) p)) ;;
  if gold <=? 0 then
    invoke (msg "Nothing was stolen.") ;;
    ret c
  else
    (* Let the player know they were robbed *)
    invoke (msg "Your purse feels lighter.") ;;
    p <- gets p_ptr ;;
    (if nz (au p) then invoke (msg "%ld coins were stolen!")
     else invoke (msg "All of your coins were stolen!")) ;;
    (* While we have gold, put it in objects *)
    _ <- carry_gold (Z.to_nat gold) (ctx_m c) gold ;;
    (* Redraw gold *)
    modify (upd_player (pbit_on PR_GOLD)) ;;
    (* Blink away *)
    ret (set_blinked true c).

(** Melee effect handler: Take the player's gold. *)
Definition melee_effect_handler_eat_gold (c : melee_ctx) : M melee_ctx :=
  (* Take damage *)
  invoke (take_hit (ctx_damage c)) ;;
  (* Obvious *)
  let c := set_obvious true c in
  saved <- theft_save ;;
  if saved then
    (* Saving throw message *)
    invoke (msg "You quickly protect your money pouch!") ;;
    (* Occasional blink anyway *)
    r <- randint0 3 ;;
    ret (if nz r then set_blinked true c else c)
  else steal_gold c.

Fixpoint eat_item_tries (tries : nat) (c : melee_ctx) : M melee_ctx :=
  match tries with
  | O => ret c
  | S tries' =>
      (* Pick an item *)
      item <- randint0 INVEN_PACK ;;
      (* Obtain the item *)
      p <- gets p_ptr ;;
      let o := inven p item in
      match kind o with
      | None => eat_item_tries tries' c        (* Skip non-objects *)
      | Some _ =>
          if artifact o then eat_item_tries tries' c   (* Skip artifacts *)
          else
            (* Message *)
            invoke (msg "%s %s (%c) was stolen!") ;;
            (* Obtain local object, modify number *)
            let i_obj := set_number 1 o in
            (* Allocate charges between those stolen and those missed *)
            i_obj <- invoke (distribute_charges item i_obj) ;;
            (* Carry the object *)
            _ <- invoke (monster_carry (ctx_m c) i_obj) ;;
            (* Steal the items *)
            invoke (inven_item_increase item (-1)) ;;
            invoke (inven_item_optimize item) ;;
            (* Obvious, blink away, done *)
            ret (set_blinked true (set_obvious true c))
      end
  end.

(** Melee effect handler: Take something from the player's inventory. *)
Definition melee_effect_handler_eat_item (c : melee_ctx) : M melee_ctx :=
  (* Take damage *)
  invoke (take_hit (ctx_damage c)) ;;
  saved <- theft_save ;;
  if saved then
    (* Saving throw message *)
    invoke (msg "You grab hold of your backpack!") ;;
    (* Occasional "blink" anyway; obvious; done *)
    ret (set_obvious true (set_blinked true c))
  else
    (* Find an item *)
    eat_item_tries 10 c.

Fixpoint eat_food_tries (tries : nat) (c : melee_ctx) : M melee_ctx :=
  match tries with
  | O => ret c
  | S tries' =>
      (* Pick an item from the pack *)
      item <- randint0 INVEN_PACK ;;
      (* Get the item *)
      p <- gets p_ptr ;;
      let o := inven p item in
      match kind o with
      | None => eat_food_tries tries' c        (* Skip non-objects *)
      | Some _ =>
          if negb (bool_decide (tval o = TV_FOOD)) then
            eat_food_tries tries' c            (* Skip non-food objects *)
          else
            (if number o =? 1 then invoke (msg "Your %s (%c) was eaten!")
             else invoke (msg "One of your %s (%c) was eaten!")) ;;
            (* Steal the items *)
            invoke (inven_item_increase item (-1)) ;;
            invoke (inven_item_optimize item) ;;
            (* Obvious, done *)
            ret (set_obvious true c)
      end
  end.

(** Melee effect handler: Eat the player's food. *)
Definition melee_effect_handler_eat_food (c : melee_ctx) : M melee_ctx :=
  (* Take damage *)
  invoke (take_hit (ctx_damage c)) ;;
  eat_food_tries 10 c.

(** Melee effect handler: Absorb the player's light. *)
Definition melee_effect_handler_eat_light (c : melee_ctx) : M melee_ctx :=
  (* Take damage *)
  invoke (take_hit (ctx_damage c)) ;;
  (* Get the light, and its flags *)
  p <- gets p_ptr ;;
  let o := inven p INVEN_LIGHT in
  (* Drain fuel where applicable *)
  if negb (object_no_fuel o) && (timeout o >? 0) then
    (* Reduce fuel *)
    r <- randint1 250 ;;
    modify (upd_inven INVEN_LIGHT
              (fun o => let t := timeout o - (250 + r) in
                        set_timeout (if t <? 1 then 1 else t) o)) ;;
    (* Notice *)
    p <- gets p_ptr ;;
    c <-
      (if negb (nz (timed p TMD_BLIND)) then
         invoke (msg "Your light dims.") ;;
         ret (set_obvious true c)
       else ret c) ;;
    (* Redraw stuff *)
    modify (upd_player (pbit_on PR_EQUIP)) ;;
    ret c
  else ret c.

Definition melee_effect_handler_acid (c : melee_ctx) : M melee_ctx :=
  melee_effect_elemental c GF_ACID true.

Definition melee_effect_handler_elec (c : melee_ctx) : M melee_ctx :=
  melee_effect_elemental c GF_ELEC true.

Definition melee_effect_handler_fire (c : melee_ctx) : M melee_ctx :=
  melee_effect_elemental c GF_FIRE true.

Definition melee_effect_handler_cold (c : melee_ctx) : M melee_ctx :=
  melee_effect_elemental c GF_COLD true.

(** Melee effect handler: Blind the player. *)
Definition melee_effect_handler_blind (c : melee_ctx) : M melee_ctx :=
  r <- randint1 (ctx_rlev c) ;;
  melee_effect_timed c TMD_BLIND (10 + r) OF_RES_BLIND false None.

(** Melee effect handler: Confuse the player. *)
Definition melee_effect_handler_confuse (c : melee_ctx) : M melee_ctx :=
  r <- randint1 (ctx_rlev c) ;;
  melee_effect_timed c TMD_CONFUSED (3 + r) OF_RES_CONFU false None.

(** Melee effect handler: Terrify the player. *)
Definition melee_effect_handler_terrify (c : melee_ctx) : M melee_ctx :=
  r <- randint1 (ctx_rlev c) ;;
  melee_effect_timed c TMD_AFRAID (3 + r) OF_RES_FEAR true
    (Some "You stand your ground!"%string).

(** Melee effect handler: Paralyze the player. *)
Definition melee_effect_handler_paralyze (c : melee_ctx) : M melee_ctx :=
  (* Hack -- Prevent perma-paralysis via damage *)
  p <- gets p_ptr ;;
  let c :=
    if nz (timed p TMD_PARALYZED) && (ctx_damage c <? 1) then set_damage 1 c
    else c in
  r <- randint1 (ctx_rlev c) ;;
  melee_effect_timed c TMD_PARALYZED (3 + r) OF_FREE_ACT true
    (Some "You resist the effects!"%string).

Definition melee_effect_handler_lose_str (c : melee_ctx) : M melee_ctx :=
  melee_effect_stat c A_STR.
Definition melee_effect_handler_lose_int (c : melee_ctx) : M melee_ctx :=
  melee_effect_stat c A_INT.
Definition melee_effect_handler_lose_wis (c : melee_ctx) : M melee_ctx :=
  melee_effect_stat c A_WIS.
Definition melee_effect_handler_lose_dex (c : melee_ctx) : M melee_ctx :=
  melee_effect_stat c A_DEX.
Definition melee_effect_handler_lose_con (c : melee_ctx) : M melee_ctx :=
  melee_effect_stat c A_CON.

(** Melee effect handler: Drain all of the player's stats. *)
Definition melee_effect_handler_lose_all (c : melee_ctx) : M melee_ctx :=
  (* Take damage *)
  invoke (take_hit (ctx_damage c)) ;;
  (* Damage (stats) *)
  b <- invoke (do_dec_stat A_STR false) ;;
  let c := if b then set_obvious true c else c in
  b <- invoke (do_dec_stat A_DEX false) ;;
  let c := if b then set_obvious true c else c in
  b <- invoke (do_dec_stat A_CON false) ;;
  let c := if b then set_obvious true c else c in
  b <- invoke (do_dec_stat A_INT false) ;;
  let c := if b then set_obvious true c else c in
  b <- invoke (do_dec_stat A_WIS false) ;;
  let c := if b then set_obvious true c else c in
  ret c.

(** Melee effect handler: Cause an earthquake around the player. *)
Definition melee_effect_handler_shatter (c : melee_ctx) : M melee_ctx :=
  (* Obvious *)
  let c := set_obvious true c in
  (* Hack -- Reduce damage based on the player armor class *)
  let c := set_damage (adjust_dam_armor (ctx_damage c) (ctx_ac c)) c in
  (* Take damage *)
  invoke (take_hit (ctx_damage c)) ;;
  (* Radius 8 earthquake centered at the monster *)
  if ctx_damage c >? 23 then
    p <- gets p_ptr ;;
    let px_old := px p in
    let py_old := py p in
    m <- gets (fun gm => mon gm (ctx_m c)) ;;
    invoke (earthquake (fy m) (fx m) 8) ;;
    (* Stop the blows if the player is pushed away *)
    p <- gets p_ptr ;;
    ret (if negb (px_old =? px p) || negb (py_old =? py p)
         then set_do_break true c else c)
  else ret c.

Definition melee_effect_handler_exp_10 (c : melee_ctx) : M melee_ctx :=
  d <- invoke (damroll 10 6) ;; melee_effect_experience c 95 d.
Definition melee_effect_handler_exp_20 (c : melee_ctx) : M melee_ctx :=
  d <- invoke (damroll 20 6) ;; melee_effect_experience c 90 d.
Definition melee_effect_handler_exp_40 (c : melee_ctx) : M melee_ctx :=
  d <- invoke (damroll 40 6) ;; melee_effect_experience c 75 d.
Definition melee_effect_handler_exp_80 (c : melee_ctx) : M melee_ctx :=
  d <- invoke (damroll 80 6) ;; melee_effect_experience c 50 d.

(** Melee effect handler: Make the player hallucinate. *)
Definition melee_effect_handler_hallucination (c : melee_ctx) : M melee_ctx :=
  (* Take damage *)
  invoke (take_hit (ctx_damage c)) ;;
  (* Increase "image" *)
  r <- randint1 (Z.quot (ctx_rlev c) 2) ;;
  b <- invoke (player_inc_timed TMD_IMAGE (3 + r) true true) ;;
  let c := if b then set_obvious true c else c in
  (* Learn about the player *)
  invoke (monster_learn_resists (ctx_m c) GF_CHAOS) ;;
  ret c.

(** Return a handler for the given effect.  Every effect of the
    enumeration has an entry in the table. *)
Definition melee_handler_for_blow_effect (e : blow_effect)
  : option (melee_ctx -> M melee_ctx) :=
  Some
    match e with
    | RBE_NONE => melee_effect_handler_none
    | RBE_HURT => melee_effect_handler_hurt
    | RBE_POISON => melee_effect_handler_poison
    | RBE_UN_BONUS => melee_effect_handler_disenchant
    | RBE_UN_POWER => melee_effect_handler_drain_charges
    | RBE_EAT_GOLD => melee_effect_handler_eat_gold
    | RBE_EAT_ITEM => melee_effect_handler_eat_item
    | RBE_EAT_FOOD => melee_effect_handler_eat_food
    | RBE_EAT_LIGHT => melee_effect_handler_eat_light
    | RBE_ACID => melee_effect_handler_acid
    | RBE_ELEC => melee_effect_handler_elec
    | RBE_FIRE => melee_effect_handler_fire
    | RBE_COLD => melee_effect_handler_cold
    | RBE_BLIND => melee_effect_handler_blind
    | RBE_CONFUSE => melee_effect_handler_confuse
    | RBE_TERRIFY => melee_effect_handler_terrify
    | RBE_PARALYZE => melee_effect_handler_paralyze
    | RBE_LOSE_STR => melee_effect_handler_lose_str
    | RBE_LOSE_INT => melee_effect_handler_lose_int
    | RBE_LOSE_WIS => melee_effect_handler_lose_wis
    | RBE_LOSE_DEX => melee_effect_handler_lose_dex
    | RBE_LOSE_CON => melee_effect_handler_lose_con
    | RBE_LOSE_ALL => melee_effect_handler_lose_all
    | RBE_SHATTER => melee_effect_handler_shatter
    | RBE_EXP_10 => melee_effect_handler_exp_10
    | RBE_EXP_20 => melee_effect_handler_exp_20
    | RBE_EXP_40 => melee_effect_handler_exp_40
    | RBE_EXP_80 => melee_effect_handler_exp_80
    | RBE_HALLU => melee_effect_handler_hallucination
    end.

Definition monster_blow_effect_power (e : blow_effect) : Z := effect_power e.


(** [m_ptr->race->blow[ap_cnt]]; a missing slot reads as the empty blow. *)
Definition no_blow : monster_blow :=
  {| method := 0; effect := RBE_NONE; d_dice := 0; d_side := 0 |}.

Definition blow_at (m : monster) (ap_cnt : Z) : monster_blow :=
  default no_blow (blow (race_of m) !! Z.to_nat ap_cnt).

(** [l_ptr->blows[ap_cnt]] *)
Definition lore_blows (l : monster_lore) (ap_cnt : Z) : Z :=
  default 0 (l_blows l !! Z.to_nat ap_cnt).

Definition inc_lore_blows (ap_cnt : Z) (l : monster_lore) : monster_lore :=
  set_l_blows (alter (fun n => n + 1) (Z.to_nat ap_cnt) (l_blows l)) l.

(** Timed increment for a cut of the given critical level. *)
Definition cut_amount (tmp : Z) : M Z :=
  if tmp =? 0 then ret 0
  else if tmp =? 1 then randint1 5
  else if tmp =? 2 then r <- randint1 5 ;; ret (r + 5)
  else if tmp =? 3 then r <- randint1 20 ;; ret (r + 20)
  else if tmp =? 4 then r <- randint1 50 ;; ret (r + 50)
  else if tmp =? 5 then r <- randint1 100 ;; ret (r + 100)
  else if tmp =? 6 then ret 300
  else ret 500.

(** Timed increment for a stun of the given critical level. *)
Definition stun_amount (tmp : Z) : M Z :=
  if tmp =? 0 then ret 0
  else if tmp =? 1 then randint1 5
  else if tmp =? 2 then r <- randint1 10 ;; ret (r + 10)
  else if tmp =? 3 then r <- randint1 20 ;; ret (r + 20)
  else if tmp =? 4 then r <- randint1 30 ;; ret (r + 30)
  else if tmp =? 5 then r <- randint1 40 ;; ret (r + 40)
  else if tmp =? 6 then ret 100
  else ret 200.

(** The tail of one round of the blow loop: lore bookkeeping.
    Returns the local [do_break]. *)
Definition count_blow (i lore_idx ap_cnt : Z) (visible obvious : bool)
    (dam : Z) : M unit :=
  (* Analyze "visible" monsters only *)
  when_ visible
    (l <- gets (fun gm => lore gm lore_idx) ;;
     (* Count "obvious" attacks (and ones that cause damage) *)
     when_ (obvious || nz dam || (lore_blows l ap_cnt >? 10))
       ((* Count attacks of this type *)
        when_ (lore_blows l ap_cnt <? MAX_UCHAR)
          (modify (upd_lore lore_idx (inc_lore_blows ap_cnt))))).

(** Describe the attack method and roll out the damage.  Returns the
    rolled damage. *)
Definition announce_blow (b : monster_blow) : M Z :=
  (* Describe the attack method *)
  act <- monster_blow_method_action (method b) ;;
  (* Message *)
  match act with
  | Some _ => invoke (msgt "%s %s")
  | None => ret tt
  end ;;
  (* Roll out the damage *)
  if (d_dice b >? 0) && (d_side b >? 0)
  then invoke (damroll (d_dice b) (d_side b))
  else ret 0.

(** Perform the actual effect: build the context and run the handler. *)
Definition apply_effect (i rlev total_ac : Z) (b : monster_blow)
    (obvious blinked do_break : bool) (dam : Z) : M melee_ctx :=
  let context :=
    {| ctx_m := i; ctx_rlev := rlev; ctx_method := method b;
       ctx_ac := total_ac; ctx_obvious := obvious; ctx_blinked := blinked;
       ctx_do_break := do_break; ctx_damage := dam |} in
  match melee_handler_for_blow_effect (effect b) with
  | Some effect_handler => effect_handler context
  | None => invoke (bell "Effect handler not found for %d.") ;; ret context
  end.

(** Cuts and stuns after the effect. *)
Definition cut_and_stun (b : monster_blow) (dam : Z) : M unit :=
  let do_cut := monster_blow_method_cut (method b) in
  let do_stun := monster_blow_method_stun (method b) in
  (* Hack -- only one of cut or stun *)
  cs <-
    (if do_cut && do_stun then
       r <- randint0 100 ;;
       (* Cancel cut, or cancel stun *)
       ret (if r <? 50 then (false, do_stun) else (do_cut, false))
     else ret (do_cut, do_stun)) ;;
  let do_cut := fst cs in
  let do_stun := snd cs in
  (* Handle cut *)
  when_ do_cut
    ((* Critical hit (zero if non-critical) *)
     tmp <- monster_critical (d_dice b) (d_side b) dam ;;
     (* Roll for damage *)
     k <- cut_amount tmp ;;
     (* Apply the cut *)
     when_ (nz k)
       (_ <- invoke (player_inc_timed TMD_CUT k true true) ;; ret tt)) ;;
  (* Handle stun *)
  when_ do_stun
    ((* Critical hit (zero if non-critical) *)
     tmp <- monster_critical (d_dice b) (d_side b) dam ;;
     (* Roll for damage *)
     k <- stun_amount tmp ;;
     (* Apply the stun *)
     when_ (nz k)
       (_ <- invoke (player_inc_timed TMD_STUN k true true) ;; ret tt)).

(** A blow that hit and was not repelled.  Returns the locals
    [(obvious, blinked, damage)] as saved from the handler context: the
    context's [do_break] is not read back. *)
Definition land_blow (i rlev total_ac : Z) (b : monster_blow)
    (blinked do_break : bool) : M (bool * bool * Z) :=
  dam <- announce_blow b ;;
  (* Hack -- assume all attacks are obvious *)
  let obvious := true in
  (* Perform the actual effect. *)
  context <- apply_effect i rlev total_ac b obvious blinked do_break dam ;;
  (* Save any changes made in the handler for later use. *)
  let obvious := ctx_obvious context in
  let blinked := ctx_blinked context in
  let dam := ctx_damage context in
  cut_and_stun b dam ;;
  ret (obvious, blinked, dam).

(** Hack -- Apply "protection from evil": is the blow repelled? *)
Definition repelled_by_protection (i lore_idx rlev : Z) : M bool :=
  p <- gets p_ptr ;;
  if timed p TMD_PROTEVIL >? 0 then
    (* Learn about the evil flag *)
    m <- gets (fun gm => mon gm i) ;;
    when_ (ml m) (modify (upd_lore lore_idx (lore_flag_on RF_EVIL))) ;;
    if rf_has m RF_EVIL && (lev p >=? rlev) then
      r <- randint0 100 ;;
      p <- gets p_ptr ;;
      ret (r + lev p >? 50)
    else ret false
  else ret false.

(** The [for (ap_cnt = 0; ap_cnt < MONSTER_BLOW_MAX; ap_cnt++)] loop of
    [make_attack_normal]; [fuel] is the number of rounds left.  Returns
    the local [blinked]. *)
Fixpoint blow_loop (fuel : nat) (i lore_idx rlev total_ac ap_cnt : Z)
    (blinked : bool) : M bool :=
  match fuel with
  | O => ret blinked
  | S fuel' =>
      let do_break := false in
      (* Extract the attack infomation *)
      m <- gets (fun gm => mon gm i) ;;
      let b := blow_at m ap_cnt in
      (* Hack -- no more attacks *)
      if negb (nz (method b)) then ret blinked
      else
        (* Handle "leaving" *)
        p <- gets p_ptr ;;
        if leaving p then ret blinked
        else
          (* Extract visibility (before blink), or from carrying light *)
          let visible := ml m || rf_has m RF_HAS_LIGHT in
          (* Extract the attack "power" *)
          let power := monster_blow_effect_power (effect b) in
          (* Monster hits player *)
          hit <- (if bool_decide (effect b = RBE_NONE) then ret true
                  else check_hit power rlev) ;;
          if hit then
            (* Always disturbing *)
            invoke (disturb 1) ;;
            repelled <- repelled_by_protection i lore_idx rlev ;;
            if repelled then
              (* Message *)
              invoke (msg "%s is repelled.") ;;
              (* Hack -- Next attack *)
              blow_loop fuel' i lore_idx rlev total_ac (ap_cnt + 1) blinked
            else
              res <- land_blow i rlev total_ac b blinked do_break ;;
              let obvious := fst (fst res) in
              let blinked := snd (fst res) in
              let dam := snd res in
              count_blow i lore_idx ap_cnt visible obvious dam ;;
              (* Skip the other blows if necessary *)
              if do_break then ret blinked
              else blow_loop fuel' i lore_idx rlev total_ac (ap_cnt + 1) blinked
          else
            (* Visible monster missed player, so notify if appropriate. *)
            m <- gets (fun gm => mon gm i) ;;
            when_ (ml m && monster_blow_method_miss (method b))
              ((* Disturbing *)
               invoke (disturb 1) ;;
               invoke (msg "%s misses you.")) ;;
            count_blow i lore_idx ap_cnt visible false 0 ;;
            (* Skip the other blows if necessary *)
            if do_break then ret blinked
            else blow_loop fuel' i lore_idx rlev total_ac (ap_cnt + 1) blinked
  end.

(** What [make_attack_normal] does after the blow loop. *)
Definition after_blows (i lore_idx : Z) (blinked : bool) : M bool :=
  (* Blink away *)
  when_ blinked
    (invoke (msg "There is a puff of smoke!") ;;
     invoke (teleport_away i (MAX_SIGHT * 2 + 5))) ;;
  (* Always notice cause of death *)
  p <- gets p_ptr ;;
  l <- gets (fun gm => lore gm lore_idx) ;;
  when_ (is_dead p && (deaths l <? MAX_SHORT))
    (modify (upd_lore lore_idx (set_deaths (deaths l + 1)))) ;;
  (* Assume we attacked *)
  ret true.

(** Attack the player via physical attacks. *)
Definition make_attack_normal (i : Z) : M bool :=
  m <- gets (fun gm => mon gm i) ;;
  let lore_idx := ridx (race_of m) in
  (* Not allowed to attack *)
  if rf_has m RF_NEVER_BLOW then ret false
  else
    (* Total armor *)
    p <- gets p_ptr ;;
    let total_ac := ac p + to_a p in
    (* Extract the effective monster level *)
    let rlev := effective_level (race_of m) in
    (* Assume no blink *)
    let blinked := false in
    (* Scan through all blows *)
    blinked <- blow_loop MONSTER_BLOW_MAX i lore_idx rlev total_ac 0 blinked ;;
    after_blows i lore_idx blinked.

End Melee.

(** * Processing one monster *)

Section Process.
Context {K : Constants} {Hd : Hidden} {Sv : Services}.

(** [rf_on(l_ptr->flags, f)] when the monster is visible *)
Definition learn_flag (i lore_idx : Z) (f : rflag) : M unit :=
  m <- gets (fun gm => mon gm i) ;;
  when_ (ml m) (modify (upd_lore lore_idx (lore_flag_on f))).

(** Hack -- Update the health bar *)
Definition redraw_health (i : Z) : M unit :=
  p <- gets p_ptr ;;
  when_ (health_who p =? i) (modify (upd_player (pbit_on PR_HEALTH))).

(** Handle "sleep".  Returns TRUE when [process_monster] returns from
    inside this part (still asleep, or just woken up). *)
Definition process_sleep (i lore_idx : Z) : M bool :=
  m <- gets (fun gm => mon gm i) ;;
  if nz (m_timed m MON_TMD_SLEEP) then
    (* Aggravation *)
    aggravate <- invoke (check_state OF_AGGRAVATE) ;;
    if aggravate then
      (* Wake the monster and notify player *)
      _ <- invoke (mon_clear_timed i MON_TMD_SLEEP MON_TMD_FLG_NOTIFY) ;;
      (* Update the health bar *)
      m <- gets (fun gm => mon gm i) ;;
      when_ (ml m && negb (unaware m)) (redraw_health i) ;;
      (* Efficiency XXX XXX *)
      ret true
    else
      (* Anti-stealth *)
      notice <- randint0 1024 ;;
      let notice := u32b notice in
      p <- gets p_ptr ;;
      (* Hack -- See if monster "notices" player *)
      woke_up <-
        (if u32b (u32b (notice * notice) * notice) <=? noise p then
           m <- gets (fun gm => mon gm i) ;;
           (* Wake up faster near the player *)
           let d := if cdis m <? 50 then Z.quot 100 (cdis m) else 1 in
           if m_timed m MON_TMD_SLEEP >? d then
             (* Monster wakes up "a little bit" *)
             _ <- invoke (mon_dec_timed i MON_TMD_SLEEP d MON_TMD_FLG_NOMESSAGE) ;;
             (* Notice the "not waking up" *)
             m <- gets (fun gm => mon gm i) ;;
             when_ (ml m && negb (unaware m))
               (l <- gets (fun gm => lore gm lore_idx) ;;
                (* Hack -- Count the ignores *)
                when_ (ignore l <? MAX_UCHAR)
                  (modify (upd_lore lore_idx (set_ignore (ignore l + 1))))) ;;
             ret false
           else
             (* Reset sleep counter *)
             woke_up <-
               invoke (mon_clear_timed i MON_TMD_SLEEP MON_TMD_FLG_NOMESSAGE) ;;
             (* Notice the "waking up" *)
             m <- gets (fun gm => mon gm i) ;;
             when_ (ml m && negb (unaware m))
               ((* Dump a message *)
                invoke (msg "%s wakes up.") ;;
                (* Hack -- Update the health bar *)
                redraw_health i ;;
                l <- gets (fun gm => lore gm lore_idx) ;;
                (* Hack -- Count the wakings *)
                when_ (wake l <? MAX_UCHAR)
                  (modify (upd_lore lore_idx (set_wake (wake l + 1))))) ;;
             ret woke_up
         else ret false) ;;
      m <- gets (fun gm => mon gm i) ;;
      (* Still sleeping *)
      if nz (m_timed m MON_TMD_SLEEP) then ret true
      (* If the monster just woke up, then it doesn't act *)
      else ret woke_up
  else ret false.

(** Recovery of CONF and FEAR: [d = randint1(level / 10 + 1)] *)
Definition recover (i : Z) (t : mon_tmd) : M unit :=
  m <- gets (fun gm => mon gm i) ;;
  when_ (nz (m_timed m t))
    (d <- randint1 (Z.quot (level (race_of m)) 10 + 1) ;;
     m <- gets (fun gm => mon gm i) ;;
     if m_timed m t >? d then
       _ <- invoke (mon_dec_timed i t d MON_TMD_FLG_NOMESSAGE) ;; ret tt
     else
       _ <- invoke (mon_clear_timed i t MON_TMD_FLG_NOTIFY) ;; ret tt).

(** Decay of FAST, SLOW, STUN, CONF and FEAR.  Returns TRUE when the
    monster is still stunned ([process_monster] returns). *)
Definition process_timers (i : Z) : M bool :=
  m <- gets (fun gm => mon gm i) ;;
  when_ (nz (m_timed m MON_TMD_FAST))
    (_ <- invoke (mon_dec_timed i MON_TMD_FAST 1 MON_TMD_FLG_NONE) ;; ret tt) ;;
  m <- gets (fun gm => mon gm i) ;;
  when_ (nz (m_timed m MON_TMD_SLOW))
    (_ <- invoke (mon_dec_timed i MON_TMD_SLOW 1 MON_TMD_FLG_NONE) ;; ret tt) ;;
  m <- gets (fun gm => mon gm i) ;;
  stunned <-
    (if nz (m_timed m MON_TMD_STUN) then
       (* Make a "saving throw" against stun *)
       r <- randint0 5000 ;;
       m <- gets (fun gm => mon gm i) ;;
       let d :=
         if r <=? level (race_of m) * level (race_of m)
         then (* Recover fully *) m_timed m MON_TMD_STUN
         else 1 in
       (* Hack -- Recover from stun *)
       (if m_timed m MON_TMD_STUN >? d then
          _ <- invoke (mon_dec_timed i MON_TMD_STUN 1 MON_TMD_FLG_NOMESSAGE) ;;
          ret tt
        else
          _ <- invoke (mon_clear_timed i MON_TMD_STUN MON_TMD_FLG_NOTIFY) ;;
          ret tt) ;;
       (* Still stunned *)
       m <- gets (fun gm => mon gm i) ;;
       ret (nz (m_timed m MON_TMD_STUN))
     else ret false) ;;
  if stunned then ret true
  else
    recover i MON_TMD_CONF ;;
    recover i MON_TMD_FEAR ;;
    ret false.

(** The rows and columns [v-1 .. v+1] scanned around the monster. *)
Definition around1 (v : Z) : list Z := seqZ (v - 1) 3.

(** Count the adjacent monsters: the grids of the 3x3 block around
    [(oy, ox)] with [m_idx > 0]. *)
Definition count_adjacent (gm : game) (oy ox : Z) : Z :=
  Z.of_nat (length
    (List.filter (fun yx => m_idx (cave gm) (fst yx) (snd yx) >? 0)
       (flat_map (fun y => map (fun x => (y, x)) (around1 ox))
          (around1 oy)))).

(** Multiply slower in crowded areas: the breeding test on the count [k]
    and the draw [r] of [randint0(k * MON_MULT_ADJ)]. *)
Definition breeds (k r : Z) : bool := (k <? 4) && ((k =? 0) || (r =? 0)).

(** [(k < 4) && (k == 0 || one_in_(k * MON_MULT_ADJ))] *)
Definition multiply_attempt (k : Z) : M bool :=
  if k <? 4 then
    if k =? 0 then ret true else one_in_ (k * MON_MULT_ADJ)
  else ret false.

(** Attempt to "multiply".  Returns TRUE when the monster bred
    ([process_monster] returns: multiplying takes energy). *)
Definition process_multiply (i lore_idx oy ox : Z) : M bool :=
  gm <- gets (fun gm => gm) ;;
  if num_repro gm <? MAX_REPRO then
    (* Count the adjacent monsters *)
    let k := count_adjacent gm oy ox in
    (* Multiply slower in crowded areas *)
    attempt <- multiply_attempt k ;;
    if attempt then
      (* Successful breeding attempt, learn about that now *)
      learn_flag i lore_idx RF_MULTIPLY ;;
      (* Try to multiply (only breeders allowed) *)
      m <- gets (fun gm => mon gm i) ;;
      bred <- (if rf_has m RF_MULTIPLY then invoke (multiply_monster i)
               else ret false) ;;
      if bred then
        (* Make a sound *)
        m <- gets (fun gm => mon gm i) ;;
        when_ (ml m) (invoke (sound "MSG_MULTIPLY")) ;;
        (* Multiplying takes energy *)
        ret true
      else ret false
    else ret false
  else ret false.

(** Random movement.  Returns the local [stagger]. *)
Definition choose_stagger (i lore_idx : Z) : M bool :=
  m <- gets (fun gm => mon gm i) ;;
  (* Confused *)
  if nz (m_timed m MON_TMD_CONF) then ret true
  else
    (* Random movement - always attempt for lore purposes *)
    roll <- randint0 100 ;;
    m <- gets (fun gm => mon gm i) ;;
    if roll <? 25 then
      (* Learn about small random movement *)
      learn_flag i lore_idx RF_RAND_25 ;;
      ret (rf_has m RF_RAND_25 || rf_has m RF_RAND_50)
    else if roll <? 50 then
      (* Learn about medium random movement *)
      learn_flag i lore_idx RF_RAND_50 ;;
      ret (rf_has m RF_RAND_50)
    else if roll <? 75 then
      ret (rf_has m RF_RAND_25 && rf_has m RF_RAND_50)
    else ret false.

(** The locals [do_turn], [do_move], [do_view] of [process_monster]. *)
Record step_vars : Type := {
  do_turn : bool;
  do_move : bool;
  do_view : bool
}.

Definition set_do_turn (b : bool) (v : step_vars) : step_vars :=
  {| do_turn := b; do_move := do_move v; do_view := do_view v |}.
Definition set_do_move (b : bool) (v : step_vars) : step_vars :=
  {| do_turn := do_turn v; do_move := b; do_view := do_view v |}.
Definition set_do_view (b : bool) (v : step_vars) : step_vars :=
  {| do_turn := do_turn v; do_move := do_move v; do_view := b |}.

(** Handle doors and secret doors *)
Definition step_door (i lore_idx ny nx : Z) (v : step_vars) : M step_vars :=
  (* Take a turn *)
  let v := set_do_turn true v in
  (* Learn about door abilities *)
  learn_flag i lore_idx RF_OPEN_DOOR ;;
  learn_flag i lore_idx RF_BASH_DOOR ;;
  m <- gets (fun gm => mon gm i) ;;
  (* Creature can open or bash doors *)
  if rf_has m RF_OPEN_DOOR || rf_has m RF_BASH_DOOR then
    may_bash <- (if rf_has m RF_BASH_DOOR then one_in_ 2 else ret false) ;;
    gm <- gets (fun gm => gm) ;;
    (* Stuck door -- try to unlock it *)
    if square_islockeddoor gm ny nx then
      let k := square_door_power gm ny nx in
      r <- randint0 (Z.quot (hp (mon gm i)) 10) ;;
      (if r >? k then
         (* Print a message *)
         m <- gets (fun gm => mon gm i) ;;
         (if ml m then
            if may_bash then invoke (msg "%s slams against the door.")
            else invoke (msg "%s fiddles with the lock.")
          else
            if may_bash then invoke (msg "Something slams against a door.")
            else invoke (msg "Something fiddles with a lock.")) ;;
         (* Reduce the power of the door by one *)
         gm <- gets (fun gm => gm) ;;
         invoke (square_set_feat ny nx (feat (cave gm) ny nx - 1))
       else ret tt) ;;
      ret v
    else
      (* Closed or secret door -- open or bash if allowed *)
      v <-
        (if may_bash then
           invoke (square_smash_door ny nx) ;;
           invoke (msg "You hear a door burst open!") ;;
           invoke (disturb 0) ;;
           (* Fall into doorway *)
           ret (set_do_move true v)
         else
           invoke (square_open_door ny nx) ;; ret v) ;;
      (* Handle viewable doors *)
      gm <- gets (fun gm => gm) ;;
      ret (if player_has_los_bold gm ny nx then set_do_view true v else v)
  else ret v.

(** What is in the way at [(ny, nx)]: floor, walls and doors. *)
Definition step_terrain (i lore_idx ny nx : Z) (v : step_vars) : M step_vars :=
  gm <- gets (fun gm => gm) ;;
  (* Floor is open? *)
  if square_ispassable gm ny nx then
    (* Go ahead and move *)
    ret (set_do_move true v)
  (* Permanent wall in the way *)
  else if square_iswall gm ny nx && square_isperm gm ny nx then ret v
  (* Normal wall, door, or secret door in the way *)
  else
    (* Learn about kill-wall and pass-wall now *)
    learn_flag i lore_idx RF_PASS_WALL ;;
    learn_flag i lore_idx RF_KILL_WALL ;;
    m <- gets (fun gm => mon gm i) ;;
    (* Monster moves through walls (and doors) *)
    if rf_has m RF_PASS_WALL then ret (set_do_move true v)
    (* Monster destroys walls (and doors) *)
    else if rf_has m RF_KILL_WALL then
      (* Eat through walls/doors/rubble *)
      let v := set_do_move true v in
      (* Forget the wall *)
      modify (upd_cave (mark_off ny nx)) ;;
      (* Notice *)
      invoke (square_destroy_wall ny nx) ;;
      (* Note changes to viewable region *)
      gm <- gets (fun gm => gm) ;;
      ret (if player_has_los_bold gm ny nx then set_do_view true v else v)
    else
      gm <- gets (fun gm => gm) ;;
      if square_iscloseddoor gm ny nx || square_issecretdoor gm ny nx then
        step_door i lore_idx ny nx v
      else ret v.

(** The glyph test on the draw [r] of [randint1(BREAK_GLYPH)]. *)
Definition ward_breaks (r lvl : Z) : bool := r <? lvl.

(** Hack -- check for Glyph of Warding *)
Definition step_glyph (i ny nx : Z) (v : step_vars) : M step_vars :=
  gm <- gets (fun gm => gm) ;;
  if do_move v && square_iswarded gm ny nx then
    (* Assume no move allowed *)
    let v := set_do_move false v in
    (* Break the ward *)
    r <- randint1 BREAK_GLYPH ;;
    m <- gets (fun gm => mon gm i) ;;
    if ward_breaks r (level (race_of m)) then
      (* Describe observable breakage *)
      gm <- gets (fun gm => gm) ;;
      when_ (mark (cave gm) ny nx)
        (invoke (msg "The rune of protection is broken!")) ;;
      (* Forget the rune *)
      modify (upd_cave (mark_off ny nx)) ;;
      (* Break the rune *)
      invoke (square_remove_ward ny nx) ;;
      (* Allow movement *)
      ret (set_do_move true v)
    else ret v
  else ret v.

(** The player is in the way. *)
Definition step_player (i lore_idx ny nx : Z) (v : step_vars) : M step_vars :=
  gm <- gets (fun gm => gm) ;;
  if do_move v && (m_idx (cave gm) ny nx <? 0) then
    (* Learn about if the monster attacks *)
    learn_flag i lore_idx RF_NEVER_BLOW ;;
    m <- gets (fun gm => mon gm i) ;;
    (* Some monsters never attack *)
    if rf_has m RF_NEVER_BLOW then
      (* Do not move *)
      ret (set_do_move false v)
    (* Otherwise, attack the player *)
    else
      (* Do the attack *)
      _ <- make_attack_normal i ;;
      (* Do not move; took a turn *)
      ret (set_do_turn true (set_do_move false v))
  else ret v.

(** Some monsters never move *)
Definition step_never_move (i lore_idx : Z) (v : step_vars) : M step_vars :=
  m <- gets (fun gm => mon gm i) ;;
  if do_move v && rf_has m RF_NEVER_MOVE then
    (* Learn about lack of movement *)
    learn_flag i lore_idx RF_NEVER_MOVE ;;
    (* Do not move *)
    ret (set_do_move false v)
  else ret v.

(** A monster is in the way *)
Definition step_monster (i lore_idx ny nx : Z) (v : step_vars) : M step_vars :=
  gm <- gets (fun gm => gm) ;;
  if do_move v && (m_idx (cave gm) ny nx >? 0) then
    let m := mon gm i in
    let n_idx := m_idx (cave gm) ny nx in
    let n := mon gm n_idx in
    (* Kill weaker monsters *)
    let kill_ok := rf_has m RF_KILL_BODY in
    (* Move weaker monsters if they can swap places (not in a wall) *)
    let move_ok :=
      rf_has m RF_MOVE_BODY && square_ispassable gm (fy m) (fx m) in
    (* Assume no movement *)
    let v := set_do_move false v in
    if compare_monsters m n >? 0 then
      (* Learn about pushing and shoving *)
      learn_flag i lore_idx RF_KILL_BODY ;;
      learn_flag i lore_idx RF_MOVE_BODY ;;
      if kill_ok || move_ok then
        (* Allow movement *)
        let v := set_do_move true v in
        (* Reveal mimics *)
        gm <- gets (fun gm => gm) ;;
        when_ (is_mimicking gm n_idx) (invoke (become_aware n_idx)) ;;
        m <- gets (fun gm => mon gm i) ;;
        (* Monster ate another monster *)
        (if kill_ok then
           (* Note if visible *)
           when_ (ml m && mflag_view m)
             (invoke (msg "%s tramples over %s.")) ;;
           invoke (delete_monster ny nx)
         else
           (* Note if visible *)
           when_ (ml m && mflag_view m)
             (invoke (msg "%s pushes past %s."))) ;;
        ret v
      else ret v
    else ret v
  else ret v.

(** Take or kill one object of the grid the monster moved to. *)
Definition step_object (i lore_idx ny nx : Z) (this : Z * object_type)
  : M unit :=
  let this_o_idx := fst this in
  let o := snd this in
  (* Skip gold *)
  if bool_decide (tval o = TV_GOLD) then ret tt
  else
    (* Learn about item pickup behavior *)
    learn_flag i lore_idx RF_TAKE_ITEM ;;
    learn_flag i lore_idx RF_KILL_ITEM ;;
    gm <- gets (fun gm => gm) ;;
    let m := mon gm i in
    (* Take or Kill objects on the floor *)
    if rf_has m RF_TAKE_ITEM || rf_has m RF_KILL_ITEM then
      (* React to objects that hurt the monster *)
      let mon_flags := react_to_slay o in
      (* The object cannot be picked up by the monster *)
      if artifact o || rf_is_inter (flags (race_of m)) mon_flags then
        (* Only give a message for "take_item" *)
        when_ (rf_has m RF_TAKE_ITEM)
          ((* Describe observable situations *)
           when_ (ml m && player_has_los_bold gm ny nx
                  && negb (squelch_item_ok gm o))
             (invoke (msg "%s tries to pick up %s, but fails.")))
      (* Pick up the item *)
      else if rf_has m RF_TAKE_ITEM then
        (* Describe observable situations *)
        when_ (player_has_los_bold gm ny nx && negb (squelch_item_ok gm o))
          (invoke (msg "%s picks up %s.")) ;;
        (* Delete the object *)
        invoke (delete_object_idx this_o_idx) ;;
        (* Carry the object *)
        _ <- invoke (monster_carry i o) ;;
        ret tt
      (* Destroy the item *)
      else
        (* Describe observable situations *)
        when_ (player_has_los_bold gm ny nx && negb (squelch_item_ok gm o))
          (invoke (msgt "%s crushes %s.")) ;;
        (* Delete the object *)
        invoke (delete_object_idx this_o_idx)
    else ret tt.

Fixpoint step_objects (i lore_idx ny nx : Z) (objs : list (Z * object_type))
  : M unit :=
  match objs with
  | [] => ret tt
  | this :: next =>
      step_object i lore_idx ny nx this ;;
      step_objects i lore_idx ny nx next
  end.

(** Creature has been allowed move *)
Definition step_move (i lore_idx oy ox ny nx : Z) (v : step_vars)
  : M step_vars :=
  if do_move v then
    (* Learn about no lack of movement *)
    learn_flag i lore_idx RF_NEVER_MOVE ;;
    (* Take a turn *)
    let v := set_do_turn true v in
    (* Move the monster *)
    invoke (monster_swap oy ox ny nx) ;;
    (* Possible disturb *)
    gm <- gets (fun gm => gm) ;;
    let m := mon gm i in
    when_ (ml m && mflag_view m && disturb_near (opt gm))
      (invoke (disturb 0)) ;;
    (* Scan all objects in the grid *)
    gm <- gets (fun gm => gm) ;;
    step_objects i lore_idx ny nx (floor_objects gm ny nx) ;;
    ret v
  else ret v.

(** One round of the step loop, for the candidate grid [(ny, nx)]. *)
Definition try_step (i lore_idx oy ox ny nx : Z) (v : step_vars)
  : M step_vars :=
  v <- step_terrain i lore_idx ny nx v ;;
  v <- step_glyph i ny nx v ;;
  v <- step_player i lore_idx ny nx v ;;
  v <- step_never_move i lore_idx v ;;
  v <- step_monster i lore_idx ny nx v ;;
  step_move i lore_idx oy ox ny nx v.

(** Process moves: [for (i = 0; i < 5; i++)]; [fuel] rounds are left and
    [k] is the loop counter. *)
Fixpoint step_loop (fuel : nat) (i lore_idx oy ox : Z) (stagger : bool)
    (mm : Z -> Z) (k : Z) (v : step_vars) : M step_vars :=
  match fuel with
  | O => ret v
  | S fuel' =>
      (* Get the direction (or stagger) *)
      d <- (if stagger then r <- randint0 8 ;; ret (ddd r) else ret (mm k)) ;;
      (* Get the destination *)
      let ny := oy + ddy d in
      let nx := ox + ddx d in
      v <- try_step i lore_idx oy ox ny nx v ;;
      (* Stop when done *)
      if do_turn v then ret v
      else step_loop fuel' i lore_idx oy ox stagger mm (k + 1) v
  end.

(** What [process_monster] does after the step loop. *)
Definition after_steps (i : Z) (v : step_vars) : M unit :=
  m <- gets (fun gm => mon gm i) ;;
  let v := if rf_has m RF_HAS_LIGHT then set_do_view true v else v in
  (* Notice changes in view *)
  when_ (do_view v)
    ((* Update the visuals *)
     modify (upd_player (pbit_on PU_UPDATE_VIEW)) ;;
     modify (upd_player (pbit_on PU_MONSTERS)) ;;
     (* Fully update the flow XXX XXX XXX *)
     modify (upd_player (pbit_on PU_FORGET_FLOW)) ;;
     modify (upd_player (pbit_on PU_UPDATE_FLOW))) ;;
  (* Hack -- get "bold" if out of options *)
  m <- gets (fun gm => mon gm i) ;;
  when_ (negb (do_turn v) && negb (do_move v) && nz (m_timed m MON_TMD_FEAR))
    (_ <- invoke (mon_clear_timed i MON_TMD_FEAR MON_TMD_FLG_NOTIFY) ;; ret tt) ;;
  (* If we see an unaware monster do something, become aware of it *)
  m <- gets (fun gm => mon gm i) ;;
  when_ (do_turn v && unaware m) (invoke (become_aware i)).

(** Spell, movement and blows of a monster that is awake and did not
    breed. *)
Definition process_act (i lore_idx oy ox : Z) : M unit :=
  (* Mimics lie in wait *)
  gm <- gets (fun gm => gm) ;;
  if is_mimicking gm i then ret tt
  else
    (* Attempt to cast a spell *)
    cast <- make_attack_spell i ;;
    if cast then ret tt
    else
      stagger <- choose_stagger i lore_idx ;;
      (* Normal movement: logical moves, may do nothing *)
      moves <- (if negb stagger then invoke (get_moves i)
                else ret (Some (fun _ : Z => 0))) ;;
      match moves with
      | None => ret tt
      | Some mm =>
          (* Assume nothing *)
          let v := {| do_turn := false; do_move := false; do_view := false |} in
          (* Process moves *)
          v <- step_loop 5 i lore_idx oy ox stagger mm 0 v ;;
          after_steps i v
      end.

(** The pass of a monster that is awake and not stunned. *)
Definition process_awake (i lore_idx : Z) : M unit :=
  (* Get the origin *)
  m <- gets (fun gm => mon gm i) ;;
  let oy := fy m in
  let ox := fx m in
  bred <- process_multiply i lore_idx oy ox ;;
  if bred then ret tt
  else process_act i lore_idx oy ox.

(** Process a monster *)
Definition process_monster (i : Z) : M unit :=
  m <- gets (fun gm => mon gm i) ;;
  let lore_idx := ridx (race_of m) in
  asleep <- process_sleep i lore_idx ;;
  if asleep then ret tt
  else
    stunned <- process_timers i ;;
    if stunned then ret tt
    else
      process_awake i lore_idx.

(** * The turn scheduler *)

(** The awareness radius used by the scheduler and the flow test. *)
Definition effective_aaf (gm : game) (m : monster) : Z :=
  if birth_small_range (opt gm) then Z.quot (aaf (race_of m)) 2
  else aaf (race_of m).

Definition monster_can_flow (gm : game) (m : monster) : bool :=
  let c := cave gm in
  (* Check the flow (normal aaf is about 20) *)
  (when c (fy m) (fx m) =? when c (py (p_ptr gm)) (px (p_ptr gm)))
  && (cost c (fy m) (fx m) <? MONSTER_FLOW_DEPTH)
  && (cost c (fy m) (fx m) <? effective_aaf gm m).

(** The test that sends a monster with enough energy to
    [process_monster]. *)
Definition wakes (gm : game) (m : monster) : bool :=
  (cdis m <=? effective_aaf gm m)
  || (hp m <? maxhp m)
  || player_has_los_bold gm (fy m) (fx m)
  || monster_can_flow gm m.

(** The body of the scheduler loop for the monster of index [i], after
    the "leaving" test.  Returns whether [process_monster] was called. *)
Definition visit (minimum_energy : Z) (i : Z) : M bool :=
  (* Get the monster *)
  m <- gets (fun gm => mon gm i) ;;
  match race m with
  | None =>
      (* Ignore "dead" monsters *)
      ret false
  | Some _ =>
      (* Not enough energy to move *)
      if energy m <? minimum_energy then ret false
      else
        (* Use up "some" energy *)
        modify (upd_mon i (fun m => set_energy (energy m - 100) m)) ;;
        gm <- gets (fun gm => gm) ;;
        if wakes gm (mon gm i) then
          (* Process the monster *)
          process_monster i ;;
          ret true
        else ret false
  end.

(** Process the monsters (backwards): [for (i = n; i >= 1; i--)].
    The result lists, in order, the indices handed to [process_monster]
    (a ghost value: the C function returns nothing). *)
Fixpoint process_monsters_from (n : nat) (minimum_energy : Z) : M (list Z) :=
  match n with
  | O => ret []
  | S n' =>
      let i := Z.of_nat n in
      (* Handle "leaving" *)
      p <- gets p_ptr ;;
      if leaving p then ret []
      else
        processed <- visit minimum_energy i ;;
        others <- process_monsters_from n' minimum_energy ;;
        ret (if processed then i :: others else others)
  end.

(** Process all the "live" monsters, once per game turn. *)
Definition process_monsters (minimum_energy : Z) : M (list Z) :=
  gm <- gets (fun gm => gm) ;;
  process_monsters_from (Z.to_nat (cave_monster_max gm - 1)) minimum_energy.

(** The scheduler loop without its "leaving" test, over a list of
    indices. *)
Fixpoint run_visits (minimum_energy : Z) (indices : list Z) : M (list Z) :=
  match indices with
  | [] => ret []
  | i :: indices' =>
      processed <- visit minimum_energy i ;;
      others <- run_visits minimum_energy indices' ;;
      ret (if processed then i :: others else others)
  end.

(** The indices [n, n-1, ..., k+1]. *)
Definition downto (n k : nat) : list Z :=
  map Z.of_nat (rev (seq (S k) (n - k))).

(** The world in which the scheduler, started at index [n], reaches the
    monster of index [k]. *)
Definition reach (n k : nat) (minimum_energy : Z) (w : world) : world :=
  snd (run_visits minimum_energy (downto n k) w).

(** ** Invariants of the cave *)

(** The occupancy grid agrees with the positions: the player's grid is
    marked negative and the grid of each live monster carries its index
    (a positive one: slot 0 of the monster list is never used). *)
Definition cave_consistent (gm : game) : Prop :=
  m_idx (cave gm) (py (p_ptr gm)) (px (p_ptr gm)) < 0
  /\ forall (i : nat) (m : monster),
       mons gm !! i = Some m -> race m <> None ->
       (0 < i)%nat /\ m_idx (cave gm) (fy m) (fx m) = Z.of_nat i.

(** No live monster stands on the player's grid. *)
Definition no_monster_on_player (gm : game) : Prop :=
  forall (i : nat) (m : monster),
    mons gm !! i = Some m -> race m <> None ->
    (fy m, fx m) <> (py (p_ptr gm), px (p_ptr gm)).

(** A call of [monster_swap] whose target grid does not hold the player. *)
Definition swap_target_free (e : entry) : Prop :=
  match what e with
  | existT _ c =>
      match c with
      | monster_swap _ _ y2 x2 => 0 <= m_idx (cave (at_state e)) y2 x2
      | _ => True
      end
  end.

(** The object a [monster_carry] call hands over, and to whom. *)
Definition carried (e : event) : option (Z * object_type) :=
  match e with
  | existT _ c =>
      match c with
      | monster_carry i o => Some (i, o)
      | _ => None
      end
  end.

(** The monster's hit points do not exceed its maximum. *)
Definition hp_bounded (i : Z) (gm : game) : Prop :=
  hp (mon gm i) <= maxhp (mon gm i).

(** No wand or staff of the pack has a negative number of charges. *)
Definition charges_ok (gm : game) : Prop :=
  forall o, In o (inventory (p_ptr gm)) ->
    tval o = TV_STAFF \/ tval o = TV_WAND -> 0 <= pval o.

(** Every service keeps the property [I] of the state. *)
Definition services_keep (I : game -> Prop) : Prop :=
  forall R (c : call R) gm, I gm -> I (snd (ext R c gm)).

(** A service that does not touch the player's gold. *)
Definition leaves_purse {R} (c : call R) : Prop :=
  forall gm, au (p_ptr (snd (ext R c gm))) = au (p_ptr gm).

(** What the gold thief relies on: the random numbers, the messages and
    [monster_carry] leave the purse alone, and [Rand_div n] draws from
    [0 .. n-1]. *)
Record purse_services : Prop := {
  ps_rand : forall n, leaves_purse (Rand_div n);
  ps_msg : forall s, leaves_purse (msg s);
  ps_carry : forall i o, leaves_purse (monster_carry i o);
  ps_range : forall n gm, 0 < n -> 0 <= fst (ext Z (Rand_div n) gm) < n
}.

Definition total (l : list Z) : Z := foldr Z.add 0 l.

(** A step that leaves the purse alone and hands nothing to a monster. *)
Definition quiet_step (w w' : world) : Prop :=
  au (p_ptr (g w')) = au (p_ptr (g w))
  /\ exists l, tr w' = tr w ++ l /\ omap carried (map what l) = [].

(** The handler context asks for the blink. *)
Definition blinking (c : melee_ctx) : Prop := ctx_blinked c = true.

(** A property of the result of a computation, whatever the state. *)
Definition always {A} (c : M A) (Q : A -> Prop) : Prop :=
  forall w, Q (fst (c w)).

(** The cave is consistent and no [monster_swap] so far went onto the
    player's grid. *)
Definition good (w : world) : Prop :=
  cave_consistent (g w) /\ Forall swap_target_free (tr w).

(** What the step loop relies on: every service keeps the cave
    consistent (for [monster_swap], as long as its target grid does not
    hold the player), and waking a mimic, printing a message and deleting
    a monster do not put the player on a grid. *)
Record fair_services : Prop := {
  fs_consistent :
    forall R (c : call R) gm,
      swap_target_free {| at_state := gm; what := ev c |} ->
      cave_consistent gm -> cave_consistent (snd (ext R c gm));
  fs_aware :
    forall i gm y x,
      0 <= m_idx (cave gm) y x ->
      0 <= m_idx (cave (snd (ext unit (become_aware i) gm))) y x;
  fs_msg :
    forall s gm y x,
      0 <= m_idx (cave gm) y x ->
      0 <= m_idx (cave (snd (ext unit (msg s) gm))) y x;
  fs_delete :
    forall y' x' gm y x,
      0 <= m_idx (cave gm) y x ->
      0 <= m_idx (cave (snd (ext unit (delete_monster y' x') gm))) y x
}.

(** While the step loop is about to move the monster to [(ny, nx)], that
    grid does not hold the player. *)
Definition target_free (ny nx : Z) (v : step_vars) (w : world) : Prop :=
  good w /\ (do_move v = true -> 0 <= m_idx (cave (g w)) ny nx).

(** A computation that keeps the world [good]. *)
Definition keeps {A} (c : M A) : Prop :=
  forall w, good w -> good (snd (c w)).

(** A write to the state that leaves the occupancy grid, the player's
    position and the monsters' positions and races alone. *)
Definition inert (f : game -> game) : Prop :=
  forall gm,
    m_idx (cave (f gm)) = m_idx (cave gm)
    /\ (cave_consistent gm -> cave_consistent (f gm)).

(** The calls a computation adds to the trace. *)
Definition new_calls {A} (c : M A) (w : world) : list event :=
  map what (drop (length (tr w)) (tr (snd (c w)))).

End Process.

(** * Distance rings

    [dist_offsets_y[n]] and [dist_offsets_x[n]]: the offsets of all the
    locations with a distance of [n] from a central point, with an offset
    of (0,0) indicating no more offsets at this distance. *)

Definition d_off_y_0 : list Z :=
  [0].

Definition d_off_x_0 : list Z :=
  [0].

Definition d_off_y_1 : list Z :=
  [-1; -1; -1; 0; 0; 1; 1; 1; 0].

Definition d_off_x_1 : list Z :=
  [-1; 0; 1; -1; 1; -1; 0; 1; 0].

Definition d_off_y_2 : list Z :=
  [-1; -1; -2; -2; -2; 0; 0; 1; 1; 2; 2; 2; 0].

Definition d_off_x_2 : list Z :=
  [-2; 2; -1; 0; 1; -2; 2; -2; 2; -1; 0; 1; 0].

Definition d_off_y_3 : list Z :=
  [-1; -1; -2; -2; -3; -3; -3; 0; 0; 1; 1; 2; 2; 3; 3; 3; 0].

Definition d_off_x_3 : list Z :=
  [-3; 3; -2; 2; -1; 0; 1; -3; 3; -3; 3; -2; 2; -1; 0; 1; 0].

Definition d_off_y_4 : list Z :=
  [-1; -1; -2; -2; -3; -3; -3; -3; -4; -4; -4; 0; 0; 1; 1; 2; 2; 3; 3; 3;
   3; 4; 4; 4; 0].

Definition d_off_x_4 : list Z :=
  [-4; 4; -3; 3; -2; -3; 2; 3; -1; 0; 1; -4; 4; -4; 4; -3; 3; -2; -3; 2; 3;
   -1; 0; 1; 0].

Definition d_off_y_5 : list Z :=
  [-1; -1; -2; -2; -3; -3; -4; -4; -4; -4; -5; -5; -5; 0; 0; 1; 1; 2; 2; 3;
   3; 4; 4; 4; 4; 5; 5; 5; 0].

Definition d_off_x_5 : list Z :=
  [-5; 5; -4; 4; -4; 4; -2; -3; 2; 3; -1; 0; 1; -5; 5; -5; 5; -4; 4; -4; 4;
   -2; -3; 2; 3; -1; 0; 1; 0].

Definition d_off_y_6 : list Z :=
  [-1; -1; -2; -2; -3; -3; -4; -4; -5; -5; -5; -5; -6; -6; -6; 0; 0; 1; 1;
   2; 2; 3; 3; 4; 4; 5; 5; 5; 5; 6; 6; 6; 0].

Definition d_off_x_6 : list Z :=
  [-6; 6; -5; 5; -5; 5; -4; 4; -2; -3; 2; 3; -1; 0; 1; -6; 6; -6; 6; -5; 5;
   -5; 5; -4; 4; -2; -3; 2; 3; -1; 0; 1; 0].

Definition d_off_y_7 : list Z :=
  [-1; -1; -2; -2; -3; -3; -4; -4; -5; -5; -5; -5; -6; -6; -6; -6; -7; -7;
   -7; 0; 0; 1; 1; 2; 2; 3; 3; 4; 4; 5; 5; 5; 5; 6; 6; 6; 6; 7; 7; 7; 0].

Definition d_off_x_7 : list Z :=
  [-7; 7; -6; 6; -6; 6; -5; 5; -4; -5; 4; 5; -2; -3; 2; 3; -1; 0; 1; -7; 7;
   -7; 7; -6; 6; -6; 6; -5; 5; -4; -5; 4; 5; -2; -3; 2; 3; -1; 0; 1; 0].

Definition d_off_y_8 : list Z :=
  [-1; -1; -2; -2; -3; -3; -4; -4; -5; -5; -6; -6; -6; -6; -7; -7; -7; -7;
   -8; -8; -8; 0; 0; 1; 1; 2; 2; 3; 3; 4; 4; 5; 5; 6; 6; 6; 6; 7; 7; 7; 7;
   8; 8; 8; 0].

Definition d_off_x_8 : list Z :=
  [-8; 8; -7; 7; -7; 7; -6; 6; -6; 6; -4; -5; 4; 5; -2; -3; 2; 3; -1; 0; 1;
   -8; 8; -8; 8; -7; 7; -7; 7; -6; 6; -6; 6; -4; -5; 4; 5; -2; -3; 2; 3;
   -1; 0; 1; 0].

Definition d_off_y_9 : list Z :=
  [-1; -1; -2; -2; -3; -3; -4; -4; -5; -5; -6; -6; -7; -7; -7; -7; -8; -8;
   -8; -8; -9; -9; -9; 0; 0; 1; 1; 2; 2; 3; 3; 4; 4; 5; 5; 6; 6; 7; 7; 7;
   7; 8; 8; 8; 8; 9; 9; 9; 0].

Definition d_off_x_9 : list Z :=
  [-9; 9; -8; 8; -8; 8; -7; 7; -7; 7; -6; 6; -4; -5; 4; 5; -2; -3; 2; 3;
   -1; 0; 1; -9; 9; -9; 9; -8; 8; -8; 8; -7; 7; -7; 7; -6; 6; -4; -5; 4; 5;
   -2; -3; 2; 3; -1; 0; 1; 0].

Definition dist_offsets_y : list (list Z) :=
  [d_off_y_0; d_off_y_1; d_off_y_2; d_off_y_3; d_off_y_4;
   d_off_y_5; d_off_y_6; d_off_y_7; d_off_y_8; d_off_y_9].

Definition dist_offsets_x : list (list Z) :=
  [d_off_x_0; d_off_x_1; d_off_x_2; d_off_x_3; d_off_x_4;
   d_off_x_5; d_off_x_6; d_off_x_7; d_off_x_8; d_off_x_9].

(** The offsets [(dy, dx)] listed for the distance [n], up to the closing
    (0,0). *)
Definition ring (n : nat) : list (Z * Z) :=
  List.filter (fun o => negb ((fst o =? 0) && (snd o =? 0)))
    (combine (nth n dist_offsets_y []) (nth n dist_offsets_x [])).

(** * Choosing where to go: [get_moves] and its helpers

    [process_act] above reaches [get_moves] through the service of that
    name; here is the routine itself as the file defines it, with
    [near_permwall], [get_moves_aux], [get_fear_moves_aux], [find_safety]
    and [find_hiding].  Out parameters [*yp] and [*xp] are returned next
    to the C result. *)

Section MoveEnv.
Context {Hd : Hidden}.

(** What this part reads besides [Services]: two more grid predicates of
    cave.c, the offsets of the eight neighbours ([ddy_ddd], [ddx_ddd]) and
    the race flag GROUP_AI. *)
Class MoveServices : Type := {
  square_in_bounds_fully : game -> Z -> Z -> bool;
  square_isroom : game -> Z -> Z -> bool;
  ddy_ddd : Z -> Z;
  ddx_ddd : Z -> Z;
  RF_GROUP_AI : rflag
}.

End MoveEnv.

Section Moves.
Context {K : Constants} {Hd : Hidden} {Sv : Services} {Mv : MoveServices}.

(** [flags_test(m_ptr->race->flags, RF_SIZE, RF_PASS_WALL, RF_KILL_WALL,
    FLAG_END)] *)
Definition goes_through_rock (m : monster) : bool :=
  rf_has m RF_PASS_WALL || rf_has m RF_KILL_WALL.

(** Find whether a monster is near a permanent wall *)
Definition near_permwall (i : Z) : M bool :=
  gm <- gets (fun gm => gm) ;;
  let my := fy (mon gm i) in
  let mx := fx (mon gm i) in
  (* if PC is in LOS, there's no need to go around walls *)
  if projectable gm my mx (py (p_ptr gm)) (px (p_ptr gm)) false then ret false
  else
    (* PASS_WALL & KILL_WALL monsters occasionally flow for a turn anyway *)
    r <- randint0 99 ;;
    if r <? 5 then ret true
    else
      (* Search the nearby grids, which are always in bounds *)
      gm <- gets (fun gm => gm) ;;
      ret (existsb (fun y =>
             existsb (fun x =>
               if negb (square_in_bounds_fully gm y x) then false
               else square_isperm gm y x)
             (around2 mx))
           (around2 my)).

(** The locals [when], [cost], [*yp], [*xp] of [get_moves_aux]. *)
Record flow_best : Type := {
  fb_when : Z;
  fb_cost : Z;
  fb_y : Z;
  fb_x : Z
}.

(** One round of [for (i = 7; i >= 0; i--)] in [get_moves_aux]. *)
Definition flow_step (gm : game) (y1 x1 py0 px0 : Z) (acc : flow_best)
    (i : Z) : flow_best :=
  (* Get the location *)
  let y := y1 + ddy_ddd i in
  let x := x1 + ddx_ddd i in
  (* Ignore illegal locations *)
  if when (cave gm) y x =? 0 then acc
  (* Ignore ancient locations *)
  else if when (cave gm) y x <? fb_when acc then acc
  (* Ignore distant locations *)
  else if cost (cave gm) y x >? fb_cost acc then acc
  else
    (* Save the cost and time, and the "twiddled" location *)
    {| fb_when := when (cave gm) y x; fb_cost := cost (cave gm) y x;
       fb_y := py0 + 16 * ddy_ddd i; fb_x := px0 + 16 * ddx_ddd i |}.

(** Check nearby grids, diagonals first: [i = 7, 6, ..., 0]. *)
Definition neighbours_down : list Z := [7; 6; 5; 4; 3; 2; 1; 0].

(** Choose the "best" direction for "flowing" *)
Definition get_moves_aux (i : Z) (yp xp : Z) : M (bool * (Z * Z)) :=
  gm <- gets (fun gm => gm) ;;
  let py0 := py (p_ptr gm) in
  let px0 := px (p_ptr gm) in
  (* Monster can go through rocks *)
  direct <-
    (if goes_through_rock (mon gm i) then
       (* If monster is near a permwall, use normal pathfinding *)
       near <- near_permwall i ;; ret (negb near)
     else ret false) ;;
  if direct then ret (false, (yp, xp))
  else
    gm <- gets (fun gm => gm) ;;
    let m := mon gm i in
    let c := cave gm in
    (* Monster location *)
    let y1 := fy m in
    let x1 := fx m in
    (* The player is not currently near the monster grid, and has never
       been near it *)
    if (when c y1 x1 <? when c py0 px0) && (when c y1 x1 =? 0)
    then ret (false, (yp, xp))
    (* Monster is too far away to notice the player *)
    else if cost c y1 x1 >? MONSTER_FLOW_DEPTH then ret (false, (yp, xp))
    else if cost c y1 x1 >? effective_aaf gm m then ret (false, (yp, xp))
    (* Hack -- Player can see us, run towards him *)
    else if player_has_los_bold gm y1 x1 then ret (false, (yp, xp))
    else
      let best :=
        fold_left (flow_step gm y1 x1 py0 px0) neighbours_down
          {| fb_when := 0; fb_cost := 999; fb_y := yp; fb_x := xp |} in
      (* No legal move (?) *)
      if negb (nz (fb_when best)) then ret (false, (fb_y best, fb_x best))
      (* Success *)
      else ret (true, (fb_y best, fb_x best)).

(** The locals [when], [score], [gy], [gx] of [get_fear_moves_aux]. *)
Record fear_best : Type := {
  fe_when : Z;
  fe_score : Z;
  fe_gy : Z;
  fe_gx : Z
}.

(** The score of a grid at distance [dis] from the destination, with the
    flow cost [cst] (C divisions; the divisors are positive for a distance
    and a cost that are not negative). *)
Definition fear_score (dis cst : Z) : Z :=
  let s := Z.quot 5000 (dis + 3) - Z.quot 500 (cst + 1) in
  (* No negative scores *)
  if s <? 0 then 0 else s.

Definition fear_step (gm : game) (fy0 fx0 y1 x1 : Z) (acc : fear_best)
    (i : Z) : fear_best :=
  (* Get the location *)
  let y := fy0 + ddy_ddd i in
  let x := fx0 + ddx_ddd i in
  (* Ignore illegal locations *)
  if when (cave gm) y x =? 0 then acc
  (* Ignore ancient locations *)
  else if when (cave gm) y x <? fe_when acc then acc
  else
    (* Calculate distance of this grid from our destination *)
    let dis := distance y x y1 x1 in
    (* Score this grid *)
    let s := fear_score dis (cost (cave gm) y x) in
    (* Ignore lower scores *)
    if s <? fe_score acc then acc
    else
      (* Save the score and time, and the location *)
      {| fe_when := when (cave gm) y x; fe_score := s; fe_gy := y;
         fe_gx := x |}.

(** Provide a location to flee to, but give the player a wide berth. *)
Definition get_fear_moves_aux (gm : game) (m : monster) (yp xp : Z)
  : bool * (Z * Z) :=
  let c := cave gm in
  (* Player location *)
  let py0 := py (p_ptr gm) in
  let px0 := px (p_ptr gm) in
  (* Monster location *)
  let fy0 := fy m in
  let fx0 := fx m in
  (* Desired destination *)
  let y1 := fy0 - yp in
  let x1 := fx0 - xp in
  (* The player is not currently near the monster grid *)
  if when c fy0 fx0 <? when c py0 px0 then (false, (yp, xp))
  (* Monster is too far away to use flow information *)
  else if cost c fy0 fx0 >? MONSTER_FLOW_DEPTH then (false, (yp, xp))
  else if cost c fy0 fx0 >? effective_aaf gm m then (false, (yp, xp))
  else
    let best :=
      fold_left (fear_step gm fy0 fx0 y1 x1) neighbours_down
        {| fe_when := 0; fe_score := -1; fe_gy := 0; fe_gx := 0 |} in
    (* No legal move (?) *)
    if negb (nz (fe_when best)) then (false, (yp, xp))
    (* Find deltas *)
    else (true, (fy0 - fe_gy best, fx0 - fe_gx best)).

(** The offsets of a pair of tables, read up to the closing (0,0):
    [for (i = 0, dx = x_offsets[0], dy = y_offsets[0]; dx != 0 || dy != 0;
    i++, dx = x_offsets[i], dy = y_offsets[i])]. *)
Fixpoint offsets_of (ys xs : list Z) : list (Z * Z) :=
  match ys, xs with
  | dy :: ys', dx :: xs' =>
      if negb (dx =? 0) || negb (dy =? 0)
      then (dy, dx) :: offsets_of ys' xs'
      else []
  | _, _ => []
  end.

Definition ring_offsets (d : nat) : list (Z * Z) :=
  offsets_of (nth d dist_offsets_y []) (nth d dist_offsets_x []).

(** The distances [d = 1 .. 9] of the outer loops. *)
Definition ring_numbers : list nat := seq 1 9.

(** The locals [gy], [gx], [gdis] of [find_safety] and [find_hiding]. *)
Record spot : Type := {
  sp_gy : Z;
  sp_gx : Z;
  sp_gdis : Z
}.

(** One location of a ring in [find_safety]. *)
Definition safety_step (gm : game) (fy0 fx0 py0 px0 : Z) (d : nat)
    (acc : spot) (o : Z * Z) : spot :=
  let c := cave gm in
  let y := fy0 + fst o in
  let x := fx0 + snd o in
  (* Skip illegal locations *)
  if negb (square_in_bounds_fully gm y x) then acc
  (* Skip locations in a wall *)
  else if negb (square_ispassable gm y x) then acc
  (* Ignore grids very far from the player *)
  else if when c y x <? when c py0 px0 then acc
  (* Ignore too-distant grids *)
  else if cost c y x >? cost c fy0 fx0 + 2 * Z.of_nat d then acc
  (* Check for absence of shot (more or less) *)
  else if negb (player_has_los_bold gm y x) then
    (* Calculate distance from player *)
    let dis := distance y x py0 px0 in
    (* Remember if further than previous *)
    if dis >? sp_gdis acc then {| sp_gy := y; sp_gx := x; sp_gdis := dis |}
    else acc
  else acc.

(** [for (d = 1; d < 10; d++)] of [find_safety], over the distances
    left. *)
Fixpoint safety_rings (gm : game) (fy0 fx0 py0 px0 : Z) (ds : list nat)
    (acc : spot) : option spot :=
  match ds with
  | [] => None
  | d :: ds' =>
      (* Check the locations *)
      let acc :=
        fold_left (safety_step gm fy0 fx0 py0 px0 d) (ring_offsets d) acc in
      (* Check for success *)
      if sp_gdis acc >? 0 then Some acc
      else safety_rings gm fy0 fx0 py0 px0 ds' acc
  end.

(** Choose a "safe" location near a monster for it to run toward. *)
Definition find_safety (gm : game) (m : monster) (yp xp : Z)
  : bool * (Z * Z) :=
  let fy0 := fy m in
  let fx0 := fx m in
  let py0 := py (p_ptr gm) in
  let px0 := px (p_ptr gm) in
  match safety_rings gm fy0 fx0 py0 px0 ring_numbers
          {| sp_gy := 0; sp_gx := 0; sp_gdis := 0 |} with
  | Some s =>
      (* Good location: found safe place *)
      (true, (fy0 - sp_gy s, fx0 - sp_gx s))
  | None =>
      (* No safe place *)
      (false, (yp, xp))
  end.

(** One location of a ring in [find_hiding]; [min] is the closest
    distance to get. *)
Definition hiding_step (gm : game) (fy0 fx0 py0 px0 min : Z)
    (acc : spot) (o : Z * Z) : spot :=
  let y := fy0 + fst o in
  let x := fx0 + snd o in
  (* Skip illegal locations *)
  if negb (square_in_bounds_fully gm y x) then acc
  (* Skip occupied locations *)
  else if negb (square_isempty gm y x) then acc
  (* Check for hidden, available grid *)
  else if negb (player_has_los_bold gm y x) && clean_shot gm fy0 fx0 y x then
    (* Calculate distance from player *)
    let dis := distance y x py0 px0 in
    (* Remember if closer than previous *)
    if (dis <? sp_gdis acc) && (dis >=? min)
    then {| sp_gy := y; sp_gx := x; sp_gdis := dis |}
    else acc
  else acc.

Fixpoint hiding_rings (gm : game) (fy0 fx0 py0 px0 min : Z) (ds : list nat)
    (acc : spot) : option spot :=
  match ds with
  | [] => None
  | d :: ds' =>
      (* Check the locations *)
      let acc :=
        fold_left (hiding_step gm fy0 fx0 py0 px0 min) (ring_offsets d) acc in
      (* Check for success *)
      if sp_gdis acc <? 999 then Some acc
      else hiding_rings gm fy0 fx0 py0 px0 min ds' acc
  end.

(** Choose a good hiding place near a monster for it to run toward. *)
Definition find_hiding (gm : game) (m : monster) (yp xp : Z)
  : bool * (Z * Z) :=
  let fy0 := fy m in
  let fx0 := fx m in
  let py0 := py (p_ptr gm) in
  let px0 := px (p_ptr gm) in
  (* Closest distance to get *)
  let min := Z.quot (distance py0 px0 fy0 fx0 * 3) 4 + 2 in
  match hiding_rings gm fy0 fx0 py0 px0 min ring_numbers
          {| sp_gy := 0; sp_gx := 0; sp_gdis := 999 |} with
  | Some s =>
      (* Good location: found good place *)
      (true, (fy0 - sp_gy s, fx0 - sp_gx s))
  | None =>
      (* No good place *)
      (false, (yp, xp))
  end.

(** Count empty grids next to player: room interior (room walls count)
    or other empty space. *)
Definition open_around (gm : game) (py0 px0 : Z) : Z :=
  Z.of_nat (length
    (List.filter
       (fun i => square_ispassable gm (py0 + ddy_ddd i) (px0 + ddx_ddd i)
                 || square_isroom gm (py0 + ddy_ddd i) (px0 + ddx_ddd i))
       (seqZ 0 8))).

(** Find an empty square near the player to fill: the loop
    [for (i = 0; i < 8; i++)] over the rounds left, with the current
    [y2], [x2]. *)
Fixpoint fill_hole (gm : game) (py0 px0 tmp : Z) (rounds : list Z)
    (y2 x2 : Z) : Z * Z :=
  match rounds with
  | [] => (y2, x2)
  | i :: rounds' =>
      (* Pick squares near player (pseudo-randomly) *)
      let y2 := py0 + ddy_ddd (Z.land (tmp + i) 7) in
      let x2 := px0 + ddx_ddd (Z.land (tmp + i) 7) in
      (* Ignore filled grids *)
      if negb (square_isempty gm y2 x2)
      then fill_hole gm py0 px0 tmp rounds' y2 x2
      (* Try to fill this hole *)
      else (y2, x2)
  end.

(** The directions [mm[0..4]] for the pseudo-direction [(y, x)], which is
    not (0, 0): the [switch (move_val)] of [get_moves]. *)
Definition move_val (y x : Z) : Z :=
  let ax := Z.abs x in
  let ay := Z.abs y in
  (* Do something weird *)
  let v := 0 in
  let v := if y <? 0 then v + 8 else v in
  let v := if x >? 0 then v + 4 else v in
  (* Prevent the diamond maneuvre *)
  if ay >? Z.shiftl ax 1 then v + 1 + 1
  else if ax >? Z.shiftl ay 1 then v + 1
  else v.

Definition choose_dirs (y x : Z) : list Z :=
  let ax := Z.abs x in
  let ay := Z.abs y in
  let v := move_val y x in
  if v =? 0 then
    if ay >? ax then [9; 8; 6; 7; 3] else [9; 6; 8; 3; 7]
  else if (v =? 1) || (v =? 9) then
    if y <? 0 then [6; 3; 9; 2; 8] else [6; 9; 3; 8; 2]
  else if (v =? 2) || (v =? 6) then
    if x <? 0 then [8; 9; 7; 6; 4] else [8; 7; 9; 4; 6]
  else if v =? 4 then
    if ay >? ax then [7; 8; 4; 9; 1] else [7; 4; 8; 1; 9]
  else if (v =? 5) || (v =? 13) then
    if y <? 0 then [4; 1; 7; 2; 8] else [4; 7; 1; 8; 2]
  else if v =? 8 then
    if ay >? ax then [3; 2; 6; 1; 9] else [3; 6; 2; 9; 1]
  else if (v =? 10) || (v =? 14) then
    if x <? 0 then [2; 3; 1; 6; 4] else [2; 1; 3; 4; 6]
  else (* case 12 *)
    if ay >? ax then [1; 2; 4; 3; 7] else [1; 4; 2; 7; 3].

(** The pseudo-direction [(y, x)] of [get_moves] after its three
    corrections (hiding, fear, surrounding), from the flow target
    [(y2, x2)]. *)
Definition aim (i : Z) (y2 x2 py0 px0 : Z) : M (Z * Z) :=
  gm <- gets (fun gm => gm) ;;
  let m := mon gm i in
  let p := p_ptr gm in
  (* Extract the "pseudo-direction" *)
  let y := fy m - y2 in
  let x := fx m - x2 in
  (* Normal animal packs try to get the player out of corridors. *)
  let hide :=
    if rf_has m RF_GROUP_AI && negb (goes_through_rock m) then
      (* Not in an empty space and strong player *)
      if (open_around gm py0 px0 <? 7) && (chp p >? Z.quot (mhp p) 2)
      then (* Find hiding place *) find_hiding gm m y x
      else (false, (y, x))
    else (false, (y, x)) in
  let done := fst hide in
  let y := fst (snd hide) in
  let x := snd (snd hide) in
  (* Apply fear *)
  let fear :=
    if negb done && mon_will_run p m then
      (* Try to find safe place *)
      let safe := find_safety gm m y x in
      if negb (fst safe) then
        (* This is not a very "smart" method *)
        (true, (- fst (snd safe), - snd (snd safe)))
      else
        (* Adjust movement *)
        (true, snd (get_fear_moves_aux gm m (fst (snd safe)) (snd (snd safe))))
    else (done, (y, x)) in
  let done := fst fear in
  let y := fst (snd fear) in
  let x := snd (snd fear) in
  (* Monster groups try to surround the player *)
  if negb done && rf_has m RF_GROUP_AI then
    target <-
      ((* If we are not already adjacent *)
       if cdis m >? 1 then
         (* Find an empty square near the player to fill *)
         tmp <- randint0 8 ;;
         gm <- gets (fun gm => gm) ;;
         ret (fill_hole gm py0 px0 tmp (seqZ 0 8) y2 x2)
       else ret (y2, x2)) ;;
    (* Extract the new "pseudo-direction" *)
    m <- gets (fun gm => mon gm i) ;;
    ret (fy m - fst target, fx m - snd target)
  else ret (y, x).

(** Choose "logical" directions for monster movement.  [None] is the C
    result FALSE, otherwise [mm[0..4]].  (The service [get_moves] of
    [process_act] stands for this routine.) *)
Definition get_moves_mm (i : Z) : M (option (list Z)) :=
  gm <- gets (fun gm => gm) ;;
  let py0 := py (p_ptr gm) in
  let px0 := px (p_ptr gm) in
  (* Flow towards the player *)
  flow <- get_moves_aux i py0 px0 ;;
  let y2 := fst (snd flow) in
  let x2 := snd (snd flow) in
  yx <- aim i y2 x2 py0 px0 ;;
  let y := fst yx in
  let x := snd yx in
  (* Check for no move *)
  if negb (nz x) && negb (nz y) then ret None
  (* Want to move *)
  else ret (Some (choose_dirs y x)).

End Moves.

(** * A small dungeon to run the model on

    The constants of the game's headers, a random source that reads its
    draws from a tape, and simple versions of the services the file
    calls: enough of the game to execute every routine above on concrete
    states. *)

Definition demo_constants : Constants :=
  {| MAX_SIGHT := 20; MAX_RANGE := 20; BREAK_GLYPH := 550;
     MON_MULT_ADJ := 8; MAX_REPRO := 100; MONSTER_FLOW_DEPTH := 32;
     MON_DRAIN_LIFE := 2; MAX_PVAL := 32767;
     INVEN_PACK := 23; INVEN_LIGHT := 29;
     RBM_MAX := 20; RBM_INSULT := 18; RBM_MOAN := 19;
     FLAG_START := 1; RSF_MAX := 97; MIN_NONINNATE_SPELL := 33;
     RSF_HEAL := 66; RSF_HASTE := 65; RSF_TELE_TO := 69;
     RSF_DRAIN_MANA := 42;
     RST_BOLT := 1; RST_HASTE := 16; RST_ANNOY := 8; RST_ESCAPE := 128;
     RST_HEAL := 32; RST_TACTIC := 64; RST_SUMMON := 256 |}.

(** The hidden part of the state is the tape of the random draws to
    come. *)
Definition demo_hidden : Hidden := {| Rest := list Z |}.

(** Terrain codes of the small dungeon. *)
Definition FEAT_FLOOR : Z := 1.
Definition FEAT_GLYPH : Z := 3.
Definition FEAT_OPEN : Z := 4.
Definition FEAT_BROKEN : Z := 5.
Definition FEAT_DOOR_HEAD : Z := 32.
Definition FEAT_DOOR_TAIL : Z := 47.
Definition FEAT_SECRET : Z := 48.
Definition FEAT_WALL : Z := 56.
Definition FEAT_PERM : Z := 60.

Definition DUNGEON_HGT : Z := 66.
Definition DUNGEON_WID : Z := 198.

(** The game's approximate distance: the longer side plus half of the
    shorter one.  [distance] is defined outside the file; this one
    reproduces the rings of [dist_offsets_y] and [dist_offsets_x]. *)
Definition demo_distance (y1 x1 y2 x2 : Z) : Z :=
  let ay := Z.abs (y2 - y1) in
  let ax := Z.abs (x2 - x1) in
  if ay >? ax then ay + Z.shiftr ax 1 else ax + Z.shiftr ay 1.

(** The distance the specification speaks of. *)
Definition chebyshev (y1 x1 y2 x2 : Z) : Z :=
  Z.max (Z.abs (y2 - y1)) (Z.abs (x2 - x1)).

(** The keypad directions and their offsets. *)
Definition demo_ddd (k : Z) : Z := nth (Z.to_nat k) [2; 8; 6; 4; 3; 1; 9; 7; 5] 5.
Definition demo_ddy (d : Z) : Z :=
  nth (Z.to_nat d) [0; 1; 1; 1; 0; 0; 0; -1; -1; -1] 0.
Definition demo_ddx (d : Z) : Z :=
  nth (Z.to_nat d) [0; -1; 0; 1; -1; 0; 1; -1; 0; 1] 0.

Definition demo_effect_power (e : blow_effect) : Z :=
  match e with
  | RBE_NONE => 0 | RBE_HURT => 60 | RBE_POISON => 5 | RBE_UN_BONUS => 20
  | RBE_UN_POWER => 15 | RBE_EAT_GOLD => 5 | RBE_EAT_ITEM => 5
  | RBE_EAT_FOOD => 5 | RBE_EAT_LIGHT => 5 | RBE_ACID => 0
  | RBE_ELEC => 10 | RBE_FIRE => 10 | RBE_COLD => 10 | RBE_BLIND => 2
  | RBE_CONFUSE => 10 | RBE_TERRIFY => 10 | RBE_PARALYZE => 2
  | RBE_LOSE_STR => 0 | RBE_LOSE_INT => 0 | RBE_LOSE_WIS => 0
  | RBE_LOSE_DEX => 0 | RBE_LOSE_CON => 0 | RBE_LOSE_ALL => 2
  | RBE_SHATTER => 60 | RBE_EXP_10 => 5 | RBE_EXP_20 => 5
  | RBE_EXP_40 => 5 | RBE_EXP_80 => 5 | RBE_HALLU => 10
  end.

(** Blow methods: 1 hit, 2 touch, 3 punch, 4 kick, 5 claw, 6 bite. *)
Definition demo_blow_action (method : Z) : option string :=
  match method with
  | 1 => Some "hits you"%string
  | 2 => Some "touches you"%string
  | 3 => Some "punches you"%string
  | 4 => Some "kicks you"%string
  | 5 => Some "claws you"%string
  | 6 => Some "bites you"%string
  | _ => None
  end.

Definition empty_lore : monster_lore :=
  {| l_flags := flag_wipe; l_spell_flags := flag_wipe; cast_innate := 0;
     cast_spell := 0; deaths := 0; l_blows := [0; 0; 0; 0]; ignore := 0;
     wake := 0 |}.

Definition gold_piece : object_type :=
  {| kind := Some 0; tval := TV_GOLD; pval := 0; number := 1; timeout := 0;
     artifact := false; origin := ORIGIN_OTHER 0 |}.

Definition set_pos (y x : Z) (m : monster) : monster :=
  {| race := race m; midx := midx m; fy := y; fx := x; hp := hp m;
     maxhp := maxhp m; cdis := cdis m; energy := energy m;
     m_timed := m_timed m; mflag_nice := mflag_nice m;
     mflag_view := mflag_view m; ml := ml m; unaware := unaware m;
     smart_imm_mana := smart_imm_mana m; known_pflags := known_pflags m |}.

Definition wipe_race (m : monster) : monster :=
  {| race := None; midx := midx m; fy := fy m; fx := fx m; hp := hp m;
     maxhp := maxhp m; cdis := cdis m; energy := energy m;
     m_timed := m_timed m; mflag_nice := mflag_nice m;
     mflag_view := mflag_view m; ml := ml m; unaware := unaware m;
     smart_imm_mana := smart_imm_mana m; known_pflags := known_pflags m |}.

Definition set_player_pos (y x : Z) (p : player) : player :=
  {| py := y; px := x; lev := lev p; chp := chp p; mhp := mhp p;
     au := au p; exp := exp p; leaving := leaving p; is_dead := is_dead p;
     timed := timed p; ac := ac p; to_a := to_a p; noise := noise p;
     skill_save := skill_save p; dex_safe := dex_safe p;
     inventory := inventory p; health_who := health_who p;
     pbits := pbits p |}.

(** Damage to the player; below zero hit points the player dies and
    leaves the level. *)
Definition hurt (dam : Z) (p : player) : player :=
  {| py := py p; px := px p; lev := lev p; chp := chp p - dam; mhp := mhp p;
     au := au p; exp := exp p;
     leaving := leaving p || (chp p - dam <? 0);
     is_dead := is_dead p || (chp p - dam <? 0);
     timed := timed p; ac := ac p; to_a := to_a p; noise := noise p;
     skill_save := skill_save p; dex_safe := dex_safe p;
     inventory := inventory p; health_who := health_who p;
     pbits := pbits p |}.

Definition set_m_idx (y x v : Z) (c : cave_t) : cave_t :=
  {| m_idx := fun y' x' => if (y' =? y) && (x' =? x) then v else m_idx c y' x';
     mark := mark c; feat := feat c; when := when c; cost := cost c |}.

Definition set_feat (y x v : Z) (c : cave_t) : cave_t :=
  {| m_idx := m_idx c; mark := mark c;
     feat := fun y' x' => if (y' =? y) && (x' =? x) then v else feat c y' x';
     when := when c; cost := cost c |}.

Section Demo.
#[local] Existing Instance demo_constants.
#[local] Existing Instance demo_hidden.

Definition set_rest (r : list Z) (gm : game) : game :=
  {| p_ptr := p_ptr gm; mons := mons gm; cave := cave gm; lore := lore gm;
     num_repro := num_repro gm; opt := opt gm; rest := r |}.

(** The next draw of the tape, reduced to [0 .. n-1]. *)
Definition next_draw (n : Z) (gm : game) : Z :=
  match rest gm with
  | r :: _ => if 0 <? n then r mod n else 0
  | [] => 0
  end.

(** Moving whoever the grid value [k] stands for to [(y, x)]. *)
Definition demo_move (k y x : Z) (gm : game) : game :=
  if k >? 0 then upd_mon k (set_pos y x) gm
  else if k <? 0 then upd_player (set_player_pos y x) gm
  else gm.

(** Swap the occupants of two grids. *)
Definition demo_monster_swap (y1 x1 y2 x2 : Z) (gm : game) : game :=
  let m1 := m_idx (cave gm) y1 x1 in
  let m2 := m_idx (cave gm) y2 x2 in
  (* Update grids *)
  let gm := upd_cave (set_m_idx y1 x1 m2) gm in
  let gm := upd_cave (set_m_idx y2 x2 m1) gm in
  (* Monster 1 or player 1 *)
  let gm := demo_move m1 y2 x2 gm in
  (* Monster 2 or player 2 *)
  demo_move m2 y1 x1 gm.

(** Delete the monster, if any, at a given location. *)
Definition demo_delete_monster (y x : Z) (gm : game) : game :=
  let k := m_idx (cave gm) y x in
  if k >? 0 then upd_cave (set_m_idx y x 0) (upd_mon k wipe_race gm)
  else gm.

(** What a service answers. *)
Definition demo_answer {R} (c : call R) (gm : game) : R :=
  match c in call R0 return R0 with
  | Rand_div n => next_draw n gm
  | damroll dice sides => dice * sides
  | Rand_streak _ _ => 0
  | msg _ | msgt _ | bell _ | sound _ | disturb _ => tt
  | take_hit _ => tt
  | player_inc_timed _ _ _ _ => true
  | do_dec_stat _ _ => true
  | apply_disenchant _ => false
  | player_exp_lose _ _ => tt
  | inven_damage _ _ => tt
  | check_for_resist _ _ => 0
  | adjust_dam _ dam _ => dam
  | check_state _ => false
  | object_notice_on_defend => tt
  | test_hit chance a _ => a <? chance
  | inven_item_increase _ _ => tt
  | inven_item_optimize _ => tt
  | distribute_charges _ o => o
  | become_aware _ => tt
  | mon_inc_timed _ _ _ _ => false
  | mon_dec_timed _ _ _ _ => false
  | mon_clear_timed _ _ _ => false
  | monster_carry _ _ => 1
  | teleport_away _ _ => tt
  | do_mon_spell _ _ _ => tt
  | multiply_monster _ => false
  | monster_learn_resists _ _ => tt
  | update_smart_learn _ _ => tt
  | delete_monster _ _ => tt
  | monster_swap _ _ _ _ => tt
  | get_moves _ => Some (fun _ => 4)
  | earthquake _ _ _ => tt
  | square_destroy_wall _ _ => tt
  | square_set_feat _ _ _ => tt
  | square_smash_door _ _ => tt
  | square_open_door _ _ => tt
  | square_remove_ward _ _ => tt
  | delete_object_idx _ => tt
  end.

(** What a service does to the state. *)
Definition demo_effect {R} (c : call R) (gm : game) : game :=
  match c with
  | Rand_div _ => set_rest (tail (rest gm)) gm
  | take_hit dam => upd_player (hurt dam) gm
  | delete_monster y x => demo_delete_monster y x gm
  | monster_swap y1 x1 y2 x2 => demo_monster_swap y1 x1 y2 x2 gm
  | square_destroy_wall y x => upd_cave (set_feat y x FEAT_FLOOR) gm
  | square_set_feat y x f => upd_cave (set_feat y x f) gm
  | square_smash_door y x => upd_cave (set_feat y x FEAT_BROKEN) gm
  | square_open_door y x => upd_cave (set_feat y x FEAT_OPEN) gm
  | square_remove_ward y x => upd_cave (set_feat y x FEAT_FLOOR) gm
  | _ => gm
  end.

Definition demo_services : Services :=
  {| square_in_bounds := fun _ y x =>
       (0 <=? y) && (y <? DUNGEON_HGT) && (0 <=? x) && (x <? DUNGEON_WID);
     square_iswarded := fun gm y x => feat (cave gm) y x =? FEAT_GLYPH;
     square_isempty := fun gm y x =>
       (feat (cave gm) y x =? FEAT_FLOOR) && (m_idx (cave gm) y x =? 0);
     square_ispassable := fun gm y x => feat (cave gm) y x <? FEAT_DOOR_HEAD;
     square_iswall := fun gm y x => FEAT_WALL <=? feat (cave gm) y x;
     square_isperm := fun gm y x => FEAT_PERM <=? feat (cave gm) y x;
     square_iscloseddoor := fun gm y x =>
       (FEAT_DOOR_HEAD <=? feat (cave gm) y x)
       && (feat (cave gm) y x <=? FEAT_DOOR_TAIL);
     square_issecretdoor := fun gm y x => feat (cave gm) y x =? FEAT_SECRET;
     square_islockeddoor := fun gm y x =>
       (FEAT_DOOR_HEAD <? feat (cave gm) y x)
       && (feat (cave gm) y x <=? FEAT_DOOR_TAIL);
     square_door_power := fun gm y x =>
       Z.land (feat (cave gm) y x - FEAT_DOOR_HEAD) 7;
     player_has_los_bold := fun _ _ _ => true;
     distance := demo_distance;
     los := fun _ _ _ _ _ => true;
     projectable := fun _ _ _ _ _ _ => true;
     floor_objects := fun _ _ _ => [];
     is_mimicking := fun _ _ => false;
     unset_spells := fun f _ _ => f;
     spell_type := fun s =>
       if s =? 66 then 32 else if s =? 65 then 16
       else if s =? 69 then 64 else if 74 <=? s then 256 else 1;
     react_to_slay := fun _ => flag_wipe;
     rf_is_inter := fun _ _ => false;
     object_no_fuel := fun _ => false;
     squelch_item_ok := fun _ _ => false;
     gold_kind := gold_piece;
     ddd := demo_ddd;
     ddy := demo_ddy;
     ddx := demo_ddx;
     effect_power := demo_effect_power;
     blow_cuts := fun method =>
       (method =? 1) || (method =? 5) || (method =? 6);
     blow_stuns := fun method =>
       (method =? 1) || (method =? 3) || (method =? 4);
     blow_misses := fun method => (1 <=? method) && (method <=? 6);
     blow_physicals := fun method => (1 <=? method) && (method <=? 6);
     blow_actions := demo_blow_action;
     ext := fun R c gm => (demo_answer c gm, demo_effect c gm) |}.

#[local] Existing Instance demo_services.

(** ** Inhabitants *)

Definition no_flags : flagset rflag := flag_wipe.

Definition mk_race (idx lvl : Z) (fl : list rflag) (blows : list monster_blow)
  : monster_race :=
  {| ridx := idx; level := lvl; aaf := 20; mexp := 10; freq_innate := 0;
     freq_spell := 0;
     flags := fun f => existsb (fun f' => bool_decide (f' = f)) fl;
     spell_flags := flag_wipe; blow := blows |}.

Definition mk_monster (r : monster_race) (idx y x h mh dist en : Z) : monster :=
  {| race := Some r; midx := idx; fy := y; fx := x; hp := h; maxhp := mh;
     cdis := dist; energy := en; m_timed := fun _ => 0; mflag_nice := false;
     mflag_view := true; ml := true; unaware := false;
     smart_imm_mana := false; known_pflags := [] |}.

Definition mk_player (y x l c m gold : Z) : player :=
  {| py := y; px := x; lev := l; chp := c; mhp := m; au := gold; exp := 0;
     leaving := false; is_dead := false; timed := fun _ => 0; ac := 10;
     to_a := 0; noise := 1; skill_save := 0; dex_safe := 0;
     inventory := []; health_who := 0; pbits := flag_wipe |}.

Definition hit_blow (e : blow_effect) : monster_blow :=
  {| method := 1; effect := e; d_dice := 1; d_side := 8 |}.

(** An orc next to the player, a worm mass (a breeder) further away. *)
Definition orc_race : monster_race :=
  mk_race 1 10 [RF_OPEN_DOOR] [hit_blow RBE_HURT; hit_blow RBE_EAT_GOLD].
Definition worm_race : monster_race :=
  mk_race 2 3 [RF_MULTIPLY] [hit_blow RBE_POISON].
Definition larva_race : monster_race := mk_race 3 0 [] [hit_blow RBE_HURT].
Definition dragon_race : monster_race := mk_race 4 29 [] [hit_blow RBE_SHATTER].

Definition orc : monster := mk_monster orc_race 1 10 11 30 40 1 110.
Definition worm : monster := mk_monster worm_race 2 5 5 8 8 7 50.
Definition far_orc : monster := mk_monster orc_race 1 10 20 30 40 10 110.
Definition larva : monster := mk_monster larva_race 3 20 20 2 2 14 100.
Definition dragon : monster :=
  mk_monster dragon_race 1 10 20 30000 30000 10 110.

(** A monster whose FEAR timer reads [v]. *)
Definition with_fear (v : Z) (m : monster) : monster :=
  {| race := race m; midx := midx m; fy := fy m; fx := fx m; hp := hp m;
     maxhp := maxhp m; cdis := cdis m; energy := energy m;
     m_timed := fun t => if bool_decide (t = MON_TMD_FEAR) then v
                         else m_timed m t;
     mflag_nice := mflag_nice m; mflag_view := mflag_view m; ml := ml m;
     unaware := unaware m; smart_imm_mana := smart_imm_mana m;
     known_pflags := known_pflags m |}.

Definition wand : object_type :=
  {| kind := Some 5; tval := TV_WAND; pval := 7; number := 1; timeout := 0;
     artifact := false; origin := ORIGIN_OTHER 1 |}.

Definition demo_player : player :=
  {| py := 10; px := 10; lev := 20; chp := 150; mhp := 200; au := 1000;
     exp := 0; leaving := false; is_dead := false; timed := fun _ => 0;
     ac := 10; to_a := 0; noise := 1; skill_save := 0; dex_safe := 0;
     inventory := [wand]; health_who := 0; pbits := flag_wipe |}.

(** A veteran with few hit points for the level. *)
Definition veteran : player := mk_player 10 10 50 2500 2500 0.

(** A lit room: the player at (10, 10), the orc at (10, 11), the worm
    mass at (5, 5), a glyph of warding at (10, 12). *)
Definition demo_cave : cave_t :=
  {| m_idx := fun y x =>
       if (y =? 10) && (x =? 10) then -1
       else if (y =? 10) && (x =? 11) then 1
       else if (y =? 5) && (x =? 5) then 2
       else 0;
     mark := fun _ _ => false;
     feat := fun y x =>
       if (y =? 10) && (x =? 12) then FEAT_GLYPH else FEAT_FLOOR;
     when := fun _ _ => 0;
     cost := fun _ _ => 0 |}.

Definition demo_options : options :=
  {| birth_ai_learn := false; birth_small_range := false;
     disturb_near := true |}.

Definition demo_game (tape : list Z) : game :=
  {| p_ptr := demo_player; mons := [dead_monster; orc; worm];
     cave := demo_cave; lore := fun _ => empty_lore; num_repro := 0;
     opt := demo_options; rest := tape |}.

Definition demo_world (tape : list Z) : world :=
  {| g := demo_game tape; tr := [] |}.

(** The same room with three more worm masses next to the first one. *)
Definition crowded_game (tape : list Z) : game :=
  {| p_ptr := demo_player;
     mons := [dead_monster; orc; worm;
              mk_monster worm_race 3 4 4 8 8 8 50;
              mk_monster worm_race 4 4 5 8 8 7 50;
              mk_monster worm_race 5 4 6 8 8 7 50];
     cave := set_m_idx 4 6 5 (set_m_idx 4 5 4 (set_m_idx 4 4 3 demo_cave));
     lore := fun _ => empty_lore; num_repro := 0;
     opt := demo_options; rest := tape |}.

Definition crowded_world (tape : list Z) : world :=
  {| g := crowded_game tape; tr := [] |}.

(** The same room paved with glyphs of warding, but for the grid
    (7, 7). *)
Definition warded_game : game :=
  upd_cave
    (fun c =>
       {| m_idx := m_idx c; mark := mark c;
          feat := fun y x =>
            if (y =? 7) && (x =? 7) then FEAT_FLOOR else FEAT_GLYPH;
          when := when c; cost := cost c |})
    (demo_game []).

(** Handler contexts: the orc's blow for [dam] points against armour
    [a]. *)
Definition demo_ctx (dam a : Z) : melee_ctx :=
  {| ctx_m := 1; ctx_rlev := 10; ctx_method := 1; ctx_ac := a;
     ctx_obvious := false; ctx_blinked := false; ctx_do_break := false;
     ctx_damage := dam |}.

Definition moving : step_vars :=
  {| do_turn := false; do_move := true; do_view := false |}.

End Demo.

(** ** The small dungeon, for the movement code *)

Section Demo2.
#[local] Existing Instance demo_constants.
#[local] Existing Instance demo_hidden.
#[local] Existing Instance demo_services.

(** The eight neighbours in the order of [ddd]. *)
Definition demo_ddy_ddd (i : Z) : Z :=
  nth (Z.to_nat i) [1; -1; 0; 0; 1; 1; -1; -1] 0.
Definition demo_ddx_ddd (i : Z) : Z :=
  nth (Z.to_nat i) [0; 0; 1; -1; 1; -1; 1; -1] 0.

Definition demo_moves : MoveServices :=
  {| square_in_bounds_fully := fun _ y x =>
       (0 <? y) && (y <? DUNGEON_HGT - 1) && (0 <? x) && (x <? DUNGEON_WID - 1);
     square_isroom := fun _ _ _ => false;
     ddy_ddd := demo_ddy_ddd;
     ddx_ddd := demo_ddx_ddd;
     RF_GROUP_AI := RF_OTHER 1 |}.

(** The same dungeon in the dark: no grid is in the player's line of
    sight. *)
Definition dark_services : Services :=
  {| square_in_bounds := @square_in_bounds _ demo_services;
     square_iswarded := @square_iswarded _ demo_services;
     square_isempty := @square_isempty _ demo_services;
     square_ispassable := @square_ispassable _ demo_services;
     square_iswall := @square_iswall _ demo_services;
     square_isperm := @square_isperm _ demo_services;
     square_iscloseddoor := @square_iscloseddoor _ demo_services;
     square_issecretdoor := @square_issecretdoor _ demo_services;
     square_islockeddoor := @square_islockeddoor _ demo_services;
     square_door_power := @square_door_power _ demo_services;
     player_has_los_bold := fun _ _ _ => false;
     distance := @distance _ demo_services;
     los := @los _ demo_services;
     projectable := @projectable _ demo_services;
     floor_objects := @floor_objects _ demo_services;
     is_mimicking := @is_mimicking _ demo_services;
     unset_spells := @unset_spells _ demo_services;
     spell_type := @spell_type _ demo_services;
     react_to_slay := @react_to_slay _ demo_services;
     rf_is_inter := @rf_is_inter _ demo_services;
     object_no_fuel := @object_no_fuel _ demo_services;
     squelch_item_ok := @squelch_item_ok _ demo_services;
     gold_kind := @gold_kind _ demo_services;
     ddd := @ddd _ demo_services;
     ddy := @ddy _ demo_services;
     ddx := @ddx _ demo_services;
     effect_power := @effect_power _ demo_services;
     blow_cuts := @blow_cuts _ demo_services;
     blow_stuns := @blow_stuns _ demo_services;
     blow_misses := @blow_misses _ demo_services;
     blow_physicals := @blow_physicals _ demo_services;
     blow_actions := @blow_actions _ demo_services;
     ext := @ext _ demo_services |}.

(** Scent around the player at (10, 10): the flow has reached the three
    rows 9 to 11 from column 10 to column 16 at time 5, and the cost of
    a grid is its distance from the player. *)
Definition scent_cave : cave_t :=
  {| m_idx := fun y x =>
       if (y =? 10) && (x =? 10) then -1
       else if (y =? 10) && (x =? 14) then 1
       else 0;
     mark := fun _ _ => false;
     feat := fun _ _ => FEAT_FLOOR;
     when := fun y x =>
       if (9 <=? y) && (y <=? 11) && (10 <=? x) && (x <=? 16) then 5 else 0;
     cost := fun y x => chebyshev y x 10 10 |}.

(** An orc four grids east of the player. *)
Definition lost_orc : monster := mk_monster orc_race 1 10 14 30 40 4 110.

Definition scent_game : game :=
  {| p_ptr := demo_player; mons := [dead_monster; lost_orc];
     cave := scent_cave; lore := fun _ => empty_lore; num_repro := 0;
     opt := demo_options; rest := [] |}.

Definition scent_world : world := {| g := scent_game; tr := [] |}.

(** The room with the orc afraid. *)
Definition scared_world : world :=
  {| g := {| p_ptr := demo_player;
             mons := [dead_monster; with_fear 5 orc; worm];
             cave := demo_cave; lore := fun _ => empty_lore; num_repro := 0;
             opt := demo_options; rest := [] |};
     tr := [] |}.

(** A wolf of a pack, four grids east of the player. *)
Definition wolf_race : monster_race :=
  mk_race 6 10 [RF_OTHER 1] [hit_blow RBE_HURT].

Definition wolf : monster := mk_monster wolf_race 1 10 14 30 40 4 110.

Definition pack_world (tape : list Z) : world :=
  {| g := {| p_ptr := demo_player; mons := [dead_monster; wolf];
             cave := scent_cave; lore := fun _ => empty_lore; num_repro := 0;
             opt := demo_options; rest := tape |};
     tr := [] |}.

(** A mold, which never moves, next to the player. *)
Definition mold_race : monster_race :=
  mk_race 7 10 [RF_NEVER_MOVE] [hit_blow RBE_HURT].

Definition mold : monster := mk_monster mold_race 1 10 11 30 40 1 110.

Definition mold_world (tape : list Z) : world :=
  {| g := {| p_ptr := demo_player; mons := [dead_monster; mold; worm];
             cave := demo_cave; lore := fun _ => empty_lore; num_repro := 0;
             opt := demo_options; rest := tape |};
     tr := [] |}.

(** The room with permanent rock at (10, 12), east of the orc. *)
Definition walled_world : world :=
  {| g := upd_cave (set_feat 10 12 FEAT_PERM) (demo_game []); tr := [] |}.

(** A torch with fuel for 1000 turns, in the light slot. *)
Definition torch : object_type :=
  {| kind := Some 1; tval := TV_OTHER 39; pval := 0; number := 1;
     timeout := 1000; artifact := false; origin := ORIGIN_OTHER 1 |}.

Definition lit_world (tape : list Z) : world :=
  {| g := upd_player
            (set_inventory (replicate (Z.to_nat INVEN_LIGHT) no_object ++ [torch]))
            (demo_game tape);
     tr := [] |}.

(** A shaman next to the player: a caster that always tries a spell and
    knows an innate one (5) and a bolt (40). *)
Definition shaman_race : monster_race :=
  {| ridx := 8; level := 8; aaf := 20; mexp := 10; freq_innate := 100;
     freq_spell := 100; flags := flag_wipe;
     spell_flags := fun s => (s =? 5) || (s =? 40);
     blow := [hit_blow RBE_HURT] |}.

Definition shaman : monster := mk_monster shaman_race 1 10 11 30 40 1 110.

Definition shaman_world (tape : list Z) : world :=
  {| g := {| p_ptr := demo_player; mons := [dead_monster; shaman; worm];
             cave := demo_cave; lore := fun _ => empty_lore; num_repro := 0;
             opt := demo_options; rest := tape |};
     tr := [] |}.

(** The crowded room with a fourth worm mass next to the first one, at
    (5, 4). *)
Definition packed_world (tape : list Z) : world :=
  {| g := {| p_ptr := demo_player;
             mons := mons (crowded_game tape)
                     ++ [mk_monster worm_race 6 5 4 8 8 7 50];
             cave := set_m_idx 5 4 6 (cave (crowded_game tape));
             lore := fun _ => empty_lore; num_repro := 0;
             opt := demo_options; rest := tape |};
     tr := [] |}.

(** The same dungeon when breeding succeeds: [multiply_monster] answers
    TRUE. *)
Definition fertile_answer {R} (c : call R) (gm : game) : R :=
  match c in call R0 return R0 -> R0 with
  | multiply_monster _ => fun _ => true
  | _ => fun r => r
  end (demo_answer c gm).

Definition fertile_services : Services :=
  {| square_in_bounds := @square_in_bounds _ demo_services;
     square_iswarded := @square_iswarded _ demo_services;
     square_isempty := @square_isempty _ demo_services;
     square_ispassable := @square_ispassable _ demo_services;
     square_iswall := @square_iswall _ demo_services;
     square_isperm := @square_isperm _ demo_services;
     square_iscloseddoor := @square_iscloseddoor _ demo_services;
     square_issecretdoor := @square_issecretdoor _ demo_services;
     square_islockeddoor := @square_islockeddoor _ demo_services;
     square_door_power := @square_door_power _ demo_services;
     player_has_los_bold := @player_has_los_bold _ demo_services;
     distance := @distance _ demo_services;
     los := @los _ demo_services;
     projectable := @projectable _ demo_services;
     floor_objects := @floor_objects _ demo_services;
     is_mimicking := @is_mimicking _ demo_services;
     unset_spells := @unset_spells _ demo_services;
     spell_type := @spell_type _ demo_services;
     react_to_slay := @react_to_slay _ demo_services;
     rf_is_inter := @rf_is_inter _ demo_services;
     object_no_fuel := @object_no_fuel _ demo_services;
     squelch_item_ok := @squelch_item_ok _ demo_services;
     gold_kind := @gold_kind _ demo_services;
     ddd := @ddd _ demo_services;
     ddy := @ddy _ demo_services;
     ddx := @ddx _ demo_services;
     effect_power := @effect_power _ demo_services;
     blow_cuts := @blow_cuts _ demo_services;
     blow_stuns := @blow_stuns _ demo_services;
     blow_misses := @blow_misses _ demo_services;
     blow_physicals := @blow_physicals _ demo_services;
     blow_actions := @blow_actions _ demo_services;
     ext := fun R c gm => (fertile_answer c gm, demo_effect c gm) |}.

End Demo2.

(** ** Notions used to state what the routines do *)

(** How far the keypad direction [d] goes towards the target of the
    pseudo-direction [(y, x)] of [get_moves]: the target lies at
    [(-y, -x)] from the monster, and this is the scalar product of that
    vector with the step of [d]. *)
Definition towards (y x d : Z) : Z := - (demo_ddy d * y + demo_ddx d * x).

Section MoveProps.
Context {K : Constants} {Hd : Hidden} {Sv : Services} {Mv : MoveServices}.

(** The grids of the ring [d] around [(fy0, fx0)], in the order of the
    tables. *)
Definition ring_grids (fy0 fx0 : Z) (d : nat) : list (Z * Z) :=
  map (fun o => (fy0 + fst o, fx0 + snd o)) (ring_offsets d).

(** A grid that [find_safety] accepts in the ring [d] around the monster
    at [(fy0, fx0)], the player being at [(py0, px0)]: legal, not in a
    wall, not far from the player for the flow, not too distant, and out
    of the player's sight. *)
Definition safe_spot (gm : game) (fy0 fx0 py0 px0 : Z) (d : nat) (y x : Z)
  : bool :=
  square_in_bounds_fully gm y x
  && square_ispassable gm y x
  && negb (when (cave gm) y x <? when (cave gm) py0 px0)
  && negb (cost (cave gm) y x >? cost (cave gm) fy0 fx0 + 2 * Z.of_nat d)
  && negb (player_has_los_bold gm y x).

(** A grid that [find_hiding] accepts: legal, empty, out of the player's
    sight and with a clean shot from the monster. *)
Definition hiding_spot (gm : game) (fy0 fx0 : Z) (y x : Z) : bool :=
  square_in_bounds_fully gm y x
  && square_isempty gm y x
  && negb (player_has_los_bold gm y x)
  && clean_shot gm fy0 fx0 y x.

(** The checks of [get_moves_aux] made before the neighbours are looked
    at, for a monster that does not go through rock. *)
Definition flow_blocked (gm : game) (m : monster) : bool :=
  ((when (cave gm) (fy m) (fx m) <? when (cave gm) (py (p_ptr gm)) (px (p_ptr gm)))
   && (when (cave gm) (fy m) (fx m) =? 0))
  || (cost (cave gm) (fy m) (fx m) >? MONSTER_FLOW_DEPTH)
  || (cost (cave gm) (fy m) (fx m) >? effective_aaf gm m)
  || player_has_los_bold gm (fy m) (fx m).

(** The player has the monster in view: in the line of fire for a
    monster that goes through rock, in the line of sight of the grid for
    the others. *)
Definition in_view (gm : game) (m : monster) : bool :=
  if goes_through_rock m
  then projectable gm (fy m) (fx m) (py (p_ptr gm)) (px (p_ptr gm)) false
  else player_has_los_bold gm (fy m) (fx m).

End MoveProps.

(** ** A logic of invariants and calls *)

Section Logic.
Context {K : Constants} {Hd : Hidden} {Sv : Services}.

Definition is_swap (e : event) : bool :=
  match e with
  | existT _ c => match c with monster_swap _ _ _ _ => true | _ => false end
  end.

Definition is_teleport (e : event) : bool :=
  match e with
  | existT _ c => match c with teleport_away _ _ => true | _ => false end
  end.

Definition is_delete (e : event) : bool :=
  match e with
  | existT _ c => match c with delete_monster _ _ => true | _ => false end
  end.

Definition is_cast (e : event) : bool :=
  match e with
  | existT _ c => match c with do_mon_spell _ _ _ => true | _ => false end
  end.

(** The call casts a spell that the race [r] does not have, or casts for
    another monster than [i]. *)
Definition foreign_cast (r : monster_race) (i : Z) (e : event) : bool :=
  match e with
  | existT _ c =>
      match c with
      | do_mon_spell s j _ => negb (spell_flags r s && (j =? i))
      | _ => false
      end
  end.

(** Every service that [bad] does not flag keeps the property [Inv] of
    the state. *)
Definition services_keep_unless (bad : event -> bool) (Inv : game -> Prop)
  : Prop :=
  forall R (c : call R) gm, bad (ev c) = false -> Inv gm ->
    Inv (snd (ext R c gm)).

(** The occupied grids among the 8 neighbours of [(oy, ox)], the count
    the specification speaks of. *)
Definition spec_neighbours (gm : game) (oy ox : Z) : Z :=
  Z.of_nat (length
    (List.filter
       (fun yx => negb ((fst yx =? oy) && (snd yx =? ox))
                  && (m_idx (cave gm) (fst yx) (snd yx) >? 0))
       (flat_map (fun y => map (fun x => (y, x)) (around1 ox))
          (around1 oy)))).

Definition is_carry (e : event) : bool :=
  match e with
  | existT _ c => match c with monster_carry _ _ => true | _ => false end
  end.

(** [m'] is the monster [m] with [spent] points taken from its energy
    and nothing else changed. *)
Definition energy_spent (spent : Z) (m m' : monster) : Prop :=
  energy m' = energy m - spent
  /\ race m' = race m /\ midx m' = midx m /\ fy m' = fy m /\ fx m' = fx m
  /\ hp m' = hp m /\ maxhp m' = maxhp m /\ cdis m' = cdis m
  /\ m_timed m' = m_timed m /\ mflag_nice m' = mflag_nice m
  /\ mflag_view m' = mflag_view m /\ ml m' = ml m
  /\ unaware m' = unaware m /\ smart_imm_mana m' = smart_imm_mana m
  /\ known_pflags m' = known_pflags m.

(** The state [gm'] is the state [gm] but for the monster of index
    [i]: the player, the cave, the lore, the breeder count, the options,
    the hidden part, the number of monster slots and every other
    monster are the same. *)
Definition only_monster_differs (i : Z) (gm gm' : game) : Prop :=
  p_ptr gm' = p_ptr gm /\ cave gm' = cave gm /\ lore gm' = lore gm
  /\ num_repro gm' = num_repro gm /\ opt gm' = opt gm
  /\ rest gm' = rest gm
  /\ cave_monster_max gm' = cave_monster_max gm
  /\ forall j, Z.to_nat j <> Z.to_nat i -> mon gm' j = mon gm j.

(** A computation that hands something to a monster only when its value
    has [Q]: either none of its calls is a [monster_carry], or its value
    has [Q]. *)
Definition carries_imply {A} (c : M A) (Q : A -> Prop) : Prop :=
  forall w, exists l, tr (snd (c w)) = tr w ++ l
    /\ (Forall (fun e => is_carry (what e) = false) l \/ Q (fst (c w))).

(** The handler context does not ask for the blink. *)
Definition calm (c : melee_ctx) : Prop := ctx_blinked c = false.

(** A blow that is not a thief's. *)
Definition honest_blow (b : monster_blow) : Prop :=
  effect b <> RBE_EAT_GOLD /\ effect b <> RBE_EAT_ITEM.

(** The state [gm'] has the same race in every monster slot as [gm]. *)
Definition same_races (gm gm' : game) : Prop :=
  forall j, race (mon gm' j) = race (mon gm j).

(** A computation that, started in a state with [Inv], ends in a state
    with [Inv], returns a value with [Q] and issues no call that [bad]
    flags. *)
Definition upholds (Inv : game -> Prop) (bad : event -> bool) {A} (c : M A)
    (Q : A -> Prop) : Prop :=
  forall w, Inv (g w) ->
    Inv (g (snd (c w))) /\ Q (fst (c w))
    /\ exists l, tr (snd (c w)) = tr w ++ l
         /\ Forall (fun e => bad (what e) = false) l.

(** The decision of [choose_stagger] for a monster that is not confused,
    on the draw [roll] of [randint0(100)]. *)
Definition staggers (m : monster) (roll : Z) : bool :=
  if roll <? 25 then rf_has m RF_RAND_25 || rf_has m RF_RAND_50
  else if roll <? 50 then rf_has m RF_RAND_50
  else if roll <? 75 then rf_has m RF_RAND_25 && rf_has m RF_RAND_50
  else false.

(** The anti-stealth test of [process_sleep] on the draw [r] of
    [randint0(1024)], with the 32-bit arithmetic of the locals. *)
Definition notices (noise r : Z) : bool :=
  u32b (u32b (u32b r * u32b r) * u32b r) <=? noise.

(** What a monster may do to the door at [(ny, nx)]: open or smash it
    only when it is not locked at that moment, and otherwise change the
    feature only to lower it by one. *)
Definition door_ok (ny nx : Z) (e : entry) : Prop :=
  match what e with
  | existT _ c =>
      match c with
      | square_open_door y x =>
          y = ny /\ x = nx /\ square_islockeddoor (at_state e) ny nx = false
      | square_smash_door y x =>
          y = ny /\ x = nx /\ square_islockeddoor (at_state e) ny nx = false
      | square_set_feat y x f =>
          y = ny /\ x = nx /\ f = feat (cave (at_state e)) ny nx - 1
      | _ => True
      end
  end.

(** The number of [monster_swap] calls among the calls [l]. *)
Definition swaps (l : list event) : nat := length (List.filter is_swap l).

(** A computation that calls [monster_swap] at most once, and returns a
    value with [Q] when it does. *)
Definition once {A} (c : M A) (Q : A -> Prop) : Prop :=
  forall w, exists l, tr (snd (c w)) = tr w ++ l
    /\ (swaps (map what l) = 0%nat
        \/ (swaps (map what l) = 1%nat /\ Q (fst (c w)))).

End Logic.

(** * Properties *)

(** ** C integers *)

Lemma u16b_small x : 0 <= x < 2 ^ 16 -> u16b x = x.
Proof. intros H. unfold u16b. now apply Z.mod_small. Qed.

Lemma u32b_small x : 0 <= x < 2 ^ 32 -> u32b x = x.
Proof. intros H. unfold u32b. now apply Z.mod_small. Qed.

Lemma nz_true x : nz x = true <-> x <> 0.
Proof. unfold nz. rewrite negb_true_iff, Z.eqb_neq. tauto. Qed.

Lemma nz_false x : nz x = false <-> x = 0.
Proof. unfold nz. rewrite negb_false_iff, Z.eqb_eq. tauto. Qed.

Lemma nz_pos x : 0 <= x -> nz x = (0 <? x).
Proof.
  intros H. unfold nz.
  destruct (Z.eqb_spec x 0), (Z.ltb_spec 0 x); simpl; auto; lia.
Qed.


(** ** Running computations *)

Section Running.
Context {Hd : Hidden}.

Lemma bind_run {A B} (c : M A) (k : A -> M B) (w : world) :
  bind c k w = k (fst (c w)) (snd (c w)).
Proof. unfold bind. destruct (c w). reflexivity. Qed.

End Running.

(** ** Counting draws *)

Section Counting.

Lemma favourable_ext n f1 f2 :
  (forall r, 0 <= r < n -> f1 r = f2 r) -> favourable n f1 = favourable n f2.
Proof.
  intros H. unfold favourable, draws. f_equal. f_equal.
  apply List.filter_ext_in. intros r Hr.
  apply list_elem_of_In, elem_of_seqZ in Hr. apply H. lia.
Qed.

Lemma favourable_below_nat (k : nat) (t : Z) :
  favourable (Z.of_nat k) (fun r => r <? t) = Z.max 0 (Z.min t (Z.of_nat k)).
Proof.
  unfold favourable, draws. induction k as [|k IH].
  - simpl. lia.
  - rewrite seqZ_S, List.filter_app, length_app, Nat2Z.inj_add, IH.
    rewrite Z.add_0_l. cbn [List.filter].
    destruct (Z.ltb_spec (Z.of_nat k) t); cbn [length]; lia.
Qed.

(** Of the [n] draws of [randint0 n], [min t n] are below [t]. *)
Lemma favourable_below n t :
  0 <= n -> favourable n (fun r => r <? t) = Z.max 0 (Z.min t n).
Proof.
  intros Hn. rewrite <- (Z2Nat.id n Hn) at 1 2.
  rewrite favourable_below_nat, Z2Nat.id; lia.
Qed.

(** Exactly one of the draws of [randint0 n] is 0. *)
Lemma favourable_zero n : 0 < n -> favourable n (fun r => r =? 0) = 1.
Proof.
  intros Hn.
  rewrite (favourable_ext n _ (fun r => r <? 1)).
  - rewrite favourable_below; lia.
  - intros r Hr. destruct (Z.eqb_spec r 0), (Z.ltb_spec r 1); auto; lia.
Qed.

Lemma favourable_never n : favourable n (fun _ => false) = 0.
Proof.
  unfold favourable. induction (draws n) as [|x l IH]; simpl; auto.
Qed.

End Counting.

(** * Flight *)

Section FleeFacts.
Context {K : Constants}.

Lemma shiftl_2 x : Z.shiftl x 2 = 4 * x.
Proof. rewrite Z.shiftl_mul_pow2 by lia. lia. Qed.

(** The two early exits on the levels agree with the cross-multiplied
    comparison as soon as both parties have some health left. *)
Lemma level_gap_no_run pl ml' pc pm mc mm :
  0 <= pl -> 0 < pc <= pm -> 0 < mc <= mm -> ml' > pl + 4 ->
  ((pl * pm + 4 * pc) * mm >? (ml' * mm + 4 * mc) * pm) = false.
Proof.
  intros Hpl Hp Hm Hgap.
  rewrite Z.gtb_ltb. apply Z.ltb_ge.
  assert (Hpos : 0 < pm * mm) by nia.
  assert (H1 : (pl * pm + 4 * pc) * mm <= (pl + 4) * (pm * mm)) by nia.
  assert (H2 : (pl + 4) * (pm * mm) <= ml' * (pm * mm)) by nia.
  assert (H3 : ml' * (pm * mm) <= (ml' * mm + 4 * mc) * pm) by nia.
  lia.
Qed.

Lemma level_gap_run pl ml' pc pm mc mm :
  0 <= ml' -> 0 < pc <= pm -> 0 < mc <= mm -> ml' + 4 <= pl ->
  ((pl * pm + 4 * pc) * mm >? (ml' * mm + 4 * mc) * pm) = true.
Proof.
  intros Hml Hp Hm Hgap.
  rewrite Z.gtb_ltb. apply Z.ltb_lt.
  assert (Hpos : 0 < pm * mm) by nia.
  assert (H1 : (ml' * mm + 4 * mc) * pm <= (ml' + 4) * (pm * mm)) by nia.
  assert (H2 : (ml' + 4) * (pm * mm) <= pl * (pm * mm)) by nia.
  assert (H3 : pl * (pm * mm) < (pl * pm + 4 * pc) * mm) by nia.
  lia.
Qed.

(** C1 (amended): while the levels and hit points fit the 16-bit locals
    and the 32-bit cross products do not wrap, [mon_will_run] answers no
    beyond [MAX_SIGHT + 5], yes for a frightened monster, no within five
    grids, and otherwise yes exactly when
    [p_val * m_mhp > m_val * p_mhp]; the two early exits on the levels
    agree with that comparison. *)
Theorem mon_will_run_in_range (p : player) (m : monster) :
  0 < chp p <= mhp p ->
  0 < hp m <= maxhp m ->
  flee_in_range p m ->
  mon_will_run p m = spec_will_run p m.
Proof.
  intros Hp Hm [Hfear Hpl Hml Hpm Hmm Hcross].
  unfold mon_will_run, spec_will_run.
  destruct (cdis m >? MAX_SIGHT + 5); [reflexivity|].
  rewrite (nz_pos _ Hfear).
  destruct (0 <? m_timed m MON_TMD_FEAR); [reflexivity|].
  destruct (cdis m <=? 5); [reflexivity|].
  fold (spec_m_lev m).
  rewrite !u16b_small by lia.
  unfold spec_p_val, spec_m_val.
  destruct (Z.gtb_spec (spec_m_lev m) (lev p + 4)) as [Hgt|Hle].
  { symmetry. apply level_gap_no_run; lia. }
  destruct (Z.leb_spec (spec_m_lev m + 4) (lev p)) as [Hfar|Hnear].
  { symmetry. apply level_gap_run; lia. }
  rewrite !shiftl_2.
  set (ml' := spec_m_lev m) in *.
  assert (Hpv : 0 <= lev p * mhp p + 4 * chp p <= (lev p + 4) * mhp p) by nia.
  assert (Hmv : 0 <= ml' * maxhp m + 4 * hp m <= (lev p + 8) * maxhp m) by nia.
  assert (Hpm1 : (lev p + 4) * mhp p * maxhp m <= (lev p + 8) * mhp p * maxhp m)
    by nia.
  assert (Hb1 : (lev p + 4) * mhp p <= (lev p + 4) * mhp p * maxhp m) by nia.
  assert (Hb2 : (lev p + 8) * maxhp m <= (lev p + 8) * mhp p * maxhp m) by nia.
  rewrite (u32b_small (lev p * mhp p + 4 * chp p)) by lia.
  rewrite (u32b_small (ml' * maxhp m + 4 * hp m)) by lia.
  assert (Hc1 : 0 <= (lev p * mhp p + 4 * chp p) * maxhp m
                <= (lev p + 4) * mhp p * maxhp m) by nia.
  assert (Hc2 : 0 <= (ml' * maxhp m + 4 * hp m) * mhp p
                <= (lev p + 8) * mhp p * maxhp m) by nia.
  rewrite !u32b_small by lia.
  now destruct (_ >? _).
Qed.

End FleeFacts.

(** * Spell casting *)

Section SpellFacts.
Context {K : Constants} {Hd : Hidden} {Sv : Services}.

Lemma effective_level_max r : effective_level r = Z.max (level r) 1.
Proof.
  unfold effective_level.
  destruct (Z.geb_spec (level r) 1); lia.
Qed.

Lemma spell_failrate_formula m :
  0 <= m_timed m MON_TMD_FEAR ->
  spell_failrate m =
    if rf_has m RF_STUPID then 0
    else 25 - Z.quot (Z.max (level (race_of m)) 1 + 3) 4
         + (if 0 <? m_timed m MON_TMD_FEAR then 20 else 0).
Proof.
  intros Hfear. unfold spell_failrate.
  rewrite effective_level_max, (nz_pos _ Hfear).
  destruct (rf_has m RF_STUPID); [reflexivity|].
  destruct (0 <? m_timed m MON_TMD_FEAR); lia.
Qed.

Lemma innate_never_fails i s w :
  s < MIN_NONINNATE_SPELL -> spell_fails i s w = (false, w).
Proof.
  intros Hs. unfold spell_fails, bind, gets, ret.
  destruct (Z.geb_spec s MIN_NONINNATE_SPELL); [lia|reflexivity].
Qed.

Lemma In_around2 v x : In x (around2 v) <-> v - 2 <= x <= v + 2.
Proof.
  unfold around2. rewrite <- list_elem_of_In, elem_of_seqZ. lia.
Qed.

(** C6 (amended): [summon_possible] answers yes exactly when some grid of
    the 5x5 block around [(y1, x1)] lies within [distance] 2 of it (the
    circular area the code checks), is in bounds, not warded, an empty
    floor grid and in line of sight; and for a monster that is not STUPID,
    when there is no such grid, every spell whose class is SUMMON is
    absent from the pruned spell set. *)
Theorem summon_possible_circular (gm : game) (y1 x1 : Z) :
  (summon_possible gm y1 x1 = true <->
   exists y x,
     y1 - 2 <= y <= y1 + 2 /\ x1 - 2 <= x <= x1 + 2
     /\ distance y1 x1 y x <= 2
     /\ square_in_bounds gm y x = true
     /\ square_iswarded gm y x = false
     /\ square_isempty gm y x = true
     /\ los gm y1 x1 y x = true)
  /\ (forall (m : monster) (py0 px0 : Z) (f : flagset Z) (s : Z),
        fy m = y1 -> fx m = x1 ->
        rf_has m RF_STUPID = false ->
        summon_possible gm y1 x1 = false ->
        spell_type s = RST_SUMMON ->
        prune_blocked gm m py0 px0 f s = false).
Proof.
  split.
  - unfold summon_possible. rewrite existsb_exists. split.
    + intros (y & Hy & Hex). apply existsb_exists in Hex as (x & Hx & Hc).
      apply In_around2 in Hy. apply In_around2 in Hx.
      exists y, x.
      destruct (square_in_bounds gm y x); [|discriminate].
      destruct (Z.gtb_spec (distance y1 x1 y x) 2); [discriminate|].
      destruct (square_iswarded gm y x); [discriminate|].
      apply andb_true_iff in Hc as [He Hl]. simpl in *.
      repeat split; auto; lia.
    + intros (y & x & Hy & Hx & Hdist & Hb & Hw & He & Hl).
      exists y. split; [now apply In_around2|].
      apply existsb_exists. exists x. split; [now apply In_around2|].
      rewrite Hb, Hw, He, Hl. simpl.
      destruct (Z.gtb_spec (distance y1 x1 y x) 2); [lia|reflexivity].
  - intros m py0 px0 f s Hy Hx Hst Hno Hs.
    unfold prune_blocked. rewrite Hst, Hy, Hx, Hno. simpl.
    unfold set_spells. rewrite Hs, Z.land_lnot_diag.
    apply andb_false_r.
Qed.

End SpellFacts.

(** * The step loop: glyphs of warding *)

Section GlyphFacts.
Context {K : Constants} {Hd : Hidden} {Sv : Services}.

(** Of the draws of [randint1(BREAK_GLYPH)], [level - 1] break the
    glyph (none for a level below 2, all of them above
    [BREAK_GLYPH]). *)
Lemma ward_break_count lvl :
  0 <= BREAK_GLYPH ->
  favourable BREAK_GLYPH (fun r => ward_breaks (r + 1) lvl)
  = Z.max 0 (Z.min (lvl - 1) BREAK_GLYPH).
Proof.
  intros HB.
  rewrite (favourable_ext _ _ (fun r => r <? lvl - 1)).
  - now apply favourable_below.
  - intros r _. unfold ward_breaks.
    destruct (Z.ltb_spec (r + 1) lvl), (Z.ltb_spec r (lvl - 1)); auto; lia.
Qed.

(** C2 (amended): in the step loop, an otherwise-allowed move onto a
    warded grid is blocked unless the draw [r] of [randint1(BREAK_GLYPH)]
    is below the race level; in that case the glyph is removed from the
    grid and the move allowed.  That happens for [level - 1] of the
    [BREAK_GLYPH] draws: with probability [(level - 1) / BREAK_GLYPH]. *)
Theorem glyph_blocks_or_breaks (i ny nx : Z) (v : step_vars) (w : world) :
  do_move v = true ->
  square_iswarded (g w) ny nx = true ->
  let r := fst (randint1 BREAK_GLYPH w) in
  let w1 := snd (randint1 BREAK_GLYPH w) in
  let lvl := level (race_of (mon (g w1) i)) in
  (ward_breaks r lvl = false ->
   step_glyph i ny nx v w = (set_do_move false v, w1))
  /\ (ward_breaks r lvl = true ->
      do_move (fst (step_glyph i ny nx v w)) = true
      /\ exists w2, snd (step_glyph i ny nx v w)
                    = snd (invoke (square_remove_ward ny nx) w2))
  /\ (0 <= BREAK_GLYPH ->
      favourable BREAK_GLYPH (fun r0 => ward_breaks (r0 + 1) lvl)
      = Z.max 0 (Z.min (lvl - 1) BREAK_GLYPH)).
Proof.
  intros Hmove Hward r w1 lvl.
  assert (Hrun : step_glyph i ny nx v w
    = if ward_breaks r lvl
      then (gm <- gets (fun gm => gm) ;;
            when_ (mark (cave gm) ny nx)
              (invoke (msg "The rune of protection is broken!")) ;;
            modify (upd_cave (mark_off ny nx)) ;;
            invoke (square_remove_ward ny nx) ;;
            ret (set_do_move true (set_do_move false v))) w1
      else (set_do_move false v, w1)).
  { unfold step_glyph. unfold bind at 1. unfold gets at 1.
    rewrite Hmove, Hward. cbn [andb]. unfold bind at 1.
    subst r w1 lvl. destruct (randint1 BREAK_GLYPH w) as [r w1]. simpl.
    unfold bind at 1. unfold gets at 1.
    destruct (ward_breaks r _); reflexivity. }
  split; [|split].
  - intros Hno. now rewrite Hrun, Hno.
  - intros Hyes. rewrite Hrun, Hyes. clear Hrun.
    unfold bind, gets, modify, when_, ret.
    destruct (mark (cave (g w1)) ny nx).
    + destruct (invoke (msg _) w1) as [[] w2].
      set (w3 := {| g := upd_cave (mark_off ny nx) (g w2); tr := tr w2 |}).
      destruct (invoke (square_remove_ward ny nx) w3) as [[] w4] eqn:E.
      split; [reflexivity|]. exists w3. now rewrite E.
    + set (w3 := {| g := upd_cave (mark_off ny nx) (g w1); tr := tr w1 |}).
      destruct (invoke (square_remove_ward ny nx) w3) as [[] w4] eqn:E.
      split; [reflexivity|]. exists w3. now rewrite E.
  - apply ward_break_count.
Qed.

End GlyphFacts.

(** * Breeding *)

Section BreedFacts.
Context {K : Constants} {Hd : Hidden} {Sv : Services}.

Lemma multiply_attempt_spec k w :
  multiply_attempt k w
  = if k <? 4 then
      if k =? 0 then (true, w)
      else (breeds k (fst (randint0 (k * MON_MULT_ADJ) w)),
            snd (randint0 (k * MON_MULT_ADJ) w))
    else (false, w).
Proof.
  unfold multiply_attempt, breeds, one_in_, bind, ret.
  destruct (k <? 4) eqn:E4; [|reflexivity].
  destruct (k =? 0) eqn:E0; [reflexivity|].
  destruct (randint0 (k * MON_MULT_ADJ) w) as [r w1]. reflexivity.
Qed.

Lemma around1_list v : around1 v = [v - 1; v; v + 1].
Proof.
  unfold around1, seqZ.
  change (Z.to_nat 3) with 3%nat. cbn [seq fmap list_fmap].
  repeat (apply (f_equal2 cons); [lia|]). reflexivity.
Qed.

Lemma process_awake_bred i lidx w :
  let m := mon (g w) i in
  fst (process_multiply i lidx (fy m) (fx m) w) = true ->
  process_awake i lidx w = (tt, snd (process_multiply i lidx (fy m) (fx m) w)).
Proof.
  intros m Hbred. unfold process_awake, bind, gets. fold m.
  destruct (process_multiply i lidx (fy m) (fx m) w) as [b w1].
  simpl in Hbred. now subst b.
Qed.

Lemma process_multiply_no_attempt i lidx oy ox w :
  num_repro (g w) < MAX_REPRO ->
  fst (multiply_attempt (count_adjacent (g w) oy ox) w) = false ->
  process_multiply i lidx oy ox w
  = (false, snd (multiply_attempt (count_adjacent (g w) oy ox) w)).
Proof.
  intros Hrepro Hno. unfold process_multiply, bind, gets.
  destruct (Z.ltb_spec (num_repro (g w)) MAX_REPRO); [|lia].
  destruct (multiply_attempt _ w) as [b w1]. simpl in *. now subst b.
Qed.

End BreedFacts.

(** * Melee: blow effect handlers *)

Section HandlerFacts.
Context {K : Constants} {Hd : Hidden} {Sv : Services}.

Lemma new_calls_from {A} (c : M A) w l :
  tr (snd (c w)) = tr w ++ l -> new_calls c w = map what l.
Proof.
  intros H. unfold new_calls. rewrite H, drop_app_length. reflexivity.
Qed.

Lemma tr_invoke R (c : call R) w :
  tr (snd (invoke c w)) = tr w ++ [ {| at_state := g w; what := ev c |} ].
Proof.
  unfold invoke. destruct (ext R c (g w)). reflexivity.
Qed.

Lemma g_invoke R (c : call R) w :
  g (snd (invoke c w)) = snd (ext R c (g w)).
Proof.
  unfold invoke. destruct (ext R c (g w)). reflexivity.
Qed.

Lemma fst_invoke R (c : call R) w :
  fst (invoke c w) = fst (ext R c (g w)).
Proof.
  unfold invoke. destruct (ext R c (g w)). reflexivity.
Qed.

(** ** Shatter *)

Lemma quake_threshold_30 a : (adjust_dam_armor 30 a >? 23) = (a <? 94).
Proof.
  unfold adjust_dam_armor.
  destruct (Z.ltb_spec a 240) as [Hlt|Hge].
  - destruct (Z.le_gt_cases 0 a) as [Hpos|Hneg].
    + rewrite Z.quot_div_nonneg by lia.
      destruct (Z.gtb_spec (30 - 30 * a / 400) 23), (Z.ltb_spec a 94);
        auto; exfalso.
      * assert (30 * a / 400 >= 7) by (apply Z.le_ge, Z.div_le_lower_bound; lia).
        lia.
      * assert (30 * a / 400 < 7) by (apply Z.div_lt_upper_bound; lia).
        lia.
    + replace (30 * a) with (- (30 * - a)) by lia.
      rewrite Z.quot_opp_l by lia.
      rewrite Z.quot_div_nonneg by lia.
      assert (0 <= 30 * - a / 400) by (apply Z.div_pos; lia).
      destruct (Z.gtb_spec (30 - - (30 * - a / 400)) 23), (Z.ltb_spec a 94);
        auto; lia.
  - change (Z.quot (30 * 240) 400) with 18.
    destruct (Z.ltb_spec a 94); [lia|reflexivity].
Qed.

(** C5 (amended): a SHATTER blow that hits has its damage reduced by the
    armour adjustment and applied; the radius-8 earthquake centred on the
    attacker is invoked exactly when the reduced damage exceeds 23 (for a
    rolled damage of 30: exactly when the armour class is below 94); and
    when the player's position changed during the earthquake the handler
    sets [do_break] in its context. *)
Theorem shatter_quake_threshold (c : melee_ctx) (w : world) :
  let d := adjust_dam_armor (ctx_damage c) (ctx_ac c) in
  let w1 := snd (invoke (take_hit d) w) in
  let m := mon (g w1) (ctx_m c) in
  let w2 := snd (invoke (earthquake (fy m) (fx m) 8) w1) in
  let moved :=
    negb (px (p_ptr (g w1)) =? px (p_ptr (g w2)))
    || negb (py (p_ptr (g w1)) =? py (p_ptr (g w2))) in
  let c1 := set_damage d (set_obvious true c) in
  melee_effect_handler_shatter c w
  = (if d >? 23
     then (if moved then set_do_break true c1 else c1, w2)
     else (c1, w1))
  /\ new_calls (melee_effect_handler_shatter c) w
     = (if d >? 23
        then [ev (take_hit d); ev (earthquake (fy m) (fx m) 8)]
        else [ev (take_hit d)])
  /\ (ctx_damage c = 30 -> (d >? 23) = (ctx_ac c <? 94)).
Proof.
  intros d w1 m w2 moved c1.
  assert (Hrun : melee_effect_handler_shatter c w
    = (if d >? 23
       then (if moved then set_do_break true c1 else c1, w2)
       else (c1, w1))).
  { unfold melee_effect_handler_shatter, bind, gets, ret. cbn [ctx_damage set_damage set_obvious ctx_ac].
    fold d. subst w1. destruct (invoke (take_hit d) w) as [[] w1] eqn:E1.
    cbn [snd] in *. cbn [ctx_m set_damage set_obvious].
    destruct (d >? 23); [|reflexivity].
    fold m. subst w2. destruct (invoke (earthquake (fy m) (fx m) 8) w1) as [[] w2].
    cbn [snd] in *. reflexivity. }
  split; [exact Hrun|split].
  - destruct (d >? 23) eqn:Ed.
    + unfold new_calls. rewrite Hrun. cbn [snd].
      subst w2. rewrite tr_invoke. subst w1. rewrite tr_invoke.
      rewrite <- app_assoc, drop_app_length. reflexivity.
    + unfold new_calls. rewrite Hrun. cbn [snd].
      subst w1. rewrite tr_invoke, drop_app_length. reflexivity.
  - intros H30. subst d. rewrite H30. apply quake_threshold_30.
Qed.


(** ** Drain charges *)

Lemma keep_invoke (I : game -> Prop) R (c : call R) w :
  services_keep I -> I (g w) -> I (g (snd (invoke c w))).
Proof.
  intros Hk Hw. rewrite g_invoke. now apply Hk.
Qed.

Lemma drain_tries_keep (I : game -> Prop) :
  services_keep I ->
  (forall gm item v, 0 <= v -> I gm -> I (upd_inven item (set_pval v) gm)) ->
  (forall gm i heal, I gm ->
     I (upd_mon i
          (fun m => set_hp (hp m + MIN heal (maxhp (mon gm i) - hp (mon gm i))) m)
          gm)) ->
  (forall gm b, I gm -> I (upd_player (pbit_on b) gm)) ->
  forall tries unpower c w,
    I (g w) -> I (g (snd (drain_charges_tries tries unpower c w))).
Proof.
  intros Hk Hinv Hhp Hbit.
  induction tries as [|tries IH]; intros unpower c w Hw; [exact Hw|].
  cbn [drain_charges_tries]. unfold bind at 1.
  unfold randint0.
  pose proof (keep_invoke I _ (Rand_div INVEN_PACK) w Hk Hw) as Hw1.
  destruct (invoke (Rand_div INVEN_PACK) w) as [item w1]. cbn [snd] in Hw1.
  unfold bind at 1. unfold gets at 1.
  destruct (kind (inven (p_ptr (g w1)) item)) as [kind_level|]; [|now apply IH].
  unfold bind at 1.
  set (o := inven (p_ptr (g w1)) item).
  set (cond := (bool_decide (tval o = TV_STAFF) || bool_decide (tval o = TV_WAND))
               && nz (pval o)).
  assert (Hstep : exists u w2,
    (if cond then
       modify (upd_inven item
         (set_pval (MAX (pval o - (Z.quot (ctx_rlev c) (kind_level + 2) + 1)) 0))) ;;
       ret (Z.quot (ctx_rlev c) (kind_level + 2) + 1)
     else ret unpower) w1 = (u, w2) /\ I (g w2)).
  { destruct cond.
    - eexists _, _. split; [reflexivity|]. cbn [g]. apply Hinv; [|exact Hw1].
      unfold MAX. destruct (Z.gtb_spec (pval o - (Z.quot (ctx_rlev c) (kind_level + 2) + 1)) 0); lia.
    - eexists _, _. split; [reflexivity|]. exact Hw1. }
  destruct Hstep as (u & w2 & -> & Hw2).
  destruct (nz u); [|now apply IH].
  unfold bind at 1.
  pose proof (keep_invoke I _ (msg "Energy drains from your pack!") w2 Hk Hw2) as Hw3.
  destruct (invoke (msg "Energy drains from your pack!") w2) as [[] w3].
  cbn [snd] in Hw3.
  unfold bind, gets, modify, when_, ret. cbn [g ctx_m set_obvious].
  destruct (health_who _ =? ctx_m c); cbn [snd g];
    repeat apply Hbit; apply Hhp; exact Hw3.
Qed.

Lemma mon_upd_mon i j f gm :
  mon (upd_mon i f gm) j
  = if decide (Z.to_nat i = Z.to_nat j) then
      match mons gm !! Z.to_nat j with
      | Some m => f m
      | None => dead_monster
      end
    else mon gm j.
Proof.
  unfold mon, upd_mon. cbn [mons].
  rewrite list_lookup_alter.
  destruct (decide (Z.to_nat i = Z.to_nat j)) as [e|]; [|reflexivity].
  rewrite e. destruct (mons gm !! Z.to_nat j); reflexivity.
Qed.

Lemma In_alter {A} (f : A -> A) n (l : list A) x :
  In x (alter f n l) -> In x l \/ exists y, In y l /\ x = f y.
Proof.
  revert n. induction l as [|a l IH]; intros n Hx; [destruct n; contradiction|].
  destruct n as [|n]; cbn in Hx.
  - destruct Hx as [<-|Hx].
    + right. exists a. split; [now left|reflexivity].
    + left. now right.
  - destruct Hx as [<-|Hx].
    + left. now left.
    + destruct (IH n Hx) as [H|(y & Hy & ->)].
      * left. now right.
      * right. exists y. split; [now right|reflexivity].
Qed.

(** C10: the drain-charges handler keeps the monster's hit points within
    its maximum (the heal is clamped to [maxhp - hp]) and leaves no wand
    or staff with a negative number of charges (the new charge is
    [MAX(charges - unpower, 0)]), as long as the services it calls keep
    these properties too. *)
Theorem drain_charges_keeps_bounds (c : melee_ctx) (w : world) :
  services_keep (hp_bounded (ctx_m c)) ->
  services_keep charges_ok ->
  (hp_bounded (ctx_m c) (g w) ->
   hp_bounded (ctx_m c) (g (snd (melee_effect_handler_drain_charges c w))))
  /\ (charges_ok (g w) ->
      charges_ok (g (snd (melee_effect_handler_drain_charges c w))))
  /\ (forall charges unpower, 0 <= MAX (charges - unpower) 0).
Proof.
  intros Hk1 Hk2. split; [|split].
  - intros Hw. unfold melee_effect_handler_drain_charges, bind.
    pose proof (keep_invoke _ _ (take_hit (ctx_damage c)) w Hk1 Hw) as Hw1.
    destruct (invoke (take_hit (ctx_damage c)) w) as [[] w1].
    apply drain_tries_keep; auto.
    + intros gm i heal H. unfold hp_bounded in *.
      rewrite mon_upd_mon.
      destruct (decide (Z.to_nat i = Z.to_nat (ctx_m c))) as [Heq|Hne];
        [|exact H].
      assert (Hsame : mon gm i = mon gm (ctx_m c))
        by (unfold mon; now rewrite Heq).
      rewrite Hsame. unfold mon in *.
      destruct (mons gm !! Z.to_nat (ctx_m c)) as [m|]; cbn in *; [|lia].
      unfold MIN. destruct (_ <? _) eqn:E; [apply Z.ltb_lt in E|]; lia.
  - intros Hw. unfold melee_effect_handler_drain_charges, bind.
    pose proof (keep_invoke _ _ (take_hit (ctx_damage c)) w Hk2 Hw) as Hw1.
    destruct (invoke (take_hit (ctx_damage c)) w) as [[] w1].
    apply drain_tries_keep; auto.
    intros gm item v Hv H o Ho Ht. cbn in Ho.
    apply In_alter in Ho as [Ho|(o' & Ho' & ->)].
    + now apply H.
    + exact Hv.
  - intros charges unpower. unfold MAX.
    destruct (Z.gtb_spec (charges - unpower) 0); lia.
Qed.

End HandlerFacts.

(** ** The gold thief *)

Section GoldFacts.
Context {K : Constants} {Hd : Hidden} {Sv : Services}.

Lemma gold_chunks_sound fuel : forall gold,
  0 < MAX_PVAL -> 0 <= gold -> (Z.to_nat gold <= fuel)%nat ->
  total (gold_chunks fuel gold) = gold
  /\ Forall (fun amt => 0 < amt <= MAX_PVAL) (gold_chunks fuel gold).
Proof.
  induction fuel as [|fuel IH]; intros gold Hmax Hg Hf.
  - cbn. split; [cbn; lia|constructor].
  - cbn [gold_chunks]. destruct (Z.gtb_spec gold 0) as [Hpos|Hz].
    + set (amt := if gold >? MAX_PVAL then MAX_PVAL else gold).
      assert (Hamt : 0 < amt <= MAX_PVAL /\ amt <= gold).
      { subst amt. destruct (Z.gtb_spec gold MAX_PVAL); lia. }
      destruct (IH (gold - amt)) as [Hs Hall]; [lia|lia|lia|].
      split.
      * cbn [total foldr]. fold (total (gold_chunks fuel (gold - amt))). lia.
      * constructor; [lia|exact Hall].
    + split; [cbn; lia|constructor].
Qed.

Lemma carry_gold_spec (Hps : purse_services) i fuel : forall gold w,
  0 < MAX_PVAL -> 0 <= gold -> (Z.to_nat gold <= fuel)%nat ->
  fst (carry_gold fuel i gold w) = 0
  /\ au (p_ptr (g (snd (carry_gold fuel i gold w)))) = au (p_ptr (g w))
  /\ exists l, tr (snd (carry_gold fuel i gold w)) = tr w ++ l
       /\ omap carried (map what l)
          = map (fun amt => (i, stolen_gold amt)) (gold_chunks fuel gold).
Proof.
  induction fuel as [|fuel IH]; intros gold w Hmax Hg Hf.
  - cbn. assert (gold = 0) by lia. subst. repeat split.
    exists []. now rewrite app_nil_r.
  - cbn [carry_gold gold_chunks]. destruct (Z.gtb_spec gold 0) as [Hpos|Hz].
    + set (amt := if gold >? MAX_PVAL then MAX_PVAL else gold).
      assert (Hamt : 0 < amt <= MAX_PVAL /\ amt <= gold).
      { subst amt. destruct (Z.gtb_spec gold MAX_PVAL); lia. }
      fold (stolen_gold amt). rewrite bind_run.
      pose proof (tr_invoke _ (monster_carry i (stolen_gold amt)) w) as Htr.
      pose proof (g_invoke _ (monster_carry i (stolen_gold amt)) w) as Hg1.
      set (w1 := snd (invoke (monster_carry i (stolen_gold amt)) w)) in *.
      destruct (IH (gold - amt) w1) as (H0 & Hau & l & Hl & Hc); [lia|lia|lia|].
      split; [exact H0|]. split.
      * rewrite Hau, Hg1. apply (ps_carry Hps).
      * exists ({| at_state := g w; what := ev (monster_carry i (stolen_gold amt)) |} :: l).
        split.
        -- rewrite Hl, Htr, <- app_assoc. reflexivity.
        -- cbn. now rewrite Hc.
    + cbn. repeat split; [lia|]. exists []. now rewrite app_nil_r.
Qed.


Lemma quiet_refl w : quiet_step w w.
Proof. split; [reflexivity|]. exists []. now rewrite app_nil_r. Qed.

Lemma quiet_trans w1 w2 w3 :
  quiet_step w1 w2 -> quiet_step w2 w3 -> quiet_step w1 w3.
Proof.
  intros [Ha (l & Hl & Hc)] [Ha' (l' & Hl' & Hc')]. split; [congruence|].
  exists (l ++ l'). split.
  - rewrite Hl', Hl, app_assoc. reflexivity.
  - rewrite map_app, omap_app, Hc, Hc'. reflexivity.
Qed.

Lemma quiet_rand (Hps : purse_services) n w :
  quiet_step w (snd (invoke (Rand_div n) w)).
Proof.
  split.
  - rewrite g_invoke. apply (ps_rand Hps).
  - eexists. split; [apply tr_invoke|reflexivity].
Qed.

Lemma quiet_msg (Hps : purse_services) s w :
  quiet_step w (snd (invoke (msg s) w)).
Proof.
  split.
  - rewrite g_invoke. apply (ps_msg Hps).
  - eexists. split; [apply tr_invoke|reflexivity].
Qed.

Lemma randint1_run n w :
  randint1 n w = (fst (ext Z (Rand_div n) (g w)) + 1, snd (invoke (Rand_div n) w)).
Proof.
  unfold randint1. rewrite bind_run, fst_invoke. reflexivity.
Qed.

Lemma steal_gold_spec (Hps : purse_services) c w :
  0 < MAX_PVAL -> 0 < au (p_ptr (g w)) ->
  exists gold,
    0 < gold <= au (p_ptr (g w))
    /\ au (p_ptr (g (snd (steal_gold c w)))) = au (p_ptr (g w)) - gold
    /\ omap carried (new_calls (steal_gold c) w)
       = map (fun amt => (ctx_m c, stolen_gold amt))
           (gold_chunks (Z.to_nat gold) gold)
    /\ fst (steal_gold c w) = set_blinked true c.
Proof.
  intros Hmax Hau. set (a := au (p_ptr (g w))) in *.
  unfold steal_gold. rewrite bind_run, randint1_run. cbn [fst snd].
  pose proof (ps_range Hps 25 (g w) ltac:(lia)) as Hr25.
  set (r25 := fst (ext Z (Rand_div 25) (g w)) + 1) in *.
  pose proof (quiet_rand Hps 25 w) as Hq1.
  set (w1 := snd (invoke (Rand_div 25) w)) in *.
  rewrite bind_run. cbn [gets fst snd].
  assert (Ha1 : au (p_ptr (g w1)) = a) by apply Hq1.
  rewrite Ha1.
  set (gold0 := if Z.quot a 10 + r25 <? 2 then 2 else Z.quot a 10 + r25).
  assert (Hg0 : 2 <= gold0) by (subst gold0; destruct (Z.ltb_spec (Z.quot a 10 + r25) 2); lia).
  rewrite bind_run.
  set (step := (if gold0 >? 5000
                then r3000 <- randint1 3000;; p <- gets p_ptr;; ret (Z.quot (au p) 20 + r3000)
                else ret gold0) w1).
  assert (Hstep : 0 < fst step /\ quiet_step w1 (snd step)).
  { subst step. destruct (gold0 >? 5000).
    - rewrite bind_run, randint1_run. cbn [fst snd gets bind ret].
      pose proof (ps_range Hps 3000 (g w1) ltac:(lia)) as Hr.
      pose proof (quiet_rand Hps 3000 w1) as Hq.
      split; [|exact Hq].
      destruct Hq as [Hq _]. rewrite Hq, Ha1.
      assert (0 <= Z.quot a 20) by (apply Z.quot_pos; lia). lia.
    - cbn. split; [lia|apply quiet_refl]. }
  destruct Hstep as [Hg1 Hq2].
  set (gold1 := fst step) in *. set (w2 := snd step) in *.
  rewrite bind_run. cbn [gets fst snd].
  assert (Ha2 : au (p_ptr (g w2)) = a) by (destruct Hq2 as [-> _]; exact Ha1).
  rewrite Ha2.
  set (gold := if gold1 >? a then a else gold1).
  assert (Hgold : 0 < gold <= a) by (subst gold; destruct (Z.gtb_spec gold1 a); lia).
  rewrite bind_run. cbn [modify fst snd].
  set (w3 := {| g := upd_player (fun p => set_au (au p - gold) p) (g w2); tr := tr w2 |}).
  destruct (Z.leb_spec gold 0) as [|_]; [lia|].
  rewrite bind_run.
  pose proof (quiet_msg Hps "Your purse feels lighter." w3) as Hq4.
  set (w4 := snd (invoke (msg "Your purse feels lighter.") w3)) in *.
  rewrite bind_run. cbn [gets fst snd].
  rewrite bind_run.
  set (step5 := (if nz (au (p_ptr (g w4)))
                 then invoke (msg "%ld coins were stolen!")
                 else invoke (msg "All of your coins were stolen!")) w4).
  assert (Hq5 : quiet_step w4 (snd step5)).
  { subst step5. destruct (nz _); apply (quiet_msg Hps). }
  set (w5 := snd step5) in *.
  rewrite bind_run.
  destruct (carry_gold_spec Hps (ctx_m c) (Z.to_nat gold) gold w5)
    as (_ & Ha6 & l6 & Hl6 & Hc6); [lia|lia|lia|].
  set (w6 := snd (carry_gold (Z.to_nat gold) (ctx_m c) gold w5)) in *.
  rewrite bind_run. cbn [modify ret fst snd].
  assert (Ha3 : au (p_ptr (g w3)) = a - gold) by (cbn; rewrite Ha2; reflexivity).
  exists gold. split; [exact Hgold|]. split; [|split; [|reflexivity]].
  - cbn [g upd_player p_ptr pbit_on au].
    rewrite Ha6. destruct Hq5 as [-> _]. destruct Hq4 as [-> _]. exact Ha3.
  - unfold new_calls.
    unfold steal_gold. rewrite bind_run, randint1_run. cbn [fst snd].
    fold r25 w1. rewrite bind_run. cbn [gets fst snd]. rewrite Ha1.
    fold gold0. rewrite bind_run. fold step. fold gold1 w2.
    rewrite bind_run. cbn [gets fst snd]. rewrite Ha2. fold gold.
    rewrite bind_run. cbn [modify fst snd]. fold w3.
    destruct (Z.leb_spec gold 0) as [|_]; [lia|].
    rewrite bind_run. fold w4. rewrite bind_run. cbn [gets fst snd].
    rewrite bind_run. fold step5. fold w5. rewrite bind_run. fold w6.
    rewrite bind_run. cbn [modify ret fst snd tr].
    destruct Hq1 as [_ (l1 & Hl1 & Hc1)].
    destruct Hq2 as [_ (l2 & Hl2 & Hc2)].
    destruct Hq4 as [_ (l4 & Hl4 & Hc4)].
    destruct Hq5 as [_ (l5 & Hl5 & Hc5)].
    rewrite Hl6, Hl5, Hl4. cbn [w3 tr]. rewrite Hl2, Hl1.
    rewrite <- !app_assoc, drop_app_length.
    rewrite !map_app, !omap_app, Hc1, Hc2, Hc4, Hc5, Hc6. reflexivity.
Qed.

End GoldFacts.

(** ** Blinking away *)

Section BlinkFacts.
Context {K : Constants} {Hd : Hidden} {Sv : Services}.

Lemma always_ret {A} (a : A) (Q : A -> Prop) : Q a -> always (ret a) Q.
Proof. intros H w. exact H. Qed.

Lemma always_bind_with {A B} (c : M A) (k : A -> M B) (P : A -> Prop)
    (Q : B -> Prop) :
  always c P -> (forall a, P a -> always (k a) Q) -> always (bind c k) Q.
Proof.
  intros Hc Hk w. rewrite bind_run. apply Hk. apply Hc.
Qed.

Lemma always_bind {A B} (c : M A) (k : A -> M B) (Q : B -> Prop) :
  (forall a, always (k a) Q) -> always (bind c k) Q.
Proof.
  intros Hk w. rewrite bind_run. apply Hk.
Qed.

Ltac always_step :=
  lazymatch goal with
  | |- always (@bind _ melee_ctx _ ?c ?k) _ =>
      apply (always_bind_with c k blinking); [|intros ? ?]
  | |- always (bind _ _) _ => apply always_bind; intros
  | |- always (ret _) _ => apply always_ret
  | |- always (if ?b then _ else _) _ => destruct b
  | |- always (match ?x with _ => _ end) _ => destruct x
  | |- always (let _ := _ in _) _ => cbv zeta
  end.

Ltac blink_leaf :=
  unfold blinking in *; cbn;
  repeat match goal with
         | |- context [if ?b then _ else _] => destruct b; cbn
         end;
  auto.

Ltac blink := repeat always_step; try blink_leaf.

Lemma blink_elemental c typ pure_element :
  blinking c -> always (melee_effect_elemental c typ pure_element) blinking.
Proof. intros H. unfold melee_effect_elemental. blink. Qed.

Lemma blink_timed c typ amount fl sv sm :
  blinking c -> always (melee_effect_timed c typ amount fl sv sm) blinking.
Proof. intros H. unfold melee_effect_timed. blink. Qed.

Lemma blink_stat c st : blinking c -> always (melee_effect_stat c st) blinking.
Proof. intros H. unfold melee_effect_stat. blink. Qed.

Lemma blink_experience c ch d :
  blinking c -> always (melee_effect_experience c ch d) blinking.
Proof. intros H. unfold melee_effect_experience. blink. Qed.


Lemma blink_drain_tries tries : forall unpower c,
  blinking c -> always (drain_charges_tries tries unpower c) blinking.
Proof.
  induction tries as [|tries IH]; intros unpower c H; cbn [drain_charges_tries].
  - blink.
  - repeat always_step; try (apply IH; assumption); blink_leaf.
Qed.

Lemma blink_eat_item_tries tries : forall c,
  blinking c -> always (eat_item_tries tries c) blinking.
Proof.
  induction tries as [|tries IH]; intros c H; cbn [eat_item_tries].
  - blink.
  - repeat always_step; try (apply IH; assumption); blink_leaf.
Qed.

Lemma blink_eat_food_tries tries : forall c,
  blinking c -> always (eat_food_tries tries c) blinking.
Proof.
  induction tries as [|tries IH]; intros c H; cbn [eat_food_tries].
  - blink.
  - repeat always_step; try (apply IH; assumption); blink_leaf.
Qed.

Create HintDb blink.
#[local] Hint Resolve blink_elemental blink_timed blink_stat blink_experience
  blink_drain_tries blink_eat_item_tries blink_eat_food_tries : blink.

Lemma blink_steal_gold c : blinking c -> always (steal_gold c) blinking.
Proof. intros H. unfold steal_gold. blink. Qed.

(** No handler clears [blinked]. *)
Lemma handlers_keep_blink e h c :
  melee_handler_for_blow_effect e = Some h ->
  blinking c -> always (h c) blinking.
Proof.
  intros Hh Hc. unfold melee_handler_for_blow_effect in Hh.
  injection Hh as <-.
  destruct e;
    unfold melee_effect_handler_none, melee_effect_handler_hurt,
      melee_effect_handler_poison, melee_effect_handler_disenchant,
      melee_effect_handler_drain_charges, melee_effect_handler_eat_gold,
      melee_effect_handler_eat_item, melee_effect_handler_eat_food,
      melee_effect_handler_eat_light, melee_effect_handler_acid,
      melee_effect_handler_elec, melee_effect_handler_fire,
      melee_effect_handler_cold, melee_effect_handler_blind,
      melee_effect_handler_confuse, melee_effect_handler_terrify,
      melee_effect_handler_paralyze, melee_effect_handler_lose_str,
      melee_effect_handler_lose_int, melee_effect_handler_lose_wis,
      melee_effect_handler_lose_dex, melee_effect_handler_lose_con,
      melee_effect_handler_lose_all, melee_effect_handler_shatter,
      melee_effect_handler_exp_10, melee_effect_handler_exp_20,
      melee_effect_handler_exp_40, melee_effect_handler_exp_80,
      melee_effect_handler_hallucination;
    repeat (always_step || (progress eauto with blink) || (apply blink_steal_gold; blink_leaf));
    try blink_leaf.
  all: apply blink_timed; blink_leaf.
Qed.

Lemma blink_apply_effect i rlev total_ac b obvious do_break dam :
  always (apply_effect i rlev total_ac b obvious true do_break dam) blinking.
Proof.
  unfold apply_effect.
  destruct (melee_handler_for_blow_effect (effect b)) as [h|] eqn:Eh.
  - eapply handlers_keep_blink; [exact Eh|reflexivity].
  - blink.
Qed.

Lemma blink_land_blow i rlev total_ac b do_break :
  always (land_blow i rlev total_ac b true do_break)
    (fun res => snd (fst res) = true).
Proof.
  unfold land_blow. apply always_bind. intros dam. cbv zeta.
  apply (always_bind_with _ _ blinking); [apply blink_apply_effect|].
  intros c Hc. apply always_bind. intros _. apply always_ret. exact Hc.
Qed.

(** Once [blinked] is set, the blow loop ends with it set. *)
Lemma blow_loop_keeps_blink fuel i lidx rlev total_ac : forall ap_cnt,
  always (blow_loop fuel i lidx rlev total_ac ap_cnt true) (fun b => b = true).
Proof.
  induction fuel as [|fuel IH]; intros ap_cnt; cbn [blow_loop].
  - now apply always_ret.
  - cbv zeta. apply always_bind. intros m.
    destruct (negb (nz (method (blow_at m ap_cnt)))); [now apply always_ret|].
    apply always_bind. intros p.
    destruct (leaving p); [now apply always_ret|].
    apply always_bind. intros hit. destruct hit.
    + apply always_bind. intros _. apply always_bind. intros repelled.
      destruct repelled.
      * apply always_bind. intros _. apply IH.
      * apply (always_bind_with _ _ (fun res => snd (fst res) = true));
          [apply blink_land_blow|].
        intros res Hres. apply always_bind. intros _. rewrite Hres. apply IH.
    + apply always_bind. intros m'. apply always_bind. intros _.
      apply always_bind. intros _. apply IH.
Qed.

Lemma after_blows_teleports i lidx w :
  new_calls (after_blows i lidx true) w
  = [ev (msg "There is a puff of smoke!");
     ev (teleport_away i (MAX_SIGHT * 2 + 5))]
  /\ fst (after_blows i lidx true w) = true.
Proof.
  unfold after_blows, new_calls. rewrite bind_run.
  cbn [when_]. rewrite (bind_run (invoke (msg _))).
  set (w1 := snd (invoke (msg "There is a puff of smoke!") w)).
  set (w2 := snd (invoke (teleport_away i (MAX_SIGHT * 2 + 5)) w1)).
  rewrite bind_run. cbn [gets fst snd]. rewrite bind_run. cbn [gets fst snd].
  rewrite bind_run.
  assert (Ht : tr w2 = tr w ++ [ {| at_state := g w; what := ev (msg "There is a puff of smoke!") |};
                                  {| at_state := g w1; what := ev (teleport_away i (MAX_SIGHT * 2 + 5)) |} ]).
  { subst w2 w1. rewrite !tr_invoke, <- app_assoc. reflexivity. }
  destruct (is_dead (p_ptr (g w2)) && (deaths (lore (g w2) lidx) <? MAX_SHORT));
    cbn [when_ modify ret fst snd tr]; rewrite Ht, drop_app_length; split; reflexivity.
Qed.

Lemma eat_gold_save_fails c w :
  let w1 := snd (invoke (take_hit (ctx_damage c)) w) in
  fst (theft_save w1) = false ->
  melee_effect_handler_eat_gold c w
  = steal_gold (set_obvious true c) (snd (theft_save w1)).
Proof.
  intros w1 Hsave. unfold melee_effect_handler_eat_gold.
  rewrite bind_run. fold w1. cbv zeta. rewrite bind_run, Hsave. reflexivity.
Qed.

End BlinkFacts.

(** ** Calls that hand something to a monster *)

Section CarryLogic.
Context {K : Constants} {Hd : Hidden} {Sv : Services}.

Lemma ci_ret {A} (a : A) (Q : A -> Prop) : carries_imply (ret a) Q.
Proof. intros w. exists []. split; [cbn; now rewrite app_nil_r|left; constructor]. Qed.

Lemma ci_gets {A} (f : game -> A) (Q : A -> Prop) : carries_imply (gets f) Q.
Proof. intros w. exists []. split; [cbn; now rewrite app_nil_r|left; constructor]. Qed.

Lemma ci_modify f (Q : unit -> Prop) : carries_imply (modify f) Q.
Proof. intros w. exists []. split; [cbn; now rewrite app_nil_r|left; constructor]. Qed.

Lemma ci_invoke R (c : call R) (Q : R -> Prop) :
  is_carry (ev c) = false -> carries_imply (invoke c) Q.
Proof.
  intros Hc w. exists [ {| at_state := g w; what := ev c |} ].
  split; [apply tr_invoke|]. left. constructor; [exact Hc|constructor].
Qed.

Lemma ci_any_invoke R (c : call R) : carries_imply (invoke c) (fun _ => True).
Proof.
  intros w. exists [ {| at_state := g w; what := ev c |} ].
  split; [apply tr_invoke|]. now right.
Qed.

Lemma ci_bind {A B} (c : M A) (k : A -> M B) (Q1 : A -> Prop) (Q : B -> Prop) :
  carries_imply c Q1 -> (forall a, carries_imply (k a) Q) ->
  (forall a, Q1 a -> always (k a) Q) ->
  carries_imply (bind c k) Q.
Proof.
  intros Hc Hk Hq w. rewrite bind_run.
  destruct (Hc w) as (l1 & Ht1 & H1).
  destruct (Hk (fst (c w)) (snd (c w))) as (l2 & Ht2 & H2).
  exists (l1 ++ l2). split; [rewrite Ht2, Ht1, app_assoc; reflexivity|].
  destruct H2 as [H2|H2]; [|now right].
  destruct H1 as [H1|H1].
  - left. apply Forall_app. split; assumption.
  - right. now apply Hq.
Qed.

Lemma ci_quiet_bind {A B} (c : M A) (k : A -> M B) (Q : B -> Prop) :
  carries_imply c (fun _ => False) -> (forall a, carries_imply (k a) Q) ->
  carries_imply (bind c k) Q.
Proof.
  intros Hc Hk. apply (ci_bind c k (fun _ => False)); [exact Hc|exact Hk|].
  intros a [].
Qed.

Lemma ci_when b (c : M unit) (Q : unit -> Prop) :
  carries_imply c Q -> carries_imply (when_ b c) Q.
Proof. intros Hc. destruct b; [exact Hc|apply ci_ret]. Qed.

Lemma ci_always {A} (c : M A) (Q : A -> Prop) :
  carries_imply c (fun _ => True) -> always c Q -> carries_imply c Q.
Proof.
  intros Hc Hq w. destruct (Hc w) as (l & Ht & _).
  exists l. split; [exact Ht|]. right. apply Hq.
Qed.

Lemma ci_weaken {A} (c : M A) (Q1 Q : A -> Prop) :
  carries_imply c Q1 -> (forall a, Q1 a -> Q a) -> carries_imply c Q.
Proof.
  intros Hc Hq w. destruct (Hc w) as (l & Ht & [H|H]).
  - exists l. split; [exact Ht|now left].
  - exists l. split; [exact Ht|right; now apply Hq].
Qed.

Lemma new_calls_bind {A B} (c : M A) (k : A -> M B) (Q1 : A -> Prop)
    (Q : B -> Prop) w :
  carries_imply c Q1 -> carries_imply (k (fst (c w))) Q ->
  new_calls (bind c k) w
  = new_calls c w ++ new_calls (k (fst (c w))) (snd (c w)).
Proof.
  intros Hc Hk. unfold new_calls. rewrite bind_run.
  destruct (Hc w) as (l1 & Ht1 & _).
  destruct (Hk (snd (c w))) as (l2 & Ht2 & _).
  rewrite Ht2, Ht1, <- app_assoc, !drop_app_length, map_app.
  rewrite (app_assoc (tr w)), <- Ht1, drop_app_length. reflexivity.
Qed.

Lemma carries_new_calls {A} (c : M A) (Q : A -> Prop) w :
  carries_imply c Q ->
  Forall (fun e => is_carry e = false) (new_calls c w) \/ Q (fst (c w)).
Proof.
  intros Hc. destruct (Hc w) as (l & Ht & [Hq|Hq]); [left|now right].
  unfold new_calls. rewrite Ht, drop_app_length.
  apply Forall_map. exact Hq.
Qed.

End CarryLogic.

Ltac ends_blinking :=
  repeat (apply always_bind; intros ?); apply always_ret; reflexivity.

Ltac carry_step :=
  lazymatch goal with
  | |- carries_imply (bind (invoke (monster_carry _ _)) _) _ =>
      apply (ci_bind _ _ (fun _ => True));
      [apply ci_any_invoke|intros ?|intros ? _; ends_blinking]
  | |- carries_imply (bind (carry_gold _ _ _) _) _ =>
      apply (ci_bind _ _ (fun _ => True)); [|intros ?|intros ? _; ends_blinking]
  | |- carries_imply (bind _ _) _ => apply ci_quiet_bind; [|intros ?]
  | |- carries_imply (ret _) _ => apply ci_ret
  | |- carries_imply (gets _) _ => apply ci_gets
  | |- carries_imply (modify _) _ => apply ci_modify
  | |- carries_imply (invoke _) _ => apply ci_invoke; reflexivity
  | |- carries_imply (when_ _ _) _ => apply ci_when
  | |- carries_imply (if ?b then _ else _) _ => destruct b
  | |- carries_imply (match ?x with _ => _ end) _ => destruct x
  | |- carries_imply (let _ := _ in _) _ => cbv zeta
  | |- carries_imply (randint0 _) _ => unfold randint0
  | |- carries_imply (randint1 _) _ => unfold randint1
  | |- carries_imply (one_in_ _) _ => unfold one_in_
  end.

Create HintDb carry.

Ltac carry_auto := repeat (carry_step || solve [auto with carry]).

(** ** From the theft to the teleport *)

Section TheftFacts.
Context {K : Constants} {Hd : Hidden} {Sv : Services}.

Lemma quiet_monster_critical d s dam Q :
  carries_imply (monster_critical d s dam) Q.
Proof. unfold monster_critical. carry_auto. Qed.

Lemma quiet_method_action m Q :
  carries_imply (monster_blow_method_action m) Q.
Proof. unfold monster_blow_method_action. carry_auto. Qed.

Lemma quiet_cut_amount t Q : carries_imply (cut_amount t) Q.
Proof. unfold cut_amount. carry_auto. Qed.

Lemma quiet_stun_amount t Q : carries_imply (stun_amount t) Q.
Proof. unfold stun_amount. carry_auto. Qed.

Lemma quiet_count_blow i lidx ap vis ob dam Q :
  carries_imply (count_blow i lidx ap vis ob dam) Q.
Proof. unfold count_blow. carry_auto. Qed.

Lemma quiet_repelled i lidx rlev Q :
  carries_imply (repelled_by_protection i lidx rlev) Q.
Proof. unfold repelled_by_protection. carry_auto. Qed.

Lemma quiet_check_hit p l Q : carries_imply (check_hit p l) Q.
Proof. unfold check_hit. carry_auto. Qed.

Lemma quiet_elemental c typ pe Q :
  carries_imply (melee_effect_elemental c typ pe) Q.
Proof. unfold melee_effect_elemental. carry_auto. Qed.

Lemma quiet_timed c typ amount fl sv sm Q :
  carries_imply (melee_effect_timed c typ amount fl sv sm) Q.
Proof. unfold melee_effect_timed. carry_auto. Qed.

Lemma quiet_stat c st Q : carries_imply (melee_effect_stat c st) Q.
Proof. unfold melee_effect_stat. carry_auto. Qed.

Lemma quiet_experience c ch d Q :
  carries_imply (melee_effect_experience c ch d) Q.
Proof. unfold melee_effect_experience. carry_auto. Qed.

#[local] Hint Resolve quiet_monster_critical quiet_method_action
  quiet_cut_amount quiet_stun_amount quiet_count_blow quiet_repelled
  quiet_check_hit quiet_elemental quiet_timed quiet_stat quiet_experience
  : carry.

Lemma quiet_drain_tries tries Q : forall unpower c,
  carries_imply (drain_charges_tries tries unpower c) Q.
Proof.
  induction tries as [|tries IH]; intros unpower c; cbn [drain_charges_tries];
    carry_auto.
Qed.

Lemma quiet_eat_food_tries tries Q : forall c,
  carries_imply (eat_food_tries tries c) Q.
Proof.
  induction tries as [|tries IH]; intros c; cbn [eat_food_tries]; carry_auto.
Qed.

Lemma quiet_theft_save Q : carries_imply theft_save Q.
Proof. unfold theft_save. carry_auto. Qed.

Lemma any_carry_gold fuel i : forall gold,
  carries_imply (carry_gold fuel i gold) (fun _ => True).
Proof.
  induction fuel as [|fuel IH]; intros gold; cbn [carry_gold].
  - apply ci_ret.
  - destruct (gold >? 0); [|apply ci_ret]. cbv zeta.
    intros w. rewrite bind_run.
    destruct (ci_any_invoke _ (monster_carry i
                 (set_origin ORIGIN_STOLEN
                    (set_pval (if gold >? MAX_PVAL then MAX_PVAL else gold)
                       gold_kind))) w) as (l1 & Ht1 & _).
    destruct (IH (gold - (if gold >? MAX_PVAL then MAX_PVAL else gold))
                (snd (invoke (monster_carry i
                 (set_origin ORIGIN_STOLEN
                    (set_pval (if gold >? MAX_PVAL then MAX_PVAL else gold)
                       gold_kind))) w))) as (l2 & Ht2 & _).
    exists (l1 ++ l2). split; [rewrite Ht2, Ht1, app_assoc; reflexivity|now right].
Qed.

#[local] Hint Resolve quiet_drain_tries quiet_eat_food_tries quiet_theft_save
  any_carry_gold : carry.

(** The gold thief hands gold to the monster only when it then asks for
    the blink. *)
Lemma carry_steal_gold c : carries_imply (steal_gold c) blinking.
Proof. unfold steal_gold. carry_auto. Qed.

Lemma carry_eat_item_tries tries : forall c,
  carries_imply (eat_item_tries tries c) blinking.
Proof.
  induction tries as [|tries IH]; intros c; cbn [eat_item_tries]; carry_auto.
Qed.

#[local] Hint Resolve carry_steal_gold carry_eat_item_tries : carry.

Lemma carry_handlers e h c :
  melee_handler_for_blow_effect e = Some h -> carries_imply (h c) blinking.
Proof.
  intros Hh. unfold melee_handler_for_blow_effect in Hh. injection Hh as <-.
  destruct e;
    unfold melee_effect_handler_none, melee_effect_handler_hurt,
      melee_effect_handler_poison, melee_effect_handler_disenchant,
      melee_effect_handler_drain_charges, melee_effect_handler_eat_gold,
      melee_effect_handler_eat_item, melee_effect_handler_eat_food,
      melee_effect_handler_eat_light, melee_effect_handler_acid,
      melee_effect_handler_elec, melee_effect_handler_fire,
      melee_effect_handler_cold, melee_effect_handler_blind,
      melee_effect_handler_confuse, melee_effect_handler_terrify,
      melee_effect_handler_paralyze, melee_effect_handler_lose_str,
      melee_effect_handler_lose_int, melee_effect_handler_lose_wis,
      melee_effect_handler_lose_dex, melee_effect_handler_lose_con,
      melee_effect_handler_lose_all, melee_effect_handler_shatter,
      melee_effect_handler_exp_10, melee_effect_handler_exp_20,
      melee_effect_handler_exp_40, melee_effect_handler_exp_80,
      melee_effect_handler_hallucination;
    carry_auto.
Qed.

Lemma carry_apply_effect i rlev tac b ob bl db dam :
  carries_imply (apply_effect i rlev tac b ob bl db dam) blinking.
Proof.
  unfold apply_effect.
  destruct (melee_handler_for_blow_effect (effect b)) as [h|] eqn:Eh.
  - eapply carry_handlers. exact Eh.
  - carry_auto.
Qed.

Lemma quiet_announce_blow b Q : carries_imply (announce_blow b) Q.
Proof. unfold announce_blow. carry_auto. Qed.

Lemma quiet_cut_and_stun b dam Q : carries_imply (cut_and_stun b dam) Q.
Proof. unfold cut_and_stun. carry_auto. Qed.

#[local] Hint Resolve quiet_announce_blow quiet_cut_and_stun : carry.

(** A blow that handed something to the monster comes back with
    [blinked] set. *)
Lemma carry_land_blow i rlev tac b bl db :
  carries_imply (land_blow i rlev tac b bl db)
    (fun res => snd (fst res) = true).
Proof.
  unfold land_blow. apply ci_quiet_bind; [auto with carry|]. intros dam.
  cbv zeta. apply (ci_bind _ _ blinking); [apply carry_apply_effect| |].
  - intros c. carry_auto.
  - intros c Hc. apply always_bind. intros _. apply always_ret. exact Hc.
Qed.

Lemma carry_blow_loop fuel i lidx rlev tac : forall ap bl,
  carries_imply (blow_loop fuel i lidx rlev tac ap bl) (fun b => b = true).
Proof.
  induction fuel as [|fuel IH]; intros ap bl; cbn [blow_loop].
  - apply ci_ret.
  - cbv zeta. apply ci_quiet_bind; [apply ci_gets|]. intros m.
    destruct (negb (nz (method (blow_at m ap)))); [apply ci_ret|].
    apply ci_quiet_bind; [apply ci_gets|]. intros p.
    destruct (leaving p); [apply ci_ret|].
    apply ci_quiet_bind; [carry_auto|]. intros hit. destruct hit.
    + apply ci_quiet_bind; [carry_auto|]. intros _.
      apply ci_quiet_bind; [carry_auto|]. intros repelled.
      destruct repelled.
      * apply ci_quiet_bind; [carry_auto|]. intros _. apply IH.
      * apply (ci_bind _ _ (fun res => snd (fst res) = true));
          [apply carry_land_blow| |].
        -- intros res. apply ci_quiet_bind; [carry_auto|]. intros _. apply IH.
        -- intros res Hres. apply always_bind. intros _. rewrite Hres.
           apply blow_loop_keeps_blink.
    + apply ci_quiet_bind; [apply ci_gets|]. intros m'.
      apply ci_quiet_bind; [carry_auto|]. intros _.
      apply ci_quiet_bind; [carry_auto|]. intros _. apply IH.
Qed.

Lemma quiet_after_blows i lidx bl Q : carries_imply (after_blows i lidx bl) Q.
Proof. unfold after_blows. carry_auto. Qed.

(** An attack in which the monster was handed something ends with the
    puff of smoke and the teleport. *)
Lemma theft_ends_in_teleport i w :
  Exists (fun e => is_carry e = true) (new_calls (make_attack_normal i) w) ->
  exists l,
    new_calls (make_attack_normal i) w
    = l ++ [ev (msg "There is a puff of smoke!");
            ev (teleport_away i (MAX_SIGHT * 2 + 5))].
Proof.
  unfold make_attack_normal.
  rewrite (new_calls_bind _ _ (fun _ => False) (fun b => b = true) w);
    [|apply ci_gets|].
  2:{ cbn [gets fst]. destruct (rf_has (mon (g w) i) RF_NEVER_BLOW);
        [apply ci_ret|]. carry_step; [apply ci_gets|]. cbv zeta.
      apply (ci_bind _ _ (fun b => b = true)); [apply carry_blow_loop| |].
      - intros b. apply quiet_after_blows.
      - intros b ->. intros w'. apply after_blows_teleports. }
  cbn [gets fst snd]. change (new_calls (gets (fun gm => mon gm i)) w) with
    (map what (drop (length (tr w)) (tr w))).
  rewrite drop_all. cbn [map app].
  destruct (rf_has (mon (g w) i) RF_NEVER_BLOW).
  { unfold new_calls. cbn [ret snd]. rewrite drop_all. cbn [map].
    intros H. inversion H. }
  rewrite (new_calls_bind _ _ (fun _ => False) (fun b => b = true) w);
    [|apply ci_gets|].
  2:{ cbn [gets fst]. cbv zeta.
      apply (ci_bind _ _ (fun b => b = true)); [apply carry_blow_loop| |].
      - intros b. apply quiet_after_blows.
      - intros b ->. intros w'. apply after_blows_teleports. }
  cbn [gets fst snd]. change (new_calls (gets p_ptr) w) with
    (map what (drop (length (tr w)) (tr w))).
  rewrite drop_all. cbn [map app]. cbv zeta.
  set (loop := blow_loop MONSTER_BLOW_MAX i (ridx (race_of (mon (g w) i)))
                 (effective_level (race_of (mon (g w) i)))
                 (ac (p_ptr (g w)) + to_a (p_ptr (g w))) 0 false).
  rewrite (new_calls_bind loop _ (fun b => b = true) (fun _ => False) w);
    [|apply carry_blow_loop|apply quiet_after_blows].
  intros Hex. apply Exists_app in Hex.
  destruct (carries_new_calls loop (fun b => b = true) w
              (carry_blow_loop _ _ _ _ _ _ _)) as [Hq|Hb].
  - destruct Hex as [Hex|Hex].
    + apply Exists_exists in Hex. destruct Hex as (e & Hin & He).
      rewrite Forall_forall in Hq.
      rewrite (Hq e Hin) in He. discriminate He.
    + destruct (carries_new_calls (after_blows i (ridx (race_of (mon (g w) i)))
                    (fst (loop w))) (fun _ => False) (snd (loop w))
                  (quiet_after_blows _ _ _ _)) as [Hq2|[]].
      apply Exists_exists in Hex. destruct Hex as (e & Hin & He).
      rewrite Forall_forall in Hq2.
      rewrite (Hq2 e Hin) in He. discriminate He.
  - rewrite Hb. exists (new_calls loop w).
    rewrite (proj1 (after_blows_teleports _ _ _)). reflexivity.
Qed.

Lemma carried_is_carry (l : list event) :
  omap carried l <> [] -> Exists (fun e => is_carry e = true) l.
Proof.
  induction l as [|e l IH]; cbn; [congruence|].
  destruct (carried e) as [x|] eqn:E.
  - intros _. apply Exists_cons_hd.
    destruct e as [R []]; first [discriminate E | reflexivity].
  - intros H. apply Exists_cons_tl. now apply IH.
Qed.

Lemma land_blow_returns_flag i rlev total_ac b bl db w :
  effect b = RBE_EAT_GOLD ->
  let dam := fst (announce_blow b w) in
  let context :=
    {| ctx_m := i; ctx_rlev := rlev; ctx_method := method b;
       ctx_ac := total_ac; ctx_obvious := true; ctx_blinked := bl;
       ctx_do_break := db; ctx_damage := dam |} in
  snd (fst (fst (land_blow i rlev total_ac b bl db w)))
  = ctx_blinked
      (fst (melee_effect_handler_eat_gold context (snd (announce_blow b w)))).
Proof.
  intros He dam context. unfold land_blow. rewrite bind_run. cbv zeta.
  fold dam. rewrite bind_run. unfold apply_effect. rewrite He.
  cbn [melee_handler_for_blow_effect]. fold context.
  rewrite bind_run. reflexivity.
Qed.

(** C9: when the theft succeeds (the saving throw fails and the purse is
    not empty) the stolen amount is clamped to the player's gold, which
    decreases by exactly that amount and stays non-negative; the whole
    amount is packed, in chunks of at most [MAX_PVAL], into gold objects
    stamped [ORIGIN_STOLEN] that are handed to the monster by
    [monster_carry]; and [blinked] is set.  A landed blow hands the
    handler's [blinked] back to the blow loop, which keeps it set to
    its end, and [make_attack_normal] then blinks away: every attack in
    which the monster was handed something ends with the puff of smoke
    and [teleport_away] for the attacker, at [MAX_SIGHT * 2 + 5]. *)
Theorem gold_theft_accounting (c : melee_ctx) (w : world) :
  purse_services ->
  0 < MAX_PVAL ->
  let w1 := snd (invoke (take_hit (ctx_damage c)) w) in
  let w0 := snd (theft_save w1) in
  let purse := au (p_ptr (g w0)) in
  let c0 := set_obvious true c in
  fst (theft_save w1) = false ->
  0 < purse ->
  melee_effect_handler_eat_gold c w = steal_gold c0 w0
  /\ (exists gold,
        0 < gold <= purse
        /\ au (p_ptr (g (snd (melee_effect_handler_eat_gold c w))))
           = purse - gold
        /\ 0 <= au (p_ptr (g (snd (melee_effect_handler_eat_gold c w))))
        /\ omap carried (new_calls (steal_gold c0) w0)
           = map (fun amt => (ctx_m c, stolen_gold amt))
               (gold_chunks (Z.to_nat gold) gold)
        /\ total (gold_chunks (Z.to_nat gold) gold) = gold
        /\ Forall (fun amt => 0 < amt <= MAX_PVAL)
             (gold_chunks (Z.to_nat gold) gold))
  /\ (forall amt, origin (stolen_gold amt) = ORIGIN_STOLEN
                  /\ pval (stolen_gold amt) = amt)
  /\ ctx_blinked (fst (melee_effect_handler_eat_gold c w)) = true
  /\ (forall fuel i lidx rlev total_ac ap_cnt w',
        fst (blow_loop fuel i lidx rlev total_ac ap_cnt true w') = true)
  /\ (forall i lidx w',
        new_calls (after_blows i lidx true) w'
        = [ev (msg "There is a puff of smoke!");
           ev (teleport_away i (MAX_SIGHT * 2 + 5))])
  /\ Exists (fun e => is_carry e = true)
       (new_calls (melee_effect_handler_eat_gold c) w)
  /\ (forall i rlev total_ac b bl db w',
        effect b = RBE_EAT_GOLD ->
        snd (fst (fst (land_blow i rlev total_ac b bl db w')))
        = ctx_blinked
            (fst (melee_effect_handler_eat_gold
                    {| ctx_m := i; ctx_rlev := rlev; ctx_method := method b;
                       ctx_ac := total_ac; ctx_obvious := true;
                       ctx_blinked := bl; ctx_do_break := db;
                       ctx_damage := fst (announce_blow b w') |}
                    (snd (announce_blow b w')))))
  /\ (forall i w',
        Exists (fun e => is_carry e = true)
          (new_calls (make_attack_normal i) w') ->
        exists l,
          new_calls (make_attack_normal i) w'
          = l ++ [ev (msg "There is a puff of smoke!");
                  ev (teleport_away i (MAX_SIGHT * 2 + 5))]).
Proof.
  intros Hps Hmax w1 w0 purse c0 Hsave Hpurse.
  pose proof (eat_gold_save_fails c w Hsave) as Hrun. fold w1 w0 c0 in Hrun.
  destruct (steal_gold_spec Hps c0 w0 Hmax Hpurse)
    as (gold & Hgold & Hau & Hcarry & Hctx).
  fold purse in Hgold, Hau.
  destruct (gold_chunks_sound (Z.to_nat gold) gold Hmax) as [Htot Hall];
    [lia|lia|].
  split; [exact Hrun|]. split; [|split; [|split; [|split; [|split; [|split; [|split]]]]]].
  - exists gold. rewrite Hrun, Hau. repeat split; try assumption; lia.
  - intros amt. split; reflexivity.
  - rewrite Hrun, Hctx. reflexivity.
  - intros. apply blow_loop_keeps_blink.
  - intros. apply after_blows_teleports.
  - assert (Hex : Exists (fun e => is_carry e = true)
                    (new_calls (steal_gold c0) w0)).
    { apply carried_is_carry. rewrite Hcarry.
      destruct (Z.to_nat gold) as [|n] eqn:En; [lia|].
      cbn [gold_chunks]. destruct (Z.gtb_spec gold 0); [discriminate|lia]. }
    destruct (quiet_theft_save (fun _ => True) w1) as (la & Hta & _).
    destruct (carry_steal_gold c0 w0) as (l2 & Ht2 & _).
    unfold new_calls in *. rewrite Hrun, Ht2 in *. fold w0 in Hta.
    rewrite drop_app_length in Hex.
    rewrite Hta. unfold w1. rewrite tr_invoke, <- !app_assoc, drop_app_length.
    rewrite !map_app. apply Exists_app. right. apply Exists_app. right.
    exact Hex.
  - intros i rlev total_ac b bl db w' He.
    now apply land_blow_returns_flag.
  - intros i w'. apply theft_ends_in_teleport.
Qed.

End TheftFacts.

(** ** The failure roll of a spell *)

Section CastFacts.
Context {K : Constants} {Hd : Hidden} {Sv : Services}.

Lemma quiet_remove_bad_spells i f Q : carries_imply (remove_bad_spells i f) Q.
Proof. unfold remove_bad_spells. carry_auto. Qed.

Lemma quiet_choose_attack_spell f Q : carries_imply (choose_attack_spell f) Q.
Proof. unfold choose_attack_spell. carry_auto. Qed.

#[local] Hint Resolve quiet_remove_bad_spells quiet_choose_attack_spell : carry.

Lemma quiet_pick_spell i Q : carries_imply (pick_spell i) Q.
Proof. unfold pick_spell. carry_auto. Qed.

Lemma make_attack_spell_chosen i s w0 :
  fst (pick_spell i w0) = Some s ->
  make_attack_spell i w0
  = cast_spell_or_fail i s (nz (timed (p_ptr (g w0)) TMD_BLIND))
      (negb (nz (timed (p_ptr (g w0)) TMD_BLIND)) && ml (mon (g w0) i))
      (ridx (race_of (mon (g w0) i))) (snd (pick_spell i w0)).
Proof.
  intros Hpick. unfold make_attack_spell. rewrite bind_run. cbn [gets fst snd].
  rewrite bind_run. cbn [gets fst snd]. cbv zeta. rewrite bind_run, Hpick.
  reflexivity.
Qed.

Lemma spell_fails_roll i s w :
  MIN_NONINNATE_SPELL <= s ->
  spell_fails i s w
  = (fst (ext Z (Rand_div 100) (g w)) <? spell_failrate (mon (g w) i),
     snd (invoke (Rand_div 100) w)).
Proof.
  intros Hs. unfold spell_fails. rewrite bind_run. cbn [gets fst snd]. cbv zeta.
  destruct (Z.geb_spec s MIN_NONINNATE_SPELL); [|lia].
  unfold randint0. rewrite bind_run, fst_invoke. reflexivity.
Qed.

Lemma notice_caster_calls i w :
  tr (snd (notice_caster i w))
  = tr w ++ (if unaware (mon (g w) i)
             then [ {| at_state := g w; what := ev (become_aware i) |} ]
             else []).
Proof.
  unfold notice_caster. rewrite bind_run. cbn [gets fst snd].
  destruct (unaware (mon (g w) i)); cbn [when_].
  - apply tr_invoke.
  - cbn. now rewrite app_nil_r.
Qed.

(** C4 (amended): in [make_attack_spell], once a spell [s] is chosen, the
    fail rate is [25 - (rlev + 3) / 4] for the effective level
    [rlev = max(level, 1)], plus 20 while the monster is afraid, and 0
    for STUPID races.  An innate spell (below [MIN_NONINNATE_SPELL])
    never fails, without a roll: it is cast.  Another spell fails
    exactly when the roll of [randint0(100)] is below the rate, which
    [rate] of the 100 rolls are: the function then emits the "tries to
    cast a spell, but fails" message, does nothing else (after the
    choice of the spell its only calls are [become_aware] for an unaware
    monster, the roll and the message) and returns true; on the other
    rolls the spell is cast. *)
Theorem spell_failure_consumes_cast (i s : Z) (w0 : world) :
  let w := snd (pick_spell i w0) in
  let w1 := snd (notice_caster i w) in
  let m := mon (g w1) i in
  let rate :=
    if rf_has m RF_STUPID then 0
    else 25 - Z.quot (Z.max (level (race_of m)) 1 + 3) 4
         + (if 0 <? m_timed m MON_TMD_FEAR then 20 else 0) in
  let roll := fst (ext Z (Rand_div 100) (g w1)) in
  let w2 := snd (invoke (Rand_div 100) w1) in
  let blind := nz (timed (p_ptr (g w0)) TMD_BLIND) in
  let seen := negb blind && ml (mon (g w0) i) in
  let lidx := ridx (race_of (mon (g w0) i)) in
  fst (pick_spell i w0) = Some s ->
  0 <= m_timed m MON_TMD_FEAR ->
  spell_failrate m = rate
  /\ (0 <= rate <= 100 -> favourable 100 (fun r => r <? rate) = rate)
  /\ (s < MIN_NONINNATE_SPELL ->
      spell_fails i s w1 = (false, w1)
      /\ make_attack_spell i w0
         = (true, snd (do_cast_spell i s blind seen lidx w1)))
  /\ (MIN_NONINNATE_SPELL <= s ->
      spell_fails i s w1 = (roll <? rate, w2)
      /\ (roll < rate ->
          make_attack_spell i w0
          = (true, snd (invoke (msg msg_spell_fails) w2))
          /\ new_calls (make_attack_spell i) w0
             = new_calls (pick_spell i) w0
               ++ (if unaware (mon (g w) i) then [ev (become_aware i)]
                   else [])
               ++ [ev (Rand_div 100); ev (msg msg_spell_fails)])
      /\ (rate <= roll ->
          make_attack_spell i w0
          = (true, snd (do_cast_spell i s blind seen lidx w2)))).
Proof.
  intros w w1 m rate roll w2 blind seen lidx Hpick Hfear.
  assert (Hrate : spell_failrate m = rate) by now apply spell_failrate_formula.
  pose proof (make_attack_spell_chosen i s w0 Hpick) as Hrun.
  fold w blind seen lidx in Hrun.
  assert (Hcast : cast_spell_or_fail i s blind seen lidx w
                  = if fst (spell_fails i s w1)
                    then (true, snd (invoke (msg msg_spell_fails)
                                       (snd (spell_fails i s w1))))
                    else (true, snd (do_cast_spell i s blind seen lidx
                                       (snd (spell_fails i s w1))))).
  { unfold cast_spell_or_fail. rewrite bind_run. fold w1. rewrite bind_run.
    destruct (fst (spell_fails i s w1)); rewrite bind_run; reflexivity. }
  split; [exact Hrate|]. split; [|split].
  - intros Hr. rewrite favourable_below by lia. lia.
  - intros Hs. rewrite Hrun, Hcast, (innate_never_fails i s w1 Hs).
    split; reflexivity.
  - intros Hs. pose proof (spell_fails_roll i s w1 Hs) as Hf.
    fold m roll w2 in Hf. rewrite Hrate in Hf.
    split; [exact Hf|]. split.
    + intros Hlt. rewrite Hrun, Hcast, Hf. cbn [fst snd].
      destruct (Z.ltb_spec roll rate); [|lia].
      split; [reflexivity|].
      unfold new_calls. rewrite Hrun, Hcast, Hf. cbn [fst snd].
      destruct (Z.ltb_spec roll rate); [|lia]. cbn [snd].
      destruct (quiet_pick_spell i (fun _ => True) w0) as (lp & Hlp & _).
      fold w in Hlp.
      rewrite tr_invoke. unfold w2. rewrite tr_invoke. unfold w1.
      rewrite notice_caster_calls.
      change (snd (pick_spell i w0)) with w. rewrite Hlp.
      rewrite <- !app_assoc, !drop_app_length, !map_app.
      destruct (unaware (mon (g w) i)); reflexivity.
    + intros Hge. rewrite Hrun, Hcast, Hf. cbn [fst snd].
      destruct (Z.ltb_spec roll rate); [lia|reflexivity].
Qed.

End CastFacts.

(** ** Breeding takes the turn *)

Section BreedTurn.
Context {K : Constants} {Hd : Hidden} {Sv : Services}.

(** The scan counts every occupied neighbour, and at most one grid
    more. *)
Lemma count_adjacent_neighbours gm oy ox :
  spec_neighbours gm oy ox <= count_adjacent gm oy ox
  <= spec_neighbours gm oy ox + 1.
Proof.
  unfold count_adjacent, spec_neighbours. rewrite !around1_list.
  cbn [flat_map map app List.filter fst snd].
  rewrite !Z.eqb_refl.
  rewrite !(proj2 (Z.eqb_neq (oy - 1) oy)) by lia.
  rewrite !(proj2 (Z.eqb_neq (oy + 1) oy)) by lia.
  rewrite !(proj2 (Z.eqb_neq (ox - 1) ox)) by lia.
  rewrite !(proj2 (Z.eqb_neq (ox + 1) ox)) by lia.
  cbn [andb negb].
  repeat match goal with
         | |- context [m_idx ?c ?y ?x >? 0] => destruct (m_idx c y x >? 0)
         end;
    cbn [length]; lia.
Qed.

Lemma multiply_attempt_calls k w :
  tr (snd (multiply_attempt k w))
  = tr w ++ (if (k <? 4) && negb (k =? 0)
             then [ {| at_state := g w; what := ev (Rand_div (k * MON_MULT_ADJ)) |} ]
             else []).
Proof.
  unfold multiply_attempt.
  destruct (k <? 4); [|cbn; now rewrite app_nil_r].
  destruct (k =? 0); [cbn; now rewrite app_nil_r|]. cbn [andb negb].
  unfold one_in_, randint0. rewrite bind_run. cbn [ret snd]. apply tr_invoke.
Qed.

Lemma learn_flag_quiet i lidx f w :
  tr (snd (learn_flag i lidx f w)) = tr w
  /\ mon (g (snd (learn_flag i lidx f w))) i = mon (g w) i.
Proof.
  unfold learn_flag. rewrite bind_run. cbn [gets fst snd].
  destruct (ml (mon (g w) i)); split; reflexivity.
Qed.

Lemma process_multiply_attempted i lidx oy ox w :
  num_repro (g w) < MAX_REPRO ->
  let k := count_adjacent (g w) oy ox in
  let wl := snd (learn_flag i lidx RF_MULTIPLY (snd (multiply_attempt k w))) in
  let wb := snd (invoke (multiply_monster i) wl) in
  fst (multiply_attempt k w) = true ->
  process_multiply i lidx oy ox w
  = if rf_has (mon (g wl) i) RF_MULTIPLY then
      if fst (ext bool (multiply_monster i) (g wl)) then
        (true, if ml (mon (g wb) i)
               then snd (invoke (sound "MSG_MULTIPLY") wb) else wb)
      else (false, wb)
    else (false, wl).
Proof.
  intros Hrepro k wl wb Hyes. unfold process_multiply.
  rewrite bind_run. cbn [gets fst snd].
  destruct (Z.ltb_spec (num_repro (g w)) MAX_REPRO); [|lia].
  cbv zeta. fold k. rewrite bind_run, Hyes. rewrite bind_run. fold wl.
  rewrite bind_run. cbn [gets fst snd]. rewrite bind_run.
  destruct (rf_has (mon (g wl) i) RF_MULTIPLY).
  - rewrite fst_invoke. fold wb.
    destruct (fst (ext bool (multiply_monster i) (g wl))); [|reflexivity].
    rewrite bind_run. cbn [gets fst snd]. rewrite bind_run.
    destruct (ml (mon (g wb) i)); reflexivity.
  - reflexivity.
Qed.

(** C3 (amended): while fewer than [MAX_REPRO] breeders are on the
    level, with [k] the count of the scan for monsters around the
    monster (the number [n] of occupied grids among its 8 neighbours, or
    one more), a multiplication attempt is made only when [k < 4]:
    always when [k = 0], and otherwise on the one draw in
    [k * MON_MULT_ADJ] that is 0; never when [k >= 4], so never with
    four or more neighbours occupied.  When an attempt is made, the
    race has MULTIPLY and [multiply_monster] succeeds, the turn is
    consumed: [process_awake] ends with the breeding, its only calls
    being the draw, [multiply_monster] and the sound, so that no spell,
    move or blow follows.  Otherwise the monster did not breed. *)
Theorem multiply_when_uncrowded (i lidx : Z) (w : world) :
  num_repro (g w) < MAX_REPRO ->
  0 < MON_MULT_ADJ ->
  let m := mon (g w) i in
  let n := spec_neighbours (g w) (fy m) (fx m) in
  let k := count_adjacent (g w) (fy m) (fx m) in
  let wl := snd (learn_flag i lidx RF_MULTIPLY (snd (multiply_attempt k w))) in
  let wb := snd (invoke (multiply_monster i) wl) in
  n <= k <= n + 1
  /\ (k = 0 -> multiply_attempt k w = (true, w))
  /\ (0 < k < 4 ->
      multiply_attempt k w
      = (breeds k (fst (randint0 (k * MON_MULT_ADJ) w)),
         snd (randint0 (k * MON_MULT_ADJ) w))
      /\ favourable (k * MON_MULT_ADJ) (breeds k) = 1)
  /\ (4 <= k ->
      multiply_attempt k w = (false, w)
      /\ favourable (k * MON_MULT_ADJ) (breeds k) = 0)
  /\ (4 <= n ->
      process_multiply i lidx (fy m) (fx m) w = (false, w)
      /\ process_awake i lidx w = process_act i lidx (fy m) (fx m) w)
  /\ (fst (multiply_attempt k w) = false ->
      process_multiply i lidx (fy m) (fx m) w
      = (false, snd (multiply_attempt k w)))
  /\ (fst (multiply_attempt k w) = true ->
      rf_has (mon (g wl) i) RF_MULTIPLY = true ->
      fst (ext bool (multiply_monster i) (g wl)) = true ->
      fst (process_multiply i lidx (fy m) (fx m) w) = true
      /\ process_awake i lidx w
         = (tt, snd (process_multiply i lidx (fy m) (fx m) w))
      /\ new_calls (process_awake i lidx) w
         = (if k =? 0 then [] else [ev (Rand_div (k * MON_MULT_ADJ))])
           ++ [ev (multiply_monster i)]
           ++ (if ml (mon (g wb) i) then [ev (sound "MSG_MULTIPLY")]
               else []))
  /\ (fst (multiply_attempt k w) = true ->
      rf_has (mon (g wl) i) RF_MULTIPLY = false
      \/ fst (ext bool (multiply_monster i) (g wl)) = false ->
      fst (process_multiply i lidx (fy m) (fx m) w) = false)
  /\ (fst (process_multiply i lidx (fy m) (fx m) w) = true ->
      process_awake i lidx w
      = (tt, snd (process_multiply i lidx (fy m) (fx m) w))).
Proof.
  intros Hrepro Hadj m n k wl wb.
  assert (Hnk : n <= k <= n + 1) by apply count_adjacent_neighbours.
  split; [exact Hnk|].
  split; [|split; [|split; [|split; [|split; [|split; [|split]]]]]].
  - intros Hk. rewrite multiply_attempt_spec, Hk. reflexivity.
  - intros [H0 H4]. split.
    + rewrite multiply_attempt_spec.
      destruct (Z.ltb_spec k 4); [|lia]. destruct (Z.eqb_spec k 0); [lia|].
      reflexivity.
    + rewrite (favourable_ext _ _ (fun r => r =? 0)).
      * apply favourable_zero. nia.
      * intros r _. unfold breeds.
        destruct (Z.ltb_spec k 4); [|lia]. destruct (Z.eqb_spec k 0); [lia|].
        reflexivity.
  - intros H4. split.
    + rewrite multiply_attempt_spec.
      destruct (Z.ltb_spec k 4); [lia|reflexivity].
    + rewrite (favourable_ext _ _ (fun _ => false)).
      * apply favourable_never.
      * intros r _. unfold breeds.
        destruct (Z.ltb_spec k 4); [lia|reflexivity].
  - intros H4.
    assert (Hno : multiply_attempt k w = (false, w)).
    { rewrite multiply_attempt_spec.
      destruct (Z.ltb_spec k 4); [lia|reflexivity]. }
    assert (Hpm : process_multiply i lidx (fy m) (fx m) w = (false, w)).
    { rewrite (process_multiply_no_attempt i lidx (fy m) (fx m) w Hrepro);
        fold k; now rewrite Hno. }
    split; [exact Hpm|].
    unfold process_awake. rewrite bind_run. cbn [gets fst snd]. fold m.
    rewrite bind_run, Hpm. reflexivity.
  - intros Hno. now apply process_multiply_no_attempt.
  - intros Hyes Hflag Hspawn.
    pose proof (process_multiply_attempted i lidx (fy m) (fx m) w Hrepro Hyes)
      as Hpm.
    cbv zeta in Hpm. fold k wl wb in Hpm. rewrite Hflag, Hspawn in Hpm.
    assert (Hbred : fst (process_multiply i lidx (fy m) (fx m) w) = true)
      by now rewrite Hpm.
    pose proof (process_awake_bred i lidx w Hbred) as Haw.
    split; [exact Hbred|]. split; [exact Haw|].
    unfold new_calls. rewrite Haw. cbn [snd]. fold m. rewrite Hpm. cbn [snd].
    assert (Hk4 : (k <? 4) = true).
    { destruct (k <? 4) eqn:E; [reflexivity|].
      rewrite multiply_attempt_spec, E in Hyes. discriminate Hyes. }
    assert (Hwb : tr wb
                  = tr w
                    ++ (if k =? 0 then []
                        else [ {| at_state := g w;
                                  what := ev (Rand_div (k * MON_MULT_ADJ)) |} ])
                    ++ [ {| at_state := g wl;
                            what := ev (multiply_monster i) |} ]).
    { unfold wb. rewrite tr_invoke. unfold wl.
      rewrite (proj1 (learn_flag_quiet _ _ _ _)), multiply_attempt_calls, Hk4.
      cbn [andb]. rewrite <- app_assoc. destruct (k =? 0); reflexivity. }
    destruct (ml (mon (g wb) i)).
    + rewrite tr_invoke, Hwb, <- !app_assoc, drop_app_length, !map_app.
      destruct (k =? 0); reflexivity.
    + rewrite Hwb, drop_app_length, !map_app.
      destruct (k =? 0); reflexivity.
  - intros Hyes Hfail.
    pose proof (process_multiply_attempted i lidx (fy m) (fx m) w Hrepro Hyes)
      as Hpm.
    cbv zeta in Hpm. fold k wl wb in Hpm. rewrite Hpm.
    destruct Hfail as [Hf|Hf]; rewrite Hf; [reflexivity|].
    destruct (rf_has (mon (g wl) i) RF_MULTIPLY); reflexivity.
  - apply process_awake_bred.
Qed.

End BreedTurn.

(** * The player's grid *)

Section KeepFacts.
Context {K : Constants} {Hd : Hidden} {Sv : Services}.
Hypothesis Hfs : fair_services.

Lemma keeps_ret {A} (a : A) : keeps (ret a).
Proof. intros w H. exact H. Qed.

Lemma keeps_gets {A} (f : game -> A) : keeps (gets f).
Proof. intros w H. exact H. Qed.

Lemma keeps_bind {A B} (c : M A) (k : A -> M B) :
  keeps c -> (forall a, keeps (k a)) -> keeps (bind c k).
Proof.
  intros Hc Hk w H. rewrite bind_run. apply Hk, Hc, H.
Qed.

Lemma keeps_modify f : inert f -> keeps (modify f).
Proof.
  intros Hf w [Hc Ht]. split; [|exact Ht]. cbn. now apply Hf.
Qed.

Lemma keeps_invoke R (c : call R) :
  (forall gm, swap_target_free {| at_state := gm; what := ev c |}) ->
  keeps (invoke c).
Proof.
  intros Hfree w [Hc Ht]. split.
  - rewrite g_invoke. apply (fs_consistent Hfs); [apply Hfree|exact Hc].
  - rewrite tr_invoke. apply Forall_app. split; [exact Ht|].
    constructor; [apply Hfree|constructor].
Qed.

Lemma keeps_when b (c : M unit) : keeps c -> keeps (when_ b c).
Proof. intros Hc. destruct b; [exact Hc|apply keeps_ret]. Qed.

Lemma inert_upd_lore r f : inert (upd_lore r f).
Proof. intros gm. split; [reflexivity|]. intros H. exact H. Qed.

Lemma inert_upd_cave_mark y x : inert (upd_cave (mark_off y x)).
Proof. intros gm. split; [reflexivity|]. intros H. exact H. Qed.

Lemma inert_upd_player f :
  (forall p, py (f p) = py p /\ px (f p) = px p) -> inert (upd_player f).
Proof.
  intros Hf gm. split; [reflexivity|]. intros [Hp Hm]. split.
  - cbn. destruct (Hf (p_ptr gm)) as [-> ->]. exact Hp.
  - exact Hm.
Qed.

Lemma inert_upd_inven item f : inert (upd_inven item f).
Proof. apply inert_upd_player. intros p. split; reflexivity. Qed.

Lemma inert_upd_mon i f :
  (forall m, race (f m) = race m /\ fy (f m) = fy m /\ fx (f m) = fx m) ->
  inert (upd_mon i f).
Proof.
  intros Hf gm. split; [reflexivity|]. intros [Hp Hm]. split; [exact Hp|].
  intros j m Hj Hlive. cbn in Hj. rewrite list_lookup_alter in Hj.
  destruct (decide (Z.to_nat i = j)) as [e|]; [|now apply Hm].
  rewrite e in Hj.
  destruct (mons gm !! j) as [m0|] eqn:E0; [|discriminate].
  cbn in Hj. injection Hj as <-.
  destruct (Hf m0) as (Hr & Hy & Hx). rewrite Hr in Hlive. rewrite Hy, Hx.
  cbn. now apply Hm.
Qed.


Ltac inert_tac :=
  first
    [ apply inert_upd_lore
    | apply inert_upd_cave_mark
    | apply inert_upd_inven
    | apply inert_upd_player; intros ?; split; reflexivity
    | apply inert_upd_mon; intros ?; repeat split; reflexivity ].

Ltac keeps_step :=
  lazymatch goal with
  | |- keeps (bind _ _) => apply keeps_bind; [|intros ?]
  | |- keeps (ret _) => apply keeps_ret
  | |- keeps (gets _) => apply keeps_gets
  | |- keeps (modify _) => apply keeps_modify; inert_tac
  | |- keeps (invoke _) => apply keeps_invoke; intros ?; exact I
  | |- keeps (when_ _ _) => apply keeps_when
  | |- keeps (if ?b then _ else _) => destruct b
  | |- keeps (match ?x with _ => _ end) => destruct x
  | |- keeps (let _ := _ in _) => cbv zeta
  | |- keeps (randint0 _) => unfold randint0
  | |- keeps (randint1 _) => unfold randint1
  | |- keeps (one_in_ _) => unfold one_in_
  end.

Create HintDb keeps.

Ltac keeps_auto := repeat (keeps_step || solve [auto with keeps]).

Lemma keeps_remove_bad_spells i f : keeps (remove_bad_spells i f).
Proof. unfold remove_bad_spells. keeps_auto. Qed.

Lemma keeps_choose_attack_spell f : keeps (choose_attack_spell f).
Proof. unfold choose_attack_spell. keeps_auto. Qed.

#[local] Hint Resolve keeps_remove_bad_spells keeps_choose_attack_spell : keeps.

Lemma keeps_pick_spell i : keeps (pick_spell i).
Proof. unfold pick_spell. keeps_auto. Qed.

Lemma keeps_cast_spell_or_fail i s blind seen lidx :
  keeps (cast_spell_or_fail i s blind seen lidx).
Proof.
  unfold cast_spell_or_fail, notice_caster, spell_fails, do_cast_spell.
  keeps_auto.
Qed.

#[local] Hint Resolve keeps_pick_spell keeps_cast_spell_or_fail : keeps.

Lemma keeps_make_attack_spell i : keeps (make_attack_spell i).
Proof. unfold make_attack_spell. keeps_auto. Qed.

Lemma keeps_monster_critical d s dam : keeps (monster_critical d s dam).
Proof. unfold monster_critical. keeps_auto. Qed.

Lemma keeps_check_hit p l : keeps (check_hit p l).
Proof. unfold check_hit. keeps_auto. Qed.

Lemma keeps_method_action m : keeps (monster_blow_method_action m).
Proof. unfold monster_blow_method_action. keeps_auto. Qed.

Lemma keeps_elemental c typ pe : keeps (melee_effect_elemental c typ pe).
Proof. unfold melee_effect_elemental. keeps_auto. Qed.

Lemma keeps_timed c typ amount fl sv sm :
  keeps (melee_effect_timed c typ amount fl sv sm).
Proof. unfold melee_effect_timed. keeps_auto. Qed.

Lemma keeps_stat c st : keeps (melee_effect_stat c st).
Proof. unfold melee_effect_stat. keeps_auto. Qed.

Lemma keeps_experience c ch d : keeps (melee_effect_experience c ch d).
Proof. unfold melee_effect_experience. keeps_auto. Qed.

Lemma keeps_drain_tries tries : forall unpower c,
  keeps (drain_charges_tries tries unpower c).
Proof.
  induction tries as [|tries IH]; intros unpower c; cbn [drain_charges_tries];
    keeps_auto.
Qed.

Lemma keeps_eat_item_tries tries : forall c, keeps (eat_item_tries tries c).
Proof.
  induction tries as [|tries IH]; intros c; cbn [eat_item_tries]; keeps_auto.
Qed.

Lemma keeps_eat_food_tries tries : forall c, keeps (eat_food_tries tries c).
Proof.
  induction tries as [|tries IH]; intros c; cbn [eat_food_tries]; keeps_auto.
Qed.

Lemma keeps_carry_gold fuel i : forall gold, keeps (carry_gold fuel i gold).
Proof.
  induction fuel as [|fuel IH]; intros gold; cbn [carry_gold]; keeps_auto.
Qed.

Lemma keeps_theft_save : keeps theft_save.
Proof. unfold theft_save. keeps_auto. Qed.

#[local] Hint Resolve keeps_make_attack_spell keeps_monster_critical
  keeps_check_hit keeps_method_action keeps_elemental keeps_timed keeps_stat
  keeps_experience keeps_drain_tries keeps_eat_item_tries
  keeps_eat_food_tries keeps_carry_gold keeps_theft_save : keeps.

Lemma keeps_steal_gold c : keeps (steal_gold c).
Proof. unfold steal_gold. keeps_auto. Qed.

#[local] Hint Resolve keeps_steal_gold : keeps.

Lemma keeps_handlers e h c :
  melee_handler_for_blow_effect e = Some h -> keeps (h c).
Proof.
  intros Hh. unfold melee_handler_for_blow_effect in Hh. injection Hh as <-.
  destruct e;
    unfold melee_effect_handler_none, melee_effect_handler_hurt,
      melee_effect_handler_poison, melee_effect_handler_disenchant,
      melee_effect_handler_drain_charges, melee_effect_handler_eat_gold,
      melee_effect_handler_eat_item, melee_effect_handler_eat_food,
      melee_effect_handler_eat_light, melee_effect_handler_acid,
      melee_effect_handler_elec, melee_effect_handler_fire,
      melee_effect_handler_cold, melee_effect_handler_blind,
      melee_effect_handler_confuse, melee_effect_handler_terrify,
      melee_effect_handler_paralyze, melee_effect_handler_lose_str,
      melee_effect_handler_lose_int, melee_effect_handler_lose_wis,
      melee_effect_handler_lose_dex, melee_effect_handler_lose_con,
      melee_effect_handler_lose_all, melee_effect_handler_shatter,
      melee_effect_handler_exp_10, melee_effect_handler_exp_20,
      melee_effect_handler_exp_40, melee_effect_handler_exp_80,
      melee_effect_handler_hallucination;
    keeps_auto.
Qed.

Lemma keeps_apply_effect i rlev tac b ob bl db dam :
  keeps (apply_effect i rlev tac b ob bl db dam).
Proof.
  unfold apply_effect.
  destruct (melee_handler_for_blow_effect (effect b)) as [h|] eqn:Eh.
  - eapply keeps_handlers. exact Eh.
  - keeps_auto.
Qed.

Lemma keeps_cut_amount t : keeps (cut_amount t).
Proof. unfold cut_amount. keeps_auto. Qed.

Lemma keeps_stun_amount t : keeps (stun_amount t).
Proof. unfold stun_amount. keeps_auto. Qed.

#[local] Hint Resolve keeps_apply_effect keeps_cut_amount keeps_stun_amount
  : keeps.

Lemma keeps_land_blow i rlev tac b bl db : keeps (land_blow i rlev tac b bl db).
Proof.
  unfold land_blow, announce_blow, cut_and_stun. keeps_auto.
Qed.

Lemma keeps_count_blow i lidx ap vis ob dam :
  keeps (count_blow i lidx ap vis ob dam).
Proof. unfold count_blow. keeps_auto. Qed.

Lemma keeps_repelled i lidx rlev : keeps (repelled_by_protection i lidx rlev).
Proof. unfold repelled_by_protection. keeps_auto. Qed.

#[local] Hint Resolve keeps_land_blow keeps_count_blow keeps_repelled : keeps.

Lemma keeps_blow_loop fuel i lidx rlev tac : forall ap bl,
  keeps (blow_loop fuel i lidx rlev tac ap bl).
Proof.
  induction fuel as [|fuel IH]; intros ap bl; cbn [blow_loop]; keeps_auto.
Qed.

#[local] Hint Resolve keeps_blow_loop : keeps.

Lemma keeps_make_attack_normal i : keeps (make_attack_normal i).
Proof. unfold make_attack_normal, after_blows. keeps_auto. Qed.


#[local] Hint Resolve keeps_make_attack_normal : keeps.

Lemma keeps_learn_flag i lidx f : keeps (learn_flag i lidx f).
Proof. unfold learn_flag. keeps_auto. Qed.

Lemma keeps_redraw_health i : keeps (redraw_health i).
Proof. unfold redraw_health. keeps_auto. Qed.

#[local] Hint Resolve keeps_learn_flag keeps_redraw_health : keeps.

Lemma keeps_process_sleep i lidx : keeps (process_sleep i lidx).
Proof. unfold process_sleep. keeps_auto. Qed.

Lemma keeps_recover i t : keeps (recover i t).
Proof. unfold recover. keeps_auto. Qed.

#[local] Hint Resolve keeps_recover : keeps.

Lemma keeps_process_timers i : keeps (process_timers i).
Proof. unfold process_timers. keeps_auto. Qed.

Lemma keeps_process_multiply i lidx oy ox : keeps (process_multiply i lidx oy ox).
Proof. unfold process_multiply, multiply_attempt. keeps_auto. Qed.

Lemma keeps_choose_stagger i lidx : keeps (choose_stagger i lidx).
Proof. unfold choose_stagger. keeps_auto. Qed.

Lemma keeps_step_door i lidx ny nx v : keeps (step_door i lidx ny nx v).
Proof. unfold step_door. keeps_auto. Qed.

#[local] Hint Resolve keeps_step_door : keeps.

Lemma keeps_step_terrain i lidx ny nx v : keeps (step_terrain i lidx ny nx v).
Proof. unfold step_terrain. keeps_auto. Qed.

Lemma keeps_step_glyph i ny nx v : keeps (step_glyph i ny nx v).
Proof. unfold step_glyph. keeps_auto. Qed.

Lemma keeps_step_object i lidx ny nx o : keeps (step_object i lidx ny nx o).
Proof. unfold step_object. keeps_auto. Qed.

#[local] Hint Resolve keeps_step_object : keeps.

Lemma keeps_step_objects i lidx ny nx objs : keeps (step_objects i lidx ny nx objs).
Proof. induction objs as [|o objs IH]; cbn [step_objects]; keeps_auto. Qed.

Lemma keeps_after_steps i v : keeps (after_steps i v).
Proof. unfold after_steps. keeps_auto. Qed.

#[local] Hint Resolve keeps_process_sleep keeps_process_timers
  keeps_process_multiply keeps_choose_stagger keeps_step_terrain
  keeps_step_glyph keeps_step_objects keeps_after_steps : keeps.

(** Learning a flag only writes the lore. *)
Lemma learn_flag_cave i lidx f w :
  cave (g (snd (learn_flag i lidx f w))) = cave (g w).
Proof.
  unfold learn_flag. rewrite bind_run. cbn [gets fst snd].
  destruct (ml (mon (g w) i)); reflexivity.
Qed.

Lemma step_player_free i lidx ny nx v w :
  good w -> target_free ny nx (fst (step_player i lidx ny nx v w))
              (snd (step_player i lidx ny nx v w)).
Proof.
  intros Hw. unfold step_player. rewrite bind_run. cbn [gets fst snd].
  destruct (do_move v) eqn:Ev; cbn [andb].
  - destruct (Z.ltb_spec (m_idx (cave (g w)) ny nx) 0) as [Hneg|Hpos].
    + rewrite bind_run.
      assert (Hk : good (snd (learn_flag i lidx RF_NEVER_BLOW w)))
        by (now apply keeps_learn_flag).
      set (w1 := snd (learn_flag i lidx RF_NEVER_BLOW w)) in *.
      rewrite bind_run. cbn [gets fst snd].
      destruct (rf_has (mon (g w1) i) RF_NEVER_BLOW).
      * split; [exact Hk|]. cbn. discriminate.
      * rewrite bind_run. cbn [ret fst snd]. split.
        -- now apply keeps_make_attack_normal.
        -- cbn. discriminate.
    + split; [exact Hw|]. intros _. cbn. lia.
  - split; [exact Hw|]. cbn. rewrite Ev. discriminate.
Qed.

Lemma step_never_move_free i lidx ny nx v w :
  target_free ny nx v w ->
  target_free ny nx (fst (step_never_move i lidx v w))
    (snd (step_never_move i lidx v w)).
Proof.
  intros [Hw Hfree]. unfold step_never_move. rewrite bind_run.
  cbn [gets fst snd].
  destruct (do_move v && rf_has (mon (g w) i) RF_NEVER_MOVE).
  - rewrite bind_run. cbn [ret fst snd]. split.
    + now apply keeps_learn_flag.
    + cbn. discriminate.
  - split; assumption.
Qed.

Lemma step_monster_free i lidx ny nx v w :
  target_free ny nx v w ->
  target_free ny nx (fst (step_monster i lidx ny nx v w))
    (snd (step_monster i lidx ny nx v w)).
Proof.
  intros [Hw Hfree]. unfold step_monster. rewrite bind_run.
  cbn [gets fst snd].
  destruct (do_move v) eqn:Ev; cbn [andb];
    [|split; [exact Hw|cbn; rewrite Ev; discriminate]].
  destruct (Z.gtb_spec (m_idx (cave (g w)) ny nx) 0) as [Hocc|Hemp];
    [|split; [exact Hw|cbn; intros _; now apply Hfree]].
  cbv zeta.
  destruct (compare_monsters _ _ >? 0); [|split; [exact Hw|cbn; discriminate]].
  rewrite bind_run.
  assert (Hw1 : good (snd (learn_flag i lidx RF_KILL_BODY w)))
    by (now apply keeps_learn_flag).
  pose proof (learn_flag_cave i lidx RF_KILL_BODY w) as Hc1.
  set (w1 := snd (learn_flag i lidx RF_KILL_BODY w)) in *.
  rewrite bind_run.
  assert (Hw2 : good (snd (learn_flag i lidx RF_MOVE_BODY w1)))
    by (now apply keeps_learn_flag).
  pose proof (learn_flag_cave i lidx RF_MOVE_BODY w1) as Hc2.
  set (w2 := snd (learn_flag i lidx RF_MOVE_BODY w1)) in *.
  assert (Hm2 : 0 <= m_idx (cave (g w2)) ny nx) by (rewrite Hc2, Hc1; lia).
  destruct (rf_has (mon (g w) i) RF_KILL_BODY
            || rf_has (mon (g w) i) RF_MOVE_BODY
               && square_ispassable (g w) (fy (mon (g w) i)) (fx (mon (g w) i)));
    [|split; [exact Hw2|cbn; discriminate]].
  rewrite bind_run. cbn [gets fst snd]. rewrite bind_run.
  set (aware := when_ (is_mimicking (g w2) (m_idx (cave (g w)) ny nx))
                  (invoke (become_aware (m_idx (cave (g w)) ny nx)))).
  assert (Hw3 : good (snd (aware w2)) /\ 0 <= m_idx (cave (g (snd (aware w2)))) ny nx).
  { subst aware. destruct (is_mimicking _ _); cbn [when_].
    - split; [apply keeps_invoke; [intros ?; exact I|exact Hw2]|].
      rewrite g_invoke. now apply (fs_aware Hfs).
    - split; assumption. }
  destruct Hw3 as [Hw3 Hm3]. set (w3 := snd (aware w2)) in *.
  rewrite bind_run. cbn [gets fst snd]. rewrite bind_run.
  set (act := if rf_has (mon (g w) i) RF_KILL_BODY
              then when_ (ml (mon (g w3) i) && mflag_view (mon (g w3) i))
                     (invoke (msg "%s tramples over %s.")) ;;
                   invoke (delete_monster ny nx)
              else when_ (ml (mon (g w3) i) && mflag_view (mon (g w3) i))
                     (invoke (msg "%s pushes past %s."))).
  assert (Hmsg : forall s b w', good w' -> 0 <= m_idx (cave (g w')) ny nx ->
            good (snd (when_ b (invoke (msg s)) w'))
            /\ 0 <= m_idx (cave (g (snd (when_ b (invoke (msg s)) w')))) ny nx).
  { intros s b w' Hg' Hm'. destruct b; cbn [when_].
    - split; [apply keeps_invoke; [intros ?; exact I|exact Hg']|].
      rewrite g_invoke. now apply (fs_msg Hfs).
    - split; assumption. }
  assert (Hw4 : good (snd (act w3)) /\ 0 <= m_idx (cave (g (snd (act w3)))) ny nx).
  { subst act. destruct (rf_has (mon (g w) i) RF_KILL_BODY).
    - rewrite bind_run.
      destruct (Hmsg "%s tramples over %s."%string
                  (ml (mon (g w3) i) && mflag_view (mon (g w3) i)) w3 Hw3 Hm3)
        as [Hg4 Hm4].
      split; [apply keeps_invoke; [intros ?; exact I|exact Hg4]|].
      rewrite g_invoke. now apply (fs_delete Hfs).
    - now apply Hmsg. }
  destruct Hw4 as [Hw4 Hm4]. cbn [ret fst snd].
  split; [exact Hw4|]. intros _. exact Hm4.
Qed.

Lemma step_move_good i lidx oy ox ny nx v w :
  target_free ny nx v w ->
  good (snd (step_move i lidx oy ox ny nx v w)).
Proof.
  intros [Hw Hfree]. unfold step_move.
  destruct (do_move v); [|exact Hw].
  rewrite bind_run.
  assert (Hw1 : good (snd (learn_flag i lidx RF_NEVER_MOVE w)))
    by (now apply keeps_learn_flag).
  pose proof (learn_flag_cave i lidx RF_NEVER_MOVE w) as Hc1.
  set (w1 := snd (learn_flag i lidx RF_NEVER_MOVE w)) in *.
  cbv zeta. rewrite bind_run.
  assert (Hw2 : good (snd (invoke (monster_swap oy ox ny nx) w1))).
  { assert (Hfree1 : swap_target_free
              {| at_state := g w1; what := ev (monster_swap oy ox ny nx) |})
      by (cbn; rewrite Hc1; now apply Hfree).
    destruct Hw1 as [Hc Ht]. split.
    - rewrite g_invoke. now apply (fs_consistent Hfs).
    - rewrite tr_invoke. apply Forall_app. split; [exact Ht|].
      constructor; [exact Hfree1|constructor]. }
  set (w2 := snd (invoke (monster_swap oy ox ny nx) w1)) in *.
  revert Hw2. generalize w2. intros w3 Hw3.
  assert (Hrest : keeps
    (gm <- gets (fun gm => gm) ;;
     (let m := mon gm i in
      when_ (ml m && mflag_view m && disturb_near (opt gm)) (invoke (disturb 0)) ;;
      gm0 <- gets (fun gm0 => gm0) ;;
      step_objects i lidx ny nx (floor_objects gm0 ny nx) ;;
      ret (set_do_turn true v)))).
  { keeps_auto. }
  now apply Hrest.
Qed.


Lemma try_step_good i lidx oy ox ny nx v : keeps (try_step i lidx oy ox ny nx v).
Proof.
  intros w Hw. unfold try_step. rewrite bind_run.
  assert (H1 : good (snd (step_terrain i lidx ny nx v w)))
    by (now apply keeps_step_terrain).
  set (v1 := fst (step_terrain i lidx ny nx v w)).
  set (w1 := snd (step_terrain i lidx ny nx v w)) in *.
  rewrite bind_run.
  assert (H2 : good (snd (step_glyph i ny nx v1 w1)))
    by (now apply keeps_step_glyph).
  set (v2 := fst (step_glyph i ny nx v1 w1)).
  set (w2 := snd (step_glyph i ny nx v1 w1)) in *.
  rewrite bind_run.
  pose proof (step_player_free i lidx ny nx v2 w2 H2) as H3.
  set (v3 := fst (step_player i lidx ny nx v2 w2)) in *.
  set (w3 := snd (step_player i lidx ny nx v2 w2)) in *.
  rewrite bind_run.
  pose proof (step_never_move_free i lidx ny nx v3 w3 H3) as H4.
  set (v4 := fst (step_never_move i lidx v3 w3)) in *.
  set (w4 := snd (step_never_move i lidx v3 w3)) in *.
  rewrite bind_run.
  pose proof (step_monster_free i lidx ny nx v4 w4 H4) as H5.
  now apply step_move_good.
Qed.

#[local] Hint Resolve try_step_good : keeps.

Lemma keeps_step_loop fuel i lidx oy ox stagger mm k v :
  keeps (step_loop fuel i lidx oy ox stagger mm k v).
Proof.
  revert k v. induction fuel as [|fuel IH]; intros k v; cbn [step_loop];
    keeps_auto.
Qed.

#[local] Hint Resolve keeps_step_loop : keeps.

Lemma keeps_process_act i lidx oy ox : keeps (process_act i lidx oy ox).
Proof. unfold process_act. keeps_auto. Qed.

#[local] Hint Resolve keeps_process_act : keeps.

Lemma keeps_process_awake i lidx : keeps (process_awake i lidx).
Proof. unfold process_awake. keeps_auto. Qed.

#[local] Hint Resolve keeps_process_awake : keeps.

Lemma keeps_process_monster i : keeps (process_monster i).
Proof. unfold process_monster. keeps_auto. Qed.


Lemma consistent_no_monster_on_player gm :
  cave_consistent gm -> no_monster_on_player gm.
Proof.
  intros [Hp Hm] i m Hi Hlive Heq. injection Heq as Hy Hx.
  destruct (Hm i m Hi Hlive) as [_ Hgrid]. rewrite Hy, Hx in Hgrid. lia.
Qed.





End KeepFacts.

(** * The turn scheduler *)

Section Scheduler.
Context {K : Constants} {Hd : Hidden} {Sv : Services}.

Lemma visit_skip minimum_energy i w :
  race (mon (g w) i) = None \/ energy (mon (g w) i) < minimum_energy ->
  visit minimum_energy i w = (false, w).
Proof.
  intros H. unfold visit. rewrite bind_run. cbn [gets fst snd].
  destruct (race (mon (g w) i)); [|reflexivity].
  destruct H as [H|H]; [discriminate|].
  destruct (Z.ltb_spec (energy (mon (g w) i)) minimum_energy); [reflexivity|lia].
Qed.

Lemma visit_spend minimum_energy i w :
  race (mon (g w) i) <> None -> minimum_energy <= energy (mon (g w) i) ->
  let w1 := snd (modify (upd_mon i (fun m => set_energy (energy m - 100) m)) w) in
  visit minimum_energy i w =
    if wakes (g w1) (mon (g w1) i) then (true, snd (process_monster i w1))
    else (false, w1).
Proof.
  intros Hlive He w1. unfold visit. rewrite bind_run. cbn [gets fst snd].
  destruct (race (mon (g w) i)); [|congruence].
  destruct (Z.ltb_spec (energy (mon (g w) i)) minimum_energy); [lia|].
  rewrite bind_run. fold w1. rewrite bind_run. cbn [gets fst snd].
  destruct (wakes (g w1) (mon (g w1) i)); [|reflexivity].
  rewrite bind_run. reflexivity.
Qed.

Lemma spend_energy i gm :
  race (mon gm i) <> None ->
  mon (upd_mon i (fun m => set_energy (energy m - 100) m) gm) i
  = set_energy (energy (mon gm i) - 100) (mon gm i).
Proof.
  intros Hlive. rewrite mon_upd_mon.
  destruct (decide (Z.to_nat i = Z.to_nat i)); [|congruence].
  unfold mon in *. destruct (mons gm !! Z.to_nat i); [reflexivity|].
  cbn in Hlive. congruence.
Qed.

Lemma spend_energy_others i j gm f :
  Z.to_nat i <> Z.to_nat j -> mon (upd_mon i f gm) j = mon gm j.
Proof.
  intros Hij. rewrite mon_upd_mon.
  destruct (decide (Z.to_nat i = Z.to_nat j)); [congruence|reflexivity].
Qed.

Lemma wakes_iff gm m :
  wakes gm m = true <->
  cdis m <= effective_aaf gm m
  \/ hp m < maxhp m
  \/ player_has_los_bold gm (fy m) (fx m) = true
  \/ (when (cave gm) (fy m) (fx m)
        = when (cave gm) (py (p_ptr gm)) (px (p_ptr gm))
      /\ cost (cave gm) (fy m) (fx m) < MONSTER_FLOW_DEPTH
      /\ cost (cave gm) (fy m) (fx m) < effective_aaf gm m).
Proof.
  unfold wakes, monster_can_flow.
  rewrite !orb_true_iff, !andb_true_iff, Z.leb_le, !Z.ltb_lt, Z.eqb_eq.
  tauto.
Qed.

Lemma downto_S n k :
  (k <= n)%nat -> downto (S n) k = Z.of_nat (S n) :: downto n k.
Proof.
  intros Hk. unfold downto.
  replace (S n - k)%nat with (S (n - k)) by lia.
  rewrite seq_S, rev_app_distr. cbn [rev app map].
  replace (S k + (n - k))%nat with (S n) by lia. reflexivity.
Qed.

Lemma downto_same n : downto n n = [].
Proof. unfold downto. now rewrite Nat.sub_diag. Qed.

Lemma reach_same n minimum_energy w : reach n n minimum_energy w = w.
Proof. unfold reach. now rewrite downto_same. Qed.

Lemma reach_S n k minimum_energy w :
  (k <= n)%nat ->
  reach (S n) k minimum_energy w
  = reach n k minimum_energy (snd (visit minimum_energy (Z.of_nat (S n)) w)).
Proof.
  intros Hk. unfold reach. rewrite (downto_S n k Hk). cbn [run_visits].
  rewrite bind_run, bind_run. reflexivity.
Qed.

Lemma reach_next n k minimum_energy w :
  (1 <= k <= n)%nat ->
  reach n (k - 1) minimum_energy w
  = snd (visit minimum_energy (Z.of_nat k) (reach n k minimum_energy w)).
Proof.
  revert w. induction n as [|n IH]; intros w Hk; [lia|].
  destruct (decide (k = S n)) as [->|Hne].
  - rewrite reach_same. replace (S n - 1)%nat with n by lia.
    rewrite reach_S by lia. now rewrite reach_same.
  - rewrite !reach_S by lia. apply IH. lia.
Qed.

Lemma from_run_visits n minimum_energy w :
  (forall k, (1 <= k <= n)%nat ->
     leaving (p_ptr (g (reach n k minimum_energy w))) = false) ->
  process_monsters_from n minimum_energy w
  = run_visits minimum_energy (downto n 0) w.
Proof.
  revert w. induction n as [|n IH]; intros w Hstay; [reflexivity|].
  rewrite downto_S by lia. cbn [process_monsters_from run_visits].
  rewrite bind_run. cbn [gets fst snd].
  pose proof (Hstay (S n) ltac:(lia)) as Hnow. rewrite reach_same in Hnow.
  rewrite Hnow. rewrite !bind_run.
  rewrite IH; [reflexivity|].
  intros k Hk. rewrite <- reach_S by lia. apply Hstay. lia.
Qed.

Lemma run_visits_sublist minimum_energy l w :
  sublist (fst (run_visits minimum_energy l w)) l.
Proof.
  revert w. induction l as [|i l IH]; intros w; cbn [run_visits].
  - constructor.
  - rewrite !bind_run. cbn [ret fst].
    destruct (fst (visit minimum_energy i w)).
    + apply sublist_skip, IH.
    + apply sublist_cons, IH.
Qed.

Lemma In_downto n k i :
  In i (downto n k) <-> exists j, (k < j <= n)%nat /\ i = Z.of_nat j.
Proof.
  unfold downto. rewrite in_map_iff. split.
  - intros [j [<- Hj]]. apply in_rev, in_seq in Hj. exists j. split; [lia|reflexivity].
  - intros [j [Hj ->]]. exists j. split; [reflexivity|].
    apply in_rev. rewrite rev_involutive. apply in_seq. lia.
Qed.

Lemma NoDup_downto n k : NoDup (downto n k).
Proof.
  unfold downto. apply NoDup_ListNoDup.
  apply Finite.Injective_map_NoDup; [intros a b; lia|].
  apply List.NoDup_rev, List.seq_NoDup.
Qed.

Lemma run_visits_member n minimum_energy w k :
  (1 <= k <= n)%nat ->
  In (Z.of_nat k) (fst (run_visits minimum_energy (downto n 0) w))
  <-> fst (visit minimum_energy (Z.of_nat k) (reach n k minimum_energy w))
      = true.
Proof.
  revert w. induction n as [|n IH]; intros w Hk; [lia|].
  rewrite downto_S by lia. cbn [run_visits]. rewrite !bind_run. cbn [ret fst].
  set (w1 := snd (visit minimum_energy (Z.of_nat (S n)) w)).
  assert (Hnot : ~ In (Z.of_nat (S n))
                     (fst (run_visits minimum_energy (downto n 0) w1))).
  { intros Hin.
    pose proof (run_visits_sublist minimum_energy (downto n 0) w1) as Hs.
    apply list_elem_of_In in Hin.
    eapply elem_of_sublist in Hin; [|exact Hs].
    apply list_elem_of_In, In_downto in Hin. destruct Hin as [j [Hj Hjj]]. lia. }
  destruct (decide (k = S n)) as [->|Hne].
  - rewrite reach_same.
    destruct (fst (visit minimum_energy (Z.of_nat (S n)) w)).
    + split; [reflexivity|]. intros _. now left.
    + split; [intros Hin; contradiction|discriminate].
  - rewrite reach_S by lia. fold w1. rewrite <- IH by lia.
    destruct (fst (visit minimum_energy (Z.of_nat (S n)) w)); [|reflexivity].
    split; [|now right]. intros [Heq|Hin]; [lia|exact Hin].
Qed.

(** C8: one call of [process_monsters], the player not leaving at any
    of its tests.  The monsters are visited from the highest index down
    to 1, each one once.  A dead monster and a monster whose energy is
    below [minimum_energy] are left unchanged (the whole state is) and
    are not processed.  A live monster with at least [minimum_energy]
    has exactly 100 taken from its energy: in the state [w1] in which
    the wake conditions are then tested its energy is the former one
    less 100, its other fields, the other monsters and the rest of the
    state being as before.  It is then handed to [process_monster],
    once, in that state, if and only if one of the four wake conditions
    holds there (otherwise [w1] is the state after its visit): [cdis] within
    the effective [aaf], [hp] below [maxhp], the player has line of
    sight to its grid, or the flow reaches it (same [when] as the
    player's grid, [cost] below both [MONSTER_FLOW_DEPTH] and the
    effective [aaf]). *)
Theorem process_monsters_schedule (minimum_energy : Z) (w : world) :
  let n := Z.to_nat (cave_monster_max (g w) - 1) in
  let at_visit k := reach n k minimum_energy w in
  let processed := fst (process_monsters minimum_energy w) in
  (forall k, (1 <= k <= n)%nat -> leaving (p_ptr (g (at_visit k))) = false) ->
  process_monsters minimum_energy w
    = run_visits minimum_energy (downto n 0) w
  /\ snd (process_monsters minimum_energy w) = at_visit 0%nat
  /\ NoDup processed
  /\ sublist processed (downto n 0)
  /\ (forall k, (1 <= k <= n)%nat ->
        let i := Z.of_nat k in
        let m := mon (g (at_visit k)) i in
        at_visit (k - 1)%nat = snd (visit minimum_energy i (at_visit k))
        /\ (race m = None \/ energy m < minimum_energy ->
              at_visit (k - 1)%nat = at_visit k /\ ~ In i processed)
        /\ (race m <> None -> minimum_energy <= energy m ->
              exists w1,
                energy (mon (g w1) i) = energy m - 100
                /\ energy_spent 100 m (mon (g w1) i)
                /\ only_monster_differs i (g (at_visit k)) (g w1)
                /\ tr w1 = tr (at_visit k)
                /\ (wakes (g w1) (mon (g w1) i) = true ->
                      In i processed
                      /\ at_visit (k - 1)%nat = snd (process_monster i w1))
                /\ (wakes (g w1) (mon (g w1) i) = false ->
                      ~ In i processed /\ at_visit (k - 1)%nat = w1
                      /\ energy (mon (g (at_visit (k - 1)%nat)) i)
                         = energy m - 100)))
  /\ (forall gm m,
        wakes gm m = true <->
        cdis m <= effective_aaf gm m
        \/ hp m < maxhp m
        \/ player_has_los_bold gm (fy m) (fx m) = true
        \/ (when (cave gm) (fy m) (fx m)
              = when (cave gm) (py (p_ptr gm)) (px (p_ptr gm))
            /\ cost (cave gm) (fy m) (fx m) < MONSTER_FLOW_DEPTH
            /\ cost (cave gm) (fy m) (fx m) < effective_aaf gm m)).
Proof.
  intros n at_visit processed Hstay.
  assert (Hrun : process_monsters minimum_energy w
                 = run_visits minimum_energy (downto n 0) w).
  { unfold process_monsters. rewrite bind_run. cbn [gets fst snd].
    fold n. now apply from_run_visits. }
  assert (Hmem : forall k, (1 <= k <= n)%nat ->
            In (Z.of_nat k) processed
            <-> fst (visit minimum_energy (Z.of_nat k) (at_visit k)) = true).
  { intros k Hk. subst processed. rewrite Hrun.
    now apply run_visits_member. }
  assert (Hsub : sublist processed (downto n 0)).
  { subst processed. rewrite Hrun. apply run_visits_sublist. }
  split; [exact Hrun|].
  split; [now rewrite Hrun|].
  split; [eapply sublist_NoDup; [apply NoDup_downto|exact Hsub]|].
  split; [exact Hsub|].
  split; [|intros gm m; apply wakes_iff].
  intros k Hk i m. subst i. set (i := Z.of_nat k) in *.
  pose proof (reach_next n k minimum_energy w Hk) as Hnext.
  fold i (at_visit k) (at_visit (k - 1)%nat) in Hnext.
  specialize (Hmem k Hk). fold i in Hmem.
  split; [exact Hnext|]. split.
  - intros Hskip.
    pose proof (visit_skip minimum_energy i (at_visit k) Hskip) as Hv.
    rewrite Hmem, Hnext, Hv. split; [reflexivity|discriminate].
  - intros Hlive He.
    pose proof (visit_spend minimum_energy i (at_visit k) Hlive He) as Hv.
    cbv zeta in Hv.
    set (w1 := snd (modify (upd_mon i (fun m => set_energy (energy m - 100) m))
                      (at_visit k))) in *.
    assert (Hm1 : mon (g w1) i = set_energy (energy m - 100) m)
      by now apply spend_energy.
    exists w1. rewrite Hm1.
    split; [reflexivity|].
    split; [repeat split|].
    split.
    { repeat split.
      - unfold cave_monster_max. cbn [w1 modify snd g upd_mon mons].
        now rewrite length_alter.
      - intros j Hj. now apply spend_energy_others. }
    split; [reflexivity|].
    rewrite <- Hm1, Hmem, Hnext, Hv.
    split; intros Hw; rewrite Hw; cbn [fst snd].
    + split; reflexivity.
    + split; [discriminate|]. split; [reflexivity|].
      rewrite Hm1. reflexivity.
Qed.

End Scheduler.

(** * More of the file: movement, blows and bookkeeping *)

(** ** The directions of [get_moves] *)

Section DirFacts.

Lemma move_val_cases y x :
  let ax := Z.abs x in
  let ay := Z.abs y in
  move_val y x
  = (if y <? 0 then 8 else 0) + (if x >? 0 then 4 else 0)
    + (if ay >? 2 * ax then 2 else if ax >? 2 * ay then 1 else 0).
Proof.
  unfold move_val. rewrite !Z.shiftl_mul_pow2 by lia. cbn [Z.pow Z.pow_pos Pos.iter Z.mul Pos.mul].
  rewrite !(Z.mul_comm _ 2).
  destruct (y <? 0), (x >? 0), (Z.abs y >? 2 * Z.abs x), (Z.abs x >? 2 * Z.abs y); reflexivity.
Qed.

(** X1: for a pseudo-direction other than (0, 0), [get_moves] offers five
    distinct keypad directions.  The first three all lead towards the
    target (positive scalar product with the vector to it), the second
    at least as much as the third; the fourth does not lead away from
    it, and the fifth is the opposite of the fourth: the keypad
    direction [10 - d], whose step is the fourth's step negated in both
    coordinates. *)
Theorem choose_dirs_approach (y x : Z) :
  y <> 0 \/ x <> 0 ->
  exists d0 d1 d2 d3 d4,
    choose_dirs y x = [d0; d1; d2; d3; d4]
    /\ NoDup [d0; d1; d2; d3; d4]
    /\ Forall (fun d => 1 <= d <= 9 /\ d <> 5) [d0; d1; d2; d3; d4]
    /\ 0 < towards y x d0
    /\ 0 < towards y x d2 <= towards y x d1
    /\ 0 <= towards y x d3
    /\ towards y x d4 = - towards y x d3
    /\ d4 = 10 - d3
    /\ demo_ddy d4 = - demo_ddy d3
    /\ demo_ddx d4 = - demo_ddx d3.
Proof.
  intros Hne. unfold choose_dirs. rewrite move_val_cases. cbv zeta.
  destruct (Z.ltb_spec y 0), (Z.gtb_spec x 0),
    (Z.gtb_spec (Z.abs y) (2 * Z.abs x)), (Z.gtb_spec (Z.abs x) (2 * Z.abs y));
    try lia; simpl;
    destruct (Z.gtb_spec (Z.abs y) (Z.abs x)); try lia;
    try (destruct (Z.ltb_spec y 0); try lia);
    try (destruct (Z.ltb_spec x 0); try lia);
    idtac.
  all: eexists _, _, _, _, _.
  all: (split; [reflexivity|]).
  all: (split; [apply (bool_decide_unpack _); vm_compute; exact I|]).
  all: split.
  all: try (repeat (constructor; [lia|]); constructor).
  all: unfold towards, demo_ddy, demo_ddx; simpl; lia.
Qed.

End DirFacts.

(** ** Safe places and hiding places *)

Section SafetyFacts.
Context {K : Constants} {Hd : Hidden} {Sv : Services} {Mv : MoveServices}.

Lemma safety_step_spot gm fy0 fx0 py0 px0 d acc o :
  safety_step gm fy0 fx0 py0 px0 d acc o
  = if safe_spot gm fy0 fx0 py0 px0 d (fy0 + fst o) (fx0 + snd o)
       && (distance (fy0 + fst o) (fx0 + snd o) py0 px0 >? sp_gdis acc)
    then {| sp_gy := fy0 + fst o; sp_gx := fx0 + snd o;
            sp_gdis := distance (fy0 + fst o) (fx0 + snd o) py0 px0 |}
    else acc.
Proof.
  unfold safety_step, safe_spot.
  destruct (square_in_bounds_fully gm _ _); [|reflexivity].
  destruct (square_ispassable gm _ _); [|reflexivity].
  destruct (when _ _ _ <? _); [reflexivity|].
  destruct (cost _ _ _ >? _); [reflexivity|].
  destruct (player_has_los_bold gm _ _); reflexivity.
Qed.

(** The scan of one ring keeps the farthest accepted grid seen so far,
    and of several equally far ones the first: every accepted grid
    scanned before the one kept is strictly nearer. *)
Lemma safety_fold gm fy0 fx0 py0 px0 d l acc :
  let acc' := fold_left (safety_step gm fy0 fx0 py0 px0 d) l acc in
  sp_gdis acc <= sp_gdis acc'
  /\ (forall o, In o l ->
        safe_spot gm fy0 fx0 py0 px0 d (fy0 + fst o) (fx0 + snd o) = true ->
        distance (fy0 + fst o) (fx0 + snd o) py0 px0 <= sp_gdis acc')
  /\ (acc' = acc
      \/ exists o, In o l
           /\ safe_spot gm fy0 fx0 py0 px0 d (fy0 + fst o) (fx0 + snd o) = true
           /\ sp_gdis acc < sp_gdis acc'
           /\ acc' = {| sp_gy := fy0 + fst o; sp_gx := fx0 + snd o;
                        sp_gdis := distance (fy0 + fst o) (fx0 + snd o)
                                     py0 px0 |}
           /\ exists l1 l2, l = l1 ++ o :: l2
                /\ forall o', In o' l1 ->
                     safe_spot gm fy0 fx0 py0 px0 d
                       (fy0 + fst o') (fx0 + snd o') = true ->
                     distance (fy0 + fst o') (fx0 + snd o') py0 px0
                     < sp_gdis acc').
Proof.
  revert acc. induction l as [|o l IH]; intros acc; cbn [fold_left].
  - split; [lia|]. split; [intros o []|]. now left.
  - specialize (IH (safety_step gm fy0 fx0 py0 px0 d acc o)).
    cbv zeta in IH. destruct IH as (Hle & Hmax & Hsel).
    rewrite safety_step_spot in *.
    destruct (safe_spot gm fy0 fx0 py0 px0 d (fy0 + fst o) (fx0 + snd o))
      eqn:Es; cbn [andb] in *.
    + destruct (Z.gtb_spec (distance (fy0 + fst o) (fx0 + snd o) py0 px0)
                  (sp_gdis acc)) as [Hgt|Hng]; cbn [sp_gdis] in *.
      * split; [lia|]. split.
        -- intros o' [<-|Hin] Hs; [lia|now apply Hmax].
        -- right.
           destruct Hsel
             as [Heq|(o' & Hin & Hs & Hlt & Heq & l1 & l2 & Hl & Hfirst)].
           ++ exists o. rewrite Heq. cbn [sp_gdis].
              split; [now left|]. split; [exact Es|]. split; [lia|].
              split; [reflexivity|].
              exists [], l. split; [reflexivity|]. intros o' [].
           ++ exists o'. split; [now right|]. split; [exact Hs|].
              split; [lia|]. split; [exact Heq|].
              exists (o :: l1), l2. split; [rewrite Hl; reflexivity|].
              intros o'' [<-|Hin''] Hs''; [lia|now apply Hfirst].
      * split; [lia|]. split.
        -- intros o' [<-|Hin] Hs; [lia|now apply Hmax].
        -- destruct Hsel
             as [Heq|(o' & Hin & Hs & Hlt & Heq & l1 & l2 & Hl & Hfirst)];
             [now left|].
           right. exists o'. split; [now right|]. split; [exact Hs|].
           split; [lia|]. split; [exact Heq|].
           exists (o :: l1), l2. split; [rewrite Hl; reflexivity|].
           intros o'' [<-|Hin''] Hs''; [lia|now apply Hfirst].
    + split; [lia|]. split.
      * intros o' [<-|Hin] Hs; [congruence|now apply Hmax].
      * destruct Hsel
          as [Heq|(o' & Hin & Hs & Hlt & Heq & l1 & l2 & Hl & Hfirst)];
          [now left|].
        right. exists o'. split; [now right|]. split; [exact Hs|].
        split; [lia|]. split; [exact Heq|].
        exists (o :: l1), l2. split; [rewrite Hl; reflexivity|].
        intros o'' [<-|Hin''] Hs''; [congruence|now apply Hfirst].
Qed.

Lemma safety_rings_spec gm fy0 fx0 py0 px0 n a acc :
  sp_gdis acc = 0 ->
  match safety_rings gm fy0 fx0 py0 px0 (seq a n) acc with
  | Some s =>
      exists d o, (a <= d < a + n)%nat /\ In o (ring_offsets d)
        /\ s = {| sp_gy := fy0 + fst o; sp_gx := fx0 + snd o;
                  sp_gdis := distance (fy0 + fst o) (fx0 + snd o) py0 px0 |}
        /\ safe_spot gm fy0 fx0 py0 px0 d (fy0 + fst o) (fx0 + snd o) = true
        /\ 0 < sp_gdis s
        /\ (forall o', In o' (ring_offsets d) ->
              safe_spot gm fy0 fx0 py0 px0 d (fy0 + fst o') (fx0 + snd o') = true ->
              distance (fy0 + fst o') (fx0 + snd o') py0 px0 <= sp_gdis s)
        /\ (forall d' o', (a <= d' < d)%nat ->
              In o' (ring_offsets d') ->
              safe_spot gm fy0 fx0 py0 px0 d' (fy0 + fst o') (fx0 + snd o') = true ->
              distance (fy0 + fst o') (fx0 + snd o') py0 px0 <= 0)
        /\ (exists l1 l2, ring_offsets d = l1 ++ o :: l2
              /\ forall o', In o' l1 ->
                   safe_spot gm fy0 fx0 py0 px0 d
                     (fy0 + fst o') (fx0 + snd o') = true ->
                   distance (fy0 + fst o') (fx0 + snd o') py0 px0 < sp_gdis s)
  | None =>
      forall d o, (a <= d < a + n)%nat -> In o (ring_offsets d) ->
        safe_spot gm fy0 fx0 py0 px0 d (fy0 + fst o) (fx0 + snd o) = true ->
        distance (fy0 + fst o) (fx0 + snd o) py0 px0 <= 0
  end.
Proof.
  revert a acc. induction n as [|n IH]; intros a acc H0;
    cbn [seq safety_rings].
  - intros d o Hr. lia.
  - pose proof (safety_fold gm fy0 fx0 py0 px0 a (ring_offsets a) acc) as Hf.
    cbv zeta in Hf. destruct Hf as (Hle & Hmax & Hsel).
    set (acc' := fold_left (safety_step gm fy0 fx0 py0 px0 a)
                   (ring_offsets a) acc) in *.
    destruct (Z.gtb_spec (sp_gdis acc') 0) as [Hpos|Hzero].
    + destruct Hsel as [Heq|(o & Hin & Hs & Hlt & Heq & Hfirst)];
        [rewrite Heq in Hpos; lia|].
      exists a, o. split; [lia|]. split; [exact Hin|].
      split; [exact Heq|]. split; [exact Hs|]. split; [exact Hpos|].
      split; [exact Hmax|]. split; [|exact Hfirst]. intros d' o' Hr. lia.
    + assert (Hz : sp_gdis acc' = 0) by lia.
      specialize (IH (S a) acc' Hz).
      destruct (safety_rings gm fy0 fx0 py0 px0 (seq (S a) n) acc') as [s|].
      * destruct IH
          as (d1 & o & Hd1 & Hin & Heq & Hs & Hpos & Hmax1 & Hprev & Hfirst).
        exists d1, o. split; [lia|]. split; [exact Hin|].
        split; [exact Heq|]. split; [exact Hs|]. split; [exact Hpos|].
        split; [exact Hmax1|]. split; [|exact Hfirst].
        intros d' o' Hr Ho' Hs'.
        destruct (decide (d' = a)) as [->|Hne].
        -- rewrite <- Hz. now apply Hmax.
        -- apply (Hprev d' o'); [lia|exact Ho'|exact Hs'].
      * intros d' o' Hr Ho' Hs'.
        destruct (decide (d' = a)) as [->|Hne].
        -- rewrite <- Hz. now apply Hmax.
        -- apply (IH d' o'); [lia|exact Ho'|exact Hs'].
Qed.

Lemma In_ring_grids fy0 fx0 d y x :
  In (y, x) (ring_grids fy0 fx0 d)
  <-> exists o, In o (ring_offsets d) /\ y = fy0 + fst o /\ x = fx0 + snd o.
Proof.
  unfold ring_grids. rewrite in_map_iff. split.
  - intros (o & Heq & Hin). injection Heq as <- <-. now exists o.
  - intros (o & Hin & -> & ->). now exists o.
Qed.

(** X2: [find_safety] looks at the rings of distance 1 to 9 around the
    monster, nearest first, and stops at the first ring holding an
    accepted grid (legal, passable, known to the flow, not too distant,
    out of the player's sight) at a positive distance from the player:
    it answers TRUE with the offset to the accepted grid of that ring
    farthest from the player, the first such one in the order of the
    tables on ties (every accepted grid of the ring scanned before it
    is strictly nearer).  When no ring holds one it answers FALSE and
    leaves [*yp], [*xp] as they were. *)
Theorem find_safety_farthest (gm : game) (m : monster) (yp xp : Z) :
  let fy0 := fy m in
  let fx0 := fx m in
  let py0 := py (p_ptr gm) in
  let px0 := px (p_ptr gm) in
  let far y x := distance y x py0 px0 in
  let ok d y x := safe_spot gm fy0 fx0 py0 px0 d y x = true in
  let res := find_safety gm m yp xp in
  let gy := fy0 - fst (snd res) in
  let gx := fx0 - snd (snd res) in
  (fst res = true ->
   exists d, (1 <= d <= 9)%nat
     /\ In (gy, gx) (ring_grids fy0 fx0 d)
     /\ ok d gy gx
     /\ 0 < far gy gx
     /\ (forall y x, In (y, x) (ring_grids fy0 fx0 d) -> ok d y x ->
           far y x <= far gy gx)
     /\ (forall d' y x, (1 <= d' < d)%nat ->
           In (y, x) (ring_grids fy0 fx0 d') -> ok d' y x -> far y x <= 0)
     /\ (exists before after,
           ring_grids fy0 fx0 d = before ++ (gy, gx) :: after
           /\ forall y x, In (y, x) before -> ok d y x ->
                far y x < far gy gx))
  /\ (fst res = false ->
      snd res = (yp, xp)
      /\ forall d y x, (1 <= d <= 9)%nat ->
           In (y, x) (ring_grids fy0 fx0 d) -> ok d y x -> far y x <= 0).
Proof.
  intros fy0 fx0 py0 px0 far ok res gy gx. subst res gy gx.
  unfold find_safety. fold fy0 fx0 py0 px0.
  pose proof (safety_rings_spec gm fy0 fx0 py0 px0 9 1
                {| sp_gy := 0; sp_gx := 0; sp_gdis := 0 |} eq_refl) as Hs.
  change (seq 1 9) with ring_numbers in Hs.
  destruct (safety_rings gm fy0 fx0 py0 px0 ring_numbers _) as [s|];
    cbn [fst snd].
  - split; [intros _|discriminate].
    destruct Hs
      as (d & o & Hdr & Hin & Heq & Hok & Hpos & Hmax & Hprev
          & l1 & l2 & Hl & Hfirst).
    rewrite Heq in *. cbn [sp_gy sp_gx sp_gdis] in *.
    replace (fy0 - (fy0 + fst o)) with (- fst o) by lia.
    replace (fx0 - (fx0 + snd o)) with (- snd o) by lia.
    replace (fy0 - - fst o) with (fy0 + fst o) by lia.
    replace (fx0 - - snd o) with (fx0 + snd o) by lia.
    exists d. split; [lia|]. split; [apply In_ring_grids; now exists o|].
    split; [exact Hok|]. split; [exact Hpos|]. split; [|split].
    + intros y x Hyx Hoky. apply In_ring_grids in Hyx.
      destruct Hyx as (o' & Ho' & -> & ->). now apply Hmax.
    + intros d' y x Hd' Hyx Hoky. apply In_ring_grids in Hyx.
      destruct Hyx as (o' & Ho' & -> & ->). apply (Hprev d' o'); [lia|assumption..].
    + exists (map (fun o' => (fy0 + fst o', fx0 + snd o')) l1),
        (map (fun o' => (fy0 + fst o', fx0 + snd o')) l2).
      split.
      * unfold ring_grids. rewrite Hl, map_app. reflexivity.
      * intros y x Hyx Hoky. apply in_map_iff in Hyx.
        destruct Hyx as (o' & Heq' & Ho'). injection Heq' as <- <-.
        now apply Hfirst.
  - split; [discriminate|intros _]. split; [reflexivity|].
    intros d y x Hr Hyx Hoky. apply In_ring_grids in Hyx.
    destruct Hyx as (o' & Ho' & -> & ->). apply (Hs d o'); [lia|assumption..].
Qed.

Lemma hiding_step_spot gm fy0 fx0 py0 px0 min acc o :
  hiding_step gm fy0 fx0 py0 px0 min acc o
  = if hiding_spot gm fy0 fx0 (fy0 + fst o) (fx0 + snd o)
       && (distance (fy0 + fst o) (fx0 + snd o) py0 px0 <? sp_gdis acc)
       && (distance (fy0 + fst o) (fx0 + snd o) py0 px0 >=? min)
    then {| sp_gy := fy0 + fst o; sp_gx := fx0 + snd o;
            sp_gdis := distance (fy0 + fst o) (fx0 + snd o) py0 px0 |}
    else acc.
Proof.
  unfold hiding_step, hiding_spot.
  destruct (square_in_bounds_fully gm _ _); [|reflexivity].
  destruct (square_isempty gm _ _); [|reflexivity].
  destruct (player_has_los_bold gm _ _); [reflexivity|].
  destruct (clean_shot gm _ _ _ _); reflexivity.
Qed.

(** The scan of one ring keeps the nearest accepted grid seen so far
    that is not nearer than [min]. *)
Lemma hiding_fold gm fy0 fx0 py0 px0 min l acc :
  let acc' := fold_left (hiding_step gm fy0 fx0 py0 px0 min) l acc in
  sp_gdis acc' <= sp_gdis acc
  /\ (forall o, In o l ->
        hiding_spot gm fy0 fx0 (fy0 + fst o) (fx0 + snd o) = true ->
        min <= distance (fy0 + fst o) (fx0 + snd o) py0 px0 ->
        sp_gdis acc' <= distance (fy0 + fst o) (fx0 + snd o) py0 px0)
  /\ (acc' = acc
      \/ exists o, In o l
           /\ hiding_spot gm fy0 fx0 (fy0 + fst o) (fx0 + snd o) = true
           /\ min <= sp_gdis acc' < sp_gdis acc
           /\ acc' = {| sp_gy := fy0 + fst o; sp_gx := fx0 + snd o;
                        sp_gdis := distance (fy0 + fst o) (fx0 + snd o)
                                     py0 px0 |}).
Proof.
  revert acc. induction l as [|o l IH]; intros acc; cbn [fold_left].
  - split; [lia|]. split; [intros o []|]. now left.
  - specialize (IH (hiding_step gm fy0 fx0 py0 px0 min acc o)).
    cbv zeta in IH. destruct IH as (Hle & Hmin & Hsel).
    rewrite hiding_step_spot in *.
    destruct (hiding_spot gm fy0 fx0 (fy0 + fst o) (fx0 + snd o)) eqn:Es;
      cbn [andb] in *.
    + destruct (Z.ltb_spec (distance (fy0 + fst o) (fx0 + snd o) py0 px0)
                  (sp_gdis acc)) as [Hlt|Hnl]; cbn [andb] in *;
        [destruct (Z.geb_spec (distance (fy0 + fst o) (fx0 + snd o) py0 px0)
                     min) as [Hge|Hng]|]; cbn [sp_gdis] in *.
      * split; [lia|]. split.
        -- intros o' [<-|Hin] Hs Hm; [lia|now apply Hmin].
        -- right. destruct Hsel as [Heq|(o' & Hin & Hs & Hr & Heq)].
           ++ exists o. rewrite Heq. cbn [sp_gdis].
              repeat split; [now left|exact Es|lia|lia].
           ++ exists o'. repeat split; [now right|exact Hs|lia|lia|exact Heq].
      * split; [lia|]. split.
        -- intros o' [<-|Hin] Hs Hm; [lia|now apply Hmin].
        -- destruct Hsel as [Heq|(o' & Hin & Hs & Hr & Heq)]; [now left|].
           right. exists o'. repeat split; [now right|exact Hs|lia|lia|exact Heq].
      * split; [lia|]. split.
        -- intros o' [<-|Hin] Hs Hm; [lia|now apply Hmin].
        -- destruct Hsel as [Heq|(o' & Hin & Hs & Hr & Heq)]; [now left|].
           right. exists o'. repeat split; [now right|exact Hs|lia|lia|exact Heq].
    + split; [lia|]. split.
      * intros o' [<-|Hin] Hs Hm; [congruence|now apply Hmin].
      * destruct Hsel as [Heq|(o' & Hin & Hs & Hr & Heq)]; [now left|].
        right. exists o'. repeat split; [now right|exact Hs|lia|lia|exact Heq].
Qed.

Lemma hiding_rings_spec gm fy0 fx0 py0 px0 min n a acc :
  sp_gdis acc = 999 ->
  match hiding_rings gm fy0 fx0 py0 px0 min (seq a n) acc with
  | Some s =>
      exists d o, (a <= d < a + n)%nat /\ In o (ring_offsets d)
        /\ s = {| sp_gy := fy0 + fst o; sp_gx := fx0 + snd o;
                  sp_gdis := distance (fy0 + fst o) (fx0 + snd o) py0 px0 |}
        /\ hiding_spot gm fy0 fx0 (fy0 + fst o) (fx0 + snd o) = true
        /\ min <= sp_gdis s < 999
        /\ (forall o', In o' (ring_offsets d) ->
              hiding_spot gm fy0 fx0 (fy0 + fst o') (fx0 + snd o') = true ->
              min <= distance (fy0 + fst o') (fx0 + snd o') py0 px0 ->
              sp_gdis s <= distance (fy0 + fst o') (fx0 + snd o') py0 px0)
        /\ (forall d' o', (a <= d' < d)%nat ->
              In o' (ring_offsets d') ->
              hiding_spot gm fy0 fx0 (fy0 + fst o') (fx0 + snd o') = true ->
              min <= distance (fy0 + fst o') (fx0 + snd o') py0 px0 ->
              999 <= distance (fy0 + fst o') (fx0 + snd o') py0 px0)
  | None =>
      forall d o, (a <= d < a + n)%nat -> In o (ring_offsets d) ->
        hiding_spot gm fy0 fx0 (fy0 + fst o) (fx0 + snd o) = true ->
        min <= distance (fy0 + fst o) (fx0 + snd o) py0 px0 ->
        999 <= distance (fy0 + fst o) (fx0 + snd o) py0 px0
  end.
Proof.
  revert a acc. induction n as [|n IH]; intros a acc H0;
    cbn [seq hiding_rings].
  - intros d o Hr. lia.
  - pose proof (hiding_fold gm fy0 fx0 py0 px0 min (ring_offsets a) acc) as Hf.
    cbv zeta in Hf. destruct Hf as (Hle & Hmin & Hsel).
    set (acc' := fold_left (hiding_step gm fy0 fx0 py0 px0 min)
                   (ring_offsets a) acc) in *.
    destruct (Z.ltb_spec (sp_gdis acc') 999) as [Hfound|Hnone].
    + destruct Hsel as [Heq|(o & Hin & Hs & Hr & Heq)];
        [rewrite Heq in Hfound; lia|].
      exists a, o. split; [lia|]. split; [exact Hin|].
      split; [exact Heq|]. split; [exact Hs|]. split; [lia|].
      split; [exact Hmin|]. intros d' o' Hr'. lia.
    + assert (Hz : sp_gdis acc' = 999) by lia.
      specialize (IH (S a) acc' Hz).
      destruct (hiding_rings gm fy0 fx0 py0 px0 min (seq (S a) n) acc') as [s|].
      * destruct IH as (d1 & o & Hd1 & Hin & Heq & Hs & Hr & Hmin1 & Hprev).
        exists d1, o. split; [lia|]. split; [exact Hin|].
        split; [exact Heq|]. split; [exact Hs|]. split; [exact Hr|].
        split; [exact Hmin1|].
        intros d' o' Hr' Ho' Hs' Hm'.
        destruct (decide (d' = a)) as [->|Hne].
        -- rewrite <- Hz. now apply Hmin.
        -- apply (Hprev d' o'); [lia|assumption..].
      * intros d' o' Hr' Ho' Hs' Hm'.
        destruct (decide (d' = a)) as [->|Hne].
        -- rewrite <- Hz. now apply Hmin.
        -- apply (IH d' o'); [lia|assumption..].
Qed.

(** X3: [find_hiding] looks at the rings of distance 1 to 9 around the
    monster, nearest first, and stops at the first ring holding an
    accepted grid (legal, empty, out of the player's sight, with a clean
    shot from the monster) whose distance from the player is at least
    [min = distance(player, monster) * 3 / 4 + 2] and below 999: it
    answers TRUE with the offset to the accepted grid of that ring
    nearest to the player.  When no ring holds one it answers FALSE and
    leaves [*yp], [*xp] as they were. *)
Theorem find_hiding_nearest (gm : game) (m : monster) (yp xp : Z) :
  let fy0 := fy m in
  let fx0 := fx m in
  let py0 := py (p_ptr gm) in
  let px0 := px (p_ptr gm) in
  let min := Z.quot (distance py0 px0 fy0 fx0 * 3) 4 + 2 in
  let far y x := distance y x py0 px0 in
  let ok y x := hiding_spot gm fy0 fx0 y x = true /\ min <= far y x in
  let res := find_hiding gm m yp xp in
  let gy := fy0 - fst (snd res) in
  let gx := fx0 - snd (snd res) in
  (fst res = true ->
   exists d, (1 <= d <= 9)%nat
     /\ In (gy, gx) (ring_grids fy0 fx0 d)
     /\ ok gy gx
     /\ far gy gx < 999
     /\ (forall y x, In (y, x) (ring_grids fy0 fx0 d) -> ok y x ->
           far gy gx <= far y x)
     /\ (forall d' y x, (1 <= d' < d)%nat ->
           In (y, x) (ring_grids fy0 fx0 d') -> ok y x -> 999 <= far y x))
  /\ (fst res = false ->
      snd res = (yp, xp)
      /\ forall d y x, (1 <= d <= 9)%nat ->
           In (y, x) (ring_grids fy0 fx0 d) -> ok y x -> 999 <= far y x).
Proof.
  intros fy0 fx0 py0 px0 min far ok res gy gx. subst res gy gx ok.
  unfold find_hiding. fold fy0 fx0 py0 px0 min.
  pose proof (hiding_rings_spec gm fy0 fx0 py0 px0 min 9 1
                {| sp_gy := 0; sp_gx := 0; sp_gdis := 999 |} eq_refl) as Hs.
  change (seq 1 9) with ring_numbers in Hs.
  destruct (hiding_rings gm fy0 fx0 py0 px0 min ring_numbers _) as [s|];
    cbn [fst snd].
  - split; [intros _|discriminate].
    destruct Hs as (d & o & Hd' & Hin & Heq & Hok & Hr & Hmin & Hprev).
    rewrite Heq in *. cbn [sp_gy sp_gx sp_gdis] in *.
    replace (fy0 - (fy0 + fst o)) with (- fst o) by lia.
    replace (fx0 - (fx0 + snd o)) with (- snd o) by lia.
    replace (fy0 - - fst o) with (fy0 + fst o) by lia.
    replace (fx0 - - snd o) with (fx0 + snd o) by lia.
    exists d. split; [lia|]. split; [apply In_ring_grids; now exists o|].
    split; [split; [exact Hok|unfold far; lia]|]. split; [unfold far; lia|].
    split.
    + intros y x Hyx [Hoky Hm]. apply In_ring_grids in Hyx.
      destruct Hyx as (o' & Ho' & -> & ->). now apply Hmin.
    + intros d' y x Hr' Hyx [Hoky Hm]. apply In_ring_grids in Hyx.
      destruct Hyx as (o' & Ho' & -> & ->).
      apply (Hprev d' o'); [lia|assumption..].
  - split; [discriminate|intros _]. split; [reflexivity|].
    intros d y x Hr Hyx [Hoky Hm]. apply In_ring_grids in Hyx.
    destruct Hyx as (o' & Ho' & -> & ->). apply (Hs d o'); [lia|assumption..].
Qed.

End SafetyFacts.

Section FlowFacts.
Context {K : Constants} {Hd : Hidden} {Sv : Services} {Mv : MoveServices}.

(** What the scan of the neighbours of [(y1, x1)] leaves in its locals:
    nothing new, or the neighbour it stopped on. *)
Lemma flow_fold gm y1 x1 py0 px0 l acc :
  0 <= fb_when acc ->
  let acc' := fold_left (flow_step gm y1 x1 py0 px0) l acc in
  0 <= fb_when acc'
  /\ (acc' = acc
      \/ exists k, In k l
           /\ 0 < when (cave gm) (y1 + ddy_ddd k) (x1 + ddx_ddd k)
           /\ cost (cave gm) (y1 + ddy_ddd k) (x1 + ddx_ddd k) <= fb_cost acc
           /\ acc' = {| fb_when := when (cave gm) (y1 + ddy_ddd k) (x1 + ddx_ddd k);
                        fb_cost := cost (cave gm) (y1 + ddy_ddd k) (x1 + ddx_ddd k);
                        fb_y := py0 + 16 * ddy_ddd k;
                        fb_x := px0 + 16 * ddx_ddd k |}).
Proof.
  cbv zeta. revert acc.
  induction l as [|k l IH]; intros acc H0; cbn [fold_left].
  - split; [exact H0|now left].
  - assert (Hcases : flow_step gm y1 x1 py0 px0 acc k = acc
              \/ (0 < when (cave gm) (y1 + ddy_ddd k) (x1 + ddx_ddd k)
                  /\ cost (cave gm) (y1 + ddy_ddd k) (x1 + ddx_ddd k) <= fb_cost acc
                  /\ flow_step gm y1 x1 py0 px0 acc k
                     = {| fb_when := when (cave gm) (y1 + ddy_ddd k) (x1 + ddx_ddd k);
                          fb_cost := cost (cave gm) (y1 + ddy_ddd k) (x1 + ddx_ddd k);
                          fb_y := py0 + 16 * ddy_ddd k;
                          fb_x := px0 + 16 * ddx_ddd k |})).
    { unfold flow_step.
      destruct (Z.eqb_spec (when (cave gm) (y1 + ddy_ddd k) (x1 + ddx_ddd k)) 0);
        [now left|].
      destruct (Z.ltb_spec (when (cave gm) (y1 + ddy_ddd k) (x1 + ddx_ddd k))
                  (fb_when acc)); [now left|].
      destruct (Z.gtb_spec (cost (cave gm) (y1 + ddy_ddd k) (x1 + ddx_ddd k))
                  (fb_cost acc)); [now left|].
      right. split; [lia|]. split; [lia|reflexivity]. }
    destruct Hcases as [Hs|(Hpos & Hc & Hs)]; rewrite Hs.
    + destruct (IH acc H0) as (Hw & Hsel). split; [exact Hw|].
      destruct Hsel as [Heq|(k' & Hin & Hr)]; [now left|].
      right. exists k'. split; [now right|exact Hr].
    + match goal with |- context [fold_left _ l ?a] => set (acc1 := a) end.
      assert (H1 : 0 <= fb_when acc1) by (subst acc1; cbn; lia).
      destruct (IH acc1 H1) as (Hw & Hsel). split; [exact Hw|].
      right. destruct Hsel as [Heq|(k' & Hin & Hpos' & Hc' & Heq)].
      * exists k. split; [now left|]. split; [lia|]. split; [lia|].
        rewrite Heq. reflexivity.
      * exists k'. split; [now right|]. split; [exact Hpos'|].
        split; [subst acc1; cbn in Hc'; lia|exact Heq].
Qed.

(** When the neighbours the flow has reached all carry the same time
    stamp, the scan ends on the cheapest of them, and among the cheapest
    on the one scanned last. *)
Lemma flow_fold_uniform gm y1 x1 py0 px0 T l acc :
  0 < T ->
  fb_when acc = 0 \/ fb_when acc = T ->
  (forall k, In k l ->
     when (cave gm) (y1 + ddy_ddd k) (x1 + ddx_ddd k) = 0
     \/ when (cave gm) (y1 + ddy_ddd k) (x1 + ddx_ddd k) = T) ->
  let nb_when k := when (cave gm) (y1 + ddy_ddd k) (x1 + ddx_ddd k) in
  let nb_cost k := cost (cave gm) (y1 + ddy_ddd k) (x1 + ddx_ddd k) in
  let acc' := fold_left (flow_step gm y1 x1 py0 px0) l acc in
  (acc' = acc /\ forall k, In k l -> nb_when k <> 0 -> fb_cost acc < nb_cost k)
  \/ exists l1 k l2, l = l1 ++ k :: l2
       /\ nb_when k = T
       /\ nb_cost k <= fb_cost acc
       /\ acc' = {| fb_when := T; fb_cost := nb_cost k;
                    fb_y := py0 + 16 * ddy_ddd k;
                    fb_x := px0 + 16 * ddx_ddd k |}
       /\ (forall j, In j l1 -> nb_when j <> 0 -> nb_cost k <= nb_cost j)
       /\ (forall j, In j l2 -> nb_when j <> 0 -> nb_cost k < nb_cost j).
Proof.
  intros HT. cbv zeta. revert acc.
  induction l as [|k l IH]; intros acc Hacc Hl; cbn [fold_left].
  - left. split; [reflexivity|intros k []].
  - assert (Hl' : forall k', In k' l ->
              when (cave gm) (y1 + ddy_ddd k') (x1 + ddx_ddd k') = 0
              \/ when (cave gm) (y1 + ddy_ddd k') (x1 + ddx_ddd k') = T)
      by (intros k' Hin; apply Hl; now right).
    destruct (Z.eq_dec (when (cave gm) (y1 + ddy_ddd k) (x1 + ddx_ddd k)) 0)
      as [Hz|Hnz];
      [|destruct (Z_le_gt_dec
                    (cost (cave gm) (y1 + ddy_ddd k) (x1 + ddx_ddd k))
                    (fb_cost acc)) as [Hnear|Hfar]].
    + (* not reached by the flow *)
      assert (Hs : flow_step gm y1 x1 py0 px0 acc k = acc)
        by (unfold flow_step; now rewrite Hz).
      rewrite Hs. destruct (IH acc Hacc Hl') as [[Heq Hall]|Hsel].
      * left. split; [exact Heq|]. intros k0 [<-|Hin] Hk0; [contradiction|].
        now apply Hall.
      * right. destruct Hsel as (l1 & k1 & l2 & Hsplit & HwT & Hc & Heq & H1 & H2).
        exists (k :: l1), k1, l2. split; [now rewrite Hsplit|].
        split; [exact HwT|]. split; [exact Hc|]. split; [exact Heq|].
        split; [|exact H2]. intros j [<-|Hj] Hjn; [contradiction|now apply H1].
    + (* taken *)
      assert (HkT : when (cave gm) (y1 + ddy_ddd k) (x1 + ddx_ddd k) = T)
        by (destruct (Hl k (or_introl eq_refl)); [contradiction|assumption]).
      assert (Hs : flow_step gm y1 x1 py0 px0 acc k
                   = {| fb_when := T;
                        fb_cost := cost (cave gm) (y1 + ddy_ddd k) (x1 + ddx_ddd k);
                        fb_y := py0 + 16 * ddy_ddd k;
                        fb_x := px0 + 16 * ddx_ddd k |}).
      { unfold flow_step.
        destruct (Z.eqb_spec (when (cave gm) (y1 + ddy_ddd k) (x1 + ddx_ddd k)) 0);
          [contradiction|].
        destruct (Z.ltb_spec (when (cave gm) (y1 + ddy_ddd k) (x1 + ddx_ddd k))
                    (fb_when acc)); [destruct Hacc; lia|].
        destruct (Z.gtb_spec (cost (cave gm) (y1 + ddy_ddd k) (x1 + ddx_ddd k))
                    (fb_cost acc)); [lia|].
        now rewrite HkT. }
      rewrite Hs. right.
      match goal with |- context [fold_left _ l ?a] => set (acc1 := a) end.
      destruct (IH acc1 (or_intror eq_refl) Hl') as [[Heq Hall]|Hsel].
      * exists [], k, l. split; [reflexivity|]. split; [exact HkT|].
        split; [exact Hnear|]. split; [exact Heq|].
        split; [intros j []|exact Hall].
      * destruct Hsel as (l1 & k1 & l2 & Hsplit & HwT & Hc & Heq & H1 & H2).
        exists (k :: l1), k1, l2. split; [now rewrite Hsplit|].
        split; [exact HwT|]. split; [subst acc1; cbn in Hc; lia|].
        split; [exact Heq|]. split; [|exact H2].
        intros j [<-|Hj] Hjn; [subst acc1; cbn in Hc; lia|now apply H1].
    + (* too far *)
      assert (Hs : flow_step gm y1 x1 py0 px0 acc k = acc).
      { unfold flow_step.
        destruct (Z.eqb_spec (when (cave gm) (y1 + ddy_ddd k) (x1 + ddx_ddd k)) 0);
          [reflexivity|].
        destruct (Z.ltb_spec (when (cave gm) (y1 + ddy_ddd k) (x1 + ddx_ddd k))
                    (fb_when acc)); [reflexivity|].
        destruct (Z.gtb_spec (cost (cave gm) (y1 + ddy_ddd k) (x1 + ddx_ddd k))
                    (fb_cost acc)); [reflexivity|lia]. }
      rewrite Hs. destruct (IH acc Hacc Hl') as [[Heq Hall]|Hsel].
      * left. split; [exact Heq|]. intros k0 [<-|Hin] Hk0; [lia|].
        now apply Hall.
      * right. destruct Hsel as (l1 & k1 & l2 & Hsplit & HwT & Hc & Heq & H1 & H2).
        exists (k :: l1), k1, l2. split; [now rewrite Hsplit|].
        split; [exact HwT|]. split; [exact Hc|]. split; [exact Heq|].
        split; [|exact H2]. intros j [<-|Hj] Hjn; [lia|now apply H1].
Qed.


Lemma get_moves_aux_walker w i yp xp :
  goes_through_rock (mon (g w) i) = false ->
  get_moves_aux i yp xp w
  = (let gm := g w in
     let m := mon gm i in
     if flow_blocked gm m then (false, (yp, xp))
     else
       let best :=
         fold_left (flow_step gm (fy m) (fx m) (py (p_ptr gm)) (px (p_ptr gm)))
           neighbours_down
           {| fb_when := 0; fb_cost := 999; fb_y := yp; fb_x := xp |} in
       (nz (fb_when best), (fb_y best, fb_x best)), w).
Proof.
  intros Hrock. unfold get_moves_aux, flow_blocked.
  rewrite bind_run. cbn [gets fst snd]. rewrite Hrock.
  rewrite bind_run. cbn [ret fst snd]. rewrite bind_run. cbn [gets fst snd].
  cbv zeta.
  destruct ((when (cave (g w)) (fy (mon (g w) i)) (fx (mon (g w) i))
             <? when (cave (g w)) (py (p_ptr (g w))) (px (p_ptr (g w))))
            && (when (cave (g w)) (fy (mon (g w) i)) (fx (mon (g w) i)) =? 0));
    [reflexivity|].
  destruct (cost (cave (g w)) (fy (mon (g w) i)) (fx (mon (g w) i))
            >? MONSTER_FLOW_DEPTH); [reflexivity|].
  destruct (cost (cave (g w)) (fy (mon (g w) i)) (fx (mon (g w) i))
            >? effective_aaf (g w) (mon (g w) i)); [reflexivity|].
  destruct (player_has_los_bold (g w) (fy (mon (g w) i)) (fx (mon (g w) i)));
    [reflexivity|].
  cbn [orb].
  destruct (nz (fb_when _)); reflexivity.
Qed.



(** X4: where the flow sends a monster.  Without success the target is left
    as it was.  With success the monster is out of the player's sight,
    within reach of the flow, and the target is the player's grid moved
    sixteen steps in the direction of a neighbour of the monster that the
    flow has reached.  A monster that does not go through rock leaves the
    state alone. *)
Theorem get_moves_aux_target w i yp xp :
  let r := fst (get_moves_aux i yp xp w) in
  let w' := snd (get_moves_aux i yp xp w) in
  let m := mon (g w') i in
  (goes_through_rock (mon (g w) i) = false -> w' = w)
  /\ (fst r = false -> snd r = (yp, xp))
  /\ (fst r = true ->
      player_has_los_bold (g w') (fy m) (fx m) = false
      /\ cost (cave (g w')) (fy m) (fx m) <= MONSTER_FLOW_DEPTH
      /\ cost (cave (g w')) (fy m) (fx m) <= effective_aaf (g w') m
      /\ exists k, 0 <= k <= 7
           /\ 0 < when (cave (g w')) (fy m + ddy_ddd k) (fx m + ddx_ddd k)
           /\ snd r = (py (p_ptr (g w)) + 16 * ddy_ddd k,
                       px (p_ptr (g w)) + 16 * ddx_ddd k)).
Proof.
  cbv zeta. unfold get_moves_aux.
  rewrite bind_run. cbn [gets fst snd].
  assert (Htail : forall w1 : world,
    let c := (gm <- gets (fun gm => gm) ;;
       if (when (cave gm) (fy (mon gm i)) (fx (mon gm i))
           <? when (cave gm) (py (p_ptr (g w))) (px (p_ptr (g w))))
          && (when (cave gm) (fy (mon gm i)) (fx (mon gm i)) =? 0)
       then ret (false, (yp, xp))
       else if cost (cave gm) (fy (mon gm i)) (fx (mon gm i)) >? MONSTER_FLOW_DEPTH
       then ret (false, (yp, xp))
       else if cost (cave gm) (fy (mon gm i)) (fx (mon gm i))
               >? effective_aaf gm (mon gm i)
       then ret (false, (yp, xp))
       else if player_has_los_bold gm (fy (mon gm i)) (fx (mon gm i))
       then ret (false, (yp, xp))
       else
         if negb (nz (fb_when
              (fold_left (flow_step gm (fy (mon gm i)) (fx (mon gm i))
                            (py (p_ptr (g w))) (px (p_ptr (g w))))
                 neighbours_down
                 {| fb_when := 0; fb_cost := 999; fb_y := yp; fb_x := xp |})))
         then ret (false,
                (fb_y (fold_left (flow_step gm (fy (mon gm i)) (fx (mon gm i))
                            (py (p_ptr (g w))) (px (p_ptr (g w))))
                 neighbours_down
                 {| fb_when := 0; fb_cost := 999; fb_y := yp; fb_x := xp |}),
                 fb_x (fold_left (flow_step gm (fy (mon gm i)) (fx (mon gm i))
                            (py (p_ptr (g w))) (px (p_ptr (g w))))
                 neighbours_down
                 {| fb_when := 0; fb_cost := 999; fb_y := yp; fb_x := xp |})))
         else ret (true,
                (fb_y (fold_left (flow_step gm (fy (mon gm i)) (fx (mon gm i))
                            (py (p_ptr (g w))) (px (p_ptr (g w))))
                 neighbours_down
                 {| fb_when := 0; fb_cost := 999; fb_y := yp; fb_x := xp |}),
                 fb_x (fold_left (flow_step gm (fy (mon gm i)) (fx (mon gm i))
                            (py (p_ptr (g w))) (px (p_ptr (g w))))
                 neighbours_down
                 {| fb_when := 0; fb_cost := 999; fb_y := yp; fb_x := xp |}))))
    in
    snd (c w1) = w1
    /\ (fst (fst (c w1)) = false -> snd (fst (c w1)) = (yp, xp))
    /\ (fst (fst (c w1)) = true ->
        player_has_los_bold (g w1) (fy (mon (g w1) i)) (fx (mon (g w1) i)) = false
        /\ cost (cave (g w1)) (fy (mon (g w1) i)) (fx (mon (g w1) i))
           <= MONSTER_FLOW_DEPTH
        /\ cost (cave (g w1)) (fy (mon (g w1) i)) (fx (mon (g w1) i))
           <= effective_aaf (g w1) (mon (g w1) i)
        /\ exists k, 0 <= k <= 7
             /\ 0 < when (cave (g w1)) (fy (mon (g w1) i) + ddy_ddd k)
                      (fx (mon (g w1) i) + ddx_ddd k)
             /\ snd (fst (c w1)) = (py (p_ptr (g w)) + 16 * ddy_ddd k,
                                    px (p_ptr (g w)) + 16 * ddx_ddd k))).
  { intros w1. cbv zeta. rewrite bind_run. cbn [gets fst snd].
    set (gm := g w1). set (m := mon gm i).
    destruct ((when (cave gm) (fy m) (fx m)
               <? when (cave gm) (py (p_ptr (g w))) (px (p_ptr (g w))))
              && (when (cave gm) (fy m) (fx m) =? 0));
      [cbn; repeat split; congruence|].
    destruct (Z.gtb_spec (cost (cave gm) (fy m) (fx m)) MONSTER_FLOW_DEPTH);
      [cbn; repeat split; congruence|].
    destruct (Z.gtb_spec (cost (cave gm) (fy m) (fx m)) (effective_aaf gm m));
      [cbn; repeat split; congruence|].
    destruct (player_has_los_bold gm (fy m) (fx m)) eqn:Hlos;
      [cbn; repeat split; congruence|].
    pose proof (flow_fold gm (fy m) (fx m) (py (p_ptr (g w))) (px (p_ptr (g w)))
                  neighbours_down
                  {| fb_when := 0; fb_cost := 999; fb_y := yp; fb_x := xp |}
                  (Z.le_refl 0)) as Hfold.
    cbv zeta in Hfold. destruct Hfold as (Hw & Hsel).
    set (best := fold_left _ _ _) in *.
    unfold nz. destruct (Z.eqb_spec (fb_when best) 0) as [Hz|Hnz];
      cbn [negb ret fst snd].
    - split; [reflexivity|]. split; [|discriminate].
      intros _. destruct Hsel as [->|(k & _ & Hpos & _ & Heq)]; [reflexivity|].
      rewrite Heq in Hz. cbn in Hz. lia.
    - split; [reflexivity|]. split; [discriminate|]. intros _.
      split; [reflexivity|]. split; [lia|]. split; [lia|].
      destruct Hsel as [Heq|(k & Hin & Hpos & _ & Heq)].
      + rewrite Heq in Hnz. cbn in Hnz. lia.
      + exists k. split.
        { unfold neighbours_down in Hin. cbn in Hin.
          repeat (destruct Hin as [<-|Hin]; [lia|]). destruct Hin. }
        split; [exact Hpos|]. rewrite Heq. reflexivity. }
  cbv zeta in Htail.
  destruct (goes_through_rock (mon (g w) i)) eqn:Hrock.
  - rewrite bind_run. rewrite (bind_run (near_permwall i)). cbn [ret fst snd].
    destruct (near_permwall i w) as [near w1]. cbn [fst snd].
    destruct near; cbn [negb].
    + destruct (Htail w1) as (Hs & Hf & Ht). rewrite Hs.
      split; [discriminate|]. split; [exact Hf|exact Ht].
    + cbn. split; [discriminate|]. split; [reflexivity|discriminate].
  - rewrite bind_run. cbn [ret fst snd].
    destruct (Htail w) as (Hs & Hf & Ht). rewrite Hs.
    split; [intros _; reflexivity|]. split; [exact Hf|exact Ht].
Qed.


Lemma down_split (l1 l2 : list Z) k :
  neighbours_down = l1 ++ k :: l2 ->
  (forall j, In j l1 -> k < j) /\ (forall j, In j l2 -> j < k).
Proof.
  unfold neighbours_down. intros Hsplit.
  repeat (destruct l1 as [|? l1];
          [cbn in Hsplit; injection Hsplit as <- <-;
           split; intros j Hj; cbn in Hj; lia
          |cbn in Hsplit; injection Hsplit as <- Hsplit]).
  destruct l1; discriminate Hsplit.
Qed.

(** X5: with one time stamp [T] on all the neighbours the flow has reached,
    a monster that does not go through rock, is out of the player's
    sight and within reach of the flow goes for the cheapest of these
    neighbours, and among the cheapest for the one with the lowest
    index. *)
Theorem get_moves_aux_cheapest w i yp xp T k0 :
  let gm := g w in
  let m := mon gm i in
  let nb_when k := when (cave gm) (fy m + ddy_ddd k) (fx m + ddx_ddd k) in
  let nb_cost k := cost (cave gm) (fy m + ddy_ddd k) (fx m + ddx_ddd k) in
  goes_through_rock m = false ->
  when (cave gm) (py (p_ptr gm)) (px (p_ptr gm)) <= when (cave gm) (fy m) (fx m)
  \/ when (cave gm) (fy m) (fx m) <> 0 ->
  cost (cave gm) (fy m) (fx m) <= MONSTER_FLOW_DEPTH ->
  cost (cave gm) (fy m) (fx m) <= effective_aaf gm m ->
  player_has_los_bold gm (fy m) (fx m) = false ->
  0 < T ->
  (forall k, 0 <= k <= 7 -> nb_when k = 0 \/ nb_when k = T) ->
  0 <= k0 <= 7 -> nb_when k0 = T -> nb_cost k0 <= 999 ->
  exists k, 0 <= k <= 7 /\ nb_when k = T
    /\ get_moves_aux i yp xp w
       = ((true, (py (p_ptr gm) + 16 * ddy_ddd k,
                  px (p_ptr gm) + 16 * ddx_ddd k)), w)
    /\ forall j, 0 <= j <= 7 -> nb_when j <> 0 ->
         nb_cost k <= nb_cost j /\ (j < k -> nb_cost k < nb_cost j).
Proof.
  cbv beta zeta. intros Hrock Hnear Hdepth Haaf Hlos HT Huni Hk0 Hw0 Hc0.
  assert (Hdown : forall k, In k neighbours_down <-> 0 <= k <= 7).
  { intros k. unfold neighbours_down. cbn. lia. }
  rewrite (get_moves_aux_walker _ _ _ _ Hrock). cbv zeta.
  assert (Hopen : flow_blocked (g w) (mon (g w) i) = false).
  { unfold flow_blocked. rewrite Hlos.
    destruct (Z.gtb_spec (cost (cave (g w)) (fy (mon (g w) i)) (fx (mon (g w) i)))
                MONSTER_FLOW_DEPTH); [lia|].
    destruct (Z.gtb_spec (cost (cave (g w)) (fy (mon (g w) i)) (fx (mon (g w) i)))
                (effective_aaf (g w) (mon (g w) i))); [lia|].
    destruct (Z.ltb_spec (when (cave (g w)) (fy (mon (g w) i)) (fx (mon (g w) i)))
                (when (cave (g w)) (py (p_ptr (g w))) (px (p_ptr (g w)))));
      destruct (Z.eqb_spec (when (cave (g w)) (fy (mon (g w) i)) (fx (mon (g w) i))) 0);
      try reflexivity. lia. }
  rewrite Hopen.
  pose proof (flow_fold_uniform (g w) (fy (mon (g w) i)) (fx (mon (g w) i))
                (py (p_ptr (g w))) (px (p_ptr (g w))) T neighbours_down
                {| fb_when := 0; fb_cost := 999; fb_y := yp; fb_x := xp |}
                HT (or_introl eq_refl)
                (fun k Hin => Huni k (proj1 (Hdown k) Hin))) as Hfold.
  cbv zeta in Hfold.
  destruct Hfold as [[_ Hall]|(l1 & k & l2 & Hsplit & HwT & Hc & Heq & H1 & H2)].
  - assert (Hne : when (cave (g w)) (fy (mon (g w) i) + ddy_ddd k0)
                    (fx (mon (g w) i) + ddx_ddd k0) <> 0) by lia.
    specialize (Hall k0 (proj2 (Hdown k0) Hk0) Hne). cbn [fb_cost] in Hall. lia.
  - destruct (down_split _ _ _ Hsplit) as [Hup Hlow].
    assert (Hk : In k neighbours_down)
      by (rewrite Hsplit; apply in_or_app; right; now left).
    exists k. split; [now apply Hdown|]. split; [exact HwT|].
    split.
    { rewrite Heq. cbn [fb_when fb_y fb_x fb_cost]. unfold nz.
      destruct (Z.eqb_spec T 0); [lia|reflexivity]. }
    intros j Hj Hjw.
    assert (Hin : In j (l1 ++ k :: l2)) by (rewrite <- Hsplit; now apply Hdown).
    apply in_app_or in Hin. destruct Hin as [Hin|[<-|Hin]].
    + split; [now apply H1|]. intros Hlt. specialize (Hup j Hin). lia.
    + split; [lia|lia].
    + specialize (H2 j Hin Hjw). split; [lia|intros _; exact H2].
Qed.


Lemma fear_score_nonneg dis cst : 0 <= fear_score dis cst.
Proof.
  unfold fear_score.
  destruct (Z.ltb_spec (Z.quot 5000 (dis + 3) - Z.quot 500 (cst + 1)) 0); lia.
Qed.

(** The three outcomes of one round of the scan in
    [get_fear_moves_aux]. *)
Lemma fear_step_cases gm fy0 fx0 y1 x1 acc k :
  let w_k := when (cave gm) (fy0 + ddy_ddd k) (fx0 + ddx_ddd k) in
  let s_k := fear_score (distance (fy0 + ddy_ddd k) (fx0 + ddx_ddd k) y1 x1)
               (cost (cave gm) (fy0 + ddy_ddd k) (fx0 + ddx_ddd k)) in
  (fear_step gm fy0 fx0 y1 x1 acc k = acc
   /\ (w_k = 0 \/ w_k < fe_when acc \/ s_k < fe_score acc))
  \/ (w_k <> 0 /\ fe_when acc <= w_k /\ fe_score acc <= s_k
      /\ fear_step gm fy0 fx0 y1 x1 acc k
         = {| fe_when := w_k; fe_score := s_k;
              fe_gy := fy0 + ddy_ddd k; fe_gx := fx0 + ddx_ddd k |}).
Proof.
  cbv zeta. unfold fear_step.
  destruct (Z.eqb_spec (when (cave gm) (fy0 + ddy_ddd k) (fx0 + ddx_ddd k)) 0);
    [left; split; [reflexivity|now left]|].
  destruct (Z.ltb_spec (when (cave gm) (fy0 + ddy_ddd k) (fx0 + ddx_ddd k))
              (fe_when acc));
    [left; split; [reflexivity|right; now left]|].
  destruct (Z.ltb_spec
              (fear_score (distance (fy0 + ddy_ddd k) (fx0 + ddx_ddd k) y1 x1)
                 (cost (cave gm) (fy0 + ddy_ddd k) (fx0 + ddx_ddd k)))
              (fe_score acc));
    [left; split; [reflexivity|right; now right]|].
  right. repeat split; (assumption || lia || reflexivity).
Qed.

Lemma fear_fold gm fy0 fx0 y1 x1 l acc :
  0 <= fe_when acc ->
  let acc' := fold_left (fear_step gm fy0 fx0 y1 x1) l acc in
  fe_when acc <= fe_when acc'
  /\ (acc' = acc
      \/ exists k, In k l
           /\ 0 < when (cave gm) (fy0 + ddy_ddd k) (fx0 + ddx_ddd k)
           /\ fe_gy acc' = fy0 + ddy_ddd k /\ fe_gx acc' = fx0 + ddx_ddd k
           /\ fe_when acc' = when (cave gm) (fy0 + ddy_ddd k) (fx0 + ddx_ddd k)).
Proof.
  cbv zeta. revert acc.
  induction l as [|k l IH]; intros acc H0; cbn [fold_left].
  - split; [lia|now left].
  - destruct (fear_step_cases gm fy0 fx0 y1 x1 acc k)
      as [[Hs _]|(Hnz & Hnew & _ & Hs)]; rewrite Hs.
    + destruct (IH acc H0) as (Hw & Hsel). split; [exact Hw|].
      destruct Hsel as [Heq|(k' & Hin & Hr)]; [now left|].
      right. exists k'. split; [now right|exact Hr].
    + match goal with |- context [fold_left _ l ?a] => set (acc1 := a) end.
      assert (H1 : 0 <= fe_when acc1) by (subst acc1; cbn; lia).
      destruct (IH acc1 H1) as (Hw & Hsel).
      split; [subst acc1; cbn in Hw; lia|].
      right. destruct Hsel as [Heq|(k' & Hin & Hr)].
      * exists k. split; [now left|]. rewrite Heq. subst acc1. cbn.
        repeat split; lia.
      * exists k'. split; [now right|exact Hr].
Qed.

(** The first neighbour the flow has reached is always taken. *)
Lemma fear_fold_first gm fy0 fx0 y1 x1 l acc :
  0 <= fe_when acc ->
  (0 < fe_when acc
   \/ (fe_score acc < 0
       /\ exists k, In k l
            /\ 0 < when (cave gm) (fy0 + ddy_ddd k) (fx0 + ddx_ddd k))) ->
  0 < fe_when (fold_left (fear_step gm fy0 fx0 y1 x1) l acc).
Proof.
  revert acc.
  induction l as [|k l IH]; intros acc H0 Hor; cbn [fold_left].
  - destruct Hor as [Hp|(_ & k & [] & _)]. exact Hp.
  - destruct (fear_step_cases gm fy0 fx0 y1 x1 acc k)
      as [[Hs Hwhy]|(Hnz & Hnew & _ & Hs)]; rewrite Hs.
    + apply IH; [exact H0|].
      destruct Hor as [Hp|(Hneg & k' & [<-|Hin] & Hpos)]; [now left| |].
      * left.
        pose proof (fear_score_nonneg
                      (distance (fy0 + ddy_ddd k) (fx0 + ddx_ddd k) y1 x1)
                      (cost (cave gm) (fy0 + ddy_ddd k) (fx0 + ddx_ddd k))).
        cbv zeta in Hwhy. lia.
      * right. split; [exact Hneg|]. exists k'. split; [exact Hin|exact Hpos].
    + apply IH; cbn; [lia|]. left. lia.
Qed.

(** X6: where fear sends a monster that has found a safe place.  The routine
    succeeds exactly when the monster's grid is not older for the flow
    than the player's, lies within reach of the flow, and has a neighbour
    that the flow has reached; the deltas it then gives lead to such a
    neighbour.  Otherwise it leaves the deltas as they were. *)
Theorem get_fear_moves_aux_step gm m yp xp :
  let r := get_fear_moves_aux gm m yp xp in
  let nb_when k := when (cave gm) (fy m + ddy_ddd k) (fx m + ddx_ddd k) in
  (fst r = true <->
     when (cave gm) (py (p_ptr gm)) (px (p_ptr gm)) <= when (cave gm) (fy m) (fx m)
     /\ cost (cave gm) (fy m) (fx m) <= MONSTER_FLOW_DEPTH
     /\ cost (cave gm) (fy m) (fx m) <= effective_aaf gm m
     /\ exists k, 0 <= k <= 7 /\ 0 < nb_when k)
  /\ (fst r = false -> snd r = (yp, xp))
  /\ (fst r = true ->
      exists k, 0 <= k <= 7 /\ 0 < nb_when k
        /\ snd r = (- ddy_ddd k, - ddx_ddd k)).
Proof.
  cbv beta zeta. unfold get_fear_moves_aux.
  assert (Hdown : forall k, In k neighbours_down <-> 0 <= k <= 7).
  { intros k. unfold neighbours_down. cbn. lia. }
  destruct (Z.ltb_spec (when (cave gm) (fy m) (fx m))
              (when (cave gm) (py (p_ptr gm)) (px (p_ptr gm)))) as [Hold|Hnew];
    [cbn; split; [split; [discriminate|lia]|split; [reflexivity|discriminate]]|].
  destruct (Z.gtb_spec (cost (cave gm) (fy m) (fx m)) MONSTER_FLOW_DEPTH);
    [cbn; split; [split; [discriminate|lia]|split; [reflexivity|discriminate]]|].
  destruct (Z.gtb_spec (cost (cave gm) (fy m) (fx m)) (effective_aaf gm m));
    [cbn; split; [split; [discriminate|lia]|split; [reflexivity|discriminate]]|].
  pose proof (fear_fold gm (fy m) (fx m) (fy m - yp) (fx m - xp) neighbours_down
                {| fe_when := 0; fe_score := -1; fe_gy := 0; fe_gx := 0 |}
                (Z.le_refl 0)) as Hfold.
  pose proof (fear_fold_first gm (fy m) (fx m) (fy m - yp) (fx m - xp)
                neighbours_down
                {| fe_when := 0; fe_score := -1; fe_gy := 0; fe_gx := 0 |}
                (Z.le_refl 0)) as Hfirst.
  cbv zeta in Hfold. destruct Hfold as (Hw & Hsel).
  set (best := fold_left _ _ _) in *. cbn [fe_when fe_score] in *.
  unfold nz. destruct (Z.eqb_spec (fe_when best) 0) as [Hz|Hnz];
    cbn [negb fst snd].
  - split; [|split; [reflexivity|discriminate]].
    split; [discriminate|]. intros (_ & _ & _ & k & Hk & Hpos).
    assert (0 < fe_when best); [|lia].
    apply Hfirst. right. split; [lia|]. exists k. split; [now apply Hdown|exact Hpos].
  - destruct Hsel as [Heq|(k & Hin & Hpos & Hy & Hx & _)];
      [rewrite Heq in Hnz; cbn in Hnz; lia|].
    assert (Hex : exists k, 0 <= k <= 7
              /\ 0 < when (cave gm) (fy m + ddy_ddd k) (fx m + ddx_ddd k)
              /\ (fy m - fe_gy best, fx m - fe_gx best)
                 = (- ddy_ddd k, - ddx_ddd k)).
    { exists k. split; [now apply Hdown|]. split; [exact Hpos|].
      rewrite Hy, Hx. f_equal; lia. }
    split; [|split; [discriminate|intros _; exact Hex]].
    split; [|reflexivity]. intros _.
    split; [lia|]. split; [lia|]. split; [lia|].
    destruct Hex as (k' & Hk' & Hp' & _). exists k'. split; assumption.
Qed.


(** With one time stamp on the neighbours the flow has reached, the scan
    of [get_fear_moves_aux] ends on the one with the highest score, and
    among these on the one scanned last. *)
Lemma fear_fold_uniform gm fy0 fx0 y1 x1 T l acc :
  0 < T ->
  fe_when acc = 0 \/ fe_when acc = T ->
  (forall k, In k l ->
     when (cave gm) (fy0 + ddy_ddd k) (fx0 + ddx_ddd k) = 0
     \/ when (cave gm) (fy0 + ddy_ddd k) (fx0 + ddx_ddd k) = T) ->
  let nb_when k := when (cave gm) (fy0 + ddy_ddd k) (fx0 + ddx_ddd k) in
  let nb_score k :=
    fear_score (distance (fy0 + ddy_ddd k) (fx0 + ddx_ddd k) y1 x1)
      (cost (cave gm) (fy0 + ddy_ddd k) (fx0 + ddx_ddd k)) in
  let acc' := fold_left (fear_step gm fy0 fx0 y1 x1) l acc in
  (acc' = acc
   /\ forall k, In k l -> nb_when k <> 0 -> nb_score k < fe_score acc)
  \/ exists l1 k l2, l = l1 ++ k :: l2
       /\ nb_when k = T
       /\ fe_score acc <= nb_score k
       /\ acc' = {| fe_when := T; fe_score := nb_score k;
                    fe_gy := fy0 + ddy_ddd k; fe_gx := fx0 + ddx_ddd k |}
       /\ (forall j, In j l1 -> nb_when j <> 0 -> nb_score j <= nb_score k)
       /\ (forall j, In j l2 -> nb_when j <> 0 -> nb_score j < nb_score k).
Proof.
  intros HT. cbv beta zeta. revert acc.
  induction l as [|k l IH]; intros acc Hacc Hl; cbn [fold_left].
  - left. split; [reflexivity|intros k []].
  - assert (Hl' : forall k', In k' l ->
              when (cave gm) (fy0 + ddy_ddd k') (fx0 + ddx_ddd k') = 0
              \/ when (cave gm) (fy0 + ddy_ddd k') (fx0 + ddx_ddd k') = T)
      by (intros k' Hin; apply Hl; now right).
    pose proof (Hl k (or_introl eq_refl)) as HkT.
    destruct (fear_step_cases gm fy0 fx0 y1 x1 acc k)
      as [[Hs Hwhy]|(Hnz & Hnew & Hsc & Hs)]; cbv zeta in *; rewrite Hs.
    + assert (Hskip : when (cave gm) (fy0 + ddy_ddd k) (fx0 + ddx_ddd k) <> 0 ->
                fear_score (distance (fy0 + ddy_ddd k) (fx0 + ddx_ddd k) y1 x1)
                  (cost (cave gm) (fy0 + ddy_ddd k) (fx0 + ddx_ddd k))
                < fe_score acc) by (intros Hne; lia).
      destruct (IH acc Hacc Hl') as [[Heq Hall]|Hsel].
      * left. split; [exact Heq|]. intros k0 [<-|Hin] Hk0; [now apply Hskip|].
        now apply Hall.
      * right. destruct Hsel as (l1 & k1 & l2 & Hsplit & HwT & Hc & Heq & H1 & H2).
        exists (k :: l1), k1, l2. split; [now rewrite Hsplit|].
        split; [exact HwT|]. split; [exact Hc|]. split; [exact Heq|].
        split; [|exact H2].
        intros j [<-|Hj] Hjn; [specialize (Hskip Hjn); lia|now apply H1].
    + assert (HwT : when (cave gm) (fy0 + ddy_ddd k) (fx0 + ddx_ddd k) = T)
        by (destruct HkT; [contradiction|assumption]).
      rewrite HwT. right.
      match goal with |- context [fold_left _ l ?a] => set (acc1 := a) end.
      destruct (IH acc1 (or_intror eq_refl) Hl') as [[Heq Hall]|Hsel].
      * exists [], k, l. split; [reflexivity|]. split; [exact HwT|].
        split; [exact Hsc|]. split; [exact Heq|].
        split; [intros j []|exact Hall].
      * destruct Hsel as (l1 & k1 & l2 & Hsplit & HwT1 & Hc & Heq & H1 & H2).
        exists (k :: l1), k1, l2. split; [now rewrite Hsplit|].
        split; [exact HwT1|]. split; [subst acc1; cbn in Hc; lia|].
        split; [exact Heq|]. split; [|exact H2].
        intros j [<-|Hj] Hjn; [subst acc1; cbn in Hc; lia|now apply H1].
Qed.

(** X7: with one time stamp [T] on the neighbours the flow has reached, a
    frightened monster within reach of the flow steps to the neighbour
    with the highest score, and among these to the one with the lowest
    index. *)
Theorem get_fear_moves_aux_best gm m yp xp T k0 :
  let nb_when k := when (cave gm) (fy m + ddy_ddd k) (fx m + ddx_ddd k) in
  let nb_score k :=
    fear_score
      (distance (fy m + ddy_ddd k) (fx m + ddx_ddd k) (fy m - yp) (fx m - xp))
      (cost (cave gm) (fy m + ddy_ddd k) (fx m + ddx_ddd k)) in
  when (cave gm) (py (p_ptr gm)) (px (p_ptr gm)) <= when (cave gm) (fy m) (fx m) ->
  cost (cave gm) (fy m) (fx m) <= MONSTER_FLOW_DEPTH ->
  cost (cave gm) (fy m) (fx m) <= effective_aaf gm m ->
  0 < T ->
  (forall k, 0 <= k <= 7 -> nb_when k = 0 \/ nb_when k = T) ->
  0 <= k0 <= 7 -> nb_when k0 = T ->
  exists k, 0 <= k <= 7 /\ nb_when k = T
    /\ get_fear_moves_aux gm m yp xp = (true, (- ddy_ddd k, - ddx_ddd k))
    /\ forall j, 0 <= j <= 7 -> nb_when j <> 0 ->
         nb_score j <= nb_score k /\ (j < k -> nb_score j < nb_score k).
Proof.
  cbv beta zeta. intros Hnear Hdepth Haaf HT Huni Hk0 Hw0.
  assert (Hdown : forall k, In k neighbours_down <-> 0 <= k <= 7).
  { intros k. unfold neighbours_down. cbn. lia. }
  unfold get_fear_moves_aux.
  destruct (Z.ltb_spec (when (cave gm) (fy m) (fx m))
              (when (cave gm) (py (p_ptr gm)) (px (p_ptr gm)))); [lia|].
  destruct (Z.gtb_spec (cost (cave gm) (fy m) (fx m)) MONSTER_FLOW_DEPTH); [lia|].
  destruct (Z.gtb_spec (cost (cave gm) (fy m) (fx m)) (effective_aaf gm m)); [lia|].
  pose proof (fear_fold_uniform gm (fy m) (fx m) (fy m - yp) (fx m - xp) T
                neighbours_down
                {| fe_when := 0; fe_score := -1; fe_gy := 0; fe_gx := 0 |}
                HT (or_introl eq_refl)
                (fun k Hin => Huni k (proj1 (Hdown k) Hin))) as Hfold.
  cbv beta zeta in Hfold.
  destruct Hfold as [[_ Hall]|(l1 & k & l2 & Hsplit & HwT & Hc & Heq & Hbefore & Hafter)].
  - assert (Hne : when (cave gm) (fy m + ddy_ddd k0) (fx m + ddx_ddd k0) <> 0)
      by lia.
    specialize (Hall k0 (proj2 (Hdown k0) Hk0) Hne). cbn [fe_score] in Hall.
    pose proof (fear_score_nonneg
                  (distance (fy m + ddy_ddd k0) (fx m + ddx_ddd k0)
                     (fy m - yp) (fx m - xp))
                  (cost (cave gm) (fy m + ddy_ddd k0) (fx m + ddx_ddd k0))).
    lia.
  - destruct (down_split _ _ _ Hsplit) as [Hup Hlow].
    exists k. split.
    { apply Hdown. rewrite Hsplit. apply in_or_app. right. now left. }
    split; [exact HwT|]. split.
    { rewrite Heq. cbn [fe_when fe_gy fe_gx]. unfold nz.
      destruct (Z.eqb_spec T 0); [lia|]. cbn [negb]. f_equal. f_equal; lia. }
    intros j Hj Hjw.
    assert (Hin : In j (l1 ++ k :: l2)) by (rewrite <- Hsplit; now apply Hdown).
    apply in_app_or in Hin. destruct Hin as [Hin|[<-|Hin]].
    + split; [now apply Hbefore|]. intros Hlt. specialize (Hup j Hin). lia.
    + split; lia.
    + specialize (Hafter j Hin Hjw). split; [lia|intros _; exact Hafter].
Qed.

End FlowFacts.

Section ChoiceFacts.
Context {K : Constants} {Hd : Hidden} {Sv : Services} {Mv : MoveServices}.

(** A monster in view does not flow, and no die is cast. *)
Lemma get_moves_aux_in_view w i yp xp :
  in_view (g w) (mon (g w) i) = true ->
  get_moves_aux i yp xp w = ((false, (yp, xp)), w).
Proof.
  unfold in_view. destruct (goes_through_rock (mon (g w) i)) eqn:Hrock;
    intros Hsee.
  - unfold get_moves_aux. rewrite bind_run. cbn [gets fst snd].
    rewrite Hrock. rewrite bind_run. rewrite (bind_run (near_permwall i)).
    assert (Hn : near_permwall i w = (false, w)).
    { unfold near_permwall. rewrite bind_run. cbn [gets fst snd].
      rewrite Hsee. reflexivity. }
    rewrite Hn. reflexivity.
  - rewrite (get_moves_aux_walker _ _ _ _ Hrock). cbv zeta.
    unfold flow_blocked. rewrite Hsee. rewrite !orb_true_r. reflexivity.
Qed.

(** X8: a monster without the pack's manners that is not about to run and
    that the player has in view goes straight for the player: the
    directions are those of the vector from the player to the monster,
    no die is cast and nothing changes. *)
Theorem get_moves_charges w i :
  let gm := g w in
  let m := mon gm i in
  rf_has m RF_GROUP_AI = false ->
  mon_will_run (p_ptr gm) m = false ->
  in_view gm m = true ->
  get_moves_mm i w
  = (if (fx m =? px (p_ptr gm)) && (fy m =? py (p_ptr gm)) then None
     else Some (choose_dirs (fy m - py (p_ptr gm)) (fx m - px (p_ptr gm))), w).
Proof.
  cbv zeta. intros Hgroup Hrun Hsee.
  unfold get_moves_mm. rewrite bind_run. cbn [gets fst snd].
  rewrite bind_run. rewrite (get_moves_aux_in_view _ _ _ _ Hsee).
  cbn [fst snd]. rewrite bind_run.
  assert (Haim : aim i (py (p_ptr (g w))) (px (p_ptr (g w)))
                   (py (p_ptr (g w))) (px (p_ptr (g w))) w
                 = ((fy (mon (g w) i) - py (p_ptr (g w)),
                     fx (mon (g w) i) - px (p_ptr (g w))), w)).
  { unfold aim. rewrite bind_run. cbn [gets fst snd].
    rewrite Hgroup. cbn [andb fst snd negb]. rewrite Hrun.
    cbn [andb fst snd negb]. reflexivity. }
  rewrite Haim. cbn [fst snd]. unfold nz.
  destruct (Z.eqb_spec (fx (mon (g w) i) - px (p_ptr (g w))) 0) as [Hx|Hx];
    destruct (Z.eqb_spec (fy (mon (g w) i) - py (p_ptr (g w))) 0) as [Hy|Hy];
    destruct (Z.eqb_spec (fx (mon (g w) i)) (px (p_ptr (g w))));
    destruct (Z.eqb_spec (fy (mon (g w) i)) (py (p_ptr (g w))));
    try lia; reflexivity.
Qed.

(** X9: a monster without the pack's manners that is about to run, that the
    player has in view and that finds no safe place runs straight away
    from the player: the directions are those of the vector from the
    monster to the player, reversed. *)
Theorem get_moves_panics w i :
  let gm := g w in
  let m := mon gm i in
  rf_has m RF_GROUP_AI = false ->
  mon_will_run (p_ptr gm) m = true ->
  in_view gm m = true ->
  fst (find_safety gm m (fy m - py (p_ptr gm)) (fx m - px (p_ptr gm))) = false ->
  get_moves_mm i w
  = (if (fx m =? px (p_ptr gm)) && (fy m =? py (p_ptr gm)) then None
     else Some (choose_dirs (py (p_ptr gm) - fy m) (px (p_ptr gm) - fx m)), w).
Proof.
  cbv zeta. intros Hgroup Hrun Hsee Hsafe.
  unfold get_moves_mm. rewrite bind_run. cbn [gets fst snd].
  rewrite bind_run. rewrite (get_moves_aux_in_view _ _ _ _ Hsee).
  cbn [fst snd]. rewrite bind_run.
  assert (Hkeep : snd (find_safety (g w) (mon (g w) i)
                         (fy (mon (g w) i) - py (p_ptr (g w)))
                         (fx (mon (g w) i) - px (p_ptr (g w))))
                  = (fy (mon (g w) i) - py (p_ptr (g w)),
                     fx (mon (g w) i) - px (p_ptr (g w)))).
  { revert Hsafe. unfold find_safety.
    destruct (safety_rings _ _ _ _ _ _ _); [discriminate|reflexivity]. }
  assert (Haim : aim i (py (p_ptr (g w))) (px (p_ptr (g w)))
                   (py (p_ptr (g w))) (px (p_ptr (g w))) w
                 = ((- (fy (mon (g w) i) - py (p_ptr (g w))),
                     - (fx (mon (g w) i) - px (p_ptr (g w)))), w)).
  { unfold aim. rewrite bind_run. cbn [gets fst snd].
    rewrite Hgroup. cbn [andb fst snd negb]. rewrite Hrun.
    cbn [andb fst snd negb]. rewrite Hsafe. cbn [andb fst snd negb].
    rewrite Hkeep. reflexivity. }
  rewrite Haim. cbn [fst snd]. unfold nz.
  replace (- (fy (mon (g w) i) - py (p_ptr (g w))))
    with (py (p_ptr (g w)) - fy (mon (g w) i)) by lia.
  replace (- (fx (mon (g w) i) - px (p_ptr (g w))))
    with (px (p_ptr (g w)) - fx (mon (g w) i)) by lia.
  destruct (Z.eqb_spec (px (p_ptr (g w)) - fx (mon (g w) i)) 0) as [Hx|Hx];
    destruct (Z.eqb_spec (py (p_ptr (g w)) - fy (mon (g w) i)) 0) as [Hy|Hy];
    destruct (Z.eqb_spec (fx (mon (g w) i)) (px (p_ptr (g w))));
    destruct (Z.eqb_spec (fy (mon (g w) i)) (py (p_ptr (g w))));
    try lia; reflexivity.
Qed.


(** The search for a hole next to the player ends on a neighbour of the
    player, and on an empty one if one of the rounds meets one. *)
Lemma fill_hole_spec gm py0 px0 tmp rounds y2 x2 :
  rounds <> [] ->
  exists n, In n rounds
    /\ fill_hole gm py0 px0 tmp rounds y2 x2
       = (py0 + ddy_ddd (Z.land (tmp + n) 7), px0 + ddx_ddd (Z.land (tmp + n) 7))
    /\ ((exists n', In n' rounds
           /\ square_isempty gm (py0 + ddy_ddd (Z.land (tmp + n') 7))
                (px0 + ddx_ddd (Z.land (tmp + n') 7)) = true) ->
        square_isempty gm (py0 + ddy_ddd (Z.land (tmp + n) 7))
          (px0 + ddx_ddd (Z.land (tmp + n) 7)) = true).
Proof.
  revert y2 x2. induction rounds as [|a rounds IH]; intros y2 x2 Hne;
    [contradiction|]. cbn [fill_hole].
  destruct (square_isempty gm (py0 + ddy_ddd (Z.land (tmp + a) 7))
              (px0 + ddx_ddd (Z.land (tmp + a) 7))) eqn:Hempty; cbn [negb].
  - exists a. split; [now left|]. split; [reflexivity|]. intros _. exact Hempty.
  - destruct rounds as [|b rounds].
    + exists a. split; [now left|]. split; [reflexivity|].
      intros (n' & [<-|[]] & Hn'). congruence.
    + destruct (IH (py0 + ddy_ddd (Z.land (tmp + a) 7))
                  (px0 + ddx_ddd (Z.land (tmp + a) 7))) as (n & Hin & Heq & Hfill);
        [discriminate|].
      exists n. split; [now right|]. split; [exact Heq|].
      intros (n' & [<-|Hin'] & Hn'); [congruence|].
      apply Hfill. exists n'. split; assumption.
Qed.

(** The eight rounds reach every neighbour, whatever the start. *)
Lemma rounds_cover tmp j :
  0 <= j <= 7 -> exists n, In n (seqZ 0 8) /\ Z.land (tmp + n) 7 = j.
Proof.
  intros Hj. exists ((j - tmp) mod 8).
  pose proof (Z.mod_pos_bound (j - tmp) 8 ltac:(lia)) as Hb.
  split.
  - apply list_elem_of_In, elem_of_seqZ. lia.
  - change 7 with (Z.ones 3). rewrite Z.land_ones by lia.
    change (2 ^ 3) with 8. rewrite Z.add_mod_idemp_r by lia.
    replace (tmp + (j - tmp)) with j by lia. apply Z.mod_small. lia.
Qed.

(** X10: a pack monster that the player has in view, that is not about to run
    and is not next to the player, the player being weak or in the open,
    heads for a grid next to the player, and for an empty one if there
    is one. *)
Theorem get_moves_surrounds w i :
  let gm := g w in
  let m := mon gm i in
  let gm1 := snd (ext Z (Rand_div 8) gm) in
  let m1 := mon gm1 i in
  let py0 := py (p_ptr gm) in
  let px0 := px (p_ptr gm) in
  rf_has m RF_GROUP_AI = true ->
  mon_will_run (p_ptr gm) m = false ->
  in_view gm m = true ->
  goes_through_rock m = true \/ 7 <= open_around gm py0 px0
  \/ chp (p_ptr gm) <= Z.quot (mhp (p_ptr gm)) 2 ->
  1 < cdis m ->
  exists j, 0 <= j <= 7
    /\ fst (get_moves_mm i w)
       = (if (fx m1 - (px0 + ddx_ddd j) =? 0) && (fy m1 - (py0 + ddy_ddd j) =? 0)
          then None
          else Some (choose_dirs (fy m1 - (py0 + ddy_ddd j))
                       (fx m1 - (px0 + ddx_ddd j))))
    /\ ((exists j', 0 <= j' <= 7
           /\ square_isempty gm1 (py0 + ddy_ddd j') (px0 + ddx_ddd j') = true) ->
        square_isempty gm1 (py0 + ddy_ddd j) (px0 + ddx_ddd j) = true).
Proof.
  cbv zeta. intros Hgroup Hrun Hsee Hopen Hfar.
  destruct (fill_hole_spec (snd (ext Z (Rand_div 8) (g w)))
              (py (p_ptr (g w))) (px (p_ptr (g w)))
              (fst (ext Z (Rand_div 8) (g w))) (seqZ 0 8)
              (py (p_ptr (g w))) (px (p_ptr (g w))))
    as (n & Hn & Heq & Hfill); [discriminate|].
  exists (Z.land (fst (ext Z (Rand_div 8) (g w)) + n) 7).
  split.
  { apply list_elem_of_In, elem_of_seqZ in Hn.
    change 7 with (Z.ones 3) at 1 2. rewrite Z.land_ones by lia.
    pose proof (Z.mod_pos_bound (fst (ext Z (Rand_div 8) (g w)) + n) (2 ^ 3)
                  ltac:(lia)). lia. }
  split.
  - unfold get_moves_mm. rewrite bind_run. cbn [gets fst snd].
    rewrite bind_run. rewrite (get_moves_aux_in_view _ _ _ _ Hsee).
    cbn [fst snd]. rewrite bind_run.
    assert (Hhide :
      (if rf_has (mon (g w) i) RF_GROUP_AI && negb (goes_through_rock (mon (g w) i))
       then
         if (open_around (g w) (py (p_ptr (g w))) (px (p_ptr (g w))) <? 7)
            && (chp (p_ptr (g w)) >? Z.quot (mhp (p_ptr (g w))) 2)
         then find_hiding (g w) (mon (g w) i)
                (fy (mon (g w) i) - py (p_ptr (g w)))
                (fx (mon (g w) i) - px (p_ptr (g w)))
         else (false, (fy (mon (g w) i) - py (p_ptr (g w)),
                       fx (mon (g w) i) - px (p_ptr (g w))))
       else (false, (fy (mon (g w) i) - py (p_ptr (g w)),
                     fx (mon (g w) i) - px (p_ptr (g w)))))
      = (false, (fy (mon (g w) i) - py (p_ptr (g w)),
                 fx (mon (g w) i) - px (p_ptr (g w))))).
    { rewrite Hgroup. cbn [andb].
      destruct (goes_through_rock (mon (g w) i)); [reflexivity|]. cbn [negb].
      destruct (Z.ltb_spec (open_around (g w) (py (p_ptr (g w))) (px (p_ptr (g w)))) 7);
        [|reflexivity].
      destruct (Z.gtb_spec (chp (p_ptr (g w))) (Z.quot (mhp (p_ptr (g w))) 2));
        [|reflexivity].
      destruct Hopen as [Hr|[Ho|Hc]]; [discriminate|lia|lia]. }
    unfold aim. rewrite bind_run. cbn [gets fst snd]. rewrite Hhide.
    cbn [fst snd negb andb]. rewrite Hrun. cbn [fst snd negb andb].
    rewrite Hgroup.
    destruct (Z.gtb_spec (cdis (mon (g w) i)) 1) as [_|Hadj]; [|lia].
    rewrite !bind_run. unfold randint0, invoke. cbn [gets ret fst snd g].
    destruct (ext Z (Rand_div 8) (g w)) as [tmp gm1] eqn:Hext.
    cbn [fst snd g] in *. rewrite Heq. cbn [fst snd]. unfold nz.
    destruct (_ =? 0); destruct (_ =? 0); reflexivity.
  - intros (j' & Hj' & Hempty). apply Hfill.
    destruct (rounds_cover (fst (ext Z (Rand_div 8) (g w))) j' Hj')
      as (n' & Hin' & Hland).
    exists n'. split; [exact Hin'|]. rewrite Hland. exact Hempty.
Qed.

End ChoiceFacts.

Section WholeTurn.
Context {K : Constants} {Hd : Hidden} {Sv : Services}.

Lemma keeps_visit (Hfs : fair_services) minimum_energy i :
  keeps (visit minimum_energy i).
Proof.
  unfold visit. apply keeps_bind; [apply keeps_gets|]. intros m.
  destruct (race m); [|apply keeps_ret].
  destruct (energy m <? minimum_energy); [apply keeps_ret|].
  apply keeps_bind.
  { apply keeps_modify. apply inert_upd_mon. intros ?. repeat split. }
  intros _. apply keeps_bind; [apply keeps_gets|]. intros gm.
  destruct (wakes gm (mon gm i)); [|apply keeps_ret].
  apply keeps_bind; [apply (keeps_process_monster Hfs)|].
  intros _. apply keeps_ret.
Qed.

Lemma keeps_process_monsters_from (Hfs : fair_services) minimum_energy n :
  keeps (process_monsters_from n minimum_energy).
Proof.
  induction n as [|n IH]; [apply keeps_ret|].
  cbn [process_monsters_from]. cbv zeta.
  apply keeps_bind; [apply keeps_gets|]. intros p.
  destruct (leaving p); [apply keeps_ret|].
  apply keeps_bind; [now apply keeps_visit|]. intros processed.
  apply keeps_bind; [exact IH|]. intros others. apply keeps_ret.
Qed.

(** X11: a whole pass of the scheduler: as long as the services keep the
    occupancy grid consistent, no [monster_swap] of the pass goes onto
    the player's grid, and after the pass the grid is consistent and no
    live monster stands on the player's position. *)
Theorem process_monsters_spares_player minimum_energy w :
  fair_services -> good w ->
  good (snd (process_monsters minimum_energy w))
  /\ no_monster_on_player (g (snd (process_monsters minimum_energy w))).
Proof.
  intros Hfs Hw.
  assert (Hk : keeps (process_monsters minimum_energy)).
  { unfold process_monsters. apply keeps_bind; [apply keeps_gets|].
    intros gm. now apply keeps_process_monsters_from. }
  specialize (Hk w Hw). split; [exact Hk|].
  apply consistent_no_monster_on_player. exact (proj1 Hk).
Qed.

End WholeTurn.

Section SoundFacts.
Context {K : Constants} {Hd : Hidden} {Sv : Services}.
Variable Inv : game -> Prop.
Variable bad : event -> bool.
Hypothesis Hserv : services_keep_unless bad Inv.
Hypothesis Hraces : forall gm gm', same_races gm gm' -> Inv gm -> Inv gm'.
Hypothesis Hbad :
  forall e, bad e = true ->
    is_swap e = true \/ is_teleport e = true \/ is_delete e = true
    \/ is_cast e = true.

Lemma upholds_ret {A} (a : A) (Q : A -> Prop) : Q a -> upholds Inv bad (ret a) Q.
Proof.
  intros Hq w Hw. split; [exact Hw|]. split; [exact Hq|].
  exists []. split; [cbn; now rewrite app_nil_r|constructor].
Qed.

Lemma upholds_gets {A} (f : game -> A) (Q : A -> Prop) :
  (forall gm, Inv gm -> Q (f gm)) -> upholds Inv bad (gets f) Q.
Proof.
  intros Hq w Hw. split; [exact Hw|]. split; [now apply Hq|].
  exists []. split; [cbn; now rewrite app_nil_r|constructor].
Qed.

Lemma upholds_bind {A B} (c : M A) (k : A -> M B) (Q1 : A -> Prop)
    (Q : B -> Prop) :
  upholds Inv bad c Q1 -> (forall a, Q1 a -> upholds Inv bad (k a) Q) ->
  upholds Inv bad (bind c k) Q.
Proof.
  intros Hc Hk w Hw. rewrite bind_run.
  destruct (Hc w Hw) as (Hi1 & Hq1 & l1 & Ht1 & Hl1).
  destruct (Hk _ Hq1 _ Hi1) as (Hi2 & Hq2 & l2 & Ht2 & Hl2).
  split; [exact Hi2|]. split; [exact Hq2|].
  exists (l1 ++ l2). split.
  - rewrite Ht2, Ht1, app_assoc. reflexivity.
  - apply Forall_app. split; assumption.
Qed.

Lemma upholds_seq {A B} (c : M A) (k : A -> M B) (Q : B -> Prop) :
  upholds Inv bad c (fun _ => True) -> (forall a, upholds Inv bad (k a) Q) ->
  upholds Inv bad (bind c k) Q.
Proof.
  intros Hc Hk. apply (upholds_bind c k (fun _ => True)); [exact Hc|].
  intros a _. apply Hk.
Qed.

Lemma upholds_weaken {A} (c : M A) (Q1 Q : A -> Prop) :
  upholds Inv bad c Q1 -> (forall a, Q1 a -> Q a) -> upholds Inv bad c Q.
Proof.
  intros Hc Hq w Hw. destruct (Hc w Hw) as (Hi & Hq1 & Hl).
  split; [exact Hi|]. split; [now apply Hq|exact Hl].
Qed.

Lemma upholds_always {A} (c : M A) (Q : A -> Prop) :
  upholds Inv bad c (fun _ => True) -> always c Q -> upholds Inv bad c Q.
Proof.
  intros Hc Hq w Hw. destruct (Hc w Hw) as (Hi & _ & Hl).
  split; [exact Hi|]. split; [apply Hq|exact Hl].
Qed.

Lemma upholds_modify f (Q : unit -> Prop) :
  (forall gm, same_races gm (f gm)) -> Q tt -> upholds Inv bad (modify f) Q.
Proof.
  intros Hf Hq w Hw. split; [cbn; now apply (Hraces (g w))|].
  split; [exact Hq|].
  exists []. split; [cbn; now rewrite app_nil_r|constructor].
Qed.

Lemma upholds_invoke R (c : call R) :
  bad (ev c) = false -> upholds Inv bad (invoke c) (fun _ => True).
Proof.
  intros Hc w Hw. split; [rewrite g_invoke; now apply Hserv|].
  split; [exact Logic.I|].
  exists [ {| at_state := g w; what := ev c |} ].
  split; [apply tr_invoke|]. constructor; [exact Hc|constructor].
Qed.

Lemma upholds_when b (c : M unit) :
  upholds Inv bad c (fun _ => True) -> upholds Inv bad (when_ b c) (fun _ => True).
Proof.
  intros Hc. destruct b; [exact Hc|]. now apply upholds_ret.
Qed.

Lemma fine_call R (c : call R) :
  is_swap (ev c) = false -> is_teleport (ev c) = false ->
  is_delete (ev c) = false -> is_cast (ev c) = false -> bad (ev c) = false.
Proof.
  intros H1 H2 H3 H4. destruct (bad (ev c)) eqn:E; [|reflexivity].
  destruct (Hbad _ E) as [H|[H|[H|H]]]; congruence.
Qed.

Lemma races_upd_lore r f gm : same_races gm (upd_lore r f gm).
Proof. intros j. reflexivity. Qed.

Lemma races_upd_cave f gm : same_races gm (upd_cave f gm).
Proof. intros j. reflexivity. Qed.

Lemma races_upd_player f gm : same_races gm (upd_player f gm).
Proof. intros j. reflexivity. Qed.

Lemma races_upd_inven item f gm : same_races gm (upd_inven item f gm).
Proof. intros j. reflexivity. Qed.

Lemma races_upd_mon i f gm :
  (forall m, race (f m) = race m) -> same_races gm (upd_mon i f gm).
Proof.
  intros Hf j. rewrite mon_upd_mon.
  destruct (decide (Z.to_nat i = Z.to_nat j)); [|reflexivity].
  unfold mon. destruct (mons gm !! Z.to_nat j); [apply Hf|reflexivity].
Qed.

Ltac races_tac :=
  intros ?;
  first
    [ apply races_upd_lore
    | apply races_upd_cave
    | apply races_upd_inven
    | apply races_upd_player
    | apply races_upd_mon; intros ?; reflexivity ].

Ltac upholds_step :=
  lazymatch goal with
  | |- upholds _ _ (bind _ _) _ => apply upholds_seq; [|intros ?]
  | |- upholds _ _ (ret _) _ => apply upholds_ret; exact Logic.I
  | |- upholds _ _ (gets _) _ => apply upholds_gets; intros ? ?; exact Logic.I
  | |- upholds _ _ (modify _) _ => apply upholds_modify; [races_tac|exact Logic.I]
  | |- upholds _ _ (invoke _) _ =>
      apply upholds_invoke;
      first [ apply fine_call; reflexivity
            | match goal with H : _ |- _ => apply H; reflexivity end
            | match goal with H : _ |- _ => apply H end ]
  | |- upholds _ _ (when_ _ _) _ => apply upholds_when
  | |- upholds _ _ (if ?b then _ else _) _ => destruct b
  | |- upholds _ _ (match ?x with _ => _ end) _ => destruct x
  | |- upholds _ _ (let _ := _ in _) _ => cbv zeta
  | |- upholds _ _ (randint0 _) _ => unfold randint0
  | |- upholds _ _ (randint1 _) _ => unfold randint1
  | |- upholds _ _ (one_in_ _) _ => unfold one_in_
  end.

Create HintDb upholds.

Ltac upholds_auto := repeat (upholds_step || solve [auto with upholds]).


Lemma fine_remove_bad_spells i f : upholds Inv bad (remove_bad_spells i f) (fun _ => True).
Proof. unfold remove_bad_spells. upholds_auto. Qed.

Lemma fine_choose_attack_spell f : upholds Inv bad (choose_attack_spell f) (fun _ => True).
Proof. unfold choose_attack_spell. upholds_auto. Qed.

#[local] Hint Resolve fine_remove_bad_spells fine_choose_attack_spell : upholds.

Lemma fine_pick_spell i : upholds Inv bad (pick_spell i) (fun _ => True).
Proof. unfold pick_spell. upholds_auto. Qed.

Lemma fine_spell_fails i s : upholds Inv bad (spell_fails i s) (fun _ => True).
Proof. unfold spell_fails. upholds_auto. Qed.

(** The cast, when the spell may be cast. *)
Lemma fine_cast_spell_or_fail i s blind seen lidx :
  (forall seen', bad (ev (do_mon_spell s i seen')) = false) ->
  upholds Inv bad (cast_spell_or_fail i s blind seen lidx) (fun _ => True).
Proof.
  intros Hcast.
  unfold cast_spell_or_fail, spell_fails, do_cast_spell, notice_caster.
  upholds_auto.
Qed.

#[local] Hint Resolve fine_pick_spell : upholds.

Lemma fine_make_attack_spell i :
  (forall e, is_cast e = true -> bad e = false) ->
  upholds Inv bad (make_attack_spell i) (fun _ => True).
Proof.
  intros Hcast. unfold make_attack_spell. upholds_auto.
  apply fine_cast_spell_or_fail. intros seen'. now apply Hcast.
Qed.


Lemma fine_monster_critical d s dam :
  upholds Inv bad (monster_critical d s dam) (fun _ => True).
Proof. unfold monster_critical. upholds_auto. Qed.

Lemma fine_method_action m :
  upholds Inv bad (monster_blow_method_action m) (fun _ => True).
Proof. unfold monster_blow_method_action. upholds_auto. Qed.

Lemma fine_cut_amount t : upholds Inv bad (cut_amount t) (fun _ => True).
Proof. unfold cut_amount. upholds_auto. Qed.

Lemma fine_stun_amount t : upholds Inv bad (stun_amount t) (fun _ => True).
Proof. unfold stun_amount. upholds_auto. Qed.

Lemma fine_count_blow i lidx ap vis ob dam :
  upholds Inv bad (count_blow i lidx ap vis ob dam) (fun _ => True).
Proof. unfold count_blow. upholds_auto. Qed.

Lemma fine_repelled i lidx rlev :
  upholds Inv bad (repelled_by_protection i lidx rlev) (fun _ => True).
Proof. unfold repelled_by_protection. upholds_auto. Qed.

Lemma fine_learn_flag i lidx f :
  upholds Inv bad (learn_flag i lidx f) (fun _ => True).
Proof. unfold learn_flag. upholds_auto. Qed.

Lemma fine_redraw_health i : upholds Inv bad (redraw_health i) (fun _ => True).
Proof. unfold redraw_health. upholds_auto. Qed.

#[local] Hint Resolve fine_monster_critical
  fine_method_action fine_cut_amount fine_stun_amount fine_count_blow
  fine_repelled fine_learn_flag fine_redraw_health : upholds.

Lemma fine_process_sleep i lidx :
  upholds Inv bad (process_sleep i lidx) (fun _ => True).
Proof. unfold process_sleep. upholds_auto. Qed.

Lemma fine_recover i t : upholds Inv bad (recover i t) (fun _ => True).
Proof. unfold recover. upholds_auto. Qed.

#[local] Hint Resolve fine_recover : upholds.

Lemma fine_process_timers i : upholds Inv bad (process_timers i) (fun _ => True).
Proof. unfold process_timers. upholds_auto. Qed.

Lemma fine_process_multiply i lidx oy ox :
  upholds Inv bad (process_multiply i lidx oy ox) (fun _ => True).
Proof. unfold process_multiply, multiply_attempt. upholds_auto. Qed.

Lemma fine_choose_stagger i lidx :
  upholds Inv bad (choose_stagger i lidx) (fun _ => True).
Proof. unfold choose_stagger. upholds_auto. Qed.

Lemma fine_step_door i lidx ny nx v :
  upholds Inv bad (step_door i lidx ny nx v) (fun _ => True).
Proof. unfold step_door. upholds_auto. Qed.

#[local] Hint Resolve fine_step_door : upholds.

Lemma fine_step_terrain i lidx ny nx v :
  upholds Inv bad (step_terrain i lidx ny nx v) (fun _ => True).
Proof. unfold step_terrain. upholds_auto. Qed.

Lemma fine_step_glyph i ny nx v :
  upholds Inv bad (step_glyph i ny nx v) (fun _ => True).
Proof. unfold step_glyph. upholds_auto. Qed.

Lemma fine_step_never_move i lidx v :
  upholds Inv bad (step_never_move i lidx v) (fun _ => True).
Proof. unfold step_never_move. upholds_auto. Qed.

Lemma fine_step_monster i lidx ny nx v :
  (forall e, is_delete e = true -> bad e = false) ->
  upholds Inv bad (step_monster i lidx ny nx v) (fun _ => True).
Proof. intros Hdel. unfold step_monster. upholds_auto. Qed.

Lemma fine_step_object i lidx ny nx o :
  upholds Inv bad (step_object i lidx ny nx o) (fun _ => True).
Proof. unfold step_object. upholds_auto. Qed.

#[local] Hint Resolve fine_step_object : upholds.

Lemma fine_step_objects i lidx ny nx objs :
  upholds Inv bad (step_objects i lidx ny nx objs) (fun _ => True).
Proof. induction objs as [|o objs IH]; cbn [step_objects]; upholds_auto. Qed.

Lemma fine_after_steps i v : upholds Inv bad (after_steps i v) (fun _ => True).
Proof. unfold after_steps. upholds_auto. Qed.

#[local] Hint Resolve fine_process_sleep fine_process_timers
  fine_process_multiply fine_choose_stagger fine_step_terrain
  fine_step_glyph fine_step_never_move fine_step_objects
  fine_after_steps : upholds.

(** The step that moves the monster, when [monster_swap] is allowed. *)
Lemma fine_step_move i lidx oy ox ny nx v :
  (forall e, is_swap e = true -> bad e = false) ->
  upholds Inv bad (step_move i lidx oy ox ny nx v) (fun _ => True).
Proof. intros Hswap. unfold step_move. upholds_auto. Qed.

(** What [step_move] does once the monster has been moved. *)
Lemma fine_after_swap i lidx ny nx v :
  upholds Inv bad
    (gm <- gets (fun gm => gm) ;;
     when_ (ml (mon gm i) && mflag_view (mon gm i) && disturb_near (opt gm))
       (invoke (disturb 0)) ;;
     gm <- gets (fun gm => gm) ;;
     step_objects i lidx ny nx (floor_objects gm ny nx) ;;
     ret (set_do_turn true v))
    (fun v' => do_turn v' = true).
Proof.
  apply upholds_seq; [upholds_auto|]. intros gm.
  apply upholds_seq; [upholds_auto|]. intros _.
  apply upholds_seq; [upholds_auto|]. intros gm'.
  apply upholds_seq; [upholds_auto|]. intros _.
  now apply upholds_ret.
Qed.

Lemma fine_moves_or_stagger i (stagger : bool) :
  upholds Inv bad
    (if negb stagger then invoke (get_moves i)
     else ret (Some (fun _ : Z => 0)))
    (fun _ => True).
Proof. upholds_auto. Qed.

Lemma fine_direction (stagger : bool) (mm : Z -> Z) k :
  upholds Inv bad
    (if stagger then r <- randint0 8 ;; ret (ddd r) else ret (mm k))
    (fun _ => True).
Proof. upholds_auto. Qed.

(** ** The blows *)

Lemma fine_check_hit p l : upholds Inv bad (check_hit p l) (fun _ => True).
Proof. unfold check_hit. upholds_auto. Qed.

Lemma fine_elemental c typ pe :
  upholds Inv bad (melee_effect_elemental c typ pe) (fun _ => True).
Proof. unfold melee_effect_elemental. upholds_auto. Qed.

Lemma fine_timed c typ amount fl sv sm :
  upholds Inv bad (melee_effect_timed c typ amount fl sv sm) (fun _ => True).
Proof. unfold melee_effect_timed. upholds_auto. Qed.

Lemma fine_stat c st : upholds Inv bad (melee_effect_stat c st) (fun _ => True).
Proof. unfold melee_effect_stat. upholds_auto. Qed.

Lemma fine_experience c ch d :
  upholds Inv bad (melee_effect_experience c ch d) (fun _ => True).
Proof. unfold melee_effect_experience. upholds_auto. Qed.

Lemma fine_drain_tries tries : forall unpower c,
  upholds Inv bad (drain_charges_tries tries unpower c) (fun _ => True).
Proof.
  induction tries as [|tries IH]; intros unpower c; cbn [drain_charges_tries];
    upholds_auto.
Qed.

Lemma fine_eat_item_tries tries : forall c,
  upholds Inv bad (eat_item_tries tries c) (fun _ => True).
Proof.
  induction tries as [|tries IH]; intros c; cbn [eat_item_tries]; upholds_auto.
Qed.

Lemma fine_eat_food_tries tries : forall c,
  upholds Inv bad (eat_food_tries tries c) (fun _ => True).
Proof.
  induction tries as [|tries IH]; intros c; cbn [eat_food_tries]; upholds_auto.
Qed.

Lemma fine_carry_gold fuel i : forall gold,
  upholds Inv bad (carry_gold fuel i gold) (fun _ => True).
Proof.
  induction fuel as [|fuel IH]; intros gold; cbn [carry_gold]; upholds_auto.
Qed.

Lemma fine_theft_save : upholds Inv bad theft_save (fun _ => True).
Proof. unfold theft_save. upholds_auto. Qed.

#[local] Hint Resolve fine_check_hit fine_elemental fine_timed fine_stat
  fine_experience fine_drain_tries fine_eat_item_tries fine_eat_food_tries
  fine_carry_gold fine_theft_save : upholds.

Lemma fine_steal_gold c : upholds Inv bad (steal_gold c) (fun _ => True).
Proof. unfold steal_gold. upholds_auto. Qed.

#[local] Hint Resolve fine_steal_gold : upholds.

Lemma fine_handlers e h c :
  melee_handler_for_blow_effect e = Some h ->
  upholds Inv bad (h c) (fun _ => True).
Proof.
  intros Hh. unfold melee_handler_for_blow_effect in Hh. injection Hh as <-.
  destruct e;
    unfold melee_effect_handler_none, melee_effect_handler_hurt,
      melee_effect_handler_poison, melee_effect_handler_disenchant,
      melee_effect_handler_drain_charges, melee_effect_handler_eat_gold,
      melee_effect_handler_eat_item, melee_effect_handler_eat_food,
      melee_effect_handler_eat_light, melee_effect_handler_acid,
      melee_effect_handler_elec, melee_effect_handler_fire,
      melee_effect_handler_cold, melee_effect_handler_blind,
      melee_effect_handler_confuse, melee_effect_handler_terrify,
      melee_effect_handler_paralyze, melee_effect_handler_lose_str,
      melee_effect_handler_lose_int, melee_effect_handler_lose_wis,
      melee_effect_handler_lose_dex, melee_effect_handler_lose_con,
      melee_effect_handler_lose_all, melee_effect_handler_shatter,
      melee_effect_handler_exp_10, melee_effect_handler_exp_20,
      melee_effect_handler_exp_40, melee_effect_handler_exp_80,
      melee_effect_handler_hallucination;
    upholds_auto.
Qed.

Lemma fine_apply_effect i rlev tac b ob bl db dam :
  upholds Inv bad (apply_effect i rlev tac b ob bl db dam) (fun _ => True).
Proof.
  unfold apply_effect.
  destruct (melee_handler_for_blow_effect (effect b)) as [h|] eqn:Eh.
  - eapply fine_handlers. exact Eh.
  - upholds_auto.
Qed.

#[local] Hint Resolve fine_apply_effect : upholds.

Lemma fine_announce_blow b : upholds Inv bad (announce_blow b) (fun _ => True).
Proof. unfold announce_blow. upholds_auto. Qed.

Lemma fine_cut_and_stun b dam :
  upholds Inv bad (cut_and_stun b dam) (fun _ => True).
Proof. unfold cut_and_stun. upholds_auto. Qed.

#[local] Hint Resolve fine_announce_blow fine_cut_and_stun : upholds.

Lemma fine_land_blow i rlev tac b bl db :
  upholds Inv bad (land_blow i rlev tac b bl db) (fun _ => True).
Proof. unfold land_blow. upholds_auto. Qed.

#[local] Hint Resolve fine_land_blow : upholds.

Lemma fine_blow_loop fuel i lidx rlev tac : forall ap bl,
  upholds Inv bad (blow_loop fuel i lidx rlev tac ap bl) (fun _ => True).
Proof.
  induction fuel as [|fuel IH]; intros ap bl; cbn [blow_loop]; upholds_auto.
Qed.

#[local] Hint Resolve fine_blow_loop : upholds.

(** The whole attack, when the blink is allowed too. *)
Lemma fine_make_attack_normal i :
  (forall e, is_teleport e = true -> bad e = false) ->
  upholds Inv bad (make_attack_normal i) (fun _ => True).
Proof. intros Htele. unfold make_attack_normal, after_blows. upholds_auto. Qed.

Lemma fine_step_player i lidx ny nx v :
  (forall e, is_teleport e = true -> bad e = false) ->
  upholds Inv bad (step_player i lidx ny nx v) (fun _ => True).
Proof.
  intros Htele. pose proof (fine_make_attack_normal i Htele).
  unfold step_player. upholds_auto.
Qed.


(** ** A monster without a thief's blow *)

Section Honest.
Variable i : Z.
Hypothesis Hhonest :
  forall gm, Inv gm -> forall ap, honest_blow (blow_at (mon gm i) ap).

Ltac calm_step :=
  lazymatch goal with
  | |- always (@bind _ melee_ctx _ ?c ?k) _ =>
      apply (always_bind_with c k calm); [|intros ? ?]
  | |- always (bind _ _) _ => apply always_bind; intros
  | |- always (ret _) _ => apply always_ret
  | |- always (if ?b then _ else _) _ => destruct b
  | |- always (match ?x with _ => _ end) _ => destruct x
  | |- always (let _ := _ in _) _ => cbv zeta
  end.

Ltac calm_leaf :=
  unfold calm in *; cbn;
  repeat match goal with
         | |- context [if ?b then _ else _] => destruct b; cbn
         end;
  auto.

Ltac calm_tac := repeat calm_step; try calm_leaf.

Lemma calm_elemental c typ pure_element :
  calm c -> always (melee_effect_elemental c typ pure_element) calm.
Proof. intros H. unfold melee_effect_elemental. calm_tac. Qed.

Lemma calm_timed c typ amount fl sv sm :
  calm c -> always (melee_effect_timed c typ amount fl sv sm) calm.
Proof. intros H. unfold melee_effect_timed. calm_tac. Qed.

Lemma calm_stat c st : calm c -> always (melee_effect_stat c st) calm.
Proof. intros H. unfold melee_effect_stat. calm_tac. Qed.

Lemma calm_experience c ch d :
  calm c -> always (melee_effect_experience c ch d) calm.
Proof. intros H. unfold melee_effect_experience. calm_tac. Qed.

Lemma calm_drain_tries tries : forall unpower c,
  calm c -> always (drain_charges_tries tries unpower c) calm.
Proof.
  induction tries as [|tries IH]; intros unpower c H; cbn [drain_charges_tries].
  - calm_tac.
  - repeat calm_step; try (apply IH; assumption); calm_leaf.
Qed.

Lemma calm_eat_food_tries tries : forall c,
  calm c -> always (eat_food_tries tries c) calm.
Proof.
  induction tries as [|tries IH]; intros c H; cbn [eat_food_tries].
  - calm_tac.
  - repeat calm_step; try (apply IH; assumption); calm_leaf.
Qed.

Create HintDb calm.
#[local] Hint Resolve calm_elemental calm_timed calm_stat calm_experience
  calm_drain_tries calm_eat_food_tries : calm.

(** Only the handlers of EAT_GOLD and EAT_ITEM set [blinked]. *)
Lemma handlers_keep_calm e h c :
  melee_handler_for_blow_effect e = Some h ->
  e <> RBE_EAT_GOLD -> e <> RBE_EAT_ITEM ->
  calm c -> always (h c) calm.
Proof.
  intros Hh Hg Hi Hc. unfold melee_handler_for_blow_effect in Hh.
  injection Hh as <-.
  destruct e; try contradiction;
    unfold melee_effect_handler_none, melee_effect_handler_hurt,
      melee_effect_handler_poison, melee_effect_handler_disenchant,
      melee_effect_handler_drain_charges,
      melee_effect_handler_eat_food,
      melee_effect_handler_eat_light, melee_effect_handler_acid,
      melee_effect_handler_elec, melee_effect_handler_fire,
      melee_effect_handler_cold, melee_effect_handler_blind,
      melee_effect_handler_confuse, melee_effect_handler_terrify,
      melee_effect_handler_paralyze, melee_effect_handler_lose_str,
      melee_effect_handler_lose_int, melee_effect_handler_lose_wis,
      melee_effect_handler_lose_dex, melee_effect_handler_lose_con,
      melee_effect_handler_lose_all, melee_effect_handler_shatter,
      melee_effect_handler_exp_10, melee_effect_handler_exp_20,
      melee_effect_handler_exp_40, melee_effect_handler_exp_80,
      melee_effect_handler_hallucination;
    repeat (calm_step || (progress eauto with calm));
    try calm_leaf.
  all: apply calm_timed; calm_leaf.
Qed.

Lemma calm_apply_effect rlev total_ac b obvious do_break dam :
  honest_blow b ->
  always (apply_effect i rlev total_ac b obvious false do_break dam) calm.
Proof.
  intros [Hg Hi]. unfold apply_effect.
  destruct (melee_handler_for_blow_effect (effect b)) as [h|] eqn:Eh.
  - eapply handlers_keep_calm; [exact Eh|exact Hg|exact Hi|reflexivity].
  - calm_tac.
Qed.

Lemma calm_land_blow rlev total_ac b do_break :
  honest_blow b ->
  always (land_blow i rlev total_ac b false do_break)
    (fun res => snd (fst res) = false).
Proof.
  intros Hb. unfold land_blow. apply always_bind. intros dam. cbv zeta.
  apply (always_bind_with _ _ calm); [now apply calm_apply_effect|].
  intros c Hc. apply always_bind. intros _. apply always_ret. exact Hc.
Qed.

(** Without a thief's blow, the blow loop ends with [blinked] clear. *)
Lemma calm_blow_loop fuel lidx rlev total_ac : forall ap_cnt,
  upholds Inv bad (blow_loop fuel i lidx rlev total_ac ap_cnt false)
    (fun b => b = false).
Proof.
  induction fuel as [|fuel IH]; intros ap_cnt; cbn [blow_loop].
  - now apply upholds_ret.
  - cbv zeta.
    apply (upholds_bind _ _ (fun m => forall ap, honest_blow (blow_at m ap))).
    { apply upholds_gets. intros gm Hgm. now apply Hhonest. }
    intros m Hm.
    destruct (negb (nz (method (blow_at m ap_cnt)))); [now apply upholds_ret|].
    apply upholds_seq; [upholds_auto|]. intros p.
    destruct (leaving p); [now apply upholds_ret|].
    apply upholds_seq; [upholds_auto|]. intros hit. destruct hit.
    + apply upholds_seq; [upholds_auto|]. intros _.
      apply upholds_seq; [upholds_auto|]. intros repelled. destruct repelled.
      * apply upholds_seq; [upholds_auto|]. intros _. apply IH.
      * apply (upholds_bind _ _ (fun res => snd (fst res) = false)).
        { apply upholds_always; [upholds_auto|]. apply calm_land_blow. apply Hm. }
        intros res Hres. apply upholds_seq; [upholds_auto|]. intros _.
        rewrite Hres. apply IH.
    + apply upholds_seq; [upholds_auto|]. intros m'.
      apply upholds_seq; [upholds_auto|]. intros _.
      apply upholds_seq; [upholds_auto|]. intros _. apply IH.
Qed.

Lemma honest_attack :
  upholds Inv bad (make_attack_normal i) (fun _ => True).
Proof.
  unfold make_attack_normal.
  apply upholds_seq; [upholds_auto|]. intros m. cbv zeta.
  destruct (rf_has m RF_NEVER_BLOW); [upholds_auto|].
  apply upholds_seq; [upholds_auto|]. intros p.
  apply (upholds_bind _ _ (fun b => b = false)); [apply calm_blow_loop|].
  intros b ->. unfold after_blows. cbn [when_]. upholds_auto.
Qed.

End Honest.


(** ** The pass of a monster, given its rounds of the step loop *)

Section Walking.
Variable i : Z.
Hypothesis Hcast : forall e, is_cast e = true -> bad e = false.
Hypothesis Htry :
  forall lidx oy ox ny nx v,
    upholds Inv bad (try_step i lidx oy ox ny nx v) (fun _ => True).

Lemma fine_step_loop fuel lidx oy ox stagger mm : forall k v,
  upholds Inv bad (step_loop fuel i lidx oy ox stagger mm k v) (fun _ => True).
Proof.
  induction fuel as [|fuel IH]; intros k v; cbn [step_loop]; upholds_auto.
Qed.

#[local] Hint Resolve fine_step_loop : upholds.

Lemma fine_process_act lidx oy ox :
  upholds Inv bad (process_act i lidx oy ox) (fun _ => True).
Proof.
  pose proof (fine_make_attack_spell i Hcast).
  unfold process_act. upholds_auto.
Qed.

#[local] Hint Resolve fine_process_act : upholds.

Lemma fine_process_awake lidx :
  upholds Inv bad (process_awake i lidx) (fun _ => True).
Proof. unfold process_awake. upholds_auto. Qed.

#[local] Hint Resolve fine_process_awake : upholds.

Lemma fine_process_monster :
  upholds Inv bad (process_monster i) (fun _ => True).
Proof. unfold process_monster. upholds_auto. Qed.

End Walking.


(** ** A monster that never moves *)

Section Rooted.
Variable i : Z.
Hypothesis Hflag :
  forall gm, Inv gm -> rf_has (mon gm i) RF_NEVER_MOVE = true.
Hypothesis Htele : forall e, is_teleport e = true -> bad e = false.
Hypothesis Hcast : forall e, is_cast e = true -> bad e = false.

Lemma rooted_never_move lidx v :
  upholds Inv bad (step_never_move i lidx v) (fun v' => do_move v' = false).
Proof.
  unfold step_never_move.
  apply (upholds_bind _ _ (fun m => rf_has m RF_NEVER_MOVE = true)).
  { apply upholds_gets. exact Hflag. }
  intros m ->. destruct (do_move v) eqn:Ev; cbn [andb].
  - apply upholds_seq; [upholds_auto|]. intros _. now apply upholds_ret.
  - now apply upholds_ret.
Qed.

Lemma rooted_step_monster lidx ny nx v :
  do_move v = false ->
  upholds Inv bad (step_monster i lidx ny nx v) (fun v' => do_move v' = false).
Proof.
  intros Ev. unfold step_monster. apply upholds_seq; [upholds_auto|].
  intros gm. rewrite Ev. cbn [andb]. now apply upholds_ret.
Qed.

Lemma rooted_step_move lidx oy ox ny nx v :
  do_move v = false ->
  upholds Inv bad (step_move i lidx oy ox ny nx v) (fun _ => True).
Proof. intros Ev. unfold step_move. rewrite Ev. now apply upholds_ret. Qed.

Lemma rooted_try_step lidx oy ox ny nx v :
  upholds Inv bad (try_step i lidx oy ox ny nx v) (fun _ => True).
Proof.
  unfold try_step.
  apply upholds_seq; [upholds_auto|]. intros v1.
  apply upholds_seq; [upholds_auto|]. intros v2.
  apply upholds_seq; [now apply fine_step_player|]. intros v3.
  apply (upholds_bind _ _ (fun v' => do_move v' = false));
    [apply rooted_never_move|].
  intros v4 Ev4.
  apply (upholds_bind _ _ (fun v' => do_move v' = false));
    [now apply rooted_step_monster|].
  intros v5 Ev5. now apply rooted_step_move.
Qed.

Lemma rooted_process_monster :
  upholds Inv bad (process_monster i) (fun _ => True).
Proof. apply fine_process_monster; [exact Hcast|exact rooted_try_step]. Qed.

End Rooted.


(** ** What a monster may cast *)

Section Caster.
Variable i : Z.
Variable r0 : monster_race.
Hypothesis Hrace : forall gm, Inv gm -> race_of (mon gm i) = r0.
Hypothesis Hunset :
  forall f l r s, unset_spells f l r s = true -> f s = true.
Hypothesis Hown :
  forall s seen, spell_flags r0 s = true ->
    bad (ev (do_mon_spell s i seen)) = false.

Lemma flag_off_sub (f : flagset Z) x s : flag_off f x s = true -> f s = true.
Proof. unfold flag_off. destruct (decide (s = x)); [discriminate|auto]. Qed.

Lemma set_spells_sub f types s : set_spells f types s = true -> f s = true.
Proof. unfold set_spells. intros H. now apply andb_prop in H. Qed.

Lemma prune_blocked_sub gm m py0 px0 f s :
  prune_blocked gm m py0 px0 f s = true -> f s = true.
Proof.
  unfold prune_blocked.
  destruct (negb (rf_has m RF_STUPID)); [|auto].
  destruct (test_spells f RST_BOLT && negb (clean_shot gm (fy m) (fx m) py0 px0));
    destruct (negb (summon_possible gm (fy m) (fx m)));
    intros H; repeat (apply set_spells_sub in H); exact H.
Qed.

(** The bad spells are only taken away. *)
Lemma remove_bad_spells_sub j f :
  always (remove_bad_spells j f) (fun f2 => forall s, f2 s = true -> f s = true).
Proof.
  unfold remove_bad_spells. apply always_bind. intros m.
  destruct (rf_has m RF_STUPID); [apply always_ret; auto|]. cbv zeta.
  set (fa := if hp m >=? maxhp m then flag_off f RSF_HEAL else f).
  set (fb := if m_timed m MON_TMD_FAST >? 10 then flag_off fa RSF_HASTE else fa).
  set (fc := if cdis m =? 1 then flag_off fb RSF_TELE_TO else fb).
  assert (Hc : forall s, fc s = true -> f s = true).
  { intros s H. subst fc fb fa.
    destruct (cdis m =? 1); [apply flag_off_sub in H|];
      (destruct (m_timed m MON_TMD_FAST >? 10); [apply flag_off_sub in H|]);
      (destruct (hp m >=? maxhp m); [apply flag_off_sub in H|]); exact H. }
  apply always_bind. intros learn. apply always_bind. intros known.
  set (fd := match snd known with
             | [] => fc
             | _ => unset_spells fc (snd known) (race_of m)
             end).
  assert (Hd' : forall s, fd s = true -> f s = true).
  { intros s H. apply Hc. subst fd. destruct (snd known); [exact H|].
    now apply Hunset in H. }
  apply (always_bind_with _ _ (fun f2 => forall s, f2 s = true -> f s = true)).
  - destruct (fst known); [|now apply always_ret].
    apply always_bind. intros r. apply always_ret. intros s H. apply Hd'.
    destruct (r <? 50 * (if rf_has m RF_SMART then 2 else 1));
      [now apply flag_off_sub in H|exact H].
  - intros f2 H2. now apply always_ret.
Qed.

(** The spell chosen is one of the set, or none. *)
Lemma choose_attack_spell_member f :
  always (choose_attack_spell f) (fun s => s = 0 \/ f s = true).
Proof.
  unfold choose_attack_spell. cbv zeta.
  destruct (Z.of_nat (length (List.filter (fun s => f s) all_spells)) =? 0);
    [apply always_ret; now left|].
  apply always_bind. intros r. apply always_ret.
  destruct (nth_in_or_default (Z.to_nat r)
              (List.filter (fun s => f s) all_spells) 0) as [Hin|Hdef];
    [|now left].
  right. apply List.filter_In in Hin. exact (proj2 Hin).
Qed.

Lemma caster_pick_spell :
  upholds Inv bad (pick_spell i)
    (fun r => forall s, r = Some s -> spell_flags r0 s = true).
Proof.
  assert (Hnone : upholds Inv bad (ret (@None Z))
                    (fun r => forall s, r = Some s -> spell_flags r0 s = true))
    by (apply upholds_ret; intros s H; discriminate H).
  unfold pick_spell.
  apply upholds_seq; [upholds_auto|]. intros m.
  apply upholds_seq; [upholds_auto|]. intros p. cbv zeta.
  destruct (leaving p); [exact Hnone|].
  destruct (nz (m_timed m MON_TMD_CONF)); [exact Hnone|].
  destruct (mflag_nice m); [exact Hnone|].
  destruct (Z.quot (freq_innate (race_of m) + freq_spell (race_of m)) 2 =? 0);
    [exact Hnone|].
  apply upholds_seq; [upholds_auto|]. intros r.
  destruct (r >=? Z.quot (freq_innate (race_of m) + freq_spell (race_of m)) 2);
    [exact Hnone|].
  apply (upholds_bind _ _ (fun m' => race_of m' = r0)).
  { apply upholds_gets. exact Hrace. }
  intros m' Hm'. destruct (cdis m' >? MAX_RANGE); [exact Hnone|].
  apply upholds_seq; [upholds_auto|]. intros clear.
  destruct (negb clear); [exact Hnone|]. rewrite Hm'.
  apply (upholds_bind _ _ (fun f => forall s, f s = true -> spell_flags r0 s = true)).
  { destruct (rf_has m' RF_SMART && (hp m' <? Z.quot (maxhp m') 10));
      [|now apply upholds_ret].
    apply upholds_seq; [upholds_auto|]. intros r'. apply upholds_ret.
    intros s H. destruct (r' <? 50); [now apply set_spells_sub in H|exact H]. }
  intros f1 Hf1.
  apply (upholds_bind _ _ (fun f => forall s, f s = true -> spell_flags r0 s = true)).
  { apply upholds_always; [apply fine_remove_bad_spells|].
    intros w1. intros s H. apply Hf1. revert s H. apply remove_bad_spells_sub. }
  intros f2 Hf2.
  apply upholds_seq; [upholds_auto|]. intros gm.
  destruct (rsf_is_empty (prune_blocked gm (mon gm i) (py p) (px p) f2));
    [exact Hnone|].
  apply (upholds_bind _ _
           (fun s => s = 0
                     \/ prune_blocked gm (mon gm i) (py p) (px p) f2 s = true)).
  { apply upholds_always; [apply fine_choose_attack_spell|].
    apply choose_attack_spell_member. }
  intros s Hs. destruct (Z.eqb_spec s 0) as [Hz|Hnz]; [exact Hnone|].
  apply upholds_ret. intros s' H. injection H as <-.
  destruct Hs as [Hs|Hs]; [contradiction|].
  apply Hf2. now apply prune_blocked_sub in Hs.
Qed.

(** Whatever [make_attack_spell] casts is a spell of the race, cast for
    the monster itself. *)
Lemma caster_make_attack_spell :
  upholds Inv bad (make_attack_spell i) (fun _ => True).
Proof.
  unfold make_attack_spell.
  apply upholds_seq; [upholds_auto|]. intros m.
  apply upholds_seq; [upholds_auto|]. intros p. cbv zeta.
  apply (upholds_bind _ _ (fun r => forall s, r = Some s -> spell_flags r0 s = true));
    [apply caster_pick_spell|].
  intros [s|] Hs; [|now apply upholds_ret].
  apply fine_cast_spell_or_fail. intros seen'. apply Hown. now apply Hs.
Qed.

End Caster.

End SoundFacts.

Section FlagFacts.
Context {K : Constants} {Hd : Hidden} {Sv : Services}.

Lemma upholds_new_calls (Inv : game -> Prop) bad {A} (c : M A) Q w :
  upholds Inv bad c Q -> Inv (g w) ->
  Inv (g (snd (c w))) /\ Q (fst (c w))
  /\ Forall (fun e => bad e = false) (new_calls c w).
Proof.
  intros Hc Hw. destruct (Hc w Hw) as (Hi & Hq & l & Ht & Hl).
  split; [exact Hi|]. split; [exact Hq|].
  rewrite (new_calls_from c w l Ht). apply Forall_map. exact Hl.
Qed.

Lemma same_races_flag gm gm' i f :
  same_races gm gm' -> rf_has (mon gm' i) f = rf_has (mon gm i) f.
Proof. intros H. unfold rf_has, race_of. now rewrite (H i). Qed.

Lemma same_races_blow gm gm' i ap :
  same_races gm gm' -> blow_at (mon gm' i) ap = blow_at (mon gm i) ap.
Proof. intros H. unfold blow_at, race_of. now rewrite (H i). Qed.

(** X12: a monster of a race that never moves takes no step: as long as
    the services other than [monster_swap] and [delete_monster] leave
    its race flag alone, a pass of [process_monster] calls neither of
    them, so the monster neither steps to another grid, nor pushes past
    or tramples another one, and the flag still holds afterwards.
    Nothing is said of [teleport_away] (the blink after a theft) and of
    [do_mon_spell], which the pass may still call. *)
Theorem never_move_takes_no_step (i : Z) (w : world) :
  let rooted gm := rf_has (mon gm i) RF_NEVER_MOVE = true in
  let moves e := is_swap e || is_delete e in
  services_keep_unless moves rooted ->
  rooted (g w) ->
  Forall (fun e => is_swap e = false /\ is_delete e = false)
    (new_calls (process_monster i) w)
  /\ rooted (g (snd (process_monster i w))).
Proof.
  cbv zeta. intros Hserv Hw.
  destruct (upholds_new_calls _ _ (process_monster i) _ w
              (rooted_process_monster
                 (fun gm => rf_has (mon gm i) RF_NEVER_MOVE = true)
                 (fun e => is_swap e || is_delete e) Hserv
                 (fun gm gm' Hr Hgm =>
                    eq_trans (same_races_flag gm gm' i RF_NEVER_MOVE Hr) Hgm)
                 (fun e He =>
                    match orb_prop _ _ He with
                    | or_introl H => or_introl H
                    | or_intror H => or_intror (or_intror (or_introl H))
                    end)
                 i (fun gm Hgm => Hgm)
                 (fun e He => ltac:(destruct e as [R []]; first [discriminate He | reflexivity]))
                 (fun e He => ltac:(destruct e as [R []]; first [discriminate He | reflexivity])))
              Hw) as (Hi & _ & Hcalls).
  split; [|exact Hi].
  eapply Forall_impl; [exact Hcalls|]. cbn beta.
  intros e He. apply orb_false_elim in He. exact He.
Qed.

(** X13: only a thief blinks away.  For a monster none of whose blows is
    EAT_GOLD or EAT_ITEM, as long as the services other than
    [teleport_away] and [delete_monster] leave the blows of its race
    alone, [make_attack_normal] calls neither of them: after its blows
    the monster is still next to the player. *)
Theorem only_thieves_blink (i : Z) (w : world) :
  let honest gm := forall ap, honest_blow (blow_at (mon gm i) ap) in
  let leaves e := is_teleport e || is_delete e in
  services_keep_unless leaves honest ->
  honest (g w) ->
  Forall (fun e => is_teleport e = false /\ is_delete e = false)
    (new_calls (make_attack_normal i) w)
  /\ honest (g (snd (make_attack_normal i w))).
Proof.
  cbv zeta. intros Hserv Hw.
  destruct (upholds_new_calls _ _ (make_attack_normal i) _ w
              (honest_attack
                 (fun gm => forall ap, honest_blow (blow_at (mon gm i) ap))
                 (fun e => is_teleport e || is_delete e) Hserv
                 (fun gm gm' Hr Hgm ap =>
                    eq_ind_r honest_blow (Hgm ap)
                      (same_races_blow gm gm' i ap Hr))
                 (fun e He =>
                    match orb_prop _ _ He with
                    | or_introl H => or_intror (or_introl H)
                    | or_intror H => or_intror (or_intror (or_introl H))
                    end)
                 i (fun gm Hgm => Hgm))
              Hw) as (Hi & _ & Hcalls).
  split; [|exact Hi].
  eapply Forall_impl; [exact Hcalls|]. cbn beta.
  intros e He. apply orb_false_elim in He. exact He.
Qed.

(** X14: a monster casts only the spells of its race.  As long as the
    services other than [delete_monster] leave the race of the monster
    alone and [unset_spells] only takes spells away, every
    [do_mon_spell] that [make_attack_spell] calls is for a spell of the
    race's list and for the monster itself, and [delete_monster] is not
    called. *)
Theorem casts_only_own_spells (i : Z) (r0 : monster_race) (w : world) :
  let own gm := race_of (mon gm i) = r0 in
  let stray e := foreign_cast r0 i e || is_delete e in
  (forall f l r s, unset_spells f l r s = true -> f s = true) ->
  services_keep_unless stray own ->
  own (g w) ->
  Forall (fun e => foreign_cast r0 i e = false /\ is_delete e = false)
    (new_calls (make_attack_spell i) w)
  /\ own (g (snd (make_attack_spell i w))).
Proof.
  cbv zeta. intros Hunset Hserv Hw.
  assert (Hup : upholds (fun gm => race_of (mon gm i) = r0)
                  (fun e => foreign_cast r0 i e || is_delete e)
                  (make_attack_spell i) (fun _ => True)).
  { apply (caster_make_attack_spell _ _ Hserv) with (r0 := r0).
    - intros gm gm' Hr Hgm. unfold race_of. rewrite (Hr i). exact Hgm.
    - intros e He. right. right.
      destruct e as [R []]; first [discriminate He | now left | now right].
    - intros gm Hgm. exact Hgm.
    - exact Hunset.
    - intros s seen Hs. cbn. rewrite Hs, Z.eqb_refl. reflexivity. }
  destruct (upholds_new_calls _ _ _ _ w Hup Hw) as (Hi & _ & Hcalls).
  split; [|exact Hi].
  eapply Forall_impl; [exact Hcalls|]. cbn beta.
  intros e He. apply orb_false_elim in He. exact He.
Qed.

End FlagFacts.

Section ArmourFacts.
Context {K : Constants} {Hd : Hidden} {Sv : Services}.

(** X15: armour never turns a blow into more than it was, never absorbs more
    than three fifths of it, and more armour never means more damage;
    armour beyond 240 adds nothing. *)
Theorem adjust_dam_armor_bounds (dam a1 a2 : Z) :
  0 <= dam -> 0 <= a1 <= a2 ->
  adjust_dam_armor dam a2 <= adjust_dam_armor dam a1 <= dam
  /\ 2 * dam <= 5 * adjust_dam_armor dam a2
  /\ (240 <= a1 -> adjust_dam_armor dam a2 = adjust_dam_armor dam a1).
Proof.
  intros Hdam Ha. unfold adjust_dam_armor.
  set (m1 := if a1 <? 240 then a1 else 240).
  set (m2 := if a2 <? 240 then a2 else 240).
  assert (Hm : 0 <= m1 <= m2 /\ m2 <= 240).
  { subst m1 m2. destruct (Z.ltb_spec a1 240), (Z.ltb_spec a2 240); lia. }
  rewrite !Z.quot_div_nonneg by nia.
  assert (H1 : 0 <= dam * m1 / 400) by (apply Z.div_pos; nia).
  assert (H2 : dam * m1 / 400 <= dam * m2 / 400)
    by (apply Z.div_le_mono; nia).
  assert (H3 : 400 * (dam * m2 / 400) <= dam * m2)
    by (apply Z.mul_div_le; lia).
  split; [lia|]. split; [nia|].
  intros Hbig. subst m1 m2.
  destruct (Z.ltb_spec a1 240), (Z.ltb_spec a2 240);
    first [reflexivity | lia].
Qed.

End ArmourFacts.

Section WallFacts.
Context {K : Constants} {Hd : Hidden} {Sv : Services}.

(** X16: permanent rock stops every monster.  In a round of the step loop
    whose candidate grid is an impassable permanent wall, no flag of the
    race matters: the locals stay as they are, nothing is called and the
    state does not change. *)
Theorem try_step_permanent_wall i lidx oy ox ny nx v w :
  square_ispassable (g w) ny nx = false ->
  square_iswall (g w) ny nx = true ->
  square_isperm (g w) ny nx = true ->
  do_move v = false ->
  try_step i lidx oy ox ny nx v w = (v, w).
Proof.
  intros Hpass Hwall Hperm Ev. unfold try_step.
  assert (H1 : step_terrain i lidx ny nx v w = (v, w)).
  { unfold step_terrain. rewrite bind_run. cbn [gets fst snd].
    rewrite Hpass, Hwall, Hperm. reflexivity. }
  rewrite bind_run, H1. cbn [fst snd].
  assert (H2 : step_glyph i ny nx v w = (v, w)).
  { unfold step_glyph. rewrite bind_run. cbn [gets fst snd].
    rewrite Ev. reflexivity. }
  rewrite bind_run, H2. cbn [fst snd].
  assert (H3 : step_player i lidx ny nx v w = (v, w)).
  { unfold step_player. rewrite bind_run. cbn [gets fst snd].
    rewrite Ev. reflexivity. }
  rewrite bind_run, H3. cbn [fst snd].
  assert (H4 : step_never_move i lidx v w = (v, w)).
  { unfold step_never_move. rewrite bind_run. cbn [gets fst snd].
    rewrite Ev. reflexivity. }
  rewrite bind_run, H4. cbn [fst snd].
  assert (H5 : step_monster i lidx ny nx v w = (v, w)).
  { unfold step_monster. rewrite bind_run. cbn [gets fst snd].
    rewrite Ev. reflexivity. }
  rewrite bind_run, H5. cbn [fst snd].
  unfold step_move. rewrite Ev. reflexivity.
Qed.

End WallFacts.

Section LightFacts.
Context {K : Constants} {Hd : Hidden} {Sv : Services}.

(** X17: the light that is eaten never goes out: as long as the services
    leave a burning light burning, so does the EAT_LIGHT handler, which
    drains the fuel down to one turn at the lowest. *)
Theorem eat_light_never_dark (c : melee_ctx) (w : world) :
  let lit gm := 0 < timeout (inven (p_ptr gm) INVEN_LIGHT) in
  services_keep lit ->
  lit (g w) ->
  lit (g (snd (melee_effect_handler_eat_light c w))).
Proof.
  cbv zeta. intros Hk Hw. unfold melee_effect_handler_eat_light.
  rewrite bind_run.
  pose proof (keep_invoke _ _ (take_hit (ctx_damage c)) w Hk Hw) as Hw1.
  set (w1 := snd (invoke (take_hit (ctx_damage c)) w)) in *.
  rewrite bind_run. cbn [gets fst snd].
  destruct (negb (object_no_fuel (inven (p_ptr (g w1)) INVEN_LIGHT))
            && (timeout (inven (p_ptr (g w1)) INVEN_LIGHT) >? 0));
    [|exact Hw1].
  rewrite bind_run.
  pose proof (keep_invoke _ _ (Rand_div 250) w1 Hk Hw1) as Hw2.
  unfold randint1. rewrite (bind_run (invoke (Rand_div 250))).
  set (w2 := snd (invoke (Rand_div 250) w1)) in *.
  cbn [ret fst snd]. rewrite bind_run.
  set (r := fst (invoke (Rand_div 250) w1) + 1).
  set (w3 := snd (modify (upd_inven INVEN_LIGHT
                  (fun o => let t := timeout o - (250 + r) in
                            set_timeout (if t <? 1 then 1 else t) o)) w2)).
  assert (Hw3 : 0 < timeout (inven (p_ptr (g w3)) INVEN_LIGHT)).
  { subst w3. cbn. unfold inven in *. cbn. rewrite list_lookup_alter.
    destruct (decide (Z.to_nat INVEN_LIGHT = Z.to_nat INVEN_LIGHT));
      [|contradiction].
    destruct (inventory (p_ptr (g w2)) !! Z.to_nat INVEN_LIGHT) as [o|];
      cbn in *; [|lia].
    destruct (Z.ltb_spec (timeout o - (250 + r)) 1); lia. }
  rewrite bind_run. cbn [gets fst snd]. fold w3. rewrite bind_run.
  assert (Hbit : forall w', 0 < timeout (inven (p_ptr (g w')) INVEN_LIGHT) ->
            0 < timeout (inven (p_ptr (g (snd (modify (upd_player (pbit_on PR_EQUIP)) w'))))
                  INVEN_LIGHT)) by (intros w' H; exact H).
  destruct (negb (nz (timed (p_ptr (g w3)) TMD_BLIND))).
  - rewrite bind_run. cbn [ret fst snd]. rewrite bind_run. cbn [ret fst snd].
    apply Hbit. now apply keep_invoke.
  - cbn [ret fst snd]. rewrite bind_run. cbn [ret fst snd]. now apply Hbit.
Qed.

End LightFacts.

Section OneStep.
Context {K : Constants} {Hd : Hidden} {Sv : Services}.

Ltac side :=
  first
    [ intros ? ? ? ? ?; exact Logic.I
    | intros ? ? ? ?; exact Logic.I
    | intros e He; left; exact He
    | intros e He; destruct e as [R []]; first [discriminate He | reflexivity] ].

Lemma swaps_app l1 l2 : swaps (l1 ++ l2) = (swaps l1 + swaps l2)%nat.
Proof. unfold swaps. now rewrite List.filter_app, length_app. Qed.

Lemma swaps_quiet (l : list entry) :
  Forall (fun e => is_swap (what e) = false) l -> swaps (map what l) = 0%nat.
Proof.
  unfold swaps. induction 1 as [|e l He _ IH]; [reflexivity|].
  cbn. rewrite He. exact IH.
Qed.

Lemma quiet_once {A} (c : M A) (Q : A -> Prop) :
  upholds (fun _ => True) is_swap c (fun _ => True) -> once c Q.
Proof.
  intros Hc w. destruct (Hc w Logic.I) as (_ & _ & l & Ht & Hl).
  exists l. split; [exact Ht|]. left. now apply swaps_quiet.
Qed.

Lemma once_after_quiet {A B} (c : M A) (k : A -> M B) (Q : B -> Prop) :
  upholds (fun _ => True) is_swap c (fun _ => True) ->
  (forall a, once (k a) Q) -> once (bind c k) Q.
Proof.
  intros Hc Hk w. rewrite bind_run.
  destruct (Hc w Logic.I) as (_ & _ & l1 & Ht1 & Hl1).
  destruct (Hk (fst (c w)) (snd (c w))) as (l2 & Ht2 & Hl2).
  exists (l1 ++ l2). split; [rewrite Ht2, Ht1, app_assoc; reflexivity|].
  rewrite map_app, swaps_app, (swaps_quiet l1 Hl1). exact Hl2.
Qed.

Lemma once_before_quiet {A B} (c : M A) (k : A -> M B) :
  once c (fun _ => True) ->
  (forall a, upholds (fun _ => True) is_swap (k a) (fun _ => True)) ->
  once (bind c k) (fun _ => True).
Proof.
  intros Hc Hk w. rewrite bind_run.
  destruct (Hc w) as (l1 & Ht1 & Hl1).
  destruct (Hk (fst (c w)) (snd (c w)) Logic.I) as (_ & _ & l2 & Ht2 & Hl2).
  exists (l1 ++ l2). split; [rewrite Ht2, Ht1, app_assoc; reflexivity|].
  rewrite map_app, swaps_app, (swaps_quiet l2 Hl2), Nat.add_0_r.
  destruct Hl1 as [H|[H _]]; [now left|right; now split].
Qed.

Lemma once_weaken {A} (c : M A) (Q : A -> Prop) :
  once c Q -> once c (fun _ => True).
Proof.
  intros Hc w. destruct (Hc w) as (l & Ht & Hl). exists l.
  split; [exact Ht|]. destruct Hl as [H|[H _]]; [now left|right; now split].
Qed.

(** The step that moves the monster uses the turn. *)
Lemma once_step_move i lidx oy ox ny nx v :
  once (step_move i lidx oy ox ny nx v) (fun v' => do_turn v' = true).
Proof.
  unfold step_move. destruct (do_move v).
  - intros w. rewrite bind_run.
    assert (H1 : upholds (fun _ => True) is_swap
                   (learn_flag i lidx RF_NEVER_MOVE) (fun _ => True))
      by (apply fine_learn_flag; side).
    destruct (H1 w Logic.I) as (_ & _ & l1 & Ht1 & Hl1).
    set (w1 := snd (learn_flag i lidx RF_NEVER_MOVE w)) in *.
    cbv zeta. rewrite bind_run.
    set (w2 := snd (invoke (monster_swap oy ox ny nx) w1)).
    assert (H3 : upholds (fun _ => True) is_swap
                   (gm <- gets (fun gm => gm) ;;
                    when_ (ml (mon gm i) && mflag_view (mon gm i)
                           && disturb_near (opt gm))
                      (invoke (disturb 0)) ;;
                    gm <- gets (fun gm => gm) ;;
                    step_objects i lidx ny nx (floor_objects gm ny nx) ;;
                    ret (set_do_turn true v))
                   (fun v' => do_turn v' = true))
      by (apply fine_after_swap; side).
    destruct (H3 w2 Logic.I) as (_ & Hq & l3 & Ht3 & Hl3).
    exists (l1 ++ [ {| at_state := g w1; what := ev (monster_swap oy ox ny nx) |} ]
            ++ l3).
    split.
    + rewrite Ht3. subst w2. rewrite tr_invoke, Ht1, <- !app_assoc. reflexivity.
    + right. split; [|exact Hq].
      rewrite !map_app, !swaps_app, (swaps_quiet l1 Hl1), (swaps_quiet l3 Hl3).
      reflexivity.
  - apply quiet_once. now apply upholds_ret.
Qed.

Lemma once_try_step i lidx oy ox ny nx v :
  once (try_step i lidx oy ox ny nx v) (fun v' => do_turn v' = true).
Proof.
  unfold try_step.
  apply once_after_quiet; [apply fine_step_terrain; side|]. intros v1.
  apply once_after_quiet; [apply fine_step_glyph; side|]. intros v2.
  apply once_after_quiet; [apply fine_step_player; side|]. intros v3.
  apply once_after_quiet; [apply fine_step_never_move; side|]. intros v4.
  apply once_after_quiet; [apply fine_step_monster; side|]. intros v5.
  apply once_step_move.
Qed.

Lemma once_step_loop fuel i lidx oy ox stagger mm : forall k v,
  once (step_loop fuel i lidx oy ox stagger mm k v) (fun _ => True).
Proof.
  induction fuel as [|fuel IH]; intros k v; cbn [step_loop].
  - apply quiet_once. now apply upholds_ret.
  - apply once_after_quiet; [apply fine_direction; side|]. intros d. cbv zeta.
    intros w. rewrite bind_run.
    destruct (once_try_step i lidx oy ox (oy + ddy d) (ox + ddx d) v w)
      as (l1 & Ht1 & Hl1).
    set (r := try_step i lidx oy ox (oy + ddy d) (ox + ddx d) v w) in *.
    destruct (do_turn (fst r)) eqn:Et.
    + exists l1. split; [exact Ht1|].
      destruct Hl1 as [H|[H _]]; [now left|right; now split].
    + destruct Hl1 as [H0|[_ Hq]]; [|congruence].
      destruct (IH (k + 1) (fst r) (snd r)) as (l2 & Ht2 & Hl2).
      exists (l1 ++ l2). split; [rewrite Ht2, Ht1, app_assoc; reflexivity|].
      rewrite map_app, swaps_app, H0. exact Hl2.
Qed.

Lemma once_process_act i lidx oy ox :
  once (process_act i lidx oy ox) (fun _ => True).
Proof.
  unfold process_act.
  apply once_after_quiet; [apply upholds_gets; intros; exact Logic.I|].
  intros gm. destruct (is_mimicking gm i);
    [apply quiet_once; now apply upholds_ret|].
  apply once_after_quiet; [apply fine_make_attack_spell; side|]. intros cast.
  destruct cast; [apply quiet_once; now apply upholds_ret|].
  apply once_after_quiet; [apply fine_choose_stagger; side|]. intros stagger.
  apply once_after_quiet; [apply fine_moves_or_stagger; side|]. intros moves.
  destruct moves as [mm|]; [|apply quiet_once; now apply upholds_ret].
  cbv zeta. apply once_before_quiet; [apply once_step_loop|].
  intros v. apply fine_after_steps; side.
Qed.

(** X18: a monster takes at most one step in a pass: [process_monster] calls
    [monster_swap] at most once. *)
Theorem one_step_per_pass (i : Z) (w : world) :
  (swaps (new_calls (process_monster i) w) <= 1)%nat.
Proof.
  assert (Honce : once (process_monster i) (fun _ => True)).
  { unfold process_monster.
    apply once_after_quiet; [apply upholds_gets; intros; exact Logic.I|].
    intros m. cbv zeta.
    apply once_after_quiet; [apply fine_process_sleep; side|]. intros asleep.
    destruct asleep; [apply quiet_once; now apply upholds_ret|].
    apply once_after_quiet; [apply fine_process_timers; side|]. intros stunned.
    destruct stunned; [apply quiet_once; now apply upholds_ret|].
    unfold process_awake.
    apply once_after_quiet; [apply upholds_gets; intros; exact Logic.I|].
    intros m'. cbv zeta.
    apply once_after_quiet; [apply fine_process_multiply; side|]. intros bred.
    destruct bred; [apply quiet_once; now apply upholds_ret|].
    apply once_process_act. }
  destruct (Honce w) as (l & Ht & Hl).
  rewrite (new_calls_from _ w l Ht).
  destruct Hl as [H|[H _]]; rewrite H; lia.
Qed.

End OneStep.

Section OddsFacts.
Context {K : Constants} {Hd : Hidden} {Sv : Services}.

Lemma stagger_count (b1 b2 : bool) :
  favourable 100
    (fun roll => if roll <? 25 then b1 || b2
                 else if roll <? 50 then b2
                 else if roll <? 75 then b1 && b2
                 else false)
  = (if b1 then 25 else 0) + (if b2 then 50 else 0).
Proof. destruct b1, b2; vm_compute; reflexivity. Qed.

(** X19: how often a monster staggers.  A confused monster always does; any
    other one does on the draws that [staggers] tells, which are 25 of
    the 100 for RAND_25, 50 for RAND_50 and 75 for both. *)
Theorem choose_stagger_odds (i lidx : Z) (w : world) :
  let r := fst (ext Z (Rand_div 100) (g w)) in
  let m1 := mon (snd (ext Z (Rand_div 100) (g w))) i in
  fst (choose_stagger i lidx w)
  = (if nz (m_timed (mon (g w) i) MON_TMD_CONF) then true else staggers m1 r)
  /\ forall m,
       favourable 100 (staggers m)
       = (if rf_has m RF_RAND_25 then 25 else 0)
         + (if rf_has m RF_RAND_50 then 50 else 0).
Proof.
  cbv zeta. split.
  - unfold choose_stagger. rewrite bind_run. cbn [gets fst snd].
    destruct (nz (m_timed (mon (g w) i) MON_TMD_CONF)); [reflexivity|].
    rewrite bind_run. unfold randint0. rewrite fst_invoke.
    set (w1 := snd (invoke (Rand_div 100) w)).
    rewrite bind_run. cbn [gets fst snd].
    assert (Hg : g w1 = snd (ext Z (Rand_div 100) (g w)))
      by (subst w1; apply g_invoke).
    rewrite <- Hg. unfold staggers.
    destruct (fst (ext Z (Rand_div 100) (g w)) <? 25);
      [rewrite bind_run; reflexivity|].
    destruct (fst (ext Z (Rand_div 100) (g w)) <? 50);
      [rewrite bind_run; reflexivity|].
    destruct (fst (ext Z (Rand_div 100) (g w)) <? 75); reflexivity.
  - intros m. unfold staggers.
    apply (stagger_count (rf_has m RF_RAND_25) (rf_has m RF_RAND_50)).
Qed.

End OddsFacts.

Section StealthFacts.
Context {K : Constants} {Hd : Hidden} {Sv : Services}.

Lemma notices_below n k r :
  0 <= k <= 1023 -> k ^ 3 <= n -> (k < 1023 -> n < (k + 1) ^ 3) ->
  0 <= r < 1024 -> notices n r = (r <? k + 1).
Proof.
  intros Hk Hlo Hhi Hr. unfold notices.
  assert (H2 : 0 <= r * r < 2 ^ 20) by nia.
  assert (H3 : 0 <= r * r * r < 2 ^ 30) by nia.
  rewrite (u32b_small r) by lia.
  rewrite (u32b_small (r * r)) by lia.
  rewrite (u32b_small (r * r * r)) by lia.
  destruct (Z.leb_spec (r * r * r) n) as [Hle|Hgt];
    destruct (Z.ltb_spec r (k + 1)) as [Hlt|Hge]; try reflexivity.
  - (* r > k but r^3 <= n *)
    exfalso. assert (Hk' : k < 1023) by lia. specialize (Hhi Hk').
    assert ((k + 1) ^ 3 <= r * r * r); [|lia].
    replace ((k + 1) ^ 3) with ((k + 1) * (k + 1) * (k + 1)) by ring.
    assert ((k + 1) * (k + 1) <= r * r) by nia. nia.
  - (* r <= k but r^3 > n *)
    exfalso. assert (r * r * r <= k ^ 3); [|lia].
    replace (k ^ 3) with (k * k * k) by ring.
    assert (r * r <= k * k) by nia. nia.
Qed.


(** X20: how a sleeper notices the player.  A sleeping monster, the player
    not aggravating, lets its SLEEP timer be lowered or cleared exactly
    on the draws of [randint0(1024)] whose cube does not exceed the
    player's noise, and does nothing else on the other draws; for a
    noise of at least [k^3] and below [(k+1)^3] these are [k + 1] of the
    1024 draws. *)
Theorem process_sleep_stealth (i lidx : Z) (w : world) :
  let w1 := snd (invoke (check_state OF_AGGRAVATE) w) in
  let r := fst (invoke (Rand_div 1024) w1) in
  let w2 := snd (invoke (Rand_div 1024) w1) in
  let m2 := mon (g w2) i in
  let d := if cdis m2 <? 50 then Z.quot 100 (cdis m2) else 1 in
  (nz (m_timed (mon (g w) i) MON_TMD_SLEEP) = true ->
   fst (invoke (check_state OF_AGGRAVATE) w) = false ->
   if notices (noise (p_ptr (g w2))) r then
     exists rest,
       new_calls (process_sleep i lidx) w
       = ev (check_state OF_AGGRAVATE) :: ev (Rand_div 1024)
         :: (if m_timed m2 MON_TMD_SLEEP >? d
             then ev (mon_dec_timed i MON_TMD_SLEEP d MON_TMD_FLG_NOMESSAGE)
             else ev (mon_clear_timed i MON_TMD_SLEEP MON_TMD_FLG_NOMESSAGE))
         :: rest
   else
     process_sleep i lidx w = (nz (m_timed m2 MON_TMD_SLEEP), w2))
  /\ (forall n k,
        0 <= k <= 1023 -> k ^ 3 <= n -> (k < 1023 -> n < (k + 1) ^ 3) ->
        favourable 1024 (notices n) = k + 1).
Proof.
  cbv zeta. split.
  - intros Hsleep Hcalm.
    destruct (notices _ _) eqn:Hn.
    + revert Hcalm Hn.
      unfold new_calls, process_sleep, redraw_health, randint0, notices,
        when_, bind, gets, ret, modify.
      cbn [fst snd]. rewrite Hsleep.
      pose proof (tr_invoke _ (check_state OF_AGGRAVATE) w) as T1.
      destruct (invoke (check_state OF_AGGRAVATE) w) as [a w1] eqn:E1.
      clear E1. cbn [fst snd] in *. intros ->.
      pose proof (tr_invoke _ (Rand_div 1024) w1) as T2.
      destruct (invoke (Rand_div 1024) w1) as [r w2] eqn:E2.
      clear E2. cbn [fst snd] in *. intros Hn. rewrite Hn.
      repeat match goal with
             | |- context [invoke ?c ?w0] =>
                 let T := fresh "T" in
                 let E := fresh "E" in
                 pose proof (tr_invoke _ c w0) as T;
                 destruct (invoke c w0) as [? ?] eqn:E; clear E; cbn [fst snd g tr] in *
             | |- context [if ?b then _ else _] =>
                 destruct b; cbn [fst snd g tr] in *
             end;
        repeat match goal with T : tr _ = _ |- _ => rewrite T; clear T end.
      all: repeat rewrite <- app_assoc.
      all: rewrite drop_app_length; cbn [app map what]; eexists; reflexivity.
    + revert Hn. unfold process_sleep. rewrite bind_run. cbn [gets fst snd].
      rewrite Hsleep. rewrite bind_run. rewrite Hcalm.
      set (w1 := snd (invoke (check_state OF_AGGRAVATE) w)).
      rewrite bind_run. unfold randint0.
      set (r := fst (invoke (Rand_div 1024) w1)).
      set (w2 := snd (invoke (Rand_div 1024) w1)).
      cbv zeta. rewrite bind_run. cbn [gets fst snd]. rewrite bind_run.
      fold (notices (noise (p_ptr (g w2))) r). intros ->.
      cbn [ret fst snd]. rewrite bind_run. cbn [gets fst snd].
      destruct (nz (m_timed (mon (g w2) i) MON_TMD_SLEEP)); reflexivity.
  - intros n k Hk Hlo Hhi.
    rewrite (favourable_ext 1024 _ (fun r => r <? k + 1)).
    + rewrite favourable_below; lia.
    + intros r Hr. now apply notices_below.
Qed.

End StealthFacts.

Section BlowFacts.
Context {K : Constants} {Hd : Hidden} {Sv : Services}.

(** X21: a blow below 95% of its best never cuts nor stuns: whatever the
    method, [player_inc_timed] is not called; the only call left is the
    draw that chooses between cut and stun when the method does both. *)
Theorem cut_and_stun_needs_critical (b : monster_blow) (dam : Z) (w : world) :
  dam < Z.quot (d_dice b * d_side b * 19) 20 ->
  new_calls (cut_and_stun b dam) w
  = if monster_blow_method_cut (method b) && monster_blow_method_stun (method b)
    then [ev (Rand_div 100)] else [].
Proof.
  intros Hweak.
  assert (Hcrit : forall w', monster_critical (d_dice b) (d_side b) dam w' = (0, w')).
  { intros w'. unfold monster_critical. cbv zeta.
    destruct (Z.ltb_spec dam (Z.quot (d_dice b * d_side b * 19) 20));
      [reflexivity|lia]. }
  assert (Hcut : forall w',
            (tmp <- monster_critical (d_dice b) (d_side b) dam ;;
             k <- cut_amount tmp ;;
             when_ (nz k)
               (_ <- invoke (player_inc_timed TMD_CUT k true true) ;; ret tt)) w'
            = (tt, w')).
  { intros w'. rewrite bind_run, Hcrit. reflexivity. }
  assert (Hstun : forall w',
            (tmp <- monster_critical (d_dice b) (d_side b) dam ;;
             k <- stun_amount tmp ;;
             when_ (nz k)
               (_ <- invoke (player_inc_timed TMD_STUN k true true) ;; ret tt)) w'
            = (tt, w')).
  { intros w'. rewrite bind_run, Hcrit. reflexivity. }
  assert (Hc : forall (c : bool) w',
            when_ c
              (tmp <- monster_critical (d_dice b) (d_side b) dam ;;
               k <- cut_amount tmp ;;
               when_ (nz k)
                 (_ <- invoke (player_inc_timed TMD_CUT k true true) ;; ret tt)) w'
            = (tt, w'))
    by (intros [] w'; [apply Hcut|reflexivity]).
  assert (Hs : forall (c : bool) w',
            when_ c
              (tmp <- monster_critical (d_dice b) (d_side b) dam ;;
               k <- stun_amount tmp ;;
               when_ (nz k)
                 (_ <- invoke (player_inc_timed TMD_STUN k true true) ;; ret tt)) w'
            = (tt, w'))
    by (intros [] w'; [apply Hstun|reflexivity]).
  unfold new_calls, cut_and_stun. cbv zeta. rewrite bind_run.
  rewrite bind_run, Hc. cbn [fst snd]. rewrite Hs. cbn [snd].
  destruct (monster_blow_method_cut (method b) && monster_blow_method_stun (method b)).
  - unfold randint0. rewrite bind_run. cbn [ret fst snd].
    rewrite tr_invoke, drop_app_length. reflexivity.
  - cbn [ret snd]. rewrite drop_all. reflexivity.
Qed.

End BlowFacts.

Section DoorFacts.
Context {K : Constants} {Hd : Hidden} {Sv : Services}.

(** X22: a closed door costs the turn, and a locked one holds.  Whatever the
    monster, the door step sets [do_turn].  It opens or smashes the door
    only in a state in which the door is not locked; any other change of
    the feature lowers it by one (the lock loses one point of power). *)
Theorem step_door_respects_locks (i lidx ny nx : Z) (v : step_vars) (w : world) :
  do_turn (fst (step_door i lidx ny nx v w)) = true
  /\ exists l,
       tr (snd (step_door i lidx ny nx v w)) = tr w ++ l
       /\ Forall (door_ok ny nx) l.
Proof.
  unfold step_door, learn_flag, one_in_, randint0, when_, bind, gets, ret,
    modify.
  cbn [fst snd].
  repeat match goal with
         | |- context [invoke ?c ?w0] =>
             let T := fresh "T" in
             let E := fresh "E" in
             pose proof (tr_invoke _ c w0) as T;
             destruct (invoke c w0) as [? ?] eqn:E; clear E;
             cbn [fst snd g tr] in *
         | |- context [if ?b then _ else _] =>
             destruct b eqn:?; cbn [fst snd g tr] in *
         end.
  all: split; [reflexivity|].
  all: repeat match goal with T : tr _ = _ |- _ => rewrite T; clear T end.
  all: repeat rewrite <- app_assoc.
  all: eexists; split; [first [reflexivity | symmetry; apply app_nil_r]|].
  all: repeat (constructor; [cbn; auto|]); try constructor.
Qed.

End DoorFacts.

(** * The model at work in the small dungeon *)

Section DemoFacts.
#[local] Existing Instance demo_constants.
#[local] Existing Instance demo_hidden.
#[local] Existing Instance demo_services.

Lemma cave_demo_move k y x gm : cave (demo_move k y x gm) = cave gm.
Proof. unfold demo_move. destruct (k >? 0), (k <? 0); reflexivity. Qed.

Lemma p_ptr_demo_move k y x gm :
  p_ptr (demo_move k y x gm)
  = if k <? 0 then set_player_pos y x (p_ptr gm) else p_ptr gm.
Proof.
  unfold demo_move.
  destruct (Z.gtb_spec k 0), (Z.ltb_spec k 0); try reflexivity; lia.
Qed.

Lemma mons_demo_move k y x gm :
  mons (demo_move k y x gm)
  = if k >? 0 then alter (set_pos y x) (Z.to_nat k) (mons gm) else mons gm.
Proof. unfold demo_move. destruct (k >? 0), (k <? 0); reflexivity. Qed.

(** Where a monster of the list stands after some of them were moved. *)
Lemma lookup_moved (l : list monster) (b : bool) k y x i m :
  (if b then alter (set_pos y x) k l else l) !! i = Some m ->
  exists m0, l !! i = Some m0 /\ race m = race m0
    /\ ((b = true /\ k = i /\ fy m = y /\ fx m = x)
        \/ ((b = false \/ k <> i) /\ fy m = fy m0 /\ fx m = fx m0)).
Proof.
  destruct b.
  - rewrite list_lookup_alter. destruct (decide (k = i)) as [->|Hne].
    + destruct (l !! i) as [m0|]; [|discriminate]. cbn. intros [= <-].
      exists m0. split; [reflexivity|]. split; [reflexivity|].
      left. repeat split; reflexivity.
    + intros Hi. exists m. split; [exact Hi|]. split; [reflexivity|].
      right. repeat split; try reflexivity. now right.
  - intros Hi. exists m. split; [exact Hi|]. split; [reflexivity|].
    right. repeat split; try reflexivity. now left.
Qed.

Lemma demo_swap_consistent y1 x1 y2 x2 gm :
  0 <= m_idx (cave gm) y2 x2 -> cave_consistent gm ->
  cave_consistent (demo_monster_swap y1 x1 y2 x2 gm).
Proof.
  intros H2 [Hp Hm]. unfold demo_monster_swap, cave_consistent.
  set (m1 := m_idx (cave gm) y1 x1) in *.
  set (m2 := m_idx (cave gm) y2 x2) in *.
  cbv zeta.
  set (gm0 := upd_cave (set_m_idx y2 x2 m1) (upd_cave (set_m_idx y1 x1 m2) gm)).
  rewrite !cave_demo_move, !p_ptr_demo_move, !mons_demo_move.
  assert (Hgrid : forall y x, m_idx (cave gm0) y x
            = if (y =? y2) && (x =? x2) then m1
              else if (y =? y1) && (x =? x1) then m2
              else m_idx (cave gm) y x) by reflexivity.
  change (p_ptr gm0) with (p_ptr gm). change (mons gm0) with (mons gm).
  destruct (Z.ltb_spec m2 0) as [|_]; [lia|].
  split.
  - rewrite Hgrid. destruct (Z.ltb_spec m1 0) as [Hneg|Hpos]; cbn [set_player_pos py px].
    + rewrite !Z.eqb_refl. exact Hneg.
    + destruct (Z.eqb_spec (py (p_ptr gm)) y2) as [Ey|];
        destruct (Z.eqb_spec (px (p_ptr gm)) x2) as [Ex|]; cbn [andb];
        try (rewrite Ey, Ex in Hp; fold m2 in Hp; lia);
        destruct (Z.eqb_spec (py (p_ptr gm)) y1) as [Ey1|];
        destruct (Z.eqb_spec (px (p_ptr gm)) x1) as [Ex1|]; cbn [andb];
        try exact Hp; rewrite Ey1, Ex1 in Hp; fold m1 in Hp; lia.
  - intros i m Hi Hlive.
    apply lookup_moved in Hi. destruct Hi as (ma & Hi & Hra & Hposa).
    apply lookup_moved in Hi. destruct Hi as (mb & Hi & Hrb & Hposb).
    assert (Hlive0 : race mb <> None) by congruence.
    destruct (Hm i mb Hi Hlive0) as [Hi0 Hold]. split; [exact Hi0|].
    rewrite Hgrid.
    destruct Hposa as [(E2 & Ek2 & Hy & Hx)|(N2 & Hy & Hx)]; rewrite Hy, Hx.
    + (* the second occupant, now at the first grid *)
      apply Z.gtb_lt in E2.
      destruct ((y1 =? y2) && (x1 =? x2)) eqn:Esame.
      * apply andb_true_iff in Esame. destruct Esame as [Ey Ex].
        apply Z.eqb_eq in Ey, Ex. subst m1 m2. rewrite Ey, Ex. lia.
      * rewrite !Z.eqb_refl. cbn [andb]. lia.
    + destruct Hposb as [(E1 & Ek1 & Hyb & Hxb)|(N1 & Hyb & Hxb)];
        rewrite Hyb, Hxb.
      * (* the first occupant, now at the second grid *)
        apply Z.gtb_lt in E1. rewrite !Z.eqb_refl. cbn [andb]. lia.
      * (* nobody moved this one *)
        destruct ((fy mb =? y2) && (fx mb =? x2)) eqn:Eat2.
        { apply andb_true_iff in Eat2. destruct Eat2 as [Ey Ex].
          apply Z.eqb_eq in Ey, Ex. rewrite Ey, Ex in Hold. fold m2 in Hold.
          destruct N2 as [N2|N2]; [rewrite Z.gtb_ltb in N2; apply Z.ltb_ge in N2|]; lia. }
        destruct ((fy mb =? y1) && (fx mb =? x1)) eqn:Eat1; [|exact Hold].
        apply andb_true_iff in Eat1. destruct Eat1 as [Ey Ex].
        apply Z.eqb_eq in Ey, Ex. rewrite Ey, Ex in Hold. fold m1 in Hold.
        destruct N1 as [N1|N1]; [rewrite Z.gtb_ltb in N1; apply Z.ltb_ge in N1|]; lia.
Qed.

Lemma demo_delete_consistent y x gm :
  cave_consistent gm -> cave_consistent (demo_delete_monster y x gm).
Proof.
  intros [Hp Hm]. unfold demo_delete_monster.
  destruct (Z.gtb_spec (m_idx (cave gm) y x) 0) as [Hk|_]; [|now split].
  split.
  - cbn. destruct ((py (p_ptr gm) =? y) && (px (p_ptr gm) =? x)) eqn:E;
      [|exact Hp].
    apply andb_true_iff in E. destruct E as [Ey Ex].
    apply Z.eqb_eq in Ey, Ex. rewrite Ey, Ex in Hp. lia.
  - intros i m Hi Hlive. cbn in Hi. rewrite list_lookup_alter in Hi.
    destruct (decide (Z.to_nat (m_idx (cave gm) y x) = i)) as [e|Hne].
    + rewrite e in Hi. destruct (mons gm !! i); [|discriminate].
      cbn in Hi. injection Hi as <-. cbn in Hlive. congruence.
    + destruct (Hm i m Hi Hlive) as [Hi0 Hold]. split; [exact Hi0|].
      cbn. destruct ((fy m =? y) && (fx m =? x)) eqn:E; [|exact Hold].
      apply andb_true_iff in E. destruct E as [Ey Ex].
      apply Z.eqb_eq in Ey, Ex. rewrite Ey, Ex in Hold. lia.
Qed.

(** The services of the small dungeon keep the occupancy grid consistent. *)
Lemma demo_fair : fair_services.
Proof.
  split.
  - intros R c gm Hfree Hc.
    destruct c; try exact Hc.
    + now apply demo_delete_consistent.
    + now apply demo_swap_consistent.
  - intros i gm y x H. exact H.
  - intros s gm y x H. exact H.
  - intros y' x' gm y x H. cbn. unfold demo_delete_monster.
    destruct (m_idx (cave gm) y' x' >? 0); [|exact H].
    cbn. destruct ((y =? y') && (x =? x')); [lia|exact H].
Qed.

Lemma demo_purse : purse_services.
Proof.
  split.
  - intros n gm. reflexivity.
  - intros s gm. reflexivity.
  - intros i o gm. reflexivity.
  - intros n gm Hn. cbn. unfold next_draw.
    destruct (rest gm) as [|r tape]; [lia|].
    destruct (Z.ltb_spec 0 n); [|lia]. apply Z.mod_pos_bound. lia.
Qed.

Lemma demo_keep_hp i : services_keep (hp_bounded i).
Proof.
  intros R c gm H. destruct c; try exact H.
  - (* delete_monster *)
    cbn. unfold demo_delete_monster.
    destruct (m_idx (cave gm) y x >? 0); [|exact H].
    unfold hp_bounded in *. change (mon (upd_cave ?f ?gm0) i) with (mon gm0 i).
    rewrite mon_upd_mon. destruct (decide _); [|exact H].
    unfold mon in H. destruct (mons gm !! Z.to_nat i); cbn in *; [exact H|lia].
  - (* monster_swap *)
    cbn. unfold demo_monster_swap, hp_bounded in *. cbv zeta.
    assert (Hmove : forall k y x gm0,
              hp (mon gm0 i) <= maxhp (mon gm0 i) ->
              hp (mon (demo_move k y x gm0) i)
              <= maxhp (mon (demo_move k y x gm0) i)).
    { intros k y x gm0 H0. unfold demo_move.
      destruct (k >? 0); [|destruct (k <? 0); exact H0].
      rewrite mon_upd_mon. destruct (decide _); [|exact H0].
      unfold mon in H0. destruct (mons gm0 !! Z.to_nat i); cbn in *;
        [exact H0|lia]. }
    apply Hmove, Hmove. exact H.
Qed.

Lemma demo_keep_charges : services_keep charges_ok.
Proof.
  intros R c gm H. destruct c; try exact H.
  - cbn. unfold demo_delete_monster.
    destruct (m_idx (cave gm) y x >? 0); exact H.
  - cbn. unfold demo_monster_swap, charges_ok in *. cbv zeta.
    rewrite !p_ptr_demo_move.
    destruct (_ <? 0), (_ <? 0); exact H.
Qed.

(** The distance of the small dungeon reproduces the nine rings of the
    tables: an offset is listed for [n] exactly when its distance from
    the centre is [n]. *)
Lemma demo_distance_rings :
  forallb
    (fun n =>
       forallb (fun o => demo_distance 0 0 (fst o) (snd o) =? Z.of_nat n)
         (ring n)
       && forallb
            (fun o =>
               implb (demo_distance 0 0 (fst o) (snd o) =? Z.of_nat n)
                 (existsb (fun o' => (fst o' =? fst o) && (snd o' =? snd o))
                    (ring n)))
            (flat_map (fun y => map (fun x => (y, x)) (seqZ (-9) 19))
               (seqZ (-9) 19)))
    (seq 1 9) = true.
Proof. vm_compute. reflexivity. Qed.

(** ** Runs *)

(** The flight test agrees with the specification's comparison for the
    orc seen from ten grids away. *)
Lemma mon_will_run_in_range_witness :
  flee_in_range demo_player far_orc
  /\ mon_will_run demo_player far_orc = spec_will_run demo_player far_orc.
Proof.
  assert (Hr : flee_in_range demo_player far_orc)
    by (split; vm_compute; repeat split; (reflexivity || discriminate)).
  split; [exact Hr|].
  apply mon_will_run_in_range; [cbn; lia|cbn; lia|exact Hr].
Defined.

(** A veteran of level 50 with 2500 hit points facing a level-29 dragon
    with 30000: the second cross product passes [2^32] and wraps, so the
    dragon runs although the comparison of the true products says no.
    And an orc whose FEAR timer reads -1 runs, though the timer is not
    positive and the comparison says no. *)
Lemma mon_will_run_wraps :
  ((0 < chp veteran <= mhp veteran)
   /\ (0 < hp dragon <= maxhp dragon)
   /\ mon_will_run veteran dragon = true
   /\ spec_will_run veteran dragon = false)
  /\ ((0 < chp demo_player <= mhp demo_player)
      /\ (0 < hp far_orc <= maxhp far_orc)
      /\ mon_will_run demo_player (with_fear (-1) far_orc) = true
      /\ spec_will_run demo_player (with_fear (-1) far_orc) = false).
Proof. repeat split; try (cbn; lia); vm_compute; reflexivity. Qed.

(** The orc in front of the glyph at (10, 12): on the draw 100 the glyph
    holds and the move is blocked. *)
Lemma glyph_blocks_or_breaks_witness :
  do_move moving = true
  /\ square_iswarded (g (demo_world [99])) 10 12 = true
  /\ step_glyph 1 10 12 moving (demo_world [99])
     = (set_do_move false moving, snd (randint1 BREAK_GLYPH (demo_world [99]))).
Proof.
  split; [reflexivity|]. split; [reflexivity|].
  apply (glyph_blocks_or_breaks 1 10 12 moving (demo_world [99]));
    reflexivity.
Defined.

(** With [BREAK_GLYPH] 550, a monster of level 30 breaks the glyph on 29
    of the 550 draws, not on 30: the draw 30 itself leaves the glyph in
    place. *)
Lemma glyph_breaks_below_level :
  BREAK_GLYPH = 550
  /\ favourable BREAK_GLYPH (fun r0 => ward_breaks (r0 + 1) 30) = 29
  /\ ward_breaks 30 30 = false.
Proof. repeat split; vm_compute; reflexivity. Qed.

(** A breeder with four of its eight neighbours occupied.  The claim
    gives it an attempt on one draw in [4 * MON_MULT_ADJ = 32]; no draw
    of the 32 leads to one, and no draw is even made.  (The worm mass
    of the first room, without neighbours, does attempt on the draw
    0.) *)
Lemma multiply_never_when_crowded :
  spec_neighbours (g (packed_world [])) 5 5 = 4
  /\ fy (mon (g (packed_world [])) 2) = 5
  /\ fx (mon (g (packed_world [])) 2) = 5
  /\ rf_has (mon (g (packed_world [])) 2) RF_MULTIPLY = true
  /\ num_repro (g (packed_world [])) < MAX_REPRO
  /\ favourable (4 * MON_MULT_ADJ)
       (fun r =>
          fst (multiply_attempt (count_adjacent (g (packed_world [r])) 5 5)
                 (packed_world [r]))) = 0
  /\ new_calls (process_multiply 2 2 5 5) (packed_world [0]) = []
  /\ fst (multiply_attempt (count_adjacent (g (demo_world [0])) 5 5)
            (demo_world [0])) = true.
Proof. repeat split; vm_compute; reflexivity. Qed.

(** The shaman (level 8, not afraid: fail rate 25 - 11/4 = 23) picks its
    bolt, spell 40, and rolls 5: the spell fails, the message is the
    last call and the function returns true. *)
Lemma spell_failure_consumes_cast_witness :
  fst (pick_spell 1 (shaman_world [10; 1; 5])) = Some 40
  /\ 0 <= m_timed
            (mon (g (snd (notice_caster 1
                            (snd (pick_spell 1 (shaman_world [10; 1; 5]))))))
               1) MON_TMD_FEAR
  /\ spell_failrate
       (mon (g (snd (notice_caster 1
                       (snd (pick_spell 1 (shaman_world [10; 1; 5])))))) 1)
     = 23
  /\ fst (make_attack_spell 1 (shaman_world [10; 1; 5])) = true
  /\ new_calls (make_attack_spell 1) (shaman_world [10; 1; 5])
     = [ev (Rand_div 100); ev (Rand_div 2); ev (Rand_div 100);
        ev (msg msg_spell_fails)].
Proof.
  assert (Hpick : fst (pick_spell 1 (shaman_world [10; 1; 5])) = Some 40)
    by (vm_compute; reflexivity).
  assert (Hfear : 0 <= m_timed
            (mon (g (snd (notice_caster 1
                            (snd (pick_spell 1 (shaman_world [10; 1; 5]))))))
               1) MON_TMD_FEAR)
    by (vm_compute; intros E; discriminate E).
  assert (Hs : MIN_NONINNATE_SPELL <= 40)
    by (vm_compute; intros E; discriminate E).
  pose proof (spell_failure_consumes_cast 1 40 (shaman_world [10; 1; 5])
                Hpick Hfear) as (Hrate & _ & _ & Hroll).
  destruct (Hroll Hs) as (_ & Hfail & _).
  assert (Hlt : fst (ext Z (Rand_div 100)
                       (g (snd (notice_caster 1
                                  (snd (pick_spell 1
                                          (shaman_world [10; 1; 5])))))))
                < (if rf_has
                        (mon (g (snd (notice_caster 1
                                        (snd (pick_spell 1
                                                (shaman_world [10; 1; 5]))))))
                           1) RF_STUPID
                   then 0
                   else 25
                        - Z.quot
                            (Z.max
                               (level
                                  (race_of
                                     (mon (g (snd (notice_caster 1
                                                     (snd (pick_spell 1
                                                             (shaman_world
                                                                [10; 1; 5]))))))
                                        1))) 1 + 3) 4
                        + (if 0 <? m_timed
                                     (mon (g (snd (notice_caster 1
                                                     (snd (pick_spell 1
                                                             (shaman_world
                                                                [10; 1; 5]))))))
                                        1) MON_TMD_FEAR
                           then 20 else 0)))
    by (vm_compute; reflexivity).
  destruct (Hfail Hlt) as (Hres & Hcalls).
  split; [exact Hpick|]. split; [exact Hfear|].
  split; [rewrite Hrate; vm_compute; reflexivity|].
  split; [rewrite Hres; reflexivity|].
  rewrite Hcalls. vm_compute. reflexivity.
Defined.

(** A larva of level 0, neither stupid nor afraid: the fail rate is 24,
    where 25 - (level + 3) / 4 is 25.  And the orc with a FEAR timer
    that reads -1: the 20 points are added although the timer is not
    positive. *)
Lemma level_zero_failrate :
  (level (race_of larva) = 0
   /\ rf_has larva RF_STUPID = false
   /\ m_timed larva MON_TMD_FEAR = 0
   /\ spell_failrate larva = 24
   /\ 25 - Z.quot (level (race_of larva) + 3) 4 = 25)
  /\ (level (race_of orc) = 10
      /\ rf_has orc RF_STUPID = false
      /\ spell_failrate (with_fear (-1) orc) = 42
      /\ 25 - Z.quot (level (race_of orc) + 3) 4 = 22).
Proof. repeat split; vm_compute; reflexivity. Qed.

(** A shattering blow that rolled 30 points against armour 100: 23
    points are left after the armour and no earthquake is called. *)
Lemma shatter_without_quake :
  ctx_damage (demo_ctx 30 100) = 30
  /\ adjust_dam_armor 30 100 = 23
  /\ new_calls (melee_effect_handler_shatter (demo_ctx 30 100)) (demo_world [])
     = [ev (take_hit 23)].
Proof. repeat split; vm_compute; reflexivity. Qed.

(** The room paved with glyphs: the only free grid around (5, 5) is the
    corner (7, 7), at Chebyshev distance 2 but on the ring of distance 3
    of the tables, and no summon is possible. *)
Lemma summon_corner_excluded :
  chebyshev 5 5 7 7 = 2
  /\ square_in_bounds warded_game 7 7 = true
  /\ square_iswarded warded_game 7 7 = false
  /\ square_isempty warded_game 7 7 = true
  /\ los warded_game 5 5 7 7 = true
  /\ In (2, 2) (ring 3)
  /\ distance 5 5 7 7 = 3
  /\ summon_possible warded_game 5 5 = false.
Proof.
  repeat split; try (vm_compute; reflexivity).
  vm_compute. tauto.
Qed.

Lemma demo_world_good tape : good (demo_world tape).
Proof.
  split; [|constructor]. split; [cbn; lia|].
  intros i m Hi Hlive.
  destruct i as [|[|[|i]]]; cbn in Hi; try discriminate;
    injection Hi as <-; cbn in Hlive;
    first [congruence | split; [lia|reflexivity]].
Qed.


(** One turn of the room: nobody leaves, the orc (energy 110) is
    processed and the worm mass (energy 50) is not. *)
Lemma process_monsters_schedule_witness :
  (forall k, (1 <= k <= 2)%nat ->
     leaving (p_ptr (g (reach 2 k 100 (demo_world [60; 50])))) = false)
  /\ process_monsters 100 (demo_world [60; 50])
     = run_visits 100 (downto 2 0) (demo_world [60; 50])
  /\ fst (process_monsters 100 (demo_world [60; 50])) = [1]
  /\ energy (mon (g (demo_world [60; 50])) 1) = 110
  /\ energy (mon (g (snd (process_monsters 100 (demo_world [60; 50])))) 1)
     = 10
  /\ energy (mon (g (demo_world [60; 50])) 2) = 50
  /\ energy (mon (g (snd (process_monsters 100 (demo_world [60; 50])))) 2)
     = 50.
Proof.
  assert (H : forall k, (1 <= k <= 2)%nat ->
            leaving (p_ptr (g (reach 2 k 100 (demo_world [60; 50])))) = false).
  { intros k Hk. assert (Hk' : k = 1%nat \/ k = 2%nat) by lia.
    destruct Hk' as [->| ->]; vm_compute; reflexivity. }
  split; [exact H|].
  split;
    [exact (proj1 (process_monsters_schedule 100 (demo_world [60; 50]) H))|].
  repeat split; vm_compute; reflexivity.
Defined.

(** The orc robs the player, whose saving throw (the draw 99) fails:
    the thief is marked to blink and is handed the gold.  In its whole
    attack of that turn (a blow that hurts, then the theft) it is handed
    125 coins and ends by teleporting away. *)
Lemma gold_theft_accounting_witness :
  fst (theft_save (snd (invoke (take_hit 5) (demo_world [99; 4])))) = false
  /\ 0 < au (p_ptr (g (snd (theft_save
                             (snd (invoke (take_hit 5) (demo_world [99; 4])))))))
  /\ ctx_blinked
       (fst (melee_effect_handler_eat_gold (demo_ctx 5 10) (demo_world [99; 4])))
     = true
  /\ Exists (fun e => is_carry e = true)
       (new_calls (melee_effect_handler_eat_gold (demo_ctx 5 10))
          (demo_world [99; 4]))
  /\ In (ev (monster_carry 1 (stolen_gold 125)))
       (new_calls (make_attack_normal 1)
          (demo_world [99; 99; 99; 99; 99; 99]))
  /\ exists l,
       new_calls (make_attack_normal 1) (demo_world [99; 99; 99; 99; 99; 99])
       = l ++ [ev (msg "There is a puff of smoke!");
               ev (teleport_away 1 (MAX_SIGHT * 2 + 5))].
Proof.
  assert (Hsave : fst (theft_save (snd (invoke (take_hit 5)
                                          (demo_world [99; 4])))) = false)
    by (vm_compute; reflexivity).
  assert (Hpurse : 0 < au (p_ptr (g (snd (theft_save
                      (snd (invoke (take_hit 5) (demo_world [99; 4])))))))).
  { vm_compute. reflexivity. }
  assert (Hmax : 0 < MAX_PVAL) by reflexivity.
  assert (Hin : In (ev (monster_carry 1 (stolen_gold 125)))
                  (new_calls (make_attack_normal 1)
                     (demo_world [99; 99; 99; 99; 99; 99]))).
  { vm_compute. do 18 right. left. reflexivity. }
  pose proof (gold_theft_accounting (demo_ctx 5 10) (demo_world [99; 4])
                demo_purse Hmax Hsave Hpurse)
    as (_ & _ & _ & Hblink & _ & _ & Hcarry & _ & Hend).
  split; [exact Hsave|]. split; [exact Hpurse|]. split; [exact Hblink|].
  split; [exact Hcarry|]. split; [exact Hin|].
  apply Hend. apply Exists_exists.
  exists (ev (monster_carry 1 (stolen_gold 125))).
  split; [apply list_elem_of_In; exact Hin|reflexivity].
Defined.

(** The orc drains the wand of the pack: its hit points stay within
    the maximum and no charge count turns negative. *)
Lemma drain_charges_keeps_bounds_witness :
  hp_bounded 1 (g (demo_world [0; 4]))
  /\ hp_bounded 1
       (g (snd (melee_effect_handler_drain_charges (demo_ctx 5 10)
                  (demo_world [0; 4]))))
  /\ charges_ok
       (g (snd (melee_effect_handler_drain_charges (demo_ctx 5 10)
                  (demo_world [0; 4])))).
Proof.
  assert (Hhp : hp_bounded 1 (g (demo_world [0; 4])))
    by (vm_compute; intros E; discriminate E).
  assert (Hch : charges_ok (g (demo_world [0; 4]))).
  { intros o [<-|[]] _. vm_compute. intros E; discriminate E. }
  destruct (drain_charges_keeps_bounds (demo_ctx 5 10) (demo_world [0; 4])
              (demo_keep_hp 1) demo_keep_charges) as (H1 & H2 & _).
  split; [exact Hhp|]. split; [exact (H1 Hhp)|exact (H2 Hch)].
Defined.

End DemoFacts.

Section FertileFacts.
#[local] Existing Instance demo_constants.
#[local] Existing Instance demo_hidden.
#[local] Existing Instance fertile_services.

(** The worm mass alone at (5, 5), in a dungeon where breeding succeeds:
    on the draw 0 it attempts to multiply and breeds, and its pass is
    the draw, the birth and the sound, nothing else. *)
Lemma multiply_when_uncrowded_witness :
  num_repro (g (demo_world [0])) < MAX_REPRO
  /\ 0 < MON_MULT_ADJ
  /\ spec_neighbours (g (demo_world [0])) 5 5 = 0
  /\ fst (process_multiply 2 2 5 5 (demo_world [0])) = true
  /\ process_awake 2 2 (demo_world [0])
     = (tt, snd (process_multiply 2 2 5 5 (demo_world [0])))
  /\ new_calls (process_awake 2 2) (demo_world [0])
     = [ev (Rand_div 8); ev (multiply_monster 2); ev (sound "MSG_MULTIPLY")].
Proof.
  assert (Hrepro : num_repro (g (demo_world [0])) < MAX_REPRO) by reflexivity.
  assert (Hadj : 0 < MON_MULT_ADJ) by reflexivity.
  pose proof (multiply_when_uncrowded 2 2 (demo_world [0]) Hrepro Hadj)
    as (_ & _ & _ & _ & _ & _ & Hturn & _).
  destruct Hturn as (Hbred & Hawake & Hcalls);
    [vm_compute; reflexivity..|].
  split; [exact Hrepro|]. split; [exact Hadj|].
  split; [vm_compute; reflexivity|]. split; [exact Hbred|].
  split; [exact Hawake|].
  rewrite Hcalls. vm_compute. reflexivity.
Defined.

End FertileFacts.

(** * The movement and the invariants at work in the small dungeon *)

Section DemoFacts2.
#[local] Existing Instance demo_constants.
#[local] Existing Instance demo_hidden.
#[local] Existing Instance demo_services.
#[local] Existing Instance demo_moves.

Lemma races_demo_move k y x gm : same_races gm (demo_move k y x gm).
Proof.
  unfold demo_move. destruct (k >? 0).
  - apply races_upd_mon. intros m. reflexivity.
  - destruct (k <? 0); intros j; reflexivity.
Qed.

(** But for [delete_monster], no service of the small dungeon changes
    the race of a monster. *)
Lemma demo_same_races R (c : call R) gm :
  is_delete (ev c) = false -> same_races gm (snd (ext R c gm)).
Proof.
  intros Hc. destruct c; try discriminate Hc; try (intros j; reflexivity).
  intros j. cbn [ext demo_services snd demo_effect]. unfold demo_monster_swap.
  cbv zeta. rewrite races_demo_move, races_demo_move. reflexivity.
Qed.

Lemma demo_keeps_unless (bad : event -> bool) (Inv : game -> Prop) :
  (forall e, is_delete e = true -> bad e = true) ->
  (forall gm gm', same_races gm gm' -> Inv gm -> Inv gm') ->
  services_keep_unless bad Inv.
Proof.
  intros Hbad Hraces R c gm Hc Hgm.
  apply (Hraces gm); [|exact Hgm]. apply demo_same_races.
  destruct (is_delete (ev c)) eqn:E; [|reflexivity].
  rewrite (Hbad _ E) in Hc. discriminate Hc.
Qed.

(** No service of the small dungeon touches the pack. *)
Lemma demo_keep_light :
  services_keep (fun gm => 0 < timeout (inven (p_ptr gm) INVEN_LIGHT)).
Proof.
  intros R c gm Hgm. destruct c; try exact Hgm.
  - cbn [ext demo_services snd demo_effect]. unfold demo_delete_monster.
    destruct (m_idx (cave gm) y x >? 0); exact Hgm.
  - cbn [ext demo_services snd demo_effect]. unfold demo_monster_swap.
    cbv zeta. rewrite !p_ptr_demo_move.
    destruct (m_idx (cave gm) y2 x2 <? 0), (m_idx (cave gm) y1 x1 <? 0);
      exact Hgm.
Qed.

(** With the target three rows below and two columns to the right, the
    monster tries 3, then 2 and 6; its last two choices, 1 and 9, are
    opposite. *)
Lemma choose_dirs_approach_witness :
  (-3 <> 0 \/ -2 <> 0)
  /\ choose_dirs (-3) (-2) = [3; 2; 6; 1; 9]
  /\ exists d0 d1 d2 d3 d4,
       choose_dirs (-3) (-2) = [d0; d1; d2; d3; d4]
       /\ 0 < towards (-3) (-2) d0
       /\ d4 = 10 - d3.
Proof.
  assert (Hne : -3 <> 0 \/ -2 <> 0) by (left; discriminate).
  split; [exact Hne|]. split; [vm_compute; reflexivity|].
  destruct (choose_dirs_approach (-3) (-2) Hne)
    as (d0 & d1 & d2 & d3 & d4 & Heq & _ & _ & Hpos & _ & _ & _ & Hopp & _).
  exists d0, d1, d2, d3, d4.
  split; [exact Heq|]. split; [exact Hpos|exact Hopp].
Defined.

(** The orc next to the player goes straight for the player. *)
Lemma get_moves_charges_witness :
  rf_has (mon (g (demo_world [])) 1) RF_GROUP_AI = false
  /\ mon_will_run (p_ptr (g (demo_world []))) (mon (g (demo_world [])) 1) = false
  /\ in_view (g (demo_world [])) (mon (g (demo_world [])) 1) = true
  /\ get_moves_mm 1 (demo_world []) = (Some (choose_dirs 0 1), demo_world []).
Proof.
  assert (Hpack : rf_has (mon (g (demo_world [])) 1) RF_GROUP_AI = false)
    by (vm_compute; reflexivity).
  assert (Hrun : mon_will_run (p_ptr (g (demo_world [])))
                   (mon (g (demo_world [])) 1) = false)
    by (vm_compute; reflexivity).
  assert (Hsee : in_view (g (demo_world [])) (mon (g (demo_world [])) 1) = true)
    by (vm_compute; reflexivity).
  split; [exact Hpack|]. split; [exact Hrun|]. split; [exact Hsee|].
  exact (get_moves_charges (demo_world []) 1 Hpack Hrun Hsee).
Defined.

(** The frightened orc, for which the lit room has no safe place, runs
    away from the player. *)
Lemma get_moves_panics_witness :
  mon_will_run (p_ptr (g scared_world)) (mon (g scared_world) 1) = true
  /\ fst (find_safety (g scared_world) (mon (g scared_world) 1) 0 1) = false
  /\ get_moves_mm 1 scared_world = (Some (choose_dirs 0 (-1)), scared_world).
Proof.
  assert (Hsafe : fst (find_safety (g scared_world) (mon (g scared_world) 1)
                         (fy (mon (g scared_world) 1) - py (p_ptr (g scared_world)))
                         (fx (mon (g scared_world) 1) - px (p_ptr (g scared_world))))
                  = false) by (vm_compute; reflexivity).
  assert (Hpack : rf_has (mon (g scared_world) 1) RF_GROUP_AI = false)
    by (vm_compute; reflexivity).
  assert (Hrun : mon_will_run (p_ptr (g scared_world))
                   (mon (g scared_world) 1) = true)
    by (vm_compute; reflexivity).
  assert (Hsee : in_view (g scared_world) (mon (g scared_world) 1) = true)
    by (vm_compute; reflexivity).
  split; [exact Hrun|]. split; [exact Hsafe|].
  exact (get_moves_panics scared_world 1 Hpack Hrun Hsee Hsafe).
Defined.

(** The wolf, four grids away from a healthy player in the open, heads
    for an empty grid next to the player. *)
Lemma get_moves_surrounds_witness :
  rf_has (mon (g (pack_world [3])) 1) RF_GROUP_AI = true
  /\ 7 <= open_around (g (pack_world [3])) 10 10
  /\ exists j, 0 <= j <= 7
       /\ square_isempty (snd (ext Z (Rand_div 8) (g (pack_world [3]))))
            (10 + ddy_ddd j) (10 + ddx_ddd j) = true.
Proof.
  assert (Hopen : 7 <= open_around (g (pack_world [3])) 10 10)
    by (vm_compute; intros E; discriminate E).
  assert (Hpack : rf_has (mon (g (pack_world [3])) 1) RF_GROUP_AI = true)
    by (vm_compute; reflexivity).
  assert (Hrun : mon_will_run (p_ptr (g (pack_world [3])))
                   (mon (g (pack_world [3])) 1) = false)
    by (vm_compute; reflexivity).
  assert (Hsee : in_view (g (pack_world [3])) (mon (g (pack_world [3])) 1) = true)
    by (vm_compute; reflexivity).
  assert (Hfar : 1 < cdis (mon (g (pack_world [3])) 1))
    by (vm_compute; reflexivity).
  split; [exact Hpack|]. split; [exact Hopen|].
  destruct (get_moves_surrounds (pack_world [3]) 1 Hpack Hrun Hsee
              (or_intror (or_introl Hopen)) Hfar)
    as (j & Hj & _ & Hfill).
  exists j. split; [exact Hj|]. apply Hfill.
  exists 0. split; [lia|]. vm_compute. reflexivity.
Defined.

(** A fleeing orc with the scent around it steps to the neighbour with
    the best score. *)
Lemma get_fear_moves_aux_best_witness :
  cost (cave scent_game) 10 14 <= MONSTER_FLOW_DEPTH
  /\ exists k, 0 <= k <= 7
       /\ get_fear_moves_aux scent_game lost_orc 0 (-3)
          = (true, (- ddy_ddd k, - ddx_ddd k)).
Proof.
  split; [vm_compute; intros E; discriminate E|].
  destruct (get_fear_moves_aux_best scent_game lost_orc 0 (-3) 5 3)
    as (k & Hk & _ & Heq & _).
  - vm_compute. intros E. discriminate E.
  - vm_compute. intros E. discriminate E.
  - vm_compute. intros E. discriminate E.
  - lia.
  - intros k Hk.
    assert (Hc : k = 0 \/ k = 1 \/ k = 2 \/ k = 3 \/ k = 4 \/ k = 5 \/ k = 6
                 \/ k = 7) by lia.
    destruct Hc as [->|[->|[->|[->|[->|[->|[->| ->]]]]]]];
      vm_compute; auto.
  - lia.
  - vm_compute. reflexivity.
  - exists k. split; [exact Hk|exact Heq].
Defined.

(** A whole turn of the room leaves the player's grid to the player. *)
Lemma process_monsters_spares_player_witness :
  good (demo_world [60; 50])
  /\ no_monster_on_player (g (snd (process_monsters 100 (demo_world [60; 50])))).
Proof.
  split; [apply demo_world_good|].
  exact (proj2 (process_monsters_spares_player 100 (demo_world [60; 50])
                  demo_fair (demo_world_good [60; 50]))).
Defined.

(** The mold next to the player attacks, and takes no step. *)
Lemma never_move_takes_no_step_witness :
  rf_has (mon (g (mold_world [60; 50])) 1) RF_NEVER_MOVE = true
  /\ Forall (fun e => is_swap e = false /\ is_delete e = false)
       (new_calls (process_monster 1) (mold_world [60; 50])).
Proof.
  assert (Hflag : rf_has (mon (g (mold_world [60; 50])) 1) RF_NEVER_MOVE = true)
    by (vm_compute; reflexivity).
  split; [exact Hflag|].
  refine (proj1 (never_move_takes_no_step 1 (mold_world [60; 50]) _ Hflag)).
  apply demo_keeps_unless.
  - intros e He. rewrite He. apply orb_true_r.
  - intros gm gm' Hr Hgm. rewrite <- Hgm. now apply same_races_flag.
Defined.

(** The worm mass, whose only blow poisons, does not blink away. *)
Lemma only_thieves_blink_witness :
  (forall ap, honest_blow (blow_at (mon (g (demo_world [60; 50])) 2) ap))
  /\ Forall (fun e => is_teleport e = false /\ is_delete e = false)
       (new_calls (make_attack_normal 2) (demo_world [60; 50])).
Proof.
  assert (Hh : forall ap,
            honest_blow (blow_at (mon (g (demo_world [60; 50])) 2) ap)).
  { intros ap. unfold blow_at. cbn.
    destruct (Z.to_nat ap) as [|[|n]]; cbn; split; discriminate. }
  split; [exact Hh|].
  refine (proj1 (only_thieves_blink 2 (demo_world [60; 50]) _ Hh)).
  apply demo_keeps_unless.
  - intros e He. rewrite He. apply orb_true_r.
  - intros gm gm' Hr Hgm ap. rewrite (same_races_blow gm gm' 2 ap Hr).
    apply Hgm.
Defined.

(** The shaman casts the bolt of its race: the call of [do_mon_spell] is
    for spell 40, which the race has, and for the shaman itself. *)
Lemma casts_only_own_spells_witness :
  race_of (mon (g (shaman_world [10; 1; 50])) 1) = shaman_race
  /\ spell_flags shaman_race 40 = true
  /\ new_calls (make_attack_spell 1) (shaman_world [10; 1; 50])
     = [ev (Rand_div 100); ev (Rand_div 2); ev (Rand_div 100);
        ev (disturb 1); ev (do_mon_spell 40 1 true)]
  /\ Forall (fun e => foreign_cast shaman_race 1 e = false
                      /\ is_delete e = false)
       (new_calls (make_attack_spell 1) (shaman_world [10; 1; 50])).
Proof.
  assert (Hrace : race_of (mon (g (shaman_world [10; 1; 50])) 1) = shaman_race)
    by reflexivity.
  split; [exact Hrace|]. split; [reflexivity|].
  split; [vm_compute; reflexivity|].
  refine (proj1 (casts_only_own_spells 1 shaman_race (shaman_world [10; 1; 50])
                   _ _ Hrace)).
  - intros f l r s H. exact H.
  - apply demo_keeps_unless.
    + intros e He. rewrite He. apply orb_true_r.
    + intros gm gm' Hr Hgm. unfold race_of. rewrite (Hr 1). exact Hgm.
Defined.

(** Armour 50 and armour 100 against a blow of 30 points. *)
Lemma adjust_dam_armor_bounds_witness :
  0 <= 30 /\ 0 <= 50 <= 100
  /\ adjust_dam_armor 30 100 <= adjust_dam_armor 30 50 <= 30.
Proof.
  assert (H0 : 0 <= 30) by discriminate.
  assert (H1 : 0 <= 50 <= 100) by (split; discriminate).
  split; [exact H0|]. split; [exact H1|].
  exact (proj1 (adjust_dam_armor_bounds 30 50 100 H0 H1)).
Defined.

(** The orc cannot step east into the permanent rock. *)
Lemma try_step_permanent_wall_witness :
  square_isperm (g walled_world) 10 12 = true
  /\ try_step 1 1 10 11 10 12
       {| do_turn := false; do_move := false; do_view := false |} walled_world
     = ({| do_turn := false; do_move := false; do_view := false |},
        walled_world).
Proof.
  assert (Hpass : square_ispassable (g walled_world) 10 12 = false)
    by (vm_compute; reflexivity).
  assert (Hwall : square_iswall (g walled_world) 10 12 = true)
    by (vm_compute; reflexivity).
  assert (Hperm : square_isperm (g walled_world) 10 12 = true)
    by (vm_compute; reflexivity).
  split; [exact Hperm|].
  exact (try_step_permanent_wall 1 1 10 11 10 12
           {| do_turn := false; do_move := false; do_view := false |}
           walled_world Hpass Hwall Hperm eq_refl).
Defined.

(** The torch survives the light eater. *)
Lemma eat_light_never_dark_witness :
  0 < timeout (inven (p_ptr (g (lit_world [249]))) INVEN_LIGHT)
  /\ 0 < timeout (inven (p_ptr (g (snd (melee_effect_handler_eat_light
                                          (demo_ctx 5 10) (lit_world [249])))))
                    INVEN_LIGHT).
Proof.
  assert (Hlit : 0 < timeout (inven (p_ptr (g (lit_world [249]))) INVEN_LIGHT))
    by (vm_compute; reflexivity).
  split; [exact Hlit|].
  exact (eat_light_never_dark (demo_ctx 5 10) (lit_world [249])
           demo_keep_light Hlit).
Defined.

(** A blow of 5 points out of 8 possible neither cuts nor stuns. *)
Lemma cut_and_stun_needs_critical_witness :
  5 < Z.quot (d_dice (hit_blow RBE_HURT) * d_side (hit_blow RBE_HURT) * 19) 20
  /\ new_calls (cut_and_stun (hit_blow RBE_HURT) 5) (demo_world [60])
     = [ev (Rand_div 100)].
Proof.
  assert (Hweak : 5 < Z.quot (d_dice (hit_blow RBE_HURT)
                             * d_side (hit_blow RBE_HURT) * 19) 20)
    by (vm_compute; reflexivity).
  split; [exact Hweak|].
  exact (cut_and_stun_needs_critical (hit_blow RBE_HURT) 5 (demo_world [60])
           Hweak).
Defined.

End DemoFacts2.

Section DarkFacts.
#[local] Existing Instance demo_constants.
#[local] Existing Instance demo_hidden.
#[local] Existing Instance dark_services.
#[local] Existing Instance demo_moves.

(** In the dark the orc follows the scent: of the three neighbours at
    cost 3 it takes the one with the lowest index, due west. *)
Lemma get_moves_aux_cheapest_witness :
  goes_through_rock (mon (g scent_world) 1) = false
  /\ player_has_los_bold (g scent_world) 10 14 = false
  /\ get_moves_aux 1 10 10 scent_world = ((true, (10, -6)), scent_world)
  /\ exists k, 0 <= k <= 7
       /\ get_moves_aux 1 10 10 scent_world
          = ((true, (10 + 16 * ddy_ddd k, 10 + 16 * ddx_ddd k)), scent_world).
Proof.
  split; [reflexivity|]. split; [reflexivity|].
  split; [vm_compute; reflexivity|].
  destruct (get_moves_aux_cheapest scent_world 1 10 10 5 3)
    as (k & Hk & _ & Heq & _).
  - reflexivity.
  - left. vm_compute. intros E. discriminate E.
  - vm_compute. intros E. discriminate E.
  - vm_compute. intros E. discriminate E.
  - reflexivity.
  - lia.
  - intros k Hk.
    assert (Hc : k = 0 \/ k = 1 \/ k = 2 \/ k = 3 \/ k = 4 \/ k = 5 \/ k = 6
                 \/ k = 7) by lia.
    destruct Hc as [->|[->|[->|[->|[->|[->|[->| ->]]]]]]];
      vm_compute; auto.
  - lia.
  - vm_compute. reflexivity.
  - vm_compute. intros E. discriminate E.
  - exists k. split; [exact Hk|exact Heq].
Defined.

End DarkFacts.
